(** * hwpx_writer: Pandoc JSON AST to HWPX

    A shallow embedding of [_extensions/hwpx/hwpx_writer.py] and the
    properties its specification states about it.

    Python values are modelled as follows.
    - [str] is a sequence of Unicode code points: [pystr = list Z].
    - [int] is [Z]; [//] is [Z.div] (both round towards minus infinity).
    - [float] is an IEEE 754 double, computed exactly on integers: rounding
      to 53 significant bits, ties to even, and truncation for [int].
    - The Pandoc JSON tree is a pair of inductive types ([inline], [block]);
      a tag without a handler is the constructor [UnknownInline] /
      [UnknownBlock].
    - The module-level paragraph id counter is threaded explicitly through a
      small state monad.
    - [re.sub] and [str.replace] are left-to-right scanners over the code
      points, one hand-written matcher per pattern used by the source.
    - What the source leaves to the Python library and is not modelled here
      is a parameter of the section that uses it: the table of word
      characters of [re], its parser of replacement templates, the UTF-8
      codec and the clock. *)

From Stdlib Require Import String Ascii DecimalString.
From Stdlib Require DecimalZ DecimalPos.
From Stdlib Require Import ZArith List Bool Lia Sorted.
Import ListNotations.
Open Scope Z_scope.

Set Implicit Arguments.
Set Warnings "-register-all".

(* ================================================================== *)
(** * Part I. The embedding                                            *)
(* ================================================================== *)

(** ** Python strings *)

Definition pystr := list Z.

(** Code point of an 8-bit character. *)
Definition ord8 (a : ascii) : Z := Z.of_nat (nat_of_ascii a).

(** A literal of the source.  The templates of the source are full of
    double quotes; here they are written with an apostrophe, which no literal
    of the source contains, and [lit] puts U+0022 back. *)
Definition lit_char (a : ascii) : Z :=
  let c := ord8 a in if c =? 39 then 34 else c.

Definition lit (s : string) : pystr := map lit_char (list_ascii_of_string s).

(** [str(n)] for an [int]. *)
Definition str_of_int (n : Z) : pystr :=
  map ord8 (list_ascii_of_string (NilZero.string_of_int (Z.to_int n))).

Fixpoint pystr_eqb (a b : pystr) : bool :=
  match a, b with
  | [], [] => true
  | x :: a', y :: b' => (x =? y) && pystr_eqb a' b'
  | _, _ => false
  end.

(** [s.startswith(p)] *)
Fixpoint startswith (p s : pystr) : bool :=
  match p, s with
  | [], _ => true
  | x :: p', y :: s' => (x =? y) && startswith p' s'
  | _ :: _, [] => false
  end.

(** [c * n] for a one-character string [c]. *)
Definition str_repeat (c : Z) (n : nat) : pystr := repeat c n.

(** [''.join(parts)] *)
Definition join (parts : list pystr) : pystr := concat parts.

(** The code points Python calls white space ([str.isspace], [\s] of [re] on
    [str] patterns, and the default of [str.strip]). *)
Definition is_space (c : Z) : bool :=
  ((9 <=? c) && (c <=? 13)) || ((28 <=? c) && (c <=? 32))
  || (c =? 133) || (c =? 160) || (c =? 5760)
  || ((8192 <=? c) && (c <=? 8202))
  || (c =? 8232) || (c =? 8233) || (c =? 8239) || (c =? 8287) || (c =? 12288).

(** [[a-zA-Z]] *)
Definition is_ascii_alpha (c : Z) : bool :=
  ((65 <=? c) && (c <=? 90)) || ((97 <=? c) && (c <=? 122)).

(** Longest prefix whose characters satisfy [p], and the rest. *)
Fixpoint span (p : Z -> bool) (s : pystr) : pystr * pystr :=
  match s with
  | [] => ([], [])
  | c :: s' =>
      if p c then let (a, b) := span p s' in (c :: a, b) else ([], s)
  end.

Fixpoint lstrip (p : Z -> bool) (s : pystr) : pystr :=
  match s with
  | [] => []
  | c :: s' => if p c then lstrip p s' else s
  end.

Definition rstrip (p : Z -> bool) (s : pystr) : pystr :=
  rev (lstrip p (rev s)).

(** [s.strip()] and [s.strip(chars)], the set of characters given by [p]. *)
Definition strip (p : Z -> bool) (s : pystr) : pystr := rstrip p (lstrip p s).

(** ** Substitution scanners *)

(** A matcher looks at the text from the current position on and, when its
    pattern matches there, returns the replacement and the number of
    characters the match consumed.  None of the patterns of the source
    matches the empty string or looks behind the current position. *)
Definition matcher := pystr -> option (pystr * nat).

(** [re.sub(pattern, repl, s)]: all non-overlapping matches, leftmost first.
    [skip] counts the characters of the current match still to step over. *)
Fixpoint sub_scan (m : matcher) (s : pystr) (skip : nat) : pystr :=
  match s with
  | [] => []
  | c :: s' =>
      match skip with
      | S k => sub_scan m s' k
      | O =>
          match m s with
          | Some (r, n) => r ++ sub_scan m s' (Nat.pred n)
          | None => c :: sub_scan m s' O
          end
      end
  end.

Definition re_sub (m : matcher) (s : pystr) : pystr := sub_scan m s O.

(** The matcher of a literal, non-empty [old]. *)
Definition m_literal (old new : pystr) : matcher :=
  fun s => if startswith old s then Some (new, length old) else None.

(** [s.replace(old, new)] for a non-empty [old]. *)
Definition str_replace (old new s : pystr) : pystr :=
  re_sub (m_literal old new) s.

(** [s.replace(old, new, 1)] for a non-empty [old]. *)
Fixpoint replace_first (old new s : pystr) {struct s} : pystr :=
  if startswith old s then new ++ skipn (length old) s
  else match s with
       | [] => []
       | c :: s' => c :: replace_first old new s'
       end.

(** [s.index(sub)]: offset of the first occurrence; [None] stands for the
    [ValueError] Python raises when there is none. *)
Fixpoint str_index (sub s : pystr) {struct s} : option nat :=
  if startswith sub s then Some O
  else match s with
       | [] => None
       | _ :: s' => option_map S (str_index sub s')
       end.

(** [s.split(sep)] for a one-character separator. *)
Fixpoint split_on (sep : Z) (s : pystr) : list pystr :=
  match s with
  | [] => [[]]
  | c :: s' =>
      if c =? sep then [] :: split_on sep s'
      else match split_on sep s' with
           | [] => [[c]]
           | w :: ws => (c :: w) :: ws
           end
  end.

(** [xml.sax.saxutils.escape]: ampersand first, then [>], then [<]. *)
Definition xml_escape (data : pystr) : pystr :=
  str_replace (lit "<") (lit "&lt;")
    (str_replace (lit ">") (lit "&gt;")
       (str_replace (lit "&") (lit "&amp;") data)).

(** ** Layout constants *)

Definition PAGE_TEXT_WIDTH : Z := 42520.
Definition CHAR_HEIGHT_NORMAL : Z := 1000.
Definition LINE_SPACING_PCT : Z := 160.

(** [CHAR_HEIGHT_MAP.get(char_pr_id, CHAR_HEIGHT_NORMAL)] *)
Definition char_height_of (char_pr_id : Z) : Z :=
  if char_pr_id =? 0 then 1000
  else if char_pr_id =? 7 then 2200
  else if char_pr_id =? 8 then 1600
  else if char_pr_id =? 9 then 1300
  else if char_pr_id =? 10 then 1000
  else CHAR_HEIGHT_NORMAL.

(** ** Lineseg computation ([compute_lineseg_xml]) *)

(** One [<hp:lineseg .../>] element, attribute by attribute. *)
Record lineseg := mk_lineseg {
  ls_textpos : Z;
  ls_vertpos : Z;
  ls_vertsize : Z;
  ls_textheight : Z;
  ls_baseline : Z;
  ls_spacing : Z;
  ls_horzpos : Z;
  ls_horzsize : Z;
  ls_flags : Z
}.

(** The width one character adds to the running width (source lines
    195-198). *)
Definition char_width (char_height ch : Z) : Z :=
  if 8192 <? ch then char_height else char_height / 2.

(** The loop of source lines 194-202.  [len] is [len(text)] of the whole
    text, [i] the index of the head of [rest]; the result is the final value
    of [line_starts]. *)
Fixpoint scan_line_starts (char_height horzsize len : Z) (rest : pystr)
    (i : Z) (line_starts : list Z) (current_width : Z) : list Z :=
  match rest with
  | [] => line_starts
  | ch :: rest' =>
      let current_width := current_width + char_width char_height ch in
      if (horzsize <? current_width) && (i + 1 <? len)
      then scan_line_starts char_height horzsize len rest' (i + 1)
             (line_starts ++ [i + 1]) 0
      else scan_line_starts char_height horzsize len rest' (i + 1)
             line_starts current_width
  end.

Definition line_starts_of (text : pystr) (char_height horzsize : Z) : list Z :=
  scan_line_starts char_height horzsize (Z.of_nat (length text)) text 0 [0] 0.

(** Source lines 209-216. *)
Definition lineseg_flags (num_lines idx : Z) : Z :=
  if num_lines =? 1 then 393216
  else if idx =? 0 then 131072
  else if idx =? num_lines - 1 then 262144
  else 0.

(** *** Double precision

    The two values of source lines 177 and 179 go through Python's [float],
    an IEEE 754 double: 53 significant bits, every result the representable
    value nearest to the exact one, ties going to the even mantissa.  A
    double that is not zero is written here as a pair [(m, e)] that stands
    for [m * 2^e], with [2^52 <= m <= 2^53].  None of the values of the source
    is small enough to be subnormal.  A value of [2^1024] or more is no
    double: there Python raises [OverflowError], see [lineseg_overflows]
    below, and the functions here go on with the rounded value. *)

(** The integer nearest to [num / den], ties to even, for [0 <= num] and
    [0 < den]. *)
Definition round_half_even (num den : Z) : Z :=
  let q := num / den in
  let r := num mod den in
  if 2 * r <? den then q
  else if den <? 2 * r then q + 1
  else if Z.even q then q else q + 1.

(** [num / (den * 2^e)] as a fraction of integers. *)
Definition scaled (num den e : Z) : Z * Z :=
  if 0 <=? e then (num, den * 2 ^ e) else (num * 2 ^ (- e), den).

(** The double nearest to [num / den], for [0 < num] and [0 < den]: the
    exponent is the one that brings the quotient into [[2^52, 2^53)], the
    mantissa the quotient rounded there. *)
Definition nearest_double (num den : Z) : Z * Z :=
  let e0 := Z.log2 num - Z.log2 den - 52 in
  let e := (let (n, d) := scaled num den e0 in
            if 2 ^ 52 * d <=? n then e0 else e0 - 1) in
  let (n, d) := scaled num den e in
  (round_half_even n d, e).

(** [int(x)] for a positive double: truncation. *)
Definition int_of_double (x : Z * Z) : Z := let (m, e) := x in Z.shiftl m e.

(** Whether the rounded value is a double at all. *)
Definition is_finite (x : Z * Z) : bool := int_of_double x <? 2 ^ 1024.

(** [int(a / b)] for two [int] and [0 < b]: the true division of two [int]
    is the double nearest to the exact quotient, whatever the size of the
    operands. *)
Definition int_of_true_div (a b : Z) : Z :=
  if a =? 0 then 0
  else Z.sgn a * int_of_double (nearest_double (Z.abs a) b).

(** [float(n)] for an [int]: the double nearest to it, which is an integer
    again. *)
Definition float_of_int (n : Z) : Z :=
  if n =? 0 then 0
  else Z.sgn n * int_of_double (nearest_double (Z.abs n) 1).

(** The literal [0.85]: the double nearest to 85/100, which is
    7656119366529843 * 2^-53. *)
Definition DOUBLE_0_85 : Z * Z := nearest_double 85 100.

(** [int(x * y)] for a double [x] whose value is an integer and a positive
    double [y]. *)
Definition int_of_product (x : Z) (y : Z * Z) : Z :=
  if x =? 0 then 0
  else let (m, e) := y in
       let (n, d) := scaled (Z.abs x * m) 1 (- e) in
       Z.sgn x * int_of_double (nearest_double n d).

(** [int(char_height * (line_spacing_pct - 100) / 100)] *)
Definition spacing_of (char_height line_spacing_pct : Z) : Z :=
  int_of_true_div (char_height * (line_spacing_pct - 100)) 100.

(** [int(char_height * 0.85)]: the height is converted to a double first. *)
Definition baseline_of (char_height : Z) : Z :=
  int_of_product (float_of_int char_height) DOUBLE_0_85.

(** Where source lines 177 and 179 raise [OverflowError]: the quotient of
    line 177 or the height itself rounds to [2^1024] or more.  (The product
    of line 179 is smaller than the height.) *)
Definition lineseg_overflows (char_height line_spacing_pct : Z) : bool :=
  let a := char_height * (line_spacing_pct - 100) in
  (negb (a =? 0) && negb (is_finite (nearest_double (Z.abs a) 100)))
  || (negb (char_height =? 0)
      && negb (is_finite (nearest_double (Z.abs char_height) 1))).

(** The segments of source lines 207-223, [idx] counting from the given
    value. *)
Fixpoint linesegs_from (char_height line_spacing_pct horzsize num_lines : Z)
    (idx : Z) (line_starts : list Z) : list lineseg :=
  match line_starts with
  | [] => []
  | textpos :: more =>
      let vertsize := char_height in
      let spacing := spacing_of char_height line_spacing_pct in
      let line_height := vertsize + spacing in
      mk_lineseg textpos (idx * line_height) vertsize vertsize
                 (baseline_of char_height) spacing 0 horzsize
                 (lineseg_flags num_lines idx)
      :: linesegs_from char_height line_spacing_pct horzsize num_lines
           (idx + 1) more
  end.

(** The segments [compute_lineseg_xml] writes. *)
Definition compute_linesegs (text : pystr)
    (char_height line_spacing_pct horzsize : Z) : list lineseg :=
  match text with
  | [] =>
      [mk_lineseg 0 0 char_height char_height (baseline_of char_height)
                  (spacing_of char_height line_spacing_pct) 0 horzsize 393216]
  | _ :: _ =>
      let line_starts := line_starts_of text char_height horzsize in
      linesegs_from char_height line_spacing_pct horzsize
                    (Z.of_nat (length line_starts)) 0 line_starts
  end.

Definition lineseg_xml (s : lineseg) : pystr :=
  lit "<hp:lineseg textpos='" ++ str_of_int (ls_textpos s)
  ++ lit "' vertpos='" ++ str_of_int (ls_vertpos s)
  ++ lit "' vertsize='" ++ str_of_int (ls_vertsize s)
  ++ lit "' textheight='" ++ str_of_int (ls_textheight s)
  ++ lit "' baseline='" ++ str_of_int (ls_baseline s)
  ++ lit "' spacing='" ++ str_of_int (ls_spacing s)
  ++ lit "' horzpos='" ++ str_of_int (ls_horzpos s)
  ++ lit "' horzsize='" ++ str_of_int (ls_horzsize s)
  ++ lit "' flags='" ++ str_of_int (ls_flags s) ++ lit "'/>".

Definition compute_lineseg_xml (text : pystr)
    (char_height line_spacing_pct horzsize : Z) : pystr :=
  lit "<hp:linesegarray>"
  ++ join (map lineseg_xml
             (compute_linesegs text char_height line_spacing_pct horzsize))
  ++ lit "</hp:linesegarray>".

(** ** LaTeX to equation script ([latex_to_hwp_script]) *)

(** [p] followed by the rest of the text. *)
Definition expect (p s : pystr) : option pystr :=
  if startswith p s then Some (skipn (length p) s) else None.

(** A group of characters other than the closing brace, then a closing
    brace (source lines 85-91): the group and the text after the brace.  The group
    is the longest run without a closing brace, so the brace that follows it
    is the first one of the text: giving characters back cannot make a
    shorter group match. *)
Definition brace_arg (s : pystr) : option (pystr * pystr) :=
  match span (fun c => negb (c =? 125)) s with
  | (g, c :: r) => if c =? 125 then Some (g, r) else None
  | (_, []) => None
  end.

(** Number of characters of [s] consumed when [r] is what is left of it. *)
Definition consumed (s r : pystr) : nat := (length s - length r)%nat.

(** A command with two brace groups, with the replacement built by [repl]
    from the two groups; [open1] is the command with its opening brace and
    [open2] the text between the two groups, opening brace included. *)
Definition m_two_groups (open1 open2 : pystr)
    (repl : pystr -> pystr -> pystr) : matcher :=
  fun s =>
    match expect open1 s with
    | None => None
    | Some r1 =>
        match brace_arg r1 with
        | None => None
        | Some (g1, r2) =>
            match expect open2 r2 with
            | None => None
            | Some r3 =>
                match brace_arg r3 with
                | None => None
                | Some (g2, r4) => Some (repl g1 g2, consumed s r4)
                end
            end
        end
    end.

(** Source line 85: [\frac{a}{b}] becomes [{a} over {b}]. *)
Definition m_frac : matcher :=
  m_two_groups (lit "\frac{") (lit "{")
    (fun a b => lit "{" ++ a ++ lit "} over {" ++ b ++ lit "}").

(** Source line 87: [\sum_{x}^{y}] becomes [sum from{x} to{y}]. *)
Definition m_sum : matcher :=
  m_two_groups (lit "\sum_{") (lit "^{")
    (fun a b => lit "sum from{" ++ a ++ lit "} to{" ++ b ++ lit "}").

(** Source line 89: [\int_{x}^{y}] becomes [int from{x} to{y}]. *)
Definition m_int : matcher :=
  m_two_groups (lit "\int_{") (lit "^{")
    (fun a b => lit "int from{" ++ a ++ lit "} to{" ++ b ++ lit "}").

(** Source line 91: [\sqrt{x}] becomes [sqrt{x}]. *)
Definition m_sqrt : matcher :=
  fun s =>
    match expect (lit "\sqrt{") s with
    | None => None
    | Some r1 =>
        match brace_arg r1 with
        | None => None
        | Some (g, r2) => Some (lit "sqrt{" ++ g ++ lit "}", consumed s r2)
        end
    end.

(** Source line 99: a backslash followed by one or more ASCII letters
    becomes the letters. *)
Definition m_command : matcher :=
  fun s =>
    match s with
    | 92 :: r =>
        match span is_ascii_alpha r with
        | ([], _) => None
        | (g, _) => Some (g, S (length g))
        end
    | _ => None
    end.

(** The table of source lines 95-96. *)
Definition symbol_table : list (pystr * pystr) :=
  [ (lit "\geq", lit ">="); (lit "\leq", lit "<=");
    (lit "\times", lit "times"); (lit "\cdot", lit "cdot");
    (lit "\infty", lit "inf"); (lit "\pm", lit "+-") ].

(** The loop of source lines 95-97. *)
Definition replace_symbols (s : pystr) : pystr :=
  fold_left (fun s cr => str_replace (fst cr) (snd cr) s) symbol_table s.

Definition latex_to_hwp_script (latex : pystr) : pystr :=
  let s := strip (fun c => c =? 36) (strip is_space latex) in
  let s := re_sub m_frac s in
  let s := re_sub m_sum s in
  let s := re_sub m_int s in
  let s := re_sub m_sqrt s in
  let s := str_replace (lit "\right)") (lit "right)")
             (str_replace (lit "\left(") (lit "left(") s) in
  let s := replace_symbols s in
  let s := re_sub m_command s in
  s.

(** ** Inline extraction ([extract_text]) *)

(** The tags [extract_text] treats alike at source lines 118-120. *)
Inductive wrapper_tag :=
  Strong | Emph | Strikeout | Superscript | Subscript | SmallCaps | Underline.

(** Pandoc inline elements, with the part of the payload the writer reads.
    [Quoted] carries the tag of its quote type; [UnknownInline] is any
    element whose tag has no branch in the source. *)
Inductive inline :=
| Str (c : pystr)
| Space
| SoftBreak
| LineBreak
| Wrapper (t : wrapper_tag) (c : list inline)
| Code (text : pystr)
| Link (c : list inline)
| Image (c : list inline)
| Quoted (quote_type : pystr) (c : list inline)
| Cite (c : list inline)
| Math (text : pystr)
| Span (c : list inline)
| UnknownInline (t : pystr).

Definition DoubleQuote : pystr := lit "DoubleQuote".
Definition SingleQuote : pystr := lit "SingleQuote".

(** What one inline element appends to [parts]. *)
Fixpoint extract_part (x : inline) : pystr :=
  match x with
  | Str c => c
  | Space => lit " "
  | SoftBreak => lit " "
  | LineBreak => [10]
  | Wrapper _ c => join (map extract_part c)
  | Code text => text
  | Link c => join (map extract_part c)
  | Image c => join (map extract_part c)
  | Quoted quote_type c =>
      let q := if pystr_eqb quote_type DoubleQuote then [8220] else [8216] in
      let q2 := if pystr_eqb quote_type DoubleQuote then [8221] else [8217] in
      q ++ join (map extract_part c) ++ q2
  | Cite c => join (map extract_part c)
  | Math text => text
  | Span c => join (map extract_part c)
  | UnknownInline _ => []
  end.

Definition extract_text (inlines : list inline) : pystr :=
  join (map extract_part inlines).

(** ** Style mappings *)

(** [(styleIDRef, paraPrIDRef, charPrIDRef)] *)
Definition style := (Z * Z * Z)%type.

Definition NORMAL_STYLE : style := (0, 0, 0).
Definition CAPTION_STYLE : style := (22, 19, 0).

(** [HEADING_STYLE.get(level, NORMAL_STYLE)] *)
Definition heading_style (level : Z) : style :=
  if level =? 1 then (2, 2, 7)
  else if level =? 2 then (3, 3, 8)
  else if level =? 3 then (4, 4, 9)
  else if level =? 4 then (5, 5, 0)
  else if level =? 5 then (6, 6, 0)
  else if level =? 6 then (7, 7, 0)
  else NORMAL_STYLE.

Definition CODE_CHAR_PR_ID : Z := 10.
Definition CODE_FONT_REF : Z := 2.
Definition TABLE_BORDER_FILL_ID : Z := 3.

(** ** Paragraph id generator *)

(** A computation that reads and updates [_para_id_counter]. *)
Definition M (A : Type) : Type := Z -> A * Z.

Definition ret {A} (a : A) : M A := fun c => (a, c).

Definition bind {A B} (m : M A) (k : A -> M B) : M B :=
  fun c => let (a, c') := m c in k a c'.

Notation "x <- m ;; k" := (bind m (fun x => k))
  (at level 61, m at next level, right associativity).

(** The value of [_para_id_counter] when the module is loaded. *)
Definition PARA_ID_START : Z := 3121190098.

Definition next_para_id : M pystr :=
  fun c => (str_of_int (c + 1), c + 1).

(** A loop that extends [xml_parts] with what [f] yields for each element. *)
Definition extend_each {A} (f : A -> M (list pystr)) : list A -> M (list pystr) :=
  fix go (l : list A) : M (list pystr) :=
    match l with
    | [] => ret []
    | a :: l' => x <- f a ;; y <- go l' ;; ret (x ++ y)
    end.

(** The same over [enumerate(l)], counting from [i]. *)
Definition extend_each_idx {A} (f : Z -> A -> M (list pystr))
  : Z -> list A -> M (list pystr) :=
  fix go (i : Z) (l : list A) : M (list pystr) :=
    match l with
    | [] => ret []
    | a :: l' => x <- f i a ;; y <- go (i + 1) l' ;; ret (x ++ y)
    end.

(** ** XML string builders *)

Definition make_paragraph_xml (text : pystr)
    (style_id para_pr_id char_pr_id : Z) : M pystr :=
  pid <- next_para_id ;;
  let safe_text := match text with [] => [] | _ => xml_escape text end in
  let char_height := char_height_of char_pr_id in
  let lineseg :=
    compute_lineseg_xml text char_height LINE_SPACING_PCT PAGE_TEXT_WIDTH in
  ret (lit "<hp:p id='" ++ pid ++ lit "' paraPrIDRef='" ++ str_of_int para_pr_id
       ++ lit "' styleIDRef='" ++ str_of_int style_id
       ++ lit "' pageBreak='0' columnBreak='0' merged='0'>"
       ++ lit "<hp:run charPrIDRef='" ++ str_of_int char_pr_id
       ++ lit "'><hp:t>" ++ safe_text ++ lit "</hp:t></hp:run>"
       ++ lineseg
       ++ lit "</hp:p>").

Definition make_equation_paragraph_xml (latex_str : pystr) : M pystr :=
  pid <- next_para_id ;;
  let script := latex_to_hwp_script latex_str in
  let safe_script := xml_escape script in
  ret (lit "<hp:p id='" ++ pid ++ lit "' paraPrIDRef='0' styleIDRef='0'"
       ++ lit " pageBreak='0' columnBreak='0' merged='0'>"
       ++ lit "<hp:run charPrIDRef='0'>"
       ++ lit "<hp:equation version='eqEdit' baseLine='0'"
       ++ lit " textColor='#000000' baseUnit='1000' lineMode='0' font=''>"
       ++ lit "<hp:script>" ++ safe_script ++ lit "</hp:script>"
       ++ lit "</hp:equation>"
       ++ lit "</hp:run>"
       ++ lit "<hp:linesegarray>"
       ++ lit "<hp:lineseg textpos='0' vertpos='0' vertsize='1600'"
       ++ lit " textheight='1600' baseline='1360' spacing='400'"
       ++ lit " horzpos='0' horzsize='42520' flags='393216'/>"
       ++ lit "</hp:linesegarray>"
       ++ lit "</hp:p>").

(** One [<hp:tc>] of [make_table_xml] (source lines 308-333). *)
Definition table_cell_xml (bfid col_width row_height row_idx col_idx : Z)
    (cell_text : pystr) : M (list pystr) :=
  let header := if row_idx =? 0 then lit "1" else lit "0" in
  let safe_text := match cell_text with [] => [] | _ => xml_escape cell_text end in
  cell_pid <- next_para_id ;;
  let cell_lineseg :=
    compute_lineseg_xml cell_text CHAR_HEIGHT_NORMAL LINE_SPACING_PCT col_width in
  let cell_cpr := lit "0" in
  ret [ lit "<hp:tc name='' header='" ++ header ++ lit "' hasMargin='0'"
        ++ lit " protect='0' editable='0' dirty='0' borderFillIDRef='"
        ++ str_of_int bfid ++ lit "'>"
        ++ lit "<hp:subList id='' textDirection='HORIZONTAL'"
        ++ lit " lineWrap='BREAK' vertAlign='CENTER'"
        ++ lit " linkListIDRef='0' linkListNextIDRef='0'"
        ++ lit " textWidth='0' textHeight='0'"
        ++ lit " hasTextRef='0' hasNumRef='0'>"
        ++ lit "<hp:p id='" ++ cell_pid ++ lit "' paraPrIDRef='0' styleIDRef='0'"
        ++ lit " pageBreak='0' columnBreak='0' merged='0'>"
        ++ lit "<hp:run charPrIDRef='" ++ cell_cpr ++ lit "'><hp:t>"
        ++ safe_text ++ lit "</hp:t></hp:run>"
        ++ cell_lineseg
        ++ lit "</hp:p>"
        ++ lit "</hp:subList>"
        ++ lit "<hp:cellAddr colAddr='" ++ str_of_int col_idx
        ++ lit "' rowAddr='" ++ str_of_int row_idx ++ lit "'/>"
        ++ lit "<hp:cellSpan colSpan='1' rowSpan='1'/>"
        ++ lit "<hp:cellSz width='" ++ str_of_int col_width
        ++ lit "' height='" ++ str_of_int row_height ++ lit "'/>"
        ++ lit "<hp:cellMargin left='141' right='141' top='141' bottom='141'/>"
        ++ lit "</hp:tc>" ].

Definition make_table_xml (rows : list (list pystr)) (col_count : nat)
    (caption_text : pystr) : M pystr :=
  caption_parts <-
    match caption_text with
    | [] => ret []
    | _ =>
        let '(sid, pid, cid) := CAPTION_STYLE in
        p <- make_paragraph_xml caption_text sid pid cid ;; ret [p]
    end ;;
  pid <- next_para_id ;;
  tbl_id <- next_para_id ;;
  let page_width := 42520 in
  let col_width := page_width / Z.max (Z.of_nat col_count) 1 in
  let row_height := 1800 in
  let total_height := row_height * Z.of_nat (length rows) in
  let bfid := TABLE_BORDER_FILL_ID in
  let open_part :=
    lit "<hp:p id='" ++ pid ++ lit "' paraPrIDRef='0' styleIDRef='0'"
    ++ lit " pageBreak='0' columnBreak='0' merged='0'>"
    ++ lit "<hp:run charPrIDRef='0'>"
    ++ lit "<hp:tbl id='" ++ tbl_id ++ lit "' zOrder='0' numberingType='TABLE'"
    ++ lit " textWrap='TOP_AND_BOTTOM' textFlow='BOTH_SIDES' lock='0'"
    ++ lit " dropcapstyle='None' pageBreak='CELL' repeatHeader='0'"
    ++ lit " rowCnt='" ++ str_of_int (Z.of_nat (length rows))
    ++ lit "' colCnt='" ++ str_of_int (Z.of_nat col_count)
    ++ lit "' cellSpacing='0' borderFillIDRef='" ++ str_of_int bfid
    ++ lit "' noAdjust='0'>"
    ++ lit "<hp:sz width='" ++ str_of_int page_width ++ lit "' widthRelTo='ABSOLUTE'"
    ++ lit " height='" ++ str_of_int total_height
    ++ lit "' heightRelTo='ABSOLUTE' protect='0'/>"
    ++ lit "<hp:pos treatAsChar='1' affectLSpacing='0' flowWithText='1'"
    ++ lit " allowOverlap='0' holdAnchorAndSO='0' vertRelTo='PARA'"
    ++ lit " horzRelTo='COLUMN' vertAlign='TOP' horzAlign='CENTER'"
    ++ lit " vertOffset='0' horzOffset='0'/>"
    ++ lit "<hp:outMargin left='0' right='0' top='141' bottom='141'/>"
    ++ lit "<hp:inMargin left='0' right='0' top='0' bottom='0'/>" in
  row_parts <-
    extend_each_idx
      (fun row_idx row =>
         cells <- extend_each_idx
                    (table_cell_xml bfid col_width row_height row_idx) 0 row ;;
         ret ([lit "<hp:tr>"] ++ cells ++ [lit "</hp:tr>"]))
      0 rows ;;
  ret (join (caption_parts ++ [open_part] ++ row_parts
             ++ [lit "</hp:tbl>"; lit "<hp:t></hp:t></hp:run></hp:p>"])).

(** ** Block conversion ([convert_blocks]) *)

(** Pandoc blocks, with the part of the payload the writer reads.  A table
    row is the list of its cells and a cell the list of its blocks;
    [Table caption head_rows bodies] carries the blocks of the caption, the
    rows of the head and, for every body, its rows (source lines 397-399,
    404, 406, 409, 420). *)
Inductive block :=
| Para (c : list inline)
| Plain (c : list inline)
| Header (level : Z) (inlines : list inline)
| CodeBlock (code_text : pystr)
| BulletList (items : list (list block))
| OrderedList (start_num : Z) (items : list (list block))
| BlockQuote (c : list block)
| Table (caption : list block) (head_rows : list (list (list block)))
        (bodies : list (list (list (list block))))
| HorizontalRule
| Div (c : list block)
| DefinitionList (items : list (list inline * list (list block)))
| LineBlock (lines : list (list inline))
| UnknownBlock (t : pystr).

(** The text of one table cell or of a caption: the [Para] and [Plain]
    blocks, extracted and concatenated (source lines 410-413, 440-444). *)
Fixpoint blocks_text (cell_blocks : list block) : pystr :=
  match cell_blocks with
  | [] => []
  | Para c :: more => extract_text c ++ blocks_text more
  | Plain c :: more => extract_text c ++ blocks_text more
  | _ :: more => blocks_text more
  end.

(** The loops of source lines 405-417 and 421-433 over the rows of the head
    or of one body: a row without cells is skipped. *)
Fixpoint collect_rows (rows : list (list (list block)))
    (all_rows : list (list pystr)) (col_count : nat)
  : list (list pystr) * nat :=
  match rows with
  | [] => (all_rows, col_count)
  | cells :: more =>
      let row_texts := map blocks_text cells in
      match row_texts with
      | [] => collect_rows more all_rows col_count
      | _ :: _ =>
          collect_rows more (all_rows ++ [row_texts])
                       (Nat.max col_count (length row_texts))
      end
  end.

(** The loop of source line 419 over the bodies. *)
Fixpoint collect_bodies (bodies : list (list (list (list block))))
    (all_rows : list (list pystr)) (col_count : nat)
  : list (list pystr) * nat :=
  match bodies with
  | [] => (all_rows, col_count)
  | body_rows :: more =>
      let (all_rows, col_count) := collect_rows body_rows all_rows col_count in
      collect_bodies more all_rows col_count
  end.

(** [while len(row) < col_count: row.append("")] *)
Definition pad_row (col_count : nat) (row : list pystr) : list pystr :=
  row ++ repeat [] (col_count - length row)%nat.

(** Source lines 401-437: the rows of the table as texts, every row padded
    to [col_count] cells. *)
Definition table_grid (head_rows : list (list (list block)))
    (bodies : list (list (list (list block)))) : list (list pystr) * nat :=
  let (all_rows, col_count) := collect_rows head_rows [] O in
  let (all_rows, col_count) := collect_bodies bodies all_rows col_count in
  (map (pad_row col_count) all_rows, col_count).

(** Source lines 376-379 and 385-389: the marker goes in front of the text
    of the first part of the item. *)
Definition mark_first (marker : pystr) (item_parts : list pystr) : list pystr :=
  match item_parts with
  | [] => []
  | first :: more =>
      replace_first (lit "<hp:t>") (lit "<hp:t>" ++ marker) first :: more
  end.

(** The bullet, U+2022, and a space. *)
Definition bullet_marker : pystr := [8226; 32].

(** [f'{num}. '] *)
Definition number_marker (num : Z) : pystr := str_of_int num ++ lit ". ".

(** What one block appends to [xml_parts]. *)
Fixpoint convert_block (indent_level : nat) (b : block) {struct b}
  : M (list pystr) :=
  let indent_prefix := str_repeat 12288 indent_level in
  match b with
  | Para c | Plain c =>
      match c with
      | [Math latex_str] =>
          p <- make_equation_paragraph_xml latex_str ;; ret [p]
      | _ =>
          let text := extract_text c in
          p <- make_paragraph_xml (indent_prefix ++ text) 0 0 0 ;; ret [p]
      end
  | Header level inlines =>
      let text := extract_text inlines in
      let '(sid, pid, cid) := heading_style level in
      p <- make_paragraph_xml text sid pid cid ;; ret [p]
  | CodeBlock code_text =>
      extend_each
        (fun line =>
           p <- make_paragraph_xml (indent_prefix ++ line) 0 0 CODE_CHAR_PR_ID ;;
           ret [p])
        (split_on 10 code_text)
  | BulletList items =>
      extend_each
        (fun item_blocks =>
           item_parts <- extend_each (convert_block indent_level) item_blocks ;;
           ret (mark_first bullet_marker item_parts))
        items
  | OrderedList start_num items =>
      extend_each_idx
        (fun idx item_blocks =>
           item_parts <- extend_each (convert_block indent_level) item_blocks ;;
           ret (mark_first (number_marker (start_num + idx)) item_parts))
        0 items
  | BlockQuote c =>
      extend_each (convert_block (S indent_level)) c
  | Table caption head_rows bodies =>
      let (all_rows, col_count) := table_grid head_rows bodies in
      let cap_text := blocks_text caption in
      match all_rows with
      | [] => ret []
      | _ :: _ =>
          if (0 <? col_count)%nat
          then p <- make_table_xml all_rows col_count cap_text ;; ret [p]
          else ret []
      end
  | HorizontalRule =>
      p <- make_paragraph_xml (str_repeat 9473 30) 0 0 0 ;; ret [p]
  | Div c =>
      extend_each (convert_block indent_level) c
  | DefinitionList items =>
      extend_each
        (fun item =>
           let term_text := extract_text (fst item) in
           p <- make_paragraph_xml (indent_prefix ++ term_text) 0 0 0 ;;
           defs <- extend_each
                     (fun def_blocks =>
                        extend_each (convert_block (S indent_level)) def_blocks)
                     (snd item) ;;
           ret (p :: defs))
        items
  | LineBlock lines =>
      extend_each
        (fun line_inlines =>
           let line_text := extract_text line_inlines in
           p <- make_paragraph_xml (indent_prefix ++ line_text) 0 0 0 ;; ret [p])
        lines
  | UnknownBlock _ => ret []
  end.

Definition convert_blocks (blocks : list block) (indent_level : nat)
  : M (list pystr) :=
  extend_each (convert_block indent_level) blocks.

(** ** Section XML builder *)

(** The truth value of a string or of a list. *)
Definition nonempty {A} (s : list A) : bool :=
  match s with [] => false | _ :: _ => true end.

(** [sep.join(parts)] *)
Fixpoint join_sep (sep : pystr) (parts : list pystr) : pystr :=
  match parts with
  | [] => []
  | [p] => p
  | p :: more => p ++ sep ++ join_sep sep more
  end.

(** [append] of a paragraph to [title_parts] when [cond] holds. *)
Definition append_if (cond : bool) (p : M pystr) (title_parts : list pystr)
  : M (list pystr) :=
  if cond then x <- p ;; ret (title_parts ++ [x]) else ret title_parts.

Definition build_title_block_xml (title subtitle author date_str : pystr)
  : M (list pystr) :=
  title_parts <- append_if (nonempty title)
                   (make_paragraph_xml title 0 0 7) [] ;;
  title_parts <- append_if (nonempty subtitle)
                   (make_paragraph_xml subtitle 0 0 8) title_parts ;;
  title_parts <- append_if (nonempty author || nonempty date_str)
                   (let meta_line :=
                      join_sep (lit " | ") (filter nonempty [author; date_str]) in
                    make_paragraph_xml meta_line 0 0 0) title_parts ;;
  append_if (nonempty title_parts) (make_paragraph_xml [] 0 0 0) title_parts.

(** [s.index(sub, start)] *)
Definition str_index_from (sub s : pystr) (start : nat) : option nat :=
  option_map (fun k => (start + k)%nat) (str_index sub (skipn start s)).

(** [s[a:b]] for offsets within the string. *)
Definition slice (s : pystr) (a b : nat) : pystr := firstn (b - a) (skipn a s).

(** Source lines 494-500: the part of the skeleton's section up to the end
    of the opening [<hs:sec ...>] tag, and its first paragraph.  [None]
    stands for the [ValueError] of a failing [index]. *)
Definition section_frame (original : pystr) : option (pystr * pystr) :=
  match str_index (lit "<hs:sec") original with
  | None => None
  | Some sec_tag_start =>
      match str_index_from (lit ">") original sec_tag_start with
      | None => None
      | Some gt =>
          let sec_tag_end := S gt in
          let xml_header_and_open := firstn sec_tag_end original in
          match str_index (lit "<hp:p ") original with
          | None => None
          | Some first_p_start =>
              match str_index (lit "</hp:p>") original with
              | None => None
              | Some close =>
                  let first_p_end := (close + length (lit "</hp:p>"))%nat in
                  Some (xml_header_and_open,
                        slice original first_p_start first_p_end)
              end
          end
      end
  end.

(** The paragraphs generated for the section (source lines 502-505): the
    title block and the converted blocks, or one empty paragraph when there
    is neither. *)
Definition section_content (blocks : list block)
    (title subtitle author date_str : pystr) : M (list pystr * list pystr) :=
  title_block <- build_title_block_xml title subtitle author date_str ;;
  content_parts <- convert_blocks blocks O ;;
  content_parts <-
    (if negb (nonempty title_block) && negb (nonempty content_parts)
     then p <- make_paragraph_xml [] 0 0 0 ;; ret [p]
     else ret content_parts) ;;
  ret (title_block, content_parts).

(** [original] is the decoded [Contents/section0.xml] of the skeleton, which
    the source reads from the archive in its first two lines. *)
Definition build_section_xml (original : pystr) (blocks : list block)
    (title subtitle author date_str : pystr) : option (M pystr) :=
  match section_frame original with
  | None => None
  | Some (xml_header_and_open, first_paragraph) =>
      Some (tc <- section_content blocks title subtitle author date_str ;;
            let (title_block, content_parts) := tc in
            ret (join [xml_header_and_open; first_paragraph;
                       join title_block; join content_parts;
                       lit "</hs:sec>"]))
  end.

(** ** Header.xml updater ([update_header_xml]) *)

(** [(id, height, bold, fontRef)] *)
Definition HEADING_CHAR_PROPS : list (Z * Z * bool * Z) :=
  [ (7, 2200, true, 0); (8, 1600, true, 0); (9, 1300, false, 0) ].

(** [HEADING_SPACING.items()], in the order of the dictionary. *)
Definition HEADING_SPACING : list (Z * Z) := [ (2, 800); (3, 600); (4, 400) ].

Definition LANG_FONT_MAP : list (pystr * pystr) :=
  [ (lit "HANGUL", lit "NanumSquareOTF");
    (lit "LATIN", lit "NimbusSanL");
    (lit "HANJA", lit "Noto Sans CJK KR");
    (lit "JAPANESE", lit "Noto Sans CJK KR");
    (lit "OTHER", lit "NimbusSanL");
    (lit "SYMBOL", lit "STIX Two Text");
    (lit "USER", lit "NimbusSanL") ].

(** [d.get(key, default)] *)
Fixpoint dict_get (d : list (pystr * pystr)) (key default : pystr) : pystr :=
  match d with
  | [] => default
  | (k, v) :: d' => if pystr_eqb k key then v else dict_get d' key default
  end.

Definition _make_charpr_xml (cpr_id height : Z) (bold : bool) (font_ref : Z)
  : pystr :=
  let bold_attr := if bold then lit " bold='1'" else [] in
  let f := str_of_int font_ref in
  lit "<hh:charPr id='" ++ str_of_int cpr_id ++ lit "' height='"
  ++ str_of_int height ++ lit "'"
  ++ lit " textColor='#000000' shadeColor='none'"
  ++ lit " useFontSpace='0' useKerning='0' symMark='NONE'"
  ++ lit " borderFillIDRef='2'" ++ bold_attr ++ lit ">"
  ++ lit "<hh:fontRef hangul='" ++ f ++ lit "' latin='" ++ f
  ++ lit "' hanja='" ++ f ++ lit "' japanese='" ++ f
  ++ lit "' other='" ++ f ++ lit "' symbol='" ++ f ++ lit "' user='" ++ f
  ++ lit "'/>"
  ++ lit "<hh:ratio hangul='100' latin='100' hanja='100'"
  ++ lit " japanese='100' other='100' symbol='100' user='100'/>"
  ++ lit "<hh:spacing hangul='0' latin='0' hanja='0'"
  ++ lit " japanese='0' other='0' symbol='0' user='0'/>"
  ++ lit "<hh:relSz hangul='100' latin='100' hanja='100'"
  ++ lit " japanese='100' other='100' symbol='100' user='100'/>"
  ++ lit "<hh:offset hangul='0' latin='0' hanja='0'"
  ++ lit " japanese='0' other='0' symbol='0' user='0'/>"
  ++ lit "<hh:underline type='NONE' shape='SOLID' color='#000000'/>"
  ++ lit "<hh:strikeout shape='NONE' color='#000000'/>"
  ++ lit "<hh:outline type='NONE'/>"
  ++ lit "<hh:shadow type='NONE' color='#C0C0C0' offsetX='10' offsetY='10'/>"
  ++ lit "</hh:charPr>".

Definition _make_table_borderfill_xml : pystr :=
  lit "<hh:borderFill id='" ++ str_of_int TABLE_BORDER_FILL_ID
  ++ lit "' threeD='0' shadow='0'"
  ++ lit " centerLine='NONE' breakCellSeparateLine='0'>"
  ++ lit "<hh:slash type='NONE' Crooked='0' isCounter='0'/>"
  ++ lit "<hh:backSlash type='NONE' Crooked='0' isCounter='0'/>"
  ++ lit "<hh:leftBorder type='SOLID' width='0.12 mm' color='#000000'/>"
  ++ lit "<hh:rightBorder type='SOLID' width='0.12 mm' color='#000000'/>"
  ++ lit "<hh:topBorder type='SOLID' width='0.12 mm' color='#000000'/>"
  ++ lit "<hh:bottomBorder type='SOLID' width='0.12 mm' color='#000000'/>"
  ++ lit "<hh:diagonal type='NONE' width='0.12 mm' color='#000000'/>"
  ++ lit "</hh:borderFill>".

Definition _make_font_xml (font_id : Z) (face_name : pystr) : pystr :=
  lit "<hh:font id='" ++ str_of_int font_id ++ lit "' face='" ++ face_name
  ++ lit "' type='TTF' isEmbedded='0'>"
  ++ lit "<hh:typeInfo familyType='FCAT_GOTHIC' weight='6' proportion='4'"
  ++ lit " contrast='0' strokeVariation='1' armStyle='1' letterform='1'"
  ++ lit " midline='1' xHeight='1'/>"
  ++ lit "</hh:font>".

(** [lang] is [match.group(1)]. *)
Definition _replace_fontface_block (lang : pystr) : pystr :=
  let primary_font := dict_get LANG_FONT_MAP lang (lit "NimbusSanL") in
  lit "<hh:fontface lang='" ++ lang ++ lit "' fontCnt='3'>"
  ++ _make_font_xml 0 primary_font
  ++ _make_font_xml 1 primary_font
  ++ _make_font_xml 2 (lit "D2Coding")
  ++ lit "</hh:fontface>".

(** A run of characters other than [stop], then [stop]: the run and the text
    after [stop]. *)
Definition upto (stop : Z) (s : pystr) : option (pystr * pystr) :=
  match span (fun c => negb (c =? stop)) s with
  | (g, c :: r) => if c =? stop then Some (g, r) else None
  | (_, []) => None
  end.

(** The first offset of [s] at which [p] matches, with what [p] returns
    there: the lazy [.*?] of the source's patterns (with [re.DOTALL], so
    that no character stops it) followed by the pattern of [p]. *)
Fixpoint search_first {X} (p : pystr -> option X) (s : pystr)
  : option (nat * X) :=
  match p s with
  | Some x => Some (O, x)
  | None =>
      match s with
      | [] => None
      | _ :: s' =>
          match search_first p s' with
          | Some (k, x) => Some (S k, x)
          | None => None
          end
      end
  end.

(** The pattern of source line 608 (and 618): [tag], white space, and the
    item count [old], which the replacement turns into [new]. *)
Definition m_itemcnt (tag old new : pystr) : matcher :=
  fun s =>
    match expect tag s with
    | None => None
    | Some r1 =>
        match span is_space r1 with
        | ([], _) => None
        | (ws, r2) =>
            match expect (lit "itemCnt='" ++ old ++ lit "'") r2 with
            | None => None
            | Some r3 =>
                Some (tag ++ ws ++ lit "itemCnt='" ++ new ++ lit "'",
                      consumed s r3)
            end
        end
    end.

(** The second and third groups of the pattern of source lines 626-629 with
    the zero between them: [<hc:prev], white space, [value="0"].  The result
    is the second group and the length of the whole. *)
Definition m_prev_zero (s : pystr) : option (pystr * nat) :=
  match expect (lit "<hc:prev") s with
  | None => None
  | Some r1 =>
      match span is_space r1 with
      | ([], _) => None
      | (ws, r2) =>
          match expect (lit "value='0'") r2 with
          | None => None
          | Some r3 =>
              Some (lit "<hc:prev" ++ ws ++ lit "value='", consumed s r3)
          end
      end
  end.

(** The pattern of source lines 626-629 with the replacement of line 630:
    the opening tag of the [paraPr] with the given id, anything (lazily, with
    [re.DOTALL]), and a [prev] whose value is zero. *)
Definition m_heading_prev (para_pr_id prev_val : Z) : matcher :=
  fun s =>
    match expect (lit "<hh:paraPr") s with
    | None => None
    | Some r1 =>
        match span is_space r1 with
        | ([], _) => None
        | (_, r2) =>
            match expect (lit "id='" ++ str_of_int para_pr_id ++ lit "'") r2 with
            | None => None
            | Some r3 =>
                match upto 62 r3 with
                | None => None
                | Some (_, r4) =>
                    match search_first m_prev_zero r4 with
                    | None => None
                    | Some (k, (group2, n)) =>
                        let group1 := firstn (consumed s r4 + k) s in
                        Some (group1 ++ group2 ++ str_of_int prev_val ++ lit "'",
                              (consumed s r4 + k + n)%nat)
                    end
                end
            end
        end
    end.

(** Source lines 597-610. *)
Definition add_heading_charprs (header_xml : pystr) : pystr :=
  let new_charpr :=
    join (map (fun p => let '(cpr_id, height, bold, font_ref) := p in
                        _make_charpr_xml cpr_id height bold font_ref)
              HEADING_CHAR_PROPS)
    ++ _make_charpr_xml CODE_CHAR_PR_ID 1000 false CODE_FONT_REF in
  let marker := lit "</hh:charProperties>" in
  let header_xml := str_replace marker (new_charpr ++ marker) header_xml in
  re_sub (m_itemcnt (lit "<hh:charProperties") (lit "7") (lit "11")) header_xml.

(** Source lines 612-620. *)
Definition add_table_borderfill (header_xml : pystr) : pystr :=
  let bf_marker := lit "</hh:borderFillList>" in
  let header_xml :=
    str_replace bf_marker (_make_table_borderfill_xml ++ bf_marker) header_xml in
  re_sub (m_itemcnt (lit "<hh:borderFillList") (lit "2") (lit "3")) header_xml.

(** Source lines 622-631. *)
Definition add_heading_spacing (header_xml : pystr) : pystr :=
  fold_left
    (fun (header_xml : pystr) (item : Z * Z) =>
       let (para_pr_id, prev_val) := item in
       re_sub (m_heading_prev para_pr_id prev_val) header_xml)
    HEADING_SPACING header_xml.

Section FontFaces.

(** [str.isalnum] on one character: the table of the Unicode database that
    Python's [\w] consults. *)
Variable isalnum : Z -> bool.

(** [\w] of [re] on a [str] pattern. *)
Definition is_word (c : Z) : bool := isalnum c || (c =? 95).

(** The pattern of source line 591 (with [re.DOTALL]): the opening tag of
    a [fontface] with a [lang] of word characters, and everything up to
    the first closing tag after it. *)
Definition m_fontface : matcher :=
  fun s =>
    match expect (lit "<hh:fontface lang='") s with
    | None => None
    | Some r1 =>
        match span is_word r1 with
        | ([], _) => None
        | (lang, r2) =>
            match expect (lit "'") r2 with
            | None => None
            | Some r3 =>
                match upto 62 r3 with
                | None => None
                | Some (_, r4) =>
                    match str_index (lit "</hh:fontface>") r4 with
                    | None => None
                    | Some k =>
                        Some (_replace_fontface_block lang,
                              (consumed s r4 + k
                               + length (lit "</hh:fontface>"))%nat)
                    end
                end
            end
        end
    end.

(** Source lines 590-595. *)
Definition replace_fontfaces (header_xml : pystr) : pystr :=
  re_sub m_fontface header_xml.

Definition update_header_xml (header_xml : pystr) : pystr :=
  add_heading_spacing
    (add_table_borderfill
       (add_heading_charprs
          (replace_fontfaces header_xml))).

End FontFaces.

(** ** Repackaging ([main], source lines 711-721) *)

Definition bytes := list Z.

(** A [ZipInfo]: the name of the part and three of the header fields that
    go with it.  The sizes, the checksum, the offset and the flag bits,
    which [writestr] computes afresh for what it writes, are left out. *)
Record ZipInfo := mk_ZipInfo {
  filename : pystr;
  compress_type : Z;
  date_time : Z;
  external_attr : Z
}.

(** What [writestr] makes of the [ZipInfo] it is given (zipfile.py,
    [_open_to_write]): external attributes of zero become [0o600 << 16],
    those of a regular file its owner may read and write; the name, the
    compression and the date stay as they are. *)
Definition writestr_info (zinfo : ZipInfo) : ZipInfo :=
  mk_ZipInfo (filename zinfo) (compress_type zinfo) (date_time zinfo)
             (if external_attr zinfo =? 0 then Z.shiftl 384 16
              else external_attr zinfo).

(** An archive: its entries in the order of [infolist()], each with the
    bytes of the part. *)
Definition ZipFile := list (ZipInfo * bytes).

Definition infolist (z : ZipFile) : list ZipInfo := map fst z.

(** [z.read(name)]: the archive looks the name up in its table of names,
    where a later entry replaces an earlier one of the same name; [None]
    stands for the [KeyError] of a name that is not there. *)
Fixpoint zip_read (z : ZipFile) (name : pystr) : option bytes :=
  match z with
  | [] => None
  | (item, data) :: z' =>
      match zip_read z' name with
      | Some d => Some d
      | None => if pystr_eqb (filename item) name then Some data else None
      end
  end.

Definition SECTION_PART : pystr := lit "Contents/section0.xml".
Definition HPF_PART : pystr := lit "Contents/content.hpf".
Definition HEADER_PART : pystr := lit "Contents/header.xml".

(** [dst_zip.writestr(item, data)]: the entry the output archive gets. *)
Definition writestr (item : ZipInfo) (data : bytes) : ZipInfo * bytes :=
  (writestr_info item, data).

(** The body of the loop of source lines 713-721: what [writestr] adds to
    the output archive for [item].  The three contents are the encoded
    [section_xml], [updated_hpf] and [updated_header]. *)
Definition repackage_item (src_zip : ZipFile)
    (section_xml updated_hpf updated_header : bytes) (item : ZipInfo)
  : option (ZipInfo * bytes) :=
  if pystr_eqb (filename item) SECTION_PART
  then Some (writestr item section_xml)
  else if pystr_eqb (filename item) HPF_PART
  then Some (writestr item updated_hpf)
  else if pystr_eqb (filename item) HEADER_PART
  then Some (writestr item updated_header)
  else option_map (writestr item) (zip_read src_zip (filename item)).

(** The loop itself over [items]; a failing read ends it. *)
Fixpoint repackage_items (src_zip : ZipFile)
    (section_xml updated_hpf updated_header : bytes) (items : list ZipInfo)
  : option ZipFile :=
  match items with
  | [] => Some []
  | item :: more =>
      match repackage_item src_zip section_xml updated_hpf updated_header item with
      | None => None
      | Some e =>
          option_map (fun dst_zip => e :: dst_zip)
            (repackage_items src_zip section_xml updated_hpf updated_header more)
      end
  end.

Definition repackage (src_zip : ZipFile)
    (section_xml updated_hpf updated_header : bytes) : option ZipFile :=
  repackage_items src_zip section_xml updated_hpf updated_header
                  (infolist src_zip).

(** ** Metadata ([extract_meta_text]) *)

(** Pandoc meta values, with the part of the payload the writer reads;
    [UnknownMeta] is a value whose tag has no branch in the source
    ([MetaMap], [MetaBlocks], [MetaBool]). *)
Inductive meta_value :=
| MetaString (c : pystr)
| MetaInlines (c : list inline)
| MetaList (c : list meta_value)
| UnknownMeta (t : pystr).

(** [extract_meta_text] on a value that is there. *)
Fixpoint extract_meta_value (meta_val : meta_value) : pystr :=
  match meta_val with
  | MetaString c => c
  | MetaInlines c => extract_text c
  | MetaList c => join_sep (lit ", ") (map extract_meta_value c)
  | UnknownMeta _ => []
  end.

(** [meta_val] is [None] where the source gets Python's [None]: for a key
    the metadata does not have. *)
Definition extract_meta_text (meta_val : option meta_value) : pystr :=
  match meta_val with
  | None => []
  | Some v => extract_meta_value v
  end.

(** ** Content.hpf updater ([update_content_hpf]) *)

(** The lazy group of the patterns of source lines 643-665, which are used
    without [re.DOTALL], so that the dot matches no line feed: the number
    of characters, none of them a line feed, before the first [close]. *)
Fixpoint lazy_line (close s : pystr) {struct s} : option nat :=
  if startswith close s then Some O
  else match s with
       | [] => None
       | c :: s' =>
           if c =? 10 then None else option_map S (lazy_line close s')
       end.

(** The patterns of source lines 643, 650, 654, 659 and 665.  Group 1 is
    the literal [prefix]; after it comes either the end of an empty element
    or, between the end of the opening tag and [close], group 2.  [repl]
    builds the replacement from what the two groups matched, the second
    being [None] when the element is empty. *)
Definition m_meta (prefix close : pystr)
    (repl : pystr -> option pystr -> pystr) : matcher :=
  fun s =>
    match expect prefix s with
    | None => None
    | Some r1 =>
        match expect (lit "/>") r1 with
        | Some r2 => Some (repl prefix None, consumed s r2)
        | None =>
            match expect (lit ">") r1 with
            | None => None
            | Some r2 =>
                match lazy_line close r2 with
                | None => None
                | Some k =>
                    Some (repl prefix (Some (firstn k r2)),
                          (consumed s r2 + k + length close)%nat)
                end
            end
        end
    end.

(** A step that may raise, after one that may raise. *)
Definition and_then {A B} (o : option A) (k : A -> option B) : option B :=
  match o with
  | None => None
  | Some a => k a
  end.

Section ContentHpf.

(** The parser of replacement templates of [re], for a pattern with two
    groups: the replacement as a function of what the groups matched, or
    [None] for a template that [re] rejects.  The templates of the source
    are [\1], the end of the opening tag, a text that comes from the
    document and a closing tag; what a backslash in that text means is up
    to [re]. *)
Variable compile_template : pystr -> option (pystr -> option pystr -> pystr).

(** [datetime.utcnow().strftime("%Y-%m-%dT%H:%M:%SZ")] *)
Variable now : pystr.

(** [re.sub(pattern, rf'\1>{text}{close}', hpf_xml)]; the template is
    compiled before the text is searched. *)
Definition sub_meta (prefix close text hpf_xml : pystr) : option pystr :=
  match compile_template (lit "\1>" ++ text ++ close) with
  | None => None
  | Some repl => Some (re_sub (m_meta prefix close repl) hpf_xml)
  end.

(** [None] stands for the [re.error] of a rejected template. *)
Definition update_content_hpf (hpf_xml title author date_str : pystr)
  : option pystr :=
  and_then
    (if nonempty title
     then sub_meta (lit "<opf:title") (lit "</opf:title>")
                   (xml_escape title) hpf_xml
     else Some hpf_xml)
    (fun hpf_xml =>
  and_then
    (if nonempty author
     then
       let safe_author := xml_escape author in
       and_then
         (sub_meta (lit "<opf:meta name='creator' content='text'")
                   (lit "</opf:meta>") safe_author hpf_xml)
         (fun hpf_xml =>
            sub_meta (lit "<opf:meta name='lastsaveby' content='text'")
                     (lit "</opf:meta>") safe_author hpf_xml)
     else Some hpf_xml)
    (fun hpf_xml =>
  and_then
    (sub_meta (lit "<opf:meta name='ModifiedDate' content='text'")
              (lit "</opf:meta>") now hpf_xml)
    (fun hpf_xml =>
       if nonempty date_str
       then sub_meta (lit "<opf:meta name='date' content='text'")
                     (lit "</opf:meta>") (xml_escape date_str) hpf_xml
       else Some hpf_xml))).

End ContentHpf.

(** ** The program ([main]) *)

(** The document read from standard input: [doc_meta] is [meta.get] of its
    metadata (of the empty dictionary without metadata), [doc_blocks] its
    blocks (none without the key). *)
Record document := mk_document {
  doc_meta : pystr -> option meta_value;
  doc_blocks : list block
}.

Section Main.

Variable isalnum : Z -> bool.
Variable compile_template : pystr -> option (pystr -> option pystr -> pystr).
Variable now : pystr.

(** [bytes.decode('utf-8')] and [str.encode('utf-8')]; [None] stands for
    the [UnicodeError] either raises. *)
Variable decode : bytes -> option pystr.
Variable encode : pystr -> option bytes.

(** The archive [main] writes for a document and a skeleton archive that
    is there (source lines 678-721); [None] stands for an exception.  The
    paragraph id counter has the value it has when the module is loaded. *)
Definition main (doc : document) (skeleton : ZipFile) : option ZipFile :=
  let title := extract_meta_text (doc_meta doc (lit "title")) in
  let subtitle := extract_meta_text (doc_meta doc (lit "subtitle")) in
  let author := extract_meta_text (doc_meta doc (lit "author")) in
  let date_str := extract_meta_text (doc_meta doc (lit "date")) in
  let blocks := doc_blocks doc in
  and_then (zip_read skeleton SECTION_PART) (fun section_bytes =>
  and_then (decode section_bytes) (fun original =>
  and_then (build_section_xml original blocks title subtitle author date_str)
           (fun build =>
  let section_xml := fst (build PARA_ID_START) in
  and_then (zip_read skeleton HPF_PART) (fun hpf_bytes =>
  and_then (decode hpf_bytes) (fun hpf_xml =>
  and_then (zip_read skeleton HEADER_PART) (fun header_bytes =>
  and_then (decode header_bytes) (fun header_xml =>
  and_then (update_content_hpf compile_template now
                               hpf_xml title author date_str)
           (fun updated_hpf =>
  let updated_header := update_header_xml isalnum header_xml in
  and_then (encode section_xml) (fun section_data =>
  and_then (encode updated_hpf) (fun hpf_data =>
  and_then (encode updated_header) (fun header_data =>
  repackage skeleton section_data hpf_data header_data))))))))))).

End Main.

(** ** Observations used to state the properties *)

(** The visual width of a run of characters, counted from zero. *)
Fixpoint run_width (char_height : Z) (run : pystr) : Z :=
  match run with
  | [] => 0
  | ch :: run' => char_width char_height ch + run_width char_height run'
  end.

(** No proper, non-empty prefix of the line is wider than the page. *)
Definition fits (char_height horzsize : Z) (line : pystr) : Prop :=
  forall n, (0 < n < length line)%nat ->
            run_width char_height (firstn n line) <= horzsize.

(** A line that was closed: it is not empty, it is wider than the page, and
    [fits]: it ends with the first character that made it too wide. *)
Definition closed_line (char_height horzsize : Z) (line : pystr) : Prop :=
  line <> [] /\ horzsize < run_width char_height line
  /\ fits char_height horzsize line.

(** The text offsets at which consecutive lines start, the first at [from]. *)
Fixpoint offsets (from : Z) (lines : list pystr) : list Z :=
  match lines with
  | [] => []
  | l :: ls => from :: offsets (from + Z.of_nat (length l)) ls
  end.

(** A flag word that marks the last segment (0x40000 or 0x60000), and one
    that marks the first (0x20000 or 0x60000). *)
Definition has_last (flags : Z) : bool :=
  (flags =? 262144) || (flags =? 393216).
Definition has_first (flags : Z) : bool :=
  (flags =? 131072) || (flags =? 393216).

(** How many segments satisfy [p]. *)
Definition count_segs (p : lineseg -> bool) (segs : list lineseg) : nat :=
  length (filter p segs).

(** The wrapping loop as the specification words it: when the running width
    exceeds the page width and more characters remain, the new line starts
    "at the current character's offset", which is [i]. *)
Fixpoint spec_scan_line_starts (char_height horzsize len : Z) (rest : pystr)
    (i : Z) (line_starts : list Z) (current_width : Z) : list Z :=
  match rest with
  | [] => line_starts
  | ch :: rest' =>
      let current_width := current_width + char_width char_height ch in
      if (horzsize <? current_width) && (i + 1 <? len)
      then spec_scan_line_starts char_height horzsize len rest' (i + 1)
             (line_starts ++ [i]) 0
      else spec_scan_line_starts char_height horzsize len rest' (i + 1)
             line_starts current_width
  end.

Definition spec_line_starts_of (text : pystr) (char_height horzsize : Z)
  : list Z :=
  spec_scan_line_starts char_height horzsize (Z.of_nat (length text))
                        text 0 [0] 0.

(** The texts of the cells of every row. *)
Definition row_texts_of (rows : list (list (list block))) : list (list pystr) :=
  map (map blocks_text) rows.

(** The longest of the rows, 0 if there is none. *)
Definition max_row_length {A} (rows : list (list A)) : nat :=
  fold_right Nat.max O (map (@length A) rows).

(** ** Auxiliary definitions of the proofs *)

Section LayoutAux.

Variables char_height horzsize : Z.

(** The breaks the loop of [scan_line_starts] finds from index [i] on,
    without the accumulator. *)
Fixpoint breaks (len : Z) (rest : pystr) (i current_width : Z) : list Z :=
  match rest with
  | [] => []
  | ch :: rest' =>
      let w := current_width + char_width char_height ch in
      if (horzsize <? w) && (i + 1 <? len)
      then (i + 1) :: breaks len rest' (i + 1) 0
      else breaks len rest' (i + 1) w
  end.

(** Every non-empty prefix of the current line, the line itself included, is
    within the page: what the loop knows while characters remain. *)
Definition within (cur : pystr) : Prop :=
  forall n, (0 < n <= length cur)%nat ->
            run_width char_height (firstn n cur) <= horzsize.

End LayoutAux.

(** A matcher that can only match at a given character. *)
Definition starts_at (c : Z) (m : matcher) : Prop :=
  forall s x, m s = Some x -> exists r, s = c :: r.

(** A part name that is none of the three the assembler rewrites. *)
Definition copied_name (name : pystr) : Prop :=
  name <> SECTION_PART /\ name <> HPF_PART /\ name <> HEADER_PART.

(** The content the assembler writes for a part: the fresh content for the
    three rewritten names, the bytes [old] for any other name. *)
Definition written_for (section_xml updated_hpf updated_header : bytes)
    (name : pystr) (old : bytes) : bytes :=
  if pystr_eqb name SECTION_PART then section_xml
  else if pystr_eqb name HPF_PART then updated_hpf
  else if pystr_eqb name HEADER_PART then updated_header
  else old.

(** The bytes read under a name, empty when the name is not there. *)
Definition read_or_empty (z : ZipFile) (name : pystr) : bytes :=
  match zip_read z name with
  | Some d => d
  | None => []
  end.

(** Whether one of the entries has the name. *)
Definition has_name (name : pystr) (items : list ZipInfo) : bool :=
  existsb (fun item => pystr_eqb (filename item) name) items.

(** What the assembler writes under a name. *)
Definition written (src_zip : ZipFile)
    (section_xml updated_hpf updated_header : bytes) (name : pystr) : bytes :=
  written_for section_xml updated_hpf updated_header name
              (read_or_empty src_zip name).

(** A part that is a paragraph element: it opens with [<hp:p id=] and a
    quotation mark. *)
Definition is_paragraph (part : pystr) : bool :=
  startswith (lit "<hp:p id='") part.

(** [old] occurs nowhere in [s]. *)
Definition absent (old s : pystr) : Prop :=
  forall k, startswith old (skipn k s) = false.

(** No occurrence of [old] starts inside [x], whatever follows [x]. *)
Definition closed_for (old x : pystr) : Prop :=
  forall y k, (k < length x)%nat -> startswith old (skipn k (x ++ y)) = false.

(** [u] and [old] disagree at a position both have. *)
Fixpoint clashes (old u : pystr) : bool :=
  match old, u with
  | a :: old', b :: u' => negb (a =? b) || clashes old' u'
  | _, _ => false
  end.

(** [old] clashes with what is left of [x] at every position of [x]: a
    check that decides [closed_for] for the literals of the source. *)
Fixpoint clashes_everywhere (old x : pystr) : bool :=
  match x with
  | [] => true
  | _ :: x' => clashes old x && clashes_everywhere old x'
  end.

(** [safe_text] of [make_paragraph_xml]. *)
Definition safe_text_of (text : pystr) : pystr :=
  match text with [] => [] | _ => xml_escape text end.

(** The paragraph of [make_paragraph_xml] with the content [run_text] of its
    text run made explicit; [text] is the text its line segments are
    computed from. *)
Definition paragraph_with_run (pid run_text text : pystr)
    (style_id para_pr_id char_pr_id : Z) : pystr :=
  (lit "<hp:p id='" ++ pid ++ lit "' paraPrIDRef='" ++ str_of_int para_pr_id
   ++ lit "' styleIDRef='" ++ str_of_int style_id
   ++ lit "' pageBreak='0' columnBreak='0' merged='0'>"
   ++ lit "<hp:run charPrIDRef='" ++ str_of_int char_pr_id ++ lit "'>")
  ++ lit "<hp:t>"
  ++ (run_text ++ lit "</hp:t></hp:run>"
      ++ compute_lineseg_xml text (char_height_of char_pr_id)
                             LINE_SPACING_PCT PAGE_TEXT_WIDTH
      ++ lit "</hp:p>").

(** The characters [str] of an integer is made of. *)
Definition is_int_char (a : Z) : Prop := a = 45 \/ 48 <= a <= 57.

(** *** Style catalogs *)

Definition CHARPR_TAG : pystr := lit "<hh:charProperties".
Definition CHARPR_MARKER : pystr := lit "</hh:charProperties>".
Definition BORDERFILL_TAG : pystr := lit "<hh:borderFillList".
Definition BORDERFILL_MARKER : pystr := lit "</hh:borderFillList>".

(** The entries [add_heading_charprs] adds, one per element. *)
Definition new_charpr_entries : list pystr :=
  map (fun p : Z * Z * bool * Z =>
         let '(cpr_id, height, bold, font_ref) := p in
         _make_charpr_xml cpr_id height bold font_ref)
      HEADING_CHAR_PROPS
  ++ [_make_charpr_xml CODE_CHAR_PR_ID 1000 false CODE_FONT_REF].

(** The entry [add_table_borderfill] adds. *)
Definition new_borderfill_entries : list pystr := [_make_table_borderfill_xml].

(** The item count attribute as it stands in the opening tag. *)
Definition item_count_attr (count : pystr) : pystr :=
  lit "itemCnt='" ++ count ++ lit "'".

(** A document with one catalog: the text [pre] before it, its opening tag
    ([tag], the white space [ws], the item count and the rest [attrs] of the
    tag, closing bracket included), its entries one after the other, its
    closing tag [marker] and the text [post] after it. *)
Definition catalog_doc (tag marker pre ws : pystr) (count : Z)
    (attrs : pystr) (entries : list pystr) (post : pystr) : pystr :=
  pre ++ tag ++ ws ++ item_count_attr (str_of_int count) ++ attrs
  ++ join entries ++ marker ++ post.

(** The patch of a catalog as the specification words it: the new entries
    after the old ones and the item count raised by their number. *)
Definition spec_catalog_patch (tag marker pre ws : pystr) (count : Z)
    (attrs : pystr) (entries new_entries : list pystr) (post : pystr) : pystr :=
  catalog_doc tag marker pre ws (count + Z.of_nat (length new_entries))
              attrs (entries ++ new_entries) post.

(** A miniature catalog document with eight character styles. *)
Definition charpr_doc_of_eight : pystr :=
  catalog_doc CHARPR_TAG CHARPR_MARKER (lit "<hh:head>") (lit " ") 8 (lit ">")
    (map (fun k => lit "<hh:charPr id='" ++ str_of_int k ++ lit "'/>")
         [0; 1; 2; 3; 4; 5; 6; 7])
    (lit "</hh:head>").

Definition is_None {A} (o : option A) : bool :=
  match o with None => true | Some _ => false end.

(** The catalog is the only one of its kind in the document: the white
    space after the name of the tag is white space, the closing tag occurs
    nowhere but at the end of the catalog, and the opening tag nowhere but
    at its start. *)
Definition single_catalog (tag marker pre ws : pystr) (count : Z)
    (attrs : pystr) (entries : list pystr) (post : pystr) : bool :=
  let count_attr := item_count_attr (str_of_int count) in
  nonempty ws && forallb is_space ws
  && is_None (str_index marker
                (pre ++ tag ++ ws ++ count_attr ++ attrs ++ join entries))
  && is_None (str_index marker post)
  && is_None (str_index tag pre)
  && is_None (str_index tag
                (ws ++ count_attr ++ attrs ++ join entries ++ marker ++ post)).

(** A miniature catalog document with the seven character styles of the
    skeleton, and one with its two border fills. *)
Definition charpr_doc_parts : list pystr :=
  map (fun k => lit "<hh:charPr id='" ++ str_of_int k ++ lit "'/>")
      [0; 1; 2; 3; 4; 5; 6].

Definition borderfill_doc_parts : list pystr :=
  map (fun k => lit "<hh:borderFill id='" ++ str_of_int k ++ lit "'/>")
      [1; 2].

(** *** Paragraph styles *)

(** A paragraph-style record with the given id and spacing before. *)
Definition para_pr_record (id_prev : Z * Z) : pystr :=
  lit "<hh:paraPr id='" ++ str_of_int (fst id_prev)
  ++ lit "' tabPrIDRef='0'><hh:margin><hc:prev value='"
  ++ str_of_int (snd id_prev)
  ++ lit "' unit='HWPUNIT'/></hh:margin></hh:paraPr>".

(** A style-catalog document with the given paragraph-style records. *)
Definition para_pr_doc (records : list (Z * Z)) : pystr :=
  lit "<hh:head><hh:paraProperties itemCnt='"
  ++ str_of_int (Z.of_nat (length records)) ++ lit "'>"
  ++ join (map para_pr_record records)
  ++ lit "</hh:paraProperties></hh:head>".

(** The spacing patch as the specification words it, record by record: the
    spacing before of a heading style goes from the template's zero to the
    configured value and no other record changes. *)
Definition spec_heading_spacing (records : list (Z * Z)) : list (Z * Z) :=
  map (fun r : Z * Z =>
         let (id, prev) := r in
         if prev =? 0
         then match List.find (fun h => fst h =? id) HEADING_SPACING with
              | Some h => (id, snd h)
              | None => r
              end
         else r)
      records.

(** A miniature skeleton archive: the three rewritten parts among two parts
    that are copied. *)
Definition skeleton_of_five : ZipFile :=
  [ (mk_ZipInfo (lit "mimetype") 0 0 0, [97; 112; 112]);
    (mk_ZipInfo HEADER_PART 8 0 0, [1; 2; 3]);
    (mk_ZipInfo SECTION_PART 8 0 0, [4; 5]);
    (mk_ZipInfo HPF_PART 8 0 0, [6]);
    (mk_ZipInfo (lit "Preview/PrvText.txt") 8 0 0, [7; 8; 9; 10]) ].

(** The miniature skeleton with a second part of the name
    [Preview/PrvText.txt] in front. *)
Definition skeleton_with_duplicate : ZipFile :=
  (mk_ZipInfo (lit "Preview/PrvText.txt") 8 0 0, [11; 12]) :: skeleton_of_five.

(** The part opens with a paragraph element whose id is [i]. *)
Definition has_para_id (i : Z) (part : pystr) : bool :=
  startswith (lit "<hp:p id='" ++ str_of_int i ++ lit "'") part.

(** The parts open with paragraphs whose ids increase from part to part and
    lie above [lo] and not above [hi]. *)
Definition fresh_ids (lo hi : Z) (parts : list pystr) : Prop :=
  exists ids,
    Forall2 (fun part i => has_para_id i part = true) parts ids
    /\ StronglySorted Z.lt ids
    /\ Forall (fun i => lo < i <= hi) ids.

(** A computation that takes the same number of paragraph ids whatever the
    counter is, and whose parts open with fresh, increasing ids. *)
Definition well_numbered (m : M (list pystr)) : Prop :=
  exists n : nat,
    forall c, snd (m c) = c + Z.of_nat n
              /\ fresh_ids c (snd (m c)) (fst (m c)).

(** What [xml_escape] writes for one character. *)
Definition escape_char (c : Z) : pystr :=
  if c =? 38 then lit "&amp;"
  else if c =? 62 then lit "&gt;"
  else if c =? 60 then lit "&lt;"
  else [c].

(** A section of the skeleton: what precedes the section element, the
    attributes of its opening tag, what stands between the tag and the
    first paragraph, the first paragraph from its attributes to its closing
    tag, and the rest. *)
Definition skeleton_section (hdr attrs mid body tail : pystr) : pystr :=
  hdr ++ lit "<hs:sec" ++ attrs ++ lit ">" ++ mid
  ++ lit "<hp:p " ++ body ++ lit "</hp:p>" ++ tail.

(** What the source relies on of [re]'s template parser: a template made of
    the reference to group 1, the end of the opening tag (which keeps the
    reference apart from a digit of the text) and a text without backslash
    stands for what group 1 matched followed by the end of the tag and that
    text. *)
Definition plain_templates
    (compile_template : pystr -> option (pystr -> option pystr -> pystr))
  : Prop :=
  forall t, Forall (fun a => a <> 92) t ->
            exists repl, compile_template (lit "\1>" ++ t) = Some repl
                         /\ forall g1 g2, repl g1 g2 = g1 ++ lit ">" ++ t.

(** A template parser that accepts those templates and no others. *)
Definition plain_template_parser (template : pystr)
  : option (pystr -> option pystr -> pystr) :=
  match template with
  | 92 :: 49 :: 62 :: t =>
      if forallb (fun a => negb (a =? 92)) t
      then Some (fun g1 _ => g1 ++ 62 :: t)
      else None
  | _ => None
  end.

(** The letters and digits of ASCII: what [str.isalnum] says on them. *)
Definition ascii_alnum (c : Z) : bool :=
  ((48 <=? c) && (c <=? 57)) || is_ascii_alpha c.

(** A miniature skeleton archive with texts in its three rewritten parts,
    each byte standing for the character of the same number, and a
    document with a title and one paragraph. *)
Definition skeleton_of_texts : ZipFile :=
  [ (mk_ZipInfo (lit "mimetype") 0 0 0, lit "application/hwp+zip");
    (mk_ZipInfo HEADER_PART 8 0 0,
     lit "<hh:head><hh:charProperties itemCnt='7'></hh:charProperties></hh:head>");
    (mk_ZipInfo SECTION_PART 8 0 0,
     lit "<hs:sec id='0'><hp:p id='1'>a</hp:p><hp:p id='2'>b</hp:p></hs:sec>");
    (mk_ZipInfo HPF_PART 8 0 0,
     lit "<opf:package><opf:title/></opf:package>") ].

Definition document_of_texts : document :=
  mk_document
    (fun key => if pystr_eqb key (lit "title")
                then Some (MetaInlines [Str (lit "Report")])
                else None)
    [Para [Str (lit "Hello")]].

(** The blocks inside [k] nested block quotes. *)
Fixpoint quoted (k : nat) (blocks : list block) : list block :=
  match k with
  | O => blocks
  | S k' => [BlockQuote (quoted k' blocks)]
  end.

(** The elements that carry the text of an inline element: formatting,
    links, images, citations and spans give way to their children, unknown
    elements vanish and a soft break is a space. *)
Fixpoint leaves (x : inline) : list inline :=
  match x with
  | Wrapper _ c => flat_map leaves c
  | Link c => flat_map leaves c
  | Image c => flat_map leaves c
  | Cite c => flat_map leaves c
  | Span c => flat_map leaves c
  | Quoted quote_type c => [Quoted quote_type (flat_map leaves c)]
  | UnknownInline _ => []
  | SoftBreak => [Space]
  | _ => [x]
  end.

(** A document with one catalog whose opening tag goes on, after the white
    space [ws], with [body]: the rest of the tag and the entries. *)
Definition open_catalog_doc (tag marker pre ws body post : pystr) : pystr :=
  pre ++ tag ++ ws ++ body ++ marker ++ post.

(** The catalog is the only one of its kind in the document, and what comes
    after the white space of its opening tag is neither white space nor the
    item count [old]. *)
Definition single_catalog_without (tag marker pre ws body post old : pystr)
  : bool :=
  nonempty ws && forallb is_space ws
  && match body with
     | [] => false
     | c :: _ => negb (is_space c)
     end
  && negb (startswith (item_count_attr old) body)
  && is_None (str_index marker (pre ++ tag ++ ws ++ body))
  && is_None (str_index marker post)
  && is_None (str_index tag pre)
  && is_None (str_index tag (ws ++ body ++ marker ++ post)).

(** A miniature catalog document whose opening tag has an [id] in front of
    the item count. *)
Definition charpr_doc_id_first : pystr :=
  open_catalog_doc CHARPR_TAG CHARPR_MARKER (lit "<hh:head>") (lit " ")
    (lit "id='c' itemCnt='7'>" ++ join charpr_doc_parts) (lit "</hh:head>").

(** *** The header in three parts *)

(** A text that is empty or begins a tag. *)
Definition at_tag (s : pystr) : bool :=
  match s with
  | [] => true
  | c :: _ => c =? 60
  end.

(** A header laid out as the skeleton's: the text [fonts] with the font
    faces, then the text [cats] with the style catalogs, then the text
    [styles] with the paragraph styles.  [cats] begins a tag and so does
    [styles], if there is any; no font face closes in [cats] or [styles];
    no catalog opens or closes in [fonts] or [styles]; no paragraph style
    opens in [fonts] or [cats]. *)
Definition header_layout (fonts cats styles : pystr) : bool :=
  startswith (lit "<") cats && at_tag styles
  && is_None (str_index (lit "</hh:fontface>") (cats ++ styles))
  && forallb (fun tag => is_None (str_index tag fonts)
                         && is_None (str_index tag styles))
             [CHARPR_TAG; CHARPR_MARKER; BORDERFILL_TAG; BORDERFILL_MARKER]
  && is_None (str_index (lit "<hh:paraPr") fonts)
  && is_None (str_index (lit "<hh:paraPr") cats).

(** The text of a catalog by itself, from its opening tag to its closing
    tag. *)
Definition catalog (tag marker ws : pystr) (count : Z) (attrs : pystr)
    (entries : list pystr) : pystr :=
  catalog_doc tag marker [] ws count attrs entries [].

(** A catalog whose opening and closing tags occur at its two ends only,
    and in which the tags of the other catalog do not occur. *)
Definition catalog_apart (tag marker other_tag other_marker ws : pystr)
    (count : Z) (attrs : pystr) (entries : list pystr) : bool :=
  single_catalog tag marker [] ws count attrs entries []
  && is_None (str_index other_tag (catalog tag marker ws count attrs entries))
  && is_None (str_index other_marker
                (catalog tag marker ws count attrs entries)).

(** A miniature header: two font faces, the two catalogs, and paragraph
    styles. *)
Definition header_fonts : pystr :=
  lit "<hh:head><hh:fontfaces itemCnt='2'>"
  ++ lit "<hh:fontface lang='HANGUL' fontCnt='1'><hh:font id='0' face='x'/>"
  ++ lit "</hh:fontface>"
  ++ lit "<hh:fontface lang='LATIN' fontCnt='1'><hh:font id='0' face='y'/>"
  ++ lit "</hh:fontface></hh:fontfaces>".

Definition header_styles : pystr :=
  lit "<hh:paraProperties itemCnt='3'>"
  ++ join (map para_pr_record [(0, 0); (2, 0); (3, 0)])
  ++ lit "</hh:paraProperties></hh:head>".

Definition header_borderfills : pystr :=
  catalog BORDERFILL_TAG BORDERFILL_MARKER (lit " ") 2 (lit ">")
          borderfill_doc_parts.

Definition header_tabs : pystr :=
  lit "<hh:tabProperties itemCnt='1'><hh:tabPr id='0'/></hh:tabProperties>".

(* ================================================================== *)
(** * Part II. Properties                                              *)
(* ================================================================== *)

(** ** Layout metrics engine *)

Section Layout.

Variables char_height horzsize : Z.

Lemma scan_line_starts_breaks len rest : forall i acc w,
  scan_line_starts char_height horzsize len rest i acc w
  = acc ++ breaks char_height horzsize len rest i w.
Proof.
  induction rest as [|ch rest IH]; intros i acc w; simpl.
  - now rewrite app_nil_r.
  - destruct ((horzsize <? w + char_width char_height ch) && (i + 1 <? len)).
    + rewrite IH, <- app_assoc. reflexivity.
    + apply IH.
Qed.

Lemma line_starts_of_breaks text :
  line_starts_of text char_height horzsize
  = 0 :: breaks char_height horzsize (Z.of_nat (length text)) text 0 0.
Proof. unfold line_starts_of. now rewrite scan_line_starts_breaks. Qed.

Lemma run_width_app a b :
  run_width char_height (a ++ b)
  = run_width char_height a + run_width char_height b.
Proof. induction a as [|c a IH]; simpl; lia. Qed.

Lemma within_nil : within char_height horzsize [].
Proof. intros n [H1 H2]; simpl in H2; lia. Qed.

Lemma within_snoc cur ch :
  within char_height horzsize cur ->
  run_width char_height (cur ++ [ch]) <= horzsize ->
  within char_height horzsize (cur ++ [ch]).
Proof.
  intros Hc Hw n [H1 H2]. rewrite length_app in H2; simpl in H2.
  destruct (Nat.eq_dec n (S (length cur))) as [->|Hn].
  - rewrite firstn_all2 by (rewrite length_app; simpl; lia). exact Hw.
  - rewrite firstn_app.
    replace (n - length cur)%nat with O by lia.
    simpl. rewrite app_nil_r. apply Hc. lia.
Qed.

Lemma within_fits_snoc cur ch :
  within char_height horzsize cur -> fits char_height horzsize (cur ++ [ch]).
Proof.
  intros Hc n [H1 H2]. rewrite length_app in H2; simpl in H2.
  rewrite firstn_app.
  replace (n - length cur)%nat with O by lia.
  simpl. rewrite app_nil_r. apply Hc. lia.
Qed.

(** The breaks the loop finds cut the text that is left, together with the
    part [cur] of the current line already read, into closed lines and a
    last line. *)
Lemma breaks_lines rest : forall cur i,
  rest <> [] ->
  within char_height horzsize cur ->
  exists lines last,
    cur ++ rest = concat lines ++ last
    /\ last <> []
    /\ Forall (closed_line char_height horzsize) lines
    /\ fits char_height horzsize last
    /\ (i - Z.of_nat (length cur))
         :: breaks char_height horzsize (i + Z.of_nat (length rest)) rest i
                   (run_width char_height cur)
       = offsets (i - Z.of_nat (length cur)) (lines ++ [last]).
Proof.
  induction rest as [|ch rest IH]; intros cur i Hne Hcur; [congruence|].
  cbn [breaks].
  assert (Hw : run_width char_height cur + char_width char_height ch
               = run_width char_height (cur ++ [ch]))
    by (rewrite run_width_app; simpl; lia).
  destruct rest as [|ch' rest'].
  - (* the last character: no break, whatever the width *)
    exists [], (cur ++ [ch]). simpl.
    replace (i + 1 <? i + 1) with false by (symmetry; apply Z.ltb_irrefl).
    rewrite andb_false_r. repeat split; auto.
    + intros E; apply app_eq_nil in E; destruct E; discriminate.
    + now apply within_fits_snoc.
  - set (rest := ch' :: rest') in *.
    assert (Hlen : i + Z.of_nat (length (ch :: rest))
                   = (i + 1) + Z.of_nat (length rest))
      by (cbn [length]; lia).
    assert (Hmore : (i + 1 <? i + Z.of_nat (length (ch :: rest))) = true)
      by (apply Z.ltb_lt; subst rest; cbn [length]; lia).
    rewrite Hmore, andb_true_r, Hlen.
    destruct (horzsize <? run_width char_height cur + char_width char_height ch)
      eqn:Hover.
    + (* the line is closed after [ch] and the width starts again at zero *)
      destruct (IH [] (i + 1)) as (lines & last & E & Hl & Hall & Hfit & Hoff);
        [subst rest; discriminate | apply within_nil |].
      exists ((cur ++ [ch]) :: lines), last.
      repeat split; auto.
      * simpl in E. simpl. rewrite <- !app_assoc, <- E. reflexivity.
      * constructor; auto. repeat split.
        -- intros E'; apply app_eq_nil in E'; destruct E'; discriminate.
        -- apply Z.ltb_lt in Hover. lia.
        -- now apply within_fits_snoc.
      * simpl in Hoff. cbn [offsets app]. rewrite length_app. cbn [length].
        replace (i - Z.of_nat (length cur) + Z.of_nat (length cur + 1))
          with (i + 1 - 0) by lia.
        simpl (run_width char_height []) in Hoff.
        f_equal. etransitivity; [|exact Hoff]. f_equal. lia.
    + (* the line goes on *)
      apply Z.ltb_ge in Hover.
      destruct (IH (cur ++ [ch]) (i + 1))
        as (lines & last & E & Hl & Hall & Hfit & Hoff);
        [subst rest; discriminate | apply within_snoc; auto; lia |].
      exists lines, last. repeat split; auto.
      * rewrite <- E, <- app_assoc. reflexivity.
      * rewrite length_app in Hoff. cbn [length] in Hoff.
        replace (i + 1 - Z.of_nat (length cur + 1))
          with (i - Z.of_nat (length cur)) in Hoff by lia.
        rewrite <- Hw in Hoff.
        exact Hoff.
Qed.

Lemma breaks_above len rest : forall i w,
  Forall (fun b => i < b) (breaks char_height horzsize len rest i w).
Proof.
  induction rest as [|ch rest IH]; intros i w; simpl; [constructor|].
  destruct ((horzsize <? w + char_width char_height ch) && (i + 1 <? len)).
  - constructor; [lia|].
    eapply Forall_impl; [|apply IH]. simpl; intros; lia.
  - eapply Forall_impl; [|apply IH]. simpl; intros; lia.
Qed.

Lemma breaks_sorted len rest : forall i w,
  StronglySorted Z.lt (breaks char_height horzsize len rest i w).
Proof.
  induction rest as [|ch rest IH]; intros i w; simpl; [constructor|].
  destruct ((horzsize <? w + char_width char_height ch) && (i + 1 <? len)).
  - constructor; [apply IH | apply breaks_above].
  - apply IH.
Qed.

Lemma line_starts_sorted text :
  StronglySorted Z.lt (line_starts_of text char_height horzsize).
Proof.
  rewrite line_starts_of_breaks. constructor.
  - apply breaks_sorted.
  - apply breaks_above.
Qed.

Variable line_spacing_pct : Z.

Lemma linesegs_from_textpos n starts : forall idx,
  map ls_textpos
      (linesegs_from char_height line_spacing_pct horzsize n idx starts)
  = starts.
Proof.
  induction starts as [|a starts IH]; intros idx; simpl; [reflexivity|].
  now rewrite IH.
Qed.

Lemma linesegs_from_length n starts : forall idx,
  length (linesegs_from char_height line_spacing_pct horzsize n idx starts)
  = length starts.
Proof.
  induction starts as [|a starts IH]; intros idx; simpl; [reflexivity|].
  now rewrite IH.
Qed.

(** Which index carries which flag, for an index below [num_lines]. *)
Lemma flags_last n idx :
  0 <= idx < n ->
  has_last (lineseg_flags n idx) = (idx =? n - 1).
Proof.
  intros H. unfold lineseg_flags.
  destruct (n =? 1) eqn:E1.
  - apply Z.eqb_eq in E1. subst n. replace idx with 0 by lia. reflexivity.
  - apply Z.eqb_neq in E1.
    destruct (idx =? 0) eqn:E2.
    + apply Z.eqb_eq in E2. subst idx.
      change (has_last 131072) with false.
      symmetry. apply Z.eqb_neq. lia.
    + destruct (idx =? n - 1); reflexivity.
Qed.

Lemma flags_first n idx :
  0 <= idx < n ->
  has_first (lineseg_flags n idx) = (idx =? 0).
Proof.
  intros H. unfold lineseg_flags.
  destruct (n =? 1) eqn:E1.
  - apply Z.eqb_eq in E1. subst n. replace idx with 0 by lia. reflexivity.
  - destruct (idx =? 0) eqn:E2; [reflexivity|].
    destruct (idx =? n - 1); reflexivity.
Qed.

(** Among the segments numbered [idx], [idx + 1], ... the last index of the
    paragraph occurs once if the run reaches it, and index zero occurs once
    if the run starts with it. *)
Lemma count_last_from n starts : forall idx,
  0 <= idx ->
  idx + Z.of_nat (length starts) = n ->
  count_segs (fun s => has_last (ls_flags s))
    (linesegs_from char_height line_spacing_pct horzsize n idx starts)
  = match starts with [] => O | _ :: _ => 1%nat end.
Proof.
  unfold count_segs.
  induction starts as [|a starts IH]; intros idx H0 Hn; [reflexivity|].
  cbn [linesegs_from filter ls_flags]. cbn [length] in Hn.
  rewrite flags_last by lia.
  destruct starts as [|b starts']; cbn [length] in Hn.
  - replace (idx =? n - 1) with true by (symmetry; apply Z.eqb_eq; lia).
    reflexivity.
  - replace (idx =? n - 1) with false by (symmetry; apply Z.eqb_neq; lia).
    rewrite IH by (cbn [length]; lia). reflexivity.
Qed.

Lemma count_first_from n starts : forall idx,
  0 <= idx ->
  idx + Z.of_nat (length starts) = n ->
  count_segs (fun s => has_first (ls_flags s))
    (linesegs_from char_height line_spacing_pct horzsize n idx starts)
  = match starts with
    | [] => O
    | _ :: _ => if idx =? 0 then 1%nat else O
    end.
Proof.
  unfold count_segs.
  induction starts as [|a starts IH]; intros idx H0 Hn; [reflexivity|].
  cbn [linesegs_from filter ls_flags]. cbn [length] in Hn.
  rewrite flags_first by lia.
  assert (E : (idx + 1 =? 0) = false) by (apply Z.eqb_neq; lia).
  destruct (idx =? 0); cbn [length]; rewrite IH by lia; rewrite E;
    destruct starts; reflexivity.
Qed.

End Layout.

(** C1, as the specification words it, fails: with a character height of
    1000 and a page width of 400 the text "ab" overflows after its first
    character (offset 0); the source starts the second line at offset 1,
    the next character, where the specification's reading starts it at
    offset 0. *)
Lemma C1_new_line_not_at_current_offset :
  line_starts_of (lit "ab") 1000 400 = [0; 1]
  /\ spec_line_starts_of (lit "ab") 1000 400 = [0; 0]
  /\ pystr_eqb (line_starts_of (lit "ab") 1000 400)
               (spec_line_starts_of (lit "ab") 1000 400) = false.
Proof. repeat split; vm_compute; reflexivity. Qed.

(** C1 (amended): the line starts the loop computes cut a non-empty text
    into lines, each starting right after the one before it (the first at
    offset 0).  Every line but the last is closed by the first of its
    characters at which the width accumulated since the start of that line,
    [char_height] for a character above U+2000 and [char_height / 2] for any
    other, exceeds the page width; the next line starts at the offset after
    that character with the width back at zero.  The last line is not empty,
    and no character before its last one makes it exceed the page width. *)
Theorem C1_line_starts_greedy (text : pystr) (char_height horzsize : Z) :
  nonempty text = true ->
  exists lines last,
    text = concat lines ++ last
    /\ last <> []
    /\ Forall (closed_line char_height horzsize) lines
    /\ fits char_height horzsize last
    /\ line_starts_of text char_height horzsize = offsets 0 (lines ++ [last]).
Proof.
  intros Hne.
  assert (Hne' : text <> []) by (destruct text; [discriminate | congruence]).
  destruct (@breaks_lines char_height horzsize text [] 0 Hne'
              (within_nil char_height horzsize))
    as (lines & last & E & Hl & Hall & Hfit & Hoff).
  exists lines, last. repeat split; auto.
  rewrite line_starts_of_breaks. exact Hoff.
Qed.

Lemma C1_line_starts_greedy_witness :
  nonempty (lit "ab") = true
  /\ exists lines last,
       lit "ab" = concat lines ++ last
       /\ last <> []
       /\ Forall (closed_line 1000 400) lines
       /\ fits 1000 400 last
       /\ line_starts_of (lit "ab") 1000 400 = offsets 0 (lines ++ [last]).
Proof.
  split; [reflexivity | apply (@C1_line_starts_greedy (lit "ab") 1000 400)].
  reflexivity.
Defined.

(** C2: the segments [compute_lineseg_xml] writes for any text, character
    height, line spacing and page width start at text offset 0 and have
    strictly increasing text offsets; exactly one of them carries the "last"
    flag (0x40000 or 0x60000) and exactly one the "first" flag (0x20000 or
    0x60000); a lone segment carries 0x60000; and the empty text gives one
    segment with offset 0, vertical position 0 and flags 0x60000. *)
Theorem C2_linesegs_wellformed
    (text : pystr) (char_height line_spacing_pct horzsize : Z) :
  let segs := compute_linesegs text char_height line_spacing_pct horzsize in
  (exists s more, segs = s :: more /\ ls_textpos s = 0)
  /\ StronglySorted Z.lt (map ls_textpos segs)
  /\ count_segs (fun s => has_last (ls_flags s)) segs = 1%nat
  /\ count_segs (fun s => has_first (ls_flags s)) segs = 1%nat
  /\ (forall s, segs = [s] -> ls_flags s = 393216)
  /\ (text = [] ->
      exists s, segs = [s] /\ ls_textpos s = 0 /\ ls_vertpos s = 0
                /\ ls_flags s = 393216).
Proof.
  intros segs. subst segs.
  destruct text as [|ch text'].
  - (* the empty text: the literal of the source *)
    cbn [compute_linesegs]. repeat split.
    + eexists; eexists; split; reflexivity.
    + repeat constructor.
    + intros s E. injection E as <-. reflexivity.
    + intros _. eexists; repeat split; reflexivity.
  - set (text := ch :: text').
    assert (Hseg : compute_linesegs text char_height line_spacing_pct horzsize
                   = linesegs_from char_height line_spacing_pct horzsize
                       (Z.of_nat (length (line_starts_of text char_height horzsize)))
                       0 (line_starts_of text char_height horzsize))
      by reflexivity.
    rewrite Hseg. clear Hseg.
    pose proof (line_starts_sorted char_height horzsize text) as Hsorted.
    pose proof (line_starts_of_breaks char_height horzsize text) as Hb.
    set (starts := line_starts_of text char_height horzsize) in *.
    repeat split.
    + rewrite Hb. cbn [linesegs_from]. eexists; eexists; split; reflexivity.
    + now rewrite linesegs_from_textpos.
    + rewrite count_last_from by lia. rewrite Hb. reflexivity.
    + rewrite count_first_from by lia. rewrite Hb. reflexivity.
    + intros s E.
      assert (Hlen : length starts = 1%nat).
      { pose proof (f_equal (@length _) E) as El.
        now rewrite linesegs_from_length in El. }
      rewrite Hlen in E. rewrite Hb in E. cbn [linesegs_from] in E.
      injection E as E _. subst s. reflexivity.
    + intros E. discriminate E.
Qed.

(** ** Strings and scanners *)

Lemma pystr_eqb_refl a : pystr_eqb a a = true.
Proof. induction a as [|x a IH]; simpl; [reflexivity|]. now rewrite Z.eqb_refl. Qed.

Lemma pystr_eqb_eq a : forall b, pystr_eqb a b = true <-> a = b.
Proof.
  induction a as [|x a IH]; intros [|y b]; simpl; split; intros H;
    try reflexivity; try discriminate.
  - apply andb_true_iff in H as [H1 H2].
    apply Z.eqb_eq in H1. apply IH in H2. congruence.
  - injection H as -> ->. now rewrite Z.eqb_refl, pystr_eqb_refl.
Qed.

Lemma pystr_eqb_neq a b : pystr_eqb a b = false <-> a <> b.
Proof.
  split.
  - intros H E. apply pystr_eqb_eq in E. congruence.
  - intros H. destruct (pystr_eqb a b) eqn:E; [|reflexivity].
    apply pystr_eqb_eq in E. contradiction.
Qed.

(** [startswith p s] holds exactly when [s] is [p] followed by something. *)
Lemma startswith_app p : forall s, startswith p (p ++ s) = true.
Proof.
  induction p as [|x p IH]; intros s; simpl; [reflexivity|].
  rewrite Z.eqb_refl. apply IH.
Qed.

Lemma startswith_inv p : forall s,
  startswith p s = true -> s = p ++ skipn (length p) s.
Proof.
  induction p as [|x p IH]; intros s H; [reflexivity|].
  destruct s as [|y s]; [discriminate|]. simpl in H.
  apply andb_true_iff in H as [H1 H2]. apply Z.eqb_eq in H1. subst y.
  simpl. f_equal. now apply IH.
Qed.

Lemma startswith_head c p s :
  startswith (c :: p) s = true -> exists r, s = c :: r.
Proof.
  destruct s as [|y s]; [discriminate|]. simpl. intros H.
  apply andb_true_iff in H as [H1 _]. apply Z.eqb_eq in H1. subst y. eauto.
Qed.

(** A scan leaves a text without that character as it is. *)
Lemma re_sub_absent c m s :
  starts_at c m -> Forall (fun x => x <> c) s -> re_sub m s = s.
Proof.
  intros Hm. unfold re_sub. induction 1 as [|x s Hx Hs IH]; [reflexivity|].
  cbn [sub_scan]. destruct (m (x :: s)) as [[r n]|] eqn:E.
  - destruct (Hm _ _ E) as [r' E']. congruence.
  - now rewrite IH.
Qed.

Lemma expect_head c p s r : expect (c :: p) s = Some r -> exists r', s = c :: r'.
Proof.
  unfold expect. destruct (startswith (c :: p) s) eqn:E; [|discriminate].
  intros _. eapply startswith_head; eauto.
Qed.

Lemma starts_at_literal c old new : starts_at c (m_literal (c :: old) new).
Proof.
  intros s x. unfold m_literal.
  destruct (startswith (c :: old) s) eqn:E; [|discriminate].
  intros _. eapply startswith_head; eauto.
Qed.

Lemma str_replace_absent c old new s :
  Forall (fun x => x <> c) s -> str_replace (c :: old) new s = s.
Proof. apply re_sub_absent, starts_at_literal. Qed.

(** ** Math transliterator *)

Lemma starts_at_two_groups c open1 open2 repl :
  starts_at c (m_two_groups (c :: open1) open2 repl).
Proof.
  intros s x. unfold m_two_groups.
  destruct (expect (c :: open1) s) eqn:E; [|discriminate].
  intros _. eapply expect_head; eauto.
Qed.

Lemma starts_at_sqrt : starts_at 92 m_sqrt.
Proof.
  intros s x. unfold m_sqrt.
  destruct (expect (lit "\sqrt{") s) as [r|] eqn:E; [|discriminate].
  intros _. apply (@expect_head 92 (lit "sqrt{") s r E).
Qed.

Lemma starts_at_command : starts_at 92 m_command.
Proof.
  intros s x. unfold m_command.
  destruct s as [|y s]; [discriminate|].
  destruct (Z.eq_dec y 92) as [->|Hy]; [eauto|].
  destruct y as [|p|p]; try discriminate.
  do 7 (destruct p as [p|p|]; try discriminate).
  congruence.
Qed.

Lemma replace_symbols_absent s :
  Forall (fun x => x <> 92) s -> replace_symbols s = s.
Proof.
  intros H. unfold replace_symbols, symbol_table. cbn [fold_left fst snd].
  change (lit "\geq") with (92 :: lit "geq").
  change (lit "\leq") with (92 :: lit "leq").
  change (lit "\times") with (92 :: lit "times").
  change (lit "\cdot") with (92 :: lit "cdot").
  change (lit "\infty") with (92 :: lit "infty").
  change (lit "\pm") with (92 :: lit "pm").
  rewrite (@str_replace_absent 92 (lit "geq") (lit ">=") s H).
  rewrite (@str_replace_absent 92 (lit "leq") (lit "<=") s H).
  rewrite (@str_replace_absent 92 (lit "times") (lit "times") s H).
  rewrite (@str_replace_absent 92 (lit "cdot") (lit "cdot") s H).
  rewrite (@str_replace_absent 92 (lit "infty") (lit "inf") s H).
  apply (@str_replace_absent 92 (lit "pm") (lit "+-") s H).
Qed.

(** Stripping takes characters away and adds none. *)
Lemma Forall_lstrip (P : Z -> Prop) p s : Forall P s -> Forall P (lstrip p s).
Proof.
  induction 1 as [|x s Hx Hs IH]; simpl; [constructor|].
  destruct (p x); [exact IH | now constructor].
Qed.

Lemma Forall_strip (P : Z -> Prop) p s : Forall P s -> Forall P (strip p s).
Proof.
  intros H. unfold strip, rstrip.
  apply Forall_rev, Forall_lstrip, Forall_rev, Forall_lstrip, H.
Qed.

(** The rules after the stripping of blanks and dollar signs, in the order
    of the source. *)
Lemma rules_absent s :
  Forall (fun x => x <> 92) s ->
  re_sub m_command
    (replace_symbols
       (str_replace (lit "\right)") (lit "right)")
          (str_replace (lit "\left(") (lit "left(")
             (re_sub m_sqrt (re_sub m_int (re_sub m_sum (re_sub m_frac s)))))))
  = s.
Proof.
  intros H.
  rewrite (@re_sub_absent 92 m_frac s)
    by (auto; apply (starts_at_two_groups 92 (lit "frac{"))).
  rewrite (@re_sub_absent 92 m_sum s)
    by (auto; apply (starts_at_two_groups 92 (lit "sum_{"))).
  rewrite (@re_sub_absent 92 m_int s)
    by (auto; apply (starts_at_two_groups 92 (lit "int_{"))).
  rewrite (@re_sub_absent 92 m_sqrt s) by (auto using starts_at_sqrt).
  change (lit "\left(") with (92 :: lit "left(").
  change (lit "\right)") with (92 :: lit "right)").
  rewrite (@str_replace_absent 92 (lit "left(") (lit "left(") s H).
  rewrite (@str_replace_absent 92 (lit "right)") (lit "right)") s H).
  rewrite replace_symbols_absent by assumption.
  apply re_sub_absent with (c := 92); auto using starts_at_command.
Qed.

(** C7: the transliterator returns a string for every source; it turns
    [\frac{1}{2}] into [{1} over {2}]; the symbol rule and the whole
    pipeline leave each spelling the symbol rule produces ([>=], [<=],
    [times], [cdot], [inf], [+-]) unchanged, and more generally the rules
    leave every text without a backslash unchanged, the text of such
    spellings included. *)
Theorem C7_transliterate :
  (forall latex, exists script, latex_to_hwp_script latex = script)
  /\ latex_to_hwp_script (lit "\frac{1}{2}") = lit "{1} over {2}"
  /\ Forall (fun spelling =>
               replace_symbols spelling = spelling
               /\ latex_to_hwp_script spelling = spelling)
            (map snd symbol_table)
  /\ (forall s, Forall (fun x => x <> 92) s ->
                replace_symbols s = s
                /\ latex_to_hwp_script s
                   = strip (fun c => c =? 36) (strip is_space s)).
Proof.
  split; [|split; [|split]].
  - intros latex. eexists. reflexivity.
  - vm_compute. reflexivity.
  - repeat constructor; vm_compute; reflexivity.
  - intros s Hs. split; [now apply replace_symbols_absent|].
    unfold latex_to_hwp_script.
    apply rules_absent. now apply Forall_strip, Forall_strip.
Qed.

(** ** Inline text extractor *)

Lemma extract_text_app a b :
  extract_text (a ++ b) = extract_text a ++ extract_text b.
Proof. unfold extract_text, join. now rewrite map_app, concat_app. Qed.

Lemma extract_text_cons x l :
  extract_text (x :: l) = extract_part x ++ extract_text l.
Proof. reflexivity. Qed.

(** C9: [extract_text] is a function of its argument alone and defined on
    every sequence of inline elements, whatever their variants and nesting
    (two calls on equal sequences give equal strings, and every sequence has
    a string); the empty sequence gives the empty string; a [Quoted] element
    gives the text of its children between U+201C and U+201D when its quote
    type is [DoubleQuote], and between U+2018 and U+2019 for any other quote
    type. *)
Theorem C9_extract_text :
  (forall inlines1 inlines2,
      inlines1 = inlines2 -> extract_text inlines1 = extract_text inlines2)
  /\ (forall inlines, exists text, extract_text inlines = text)
  /\ extract_text [] = []
  /\ (forall c, extract_text [Quoted DoubleQuote c]
                = [8220] ++ extract_text c ++ [8221])
  /\ (forall quote_type c,
         quote_type <> DoubleQuote ->
         extract_text [Quoted quote_type c]
         = [8216] ++ extract_text c ++ [8217]).
Proof.
  split; [|split; [|split; [|split]]].
  - intros a b ->. reflexivity.
  - intros inlines. induction inlines as [|x l [text IH]].
    + exists []. reflexivity.
    + exists (extract_part x ++ text). now rewrite extract_text_cons, IH.
  - reflexivity.
  - intros c. rewrite extract_text_cons.
    cbn [extract_part]. rewrite pystr_eqb_refl.
    change (extract_text []) with (@nil Z). rewrite app_nil_r.
    reflexivity.
  - intros quote_type c Hq. rewrite extract_text_cons.
    cbn [extract_part].
    apply pystr_eqb_neq in Hq. rewrite Hq.
    change (extract_text []) with (@nil Z). rewrite app_nil_r.
    reflexivity.
Qed.

(** ** Table grid normalizer *)


Lemma max_row_length_app {A} (a b : list (list A)) :
  max_row_length (a ++ b) = Nat.max (max_row_length a) (max_row_length b).
Proof.
  unfold max_row_length. induction a as [|r a IH]; simpl; [reflexivity|].
  rewrite IH. lia.
Qed.

Lemma collect_rows_spec rows : forall all_rows col_count,
  collect_rows rows all_rows col_count
  = (all_rows ++ filter nonempty (row_texts_of rows),
     Nat.max col_count (max_row_length rows)).
Proof.
  induction rows as [|cells rows IH]; intros all_rows col_count; simpl.
  - rewrite app_nil_r. f_equal. unfold max_row_length; simpl; lia.
  - destruct cells as [|cell cells'].
    + rewrite IH. simpl. f_equal; try (unfold max_row_length; simpl; lia).
    + cbn [map nonempty]. rewrite IH, <- app_assoc. cbn [app]. f_equal.
      unfold max_row_length. cbn [map fold_right length].
      rewrite length_map. lia.
Qed.

Lemma collect_bodies_spec bodies : forall all_rows col_count,
  collect_bodies bodies all_rows col_count
  = (all_rows ++ filter nonempty (row_texts_of (concat bodies)),
     Nat.max col_count (max_row_length (concat bodies))).
Proof.
  induction bodies as [|body bodies IH]; intros all_rows col_count; simpl.
  - rewrite app_nil_r. f_equal. unfold max_row_length; simpl; lia.
  - rewrite collect_rows_spec, IH. unfold row_texts_of.
    rewrite map_app, filter_app, <- app_assoc, max_row_length_app.
    f_equal. lia.
Qed.

(** The grid in closed form: the texts of the rows that have cells, head
    first, each padded to the length of the longest row. *)
Lemma table_grid_spec head_rows bodies :
  table_grid head_rows bodies
  = (map (pad_row (max_row_length (head_rows ++ concat bodies)))
         (filter nonempty (row_texts_of (head_rows ++ concat bodies))),
     max_row_length (head_rows ++ concat bodies)).
Proof.
  unfold table_grid. rewrite collect_rows_spec, collect_bodies_spec.
  cbn [app Nat.max].
  assert (E1 : filter nonempty (row_texts_of (head_rows ++ concat bodies))
               = filter nonempty (row_texts_of head_rows)
                 ++ filter nonempty (row_texts_of (concat bodies)))
    by (unfold row_texts_of; now rewrite map_app, filter_app).
  rewrite E1, max_row_length_app. reflexivity.
Qed.

Lemma max_row_length_ge {A} (rows : list (list A)) r :
  In r rows -> (length r <= max_row_length rows)%nat.
Proof.
  unfold max_row_length. induction rows as [|r' rows IH]; simpl; [tauto|].
  intros [->|H]; [lia|]. specialize (IH H). lia.
Qed.

Lemma pad_row_length col_count row :
  (length row <= col_count)%nat -> length (pad_row col_count row) = col_count.
Proof.
  intros H. unfold pad_row. rewrite length_app, repeat_length. lia.
Qed.

(** C5: the rows of the normalized grid all have [col_count] cells, where
    [col_count] is the length of the longest input row (0 without rows);
    the grid is the texts of the input rows that have cells, in their order,
    each followed by as many empty strings as it is short of [col_count];
    and a table whose grid has no row or no column adds nothing to the
    output (and takes no paragraph id). *)
Theorem C5_table_grid
    (caption : list block) (head_rows : list (list (list block)))
    (bodies : list (list (list (list block)))) :
  let rows_in := head_rows ++ concat bodies in
  let rows := fst (table_grid head_rows bodies) in
  let col_count := snd (table_grid head_rows bodies) in
  col_count = max_row_length rows_in
  /\ Forall (fun row => length row = col_count) rows
  /\ rows = map (fun row => row ++ repeat [] (col_count - length row)%nat)
                (filter nonempty (row_texts_of rows_in))
  /\ (rows = [] \/ col_count = O ->
      forall indent_level counter,
        convert_block indent_level (Table caption head_rows bodies) counter
        = ([], counter)).
Proof.
  intros rows_in rows col_count. subst rows col_count.
  rewrite table_grid_spec. cbn [fst snd]. fold rows_in.
  split; [reflexivity|]. split; [|split].
  - apply Forall_forall. intros row Hin.
    apply in_map_iff in Hin as (r & <- & Hr).
    apply filter_In in Hr as [Hr _].
    apply pad_row_length.
    unfold row_texts_of in Hr. apply in_map_iff in Hr as (cells & <- & Hc).
    rewrite length_map. now apply max_row_length_ge.
  - reflexivity.
  - intros Hdrop indent_level counter.
    cbn [convert_block]. rewrite table_grid_spec. fold rows_in.
    destruct Hdrop as [E|E].
    + rewrite E. reflexivity.
    + rewrite E.
      destruct (map (pad_row O) (filter nonempty (row_texts_of rows_in)));
        reflexivity.
Qed.

(** ** Package assembler *)

Section Repackage.

Variable src_zip : ZipFile.
Variables section_xml updated_hpf updated_header : bytes.

(** A name can be read exactly when an entry has it. *)
Lemma zip_read_has_name z name :
  zip_read z name = None <-> has_name name (infolist z) = false.
Proof.
  unfold has_name, infolist.
  induction z as [|[item data] z IH]; simpl; [tauto|].
  destruct (zip_read z name) as [d|].
  - split; [discriminate|]. intros H.
    apply orb_false_iff in H as [_ H]. apply IH in H. discriminate.
  - destruct IH as [IH _]. rewrite (IH eq_refl), orb_false_r.
    destruct (pystr_eqb (filename item) name); split; congruence.
Qed.

Lemma zip_read_in z item data :
  In (item, data) z -> exists d, zip_read z (filename item) = Some d.
Proof.
  intros H. destruct (zip_read z (filename item)) as [d|] eqn:E; [eauto|].
  apply zip_read_has_name in E. unfold has_name in E.
  assert (Hex : existsb (fun it => pystr_eqb (filename it) (filename item))
                        (infolist z) = true).
  { apply existsb_exists. exists item. split; [|apply pystr_eqb_refl].
    unfold infolist. apply in_map_iff. now exists (item, data). }
  congruence.
Qed.

(** With names that are all different, reading a name gives the bytes of
    the one entry that has it. *)
Lemma zip_read_unique z item data :
  NoDup (map filename (infolist z)) ->
  In (item, data) z -> zip_read z (filename item) = Some data.
Proof.
  unfold infolist.
  induction z as [|[item' data'] z IH]; simpl; [tauto|].
  intros Hnd. inversion_clear Hnd as [|? ? Hnotin Hnd'].
  intros [E|H].
  - injection E as -> ->.
    destruct (zip_read z (filename item)) as [d|] eqn:Er.
    + exfalso. apply Hnotin.
      assert (Hn : has_name (filename item) (infolist z) = true).
      { destruct (has_name (filename item) (infolist z)) eqn:Eh; [reflexivity|].
        apply zip_read_has_name in Eh. congruence. }
      apply existsb_exists in Hn as (it & Hit & Eit).
      apply pystr_eqb_eq in Eit. rewrite <- Eit. now apply in_map.
    + now rewrite pystr_eqb_refl.
  - now rewrite (IH Hnd' H).
Qed.

(** When the content of every entry is a function [g] of its name, so is
    what a read returns. *)
Lemma zip_read_by_name (g : pystr -> bytes) items name :
  zip_read (map (fun item => writestr item (g (filename item))) items) name
  = if has_name name items then Some (g name) else None.
Proof.
  unfold has_name. induction items as [|item items IH]; simpl; [reflexivity|].
  rewrite IH.
  destruct (existsb (fun item0 => pystr_eqb (filename item0) name) items).
  - now rewrite orb_true_r.
  - rewrite orb_false_r.
    destruct (pystr_eqb (filename item) name) eqn:E; [|reflexivity].
    apply pystr_eqb_eq in E. now rewrite E.
Qed.

(** The loop over a part [items] of the entries of the archive writes, for
    each of them, the entry with the content [written] gives its name. *)
Lemma repackage_items_spec items :
  (forall item, In item items -> In item (infolist src_zip)) ->
  repackage_items src_zip section_xml updated_hpf updated_header items
  = Some (map (fun item => writestr item (written src_zip section_xml updated_hpf updated_header (filename item))) items).
Proof.
  induction items as [|item items IH]; intros Hin; [reflexivity|].
  cbn [repackage_items map].
  rewrite IH by (intros; apply Hin; now right).
  assert (Hitem : In item (infolist src_zip)) by (apply Hin; now left).
  unfold infolist in Hitem. apply in_map_iff in Hitem as ([i d0] & Ei & Hi).
  simpl in Ei. subst i.
  destruct (zip_read_in _ _ _ Hi) as [d Hd].
  unfold repackage_item, written, written_for, read_or_empty. rewrite Hd.
  destruct (pystr_eqb (filename item) SECTION_PART); [reflexivity|].
  destruct (pystr_eqb (filename item) HPF_PART); [reflexivity|].
  destruct (pystr_eqb (filename item) HEADER_PART); reflexivity.
Qed.

Lemma repackage_spec :
  repackage src_zip section_xml updated_hpf updated_header
  = Some (map (fun item => writestr item (written src_zip section_xml updated_hpf updated_header (filename item))) (infolist src_zip)).
Proof. apply repackage_items_spec. auto. Qed.

Lemma written_copied name :
  copied_name name -> written src_zip section_xml updated_hpf updated_header name = read_or_empty src_zip name.
Proof.
  intros (H1 & H2 & H3). unfold written, written_for.
  apply pystr_eqb_neq in H1, H2, H3. now rewrite H1, H2, H3.
Qed.

End Repackage.

(** What [writestr] does to the header fields: nothing to the name, the
    compression and the date, and nothing to external attributes other than
    zero. *)
Lemma writestr_info_fields item :
  filename (writestr_info item) = filename item
  /\ compress_type (writestr_info item) = compress_type item
  /\ date_time (writestr_info item) = date_time item
  /\ external_attr (writestr_info item)
     = (if external_attr item =? 0 then 25165824 else external_attr item)
  /\ (external_attr item <> 0 -> writestr_info item = item).
Proof.
  destruct item as [n c d x]. unfold writestr_info.
  cbn [filename compress_type date_time external_attr].
  split; [reflexivity|]. split; [reflexivity|]. split; [reflexivity|].
  split; [reflexivity|].
  intros Hx. apply Z.eqb_neq in Hx. now rewrite Hx.
Qed.

Lemma infolist_written (g : ZipInfo -> bytes) items :
  infolist (map (fun item => writestr item (g item)) items)
  = map writestr_info items.
Proof. unfold infolist. rewrite map_map. reflexivity. Qed.



(** ** Section builder *)

(** Running a computation from a counter value. *)
Lemma bind_run {A B} (m : M A) (k : A -> M B) c :
  bind m k c = k (fst (m c)) (snd (m c)).
Proof. unfold bind. now destruct (m c). Qed.

(** The title block is empty exactly when the metadata is, and then no
    paragraph id is taken. *)
Lemma title_block_nil title subtitle author date_str c :
  fst (build_title_block_xml title subtitle author date_str c) = [] ->
  title = [] /\ subtitle = [] /\ author = [] /\ date_str = []
  /\ build_title_block_xml title subtitle author date_str c = ([], c).
Proof.
  unfold build_title_block_xml, append_if.
  destruct title, subtitle, author, date_str;
    cbn [nonempty orb]; rewrite ?bind_run; cbn [ret fst snd app nonempty];
    rewrite ?bind_run; cbn [ret fst snd app nonempty];
    try (intros E; exfalso; revert E;
         repeat (rewrite ?bind_run; cbn [ret fst snd app nonempty]);
         discriminate);
    auto 10.
Qed.

(** Induction over blocks, with the hypothesis for the blocks nested in
    lists, quotes, divisions and definitions.  There is none for the blocks
    of a table, which the conversion reads but does not convert. *)
Section BlockInduction.

Variable P : block -> Prop.

Hypothesis HPara : forall c, P (Para c).
Hypothesis HPlain : forall c, P (Plain c).
Hypothesis HHeader : forall level inlines, P (Header level inlines).
Hypothesis HCodeBlock : forall code_text, P (CodeBlock code_text).
Hypothesis HBulletList :
  forall items, Forall (Forall P) items -> P (BulletList items).
Hypothesis HOrderedList :
  forall start_num items, Forall (Forall P) items ->
                          P (OrderedList start_num items).
Hypothesis HBlockQuote : forall c, Forall P c -> P (BlockQuote c).
Hypothesis HTable :
  forall caption head_rows bodies, P (Table caption head_rows bodies).
Hypothesis HHorizontalRule : P HorizontalRule.
Hypothesis HDiv : forall c, Forall P c -> P (Div c).
Hypothesis HDefinitionList :
  forall items, Forall (fun item => Forall (Forall P) (snd item)) items ->
                P (DefinitionList items).
Hypothesis HLineBlock : forall lines, P (LineBlock lines).
Hypothesis HUnknownBlock : forall t, P (UnknownBlock t).

Lemma block_nested_ind : forall b, P b.
Proof.
  exact
    (fix ind (b : block) : P b :=
       let all :=
         fix all (bs : list block) : Forall P bs :=
           match bs with
           | [] => Forall_nil P
           | b' :: bs' => Forall_cons b' (ind b') (all bs')
           end in
       let all2 :=
         fix all2 (bss : list (list block)) : Forall (Forall P) bss :=
           match bss with
           | [] => Forall_nil (Forall P)
           | bs :: bss' => Forall_cons bs (all bs) (all2 bss')
           end in
       match b with
       | Para c => HPara c
       | Plain c => HPlain c
       | Header level inlines => HHeader level inlines
       | CodeBlock code_text => HCodeBlock code_text
       | BulletList items => HBulletList (all2 items)
       | OrderedList start_num items => HOrderedList start_num (all2 items)
       | BlockQuote c => HBlockQuote (all c)
       | Table caption head_rows bodies => HTable caption head_rows bodies
       | HorizontalRule => HHorizontalRule
       | Div c => HDiv (all c)
       | DefinitionList items =>
           HDefinitionList
             ((fix alld (l : list (list inline * list (list block)))
                 : Forall (fun item => Forall (Forall P) (snd item)) l :=
                 match l with
                 | [] => Forall_nil _
                 | item :: l' => Forall_cons item (all2 (snd item)) (alld l')
                 end) items)
       | LineBlock lines => HLineBlock lines
       | UnknownBlock t => HUnknownBlock t
       end).
Qed.

End BlockInduction.

(** *** Every generated part is a paragraph element *)

Lemma is_paragraph_open rest : is_paragraph (lit "<hp:p id='" ++ rest) = true.
Proof. apply startswith_app. Qed.

Lemma make_paragraph_xml_is_paragraph text s p cpr c :
  is_paragraph (fst (make_paragraph_xml text s p cpr c)) = true.
Proof.
  unfold make_paragraph_xml. rewrite bind_run. cbn [ret fst].
  apply is_paragraph_open.
Qed.

Lemma make_equation_is_paragraph latex c :
  is_paragraph (fst (make_equation_paragraph_xml latex c)) = true.
Proof.
  unfold make_equation_paragraph_xml. rewrite bind_run. cbn [ret fst].
  apply is_paragraph_open.
Qed.

Lemma make_table_xml_is_paragraph rows col_count caption_text c :
  is_paragraph (fst (make_table_xml rows col_count caption_text c)) = true.
Proof.
  unfold make_table_xml.
  destruct caption_text as [|ch cap].
  - rewrite !bind_run. cbn [ret fst snd app join concat].
    rewrite <- !app_assoc. apply is_paragraph_open.
  - cbn [CAPTION_STYLE]. rewrite !bind_run. cbn [ret fst snd app join concat].
    unfold make_paragraph_xml at 1. rewrite bind_run. cbn [ret fst].
    rewrite <- !app_assoc. apply is_paragraph_open.
Qed.

(** The marker goes in after the opening of the paragraph. *)
Lemma replace_first_is_paragraph marker part :
  is_paragraph part = true ->
  is_paragraph (replace_first (lit "<hp:t>") (lit "<hp:t>" ++ marker) part)
  = true.
Proof.
  intros H. apply startswith_inv in H. rewrite H.
  generalize (skipn (length (lit "<hp:p id='")) part). intros rest.
  reflexivity.
Qed.

Lemma mark_first_is_paragraph marker parts :
  Forall (fun p => is_paragraph p = true) parts ->
  Forall (fun p => is_paragraph p = true) (mark_first marker parts).
Proof.
  intros H. destruct H as [|p parts Hp Hps]; [constructor|].
  cbn [mark_first]. constructor; [|assumption].
  now apply replace_first_is_paragraph.
Qed.

(** What holds of the parts of every step holds of the parts of the loop. *)
Lemma extend_each_Forall {A} (Q : pystr -> Prop) (f : A -> M (list pystr)) l :
  Forall (fun a => forall c, Forall Q (fst (f a c))) l ->
  forall c, Forall Q (fst (extend_each f l c)).
Proof.
  induction 1 as [|a l Ha Hl IH]; intros c; cbn [extend_each].
  - constructor.
  - rewrite !bind_run. cbn [ret fst]. apply Forall_app. split; [apply Ha|apply IH].
Qed.

Lemma extend_each_idx_Forall {A} (Q : pystr -> Prop)
    (f : Z -> A -> M (list pystr)) l :
  Forall (fun a => forall i c, Forall Q (fst (f i a c))) l ->
  forall i c, Forall Q (fst (extend_each_idx f i l c)).
Proof.
  induction 1 as [|a l Ha Hl IH]; intros i c; cbn [extend_each_idx].
  - constructor.
  - rewrite !bind_run. cbn [ret fst]. apply Forall_app. split; [apply Ha|apply IH].
Qed.

Lemma convert_block_paragraphs b : forall indent_level c,
  Forall (fun p => is_paragraph p = true) (fst (convert_block indent_level b c)).
Proof.
  induction b using block_nested_ind; intros indent_level counter.
  - (* Para *)
    cbn [convert_block].
    destruct c as [|[] [|]]; rewrite bind_run; cbn [ret fst];
      (constructor; [|constructor]);
      auto using make_paragraph_xml_is_paragraph, make_equation_is_paragraph.
  - cbn [convert_block].
    destruct c as [|[] [|]]; rewrite bind_run; cbn [ret fst];
      (constructor; [|constructor]);
      auto using make_paragraph_xml_is_paragraph, make_equation_is_paragraph.
  - cbn [convert_block]. destruct (heading_style level) as [[sid pid] cid].
    rewrite bind_run; cbn [ret fst].
    constructor; [apply make_paragraph_xml_is_paragraph | constructor].
  - cbn [convert_block]. apply extend_each_Forall.
    apply Forall_forall. intros line _ c.
    rewrite bind_run; cbn [ret fst].
    constructor; [apply make_paragraph_xml_is_paragraph | constructor].
  - cbn [convert_block]. apply extend_each_Forall.
    eapply Forall_impl; [|exact H]. intros item_blocks Hitem c.
    rewrite bind_run; cbn [ret fst]. apply mark_first_is_paragraph.
    apply extend_each_Forall.
    eapply Forall_impl; [|exact Hitem]. auto.
  - cbn [convert_block]. apply extend_each_idx_Forall.
    eapply Forall_impl; [|exact H]. intros item_blocks Hitem i c.
    rewrite bind_run; cbn [ret fst]. apply mark_first_is_paragraph.
    apply extend_each_Forall.
    eapply Forall_impl; [|exact Hitem]. auto.
  - cbn [convert_block]. apply extend_each_Forall.
    eapply Forall_impl; [|exact H]. auto.
  - cbn [convert_block].
    destruct (table_grid head_rows bodies) as [all_rows col_count].
    destruct all_rows; [constructor|].
    destruct (0 <? col_count)%nat; [|constructor].
    rewrite bind_run; cbn [ret fst].
    constructor; [apply make_table_xml_is_paragraph | constructor].
  - cbn [convert_block]. rewrite bind_run; cbn [ret fst].
    constructor; [apply make_paragraph_xml_is_paragraph | constructor].
  - cbn [convert_block]. apply extend_each_Forall.
    eapply Forall_impl; [|exact H]. auto.
  - cbn [convert_block]. apply extend_each_Forall.
    eapply Forall_impl; [|exact H]. intros item Hitem c.
    rewrite !bind_run; cbn [ret fst]. constructor.
    + apply make_paragraph_xml_is_paragraph.
    + apply extend_each_Forall.
      eapply Forall_impl; [|exact Hitem]. intros def_blocks Hdef c'.
      apply extend_each_Forall.
      eapply Forall_impl; [|exact Hdef]. auto.
  - cbn [convert_block]. apply extend_each_Forall.
    apply Forall_forall. intros line _ c.
    rewrite bind_run; cbn [ret fst].
    constructor; [apply make_paragraph_xml_is_paragraph | constructor].
  - constructor.
Qed.

Lemma convert_blocks_paragraphs blocks indent_level c :
  Forall (fun p => is_paragraph p = true)
         (fst (convert_blocks blocks indent_level c)).
Proof.
  unfold convert_blocks. apply extend_each_Forall.
  apply Forall_forall. intros b _. apply convert_block_paragraphs.
Qed.

Lemma append_if_paragraphs cond p parts c :
  (forall c', is_paragraph (fst (p c')) = true) ->
  Forall (fun x => is_paragraph x = true) parts ->
  Forall (fun x => is_paragraph x = true) (fst (append_if cond p parts c)).
Proof.
  intros Hp Hparts. unfold append_if. destruct cond; [|exact Hparts].
  rewrite bind_run. cbn [ret fst]. apply Forall_app. split; [exact Hparts|].
  constructor; [apply Hp | constructor].
Qed.

Lemma title_block_paragraphs title subtitle author date_str c :
  Forall (fun p => is_paragraph p = true)
         (fst (build_title_block_xml title subtitle author date_str c)).
Proof.
  unfold build_title_block_xml. rewrite !bind_run.
  repeat (apply append_if_paragraphs;
          [intros; apply make_paragraph_xml_is_paragraph|]).
  constructor.
Qed.

(** The generated paragraphs, step by step. *)
Lemma section_content_run blocks title subtitle author date_str c :
  let tb := build_title_block_xml title subtitle author date_str c in
  let cp := convert_blocks blocks O (snd tb) in
  section_content blocks title subtitle author date_str c
  = if negb (nonempty (fst tb)) && negb (nonempty (fst cp))
    then ((fst tb, [fst (make_paragraph_xml [] 0 0 0 (snd cp))]),
          snd (make_paragraph_xml [] 0 0 0 (snd cp)))
    else ((fst tb, fst cp), snd cp).
Proof.
  intros tb cp. unfold section_content. rewrite !bind_run. fold tb. fold cp.
  destruct (negb (nonempty (fst tb)) && negb (nonempty (fst cp)));
    rewrite ?bind_run; reflexivity.
Qed.

(** The paragraph without text, as the source writes it. *)
Lemma empty_paragraph_xml c :
  make_paragraph_xml [] 0 0 0 c
  = (lit "<hp:p id='" ++ str_of_int (c + 1)
     ++ lit "' paraPrIDRef='0' styleIDRef='0' pageBreak='0' columnBreak='0' merged='0'><hp:run charPrIDRef='0'><hp:t></hp:t></hp:run><hp:linesegarray><hp:lineseg textpos='0' vertpos='0' vertsize='1000' textheight='1000' baseline='850' spacing='600' horzpos='0' horzsize='42520' flags='393216'/></hp:linesegarray></hp:p>",
     c + 1).
Proof.
  unfold make_paragraph_xml, next_para_id. rewrite bind_run. cbn [ret fst snd].
  f_equal. f_equal. f_equal. vm_compute. reflexivity.
Qed.

(** C10: the section builder always generates at least one part, and every
    part it generates is a paragraph element.  When the metadata gives no
    title block and the blocks convert to no element, the generated content
    is exactly one paragraph, the one [make_paragraph_xml] builds for the
    empty text, and the section is the opening of the skeleton's section,
    its first paragraph, that empty paragraph and the closing tag. *)
Theorem C10_section_never_empty
    (original : pystr) (blocks : list block)
    (title subtitle author date_str : pystr) (counter : Z) :
  let tb := build_title_block_xml title subtitle author date_str counter in
  let cp := convert_blocks blocks O (snd tb) in
  let generated :=
    fst (section_content blocks title subtitle author date_str counter) in
  nonempty (fst generated ++ snd generated) = true
  /\ Forall (fun p => is_paragraph p = true) (fst generated ++ snd generated)
  /\ (fst tb = [] -> fst cp = [] ->
      generated = ([], [fst (make_paragraph_xml [] 0 0 0 (snd cp))])
      /\ forall xml_header_and_open first_paragraph,
           section_frame original = Some (xml_header_and_open, first_paragraph) ->
           option_map (fun m => fst (m counter))
             (build_section_xml original blocks title subtitle author date_str)
           = Some (xml_header_and_open ++ first_paragraph
                   ++ fst (make_paragraph_xml [] 0 0 0 (snd cp))
                   ++ lit "</hs:sec>")).
Proof.
  intros tb cp generated. subst generated.
  pose proof (section_content_run blocks title subtitle author date_str counter)
    as Hrun. cbv zeta in Hrun. fold tb in Hrun. fold cp in Hrun.
  pose proof (title_block_paragraphs title subtitle author date_str counter)
    as Htb. fold tb in Htb.
  pose proof (convert_blocks_paragraphs blocks O (snd tb)) as Hcp. fold cp in Hcp.
  split; [|split].
  - rewrite Hrun.
    destruct (fst tb) as [|t0 tb'], (fst cp) as [|p0 cp']; reflexivity.
  - rewrite Hrun.
    destruct (negb (nonempty (fst tb)) && negb (nonempty (fst cp)));
      cbn [fst snd]; apply Forall_app; split; auto;
      try (constructor; [apply make_paragraph_xml_is_paragraph | constructor]).
  - intros Et Ec. rewrite Et, Ec in Hrun. cbn [nonempty negb andb] in Hrun.
    split; [now rewrite Hrun|].
    intros hdr first Hframe. unfold build_section_xml. rewrite Hframe.
    cbn [option_map]. rewrite bind_run, Hrun. cbn [ret fst snd join concat].
    now rewrite !app_nil_r.
Qed.

Lemma C10_section_never_empty_witness :
  fst (section_content [] [] [] [] [] PARA_ID_START)
  = ([], [fst (make_paragraph_xml [] 0 0 0 PARA_ID_START)]).
Proof.
  apply (C10_section_never_empty [] [] [] [] [] [] PARA_ID_START);
    reflexivity.
Defined.

(** ** Occurrences and replacement *)

Lemma skipn_app_lt {A} (x y : list A) k :
  (k <= length x)%nat -> skipn k (x ++ y) = skipn k x ++ y.
Proof.
  intros H. rewrite skipn_app. replace (k - length x)%nat with O by lia.
  reflexivity.
Qed.

Lemma skipn_app_ge {A} (x y : list A) k :
  (length x <= k)%nat -> skipn k (x ++ y) = skipn (k - length x) y.
Proof.
  intros H. rewrite skipn_app, skipn_all2 by lia. reflexivity.
Qed.

Lemma absent_nil c old : absent (c :: old) [].
Proof. intros k. now rewrite skipn_nil. Qed.

Lemma absent_tail old x y : absent old (x ++ y) -> absent old y.
Proof.
  intros H k. specialize (H (length x + k)%nat).
  rewrite skipn_app_ge in H by lia.
  now replace (length x + k - length x)%nat with k in H by lia.
Qed.

Lemma startswith_app_l old : forall u y,
  startswith old u = true -> startswith old (u ++ y) = true.
Proof.
  induction old as [|a old IH]; intros u y H; [reflexivity|].
  destruct u as [|b u]; [discriminate|]. simpl in *.
  apply andb_true_iff in H as [H1 H2]. rewrite H1. now apply IH.
Qed.

Lemma absent_head old x y : absent old (x ++ y) -> absent old x.
Proof.
  intros H k. destruct (Nat.le_gt_cases k (length x)) as [Hk|Hk].
  - specialize (H k). rewrite skipn_app_lt in H by assumption.
    destruct (startswith old (skipn k x)) eqn:E; [|reflexivity].
    now rewrite (startswith_app_l _ _ _ E) in H.
  - rewrite skipn_all2 by lia.
    specialize (H (length x + length y + 1)%nat).
    rewrite skipn_all2 in H by (rewrite length_app; lia). exact H.
Qed.

(** [str_index] finds nothing exactly when there is nothing to find. *)
Lemma str_index_None old s : str_index old s = None <-> absent old s.
Proof.
  induction s as [|c s IH].
  - cbn [str_index]. destruct (startswith old []) eqn:E.
    + split; [discriminate|]. intros H. specialize (H O). simpl in H. congruence.
    + split; [|reflexivity]. intros _ k. now rewrite skipn_nil.
  - cbn [str_index]. destruct (startswith old (c :: s)) eqn:E.
    + split; [discriminate|]. intros H. specialize (H O). simpl in H. congruence.
    + destruct (str_index old s) as [k|] eqn:Ei.
      * split; [discriminate|]. intros H.
        assert (Hs : absent old s) by (intros k'; apply (H (S k'))).
        apply IH in Hs. discriminate.
      * split; [|reflexivity]. intros _ [|k]; [exact E|].
        simpl. now apply IH.
Qed.

(** A clash within [u] rules a match out, whatever follows [u]. *)
Lemma clashes_sound old : forall u y,
  clashes old u = true -> startswith old (u ++ y) = false.
Proof.
  induction old as [|a old IH]; intros [|b u] y H; try discriminate.
  simpl in *. destruct (a =? b); [|reflexivity].
  simpl in *. now apply IH.
Qed.

Lemma clashes_everywhere_sound old x :
  clashes_everywhere old x = true -> closed_for old x.
Proof.
  induction x as [|c x IH]; intros H y k Hk; [simpl in Hk; lia|].
  cbn [clashes_everywhere] in H. apply andb_true_iff in H as [H1 H2].
  destruct k as [|k].
  - exact (clashes_sound old (c :: x) y H1).
  - simpl. apply IH; [assumption | simpl in Hk; lia].
Qed.

(** A text without the first character of [old] is closed for it. *)
Lemma closed_for_without c old x :
  Forall (fun a => a <> c) x -> closed_for (c :: old) x.
Proof.
  intros Hx y k Hk. rewrite skipn_app_lt by lia.
  assert (Hin : Forall (fun a => a <> c) (skipn k x)).
  { apply Forall_forall. intros a Ha.
    rewrite Forall_forall in Hx. apply Hx.
    rewrite <- (firstn_skipn k x). apply in_or_app. now right. }
  destruct (skipn k x) as [|b u] eqn:E.
  - apply (f_equal (@length _)) in E. rewrite length_skipn in E. simpl in E. lia.
  - inversion_clear Hin as [|? ? Hb _]. simpl.
    apply Z.eqb_neq in Hb. rewrite Z.eqb_sym in Hb. now rewrite Hb.
Qed.

Lemma closed_for_nil old : closed_for old [].
Proof. intros y k Hk. simpl in Hk. lia. Qed.

Lemma closed_for_app old x1 x2 :
  closed_for old x1 -> closed_for old x2 -> closed_for old (x1 ++ x2).
Proof.
  intros H1 H2 y k Hk. rewrite <- app_assoc.
  destruct (Nat.lt_ge_cases k (length x1)) as [Hlt|Hge].
  - now apply H1.
  - rewrite skipn_app_ge by assumption. apply H2.
    rewrite length_app in Hk. lia.
Qed.

(** An occurrence that starts in [x] ends in [x] when what follows [x]
    starts with the first character of [old] and [old] has that character
    nowhere else. *)
Lemma startswith_confined c old : forall u y,
  Forall (fun a => a <> c) old ->
  startswith old (u ++ c :: y) = true -> startswith old u = true.
Proof.
  induction old as [|a old IH]; intros u y Hold H; [reflexivity|].
  inversion_clear Hold as [|? ? Ha Hold'].
  destruct u as [|b u]; simpl in *.
  - apply andb_true_iff in H as [H _]. apply Z.eqb_eq in H. congruence.
  - apply andb_true_iff in H as [H1 H2]. rewrite H1. simpl. eauto.
Qed.

Lemma absent_closed_for c old x y :
  Forall (fun a => a <> c) old ->
  absent (c :: old) x ->
  forall k, (k < length x)%nat ->
            startswith (c :: old) (skipn k (x ++ c :: y)) = false.
Proof.
  intros Hold Hx k Hk. rewrite skipn_app_lt by lia.
  specialize (Hx k).
  destruct (skipn k x) as [|b u] eqn:E.
  - apply (f_equal (@length _)) in E. rewrite length_skipn in E. simpl in E. lia.
  - simpl in *. destruct (c =? b); [|reflexivity]. simpl in *.
    destruct (startswith old (u ++ c :: y)) eqn:Es; [|reflexivity].
    apply startswith_confined in Es; [congruence|assumption].
Qed.

(** Occurrences in a concatenation whose second part starts with the first
    character of [old]. *)
Lemma absent_app c old x y :
  Forall (fun a => a <> c) old ->
  absent (c :: old) x -> absent (c :: old) (c :: y) ->
  absent (c :: old) (x ++ c :: y).
Proof.
  intros Hold Hx Hy k.
  destruct (Nat.lt_ge_cases k (length x)) as [Hlt|Hge].
  - now apply absent_closed_for.
  - rewrite skipn_app_ge by assumption. apply Hy.
Qed.

Lemma closed_for_absent old x y :
  closed_for old x -> absent old y -> absent old (x ++ y).
Proof.
  intros Hx Hy k.
  destruct (Nat.lt_ge_cases k (length x)) as [Hlt|Hge].
  - now apply Hx.
  - rewrite skipn_app_ge by assumption. apply Hy.
Qed.

(** *** [replace_first] *)

Lemma replace_first_prefix old new x z :
  (forall k, (k < length x)%nat -> startswith old (skipn k (x ++ z)) = false) ->
  replace_first old new (x ++ z) = x ++ replace_first old new z.
Proof.
  induction x as [|c x IH]; intros H; [reflexivity|].
  cbn [app replace_first].
  pose proof (H O) as H0. cbn [skipn app] in H0. rewrite H0 by (simpl; lia).
  rewrite IH; [reflexivity|].
  intros k Hk. apply (H (S k)). simpl. lia.
Qed.

Lemma replace_first_here old new y :
  replace_first old new (old ++ y) = new ++ y.
Proof.
  destruct (old ++ y) as [|c s] eqn:E; cbn [replace_first]; rewrite <- E;
    rewrite startswith_app, skipn_app_ge, Nat.sub_diag by lia; reflexivity.
Qed.

Lemma replace_first_absent old new s :
  absent old s -> replace_first old new s = s.
Proof.
  induction s as [|c s IH]; intros H; cbn [replace_first];
    pose proof (H O) as H0; cbn [skipn] in H0; rewrite H0; [reflexivity|].
  f_equal. apply IH. intros k. apply (H (S k)).
Qed.

(** The first occurrence of [old] is replaced when no occurrence can start
    before it. *)
Lemma replace_first_closed old new x y :
  closed_for old x ->
  replace_first old new (x ++ old ++ y) = x ++ new ++ y.
Proof.
  intros H. rewrite replace_first_prefix by (intros; now apply H).
  now rewrite replace_first_here.
Qed.

(** *** [re_sub] and [str_replace] *)

Lemma sub_scan_skip m n : forall s,
  (n <= length s)%nat -> sub_scan m s n = sub_scan m (skipn n s) O.
Proof.
  induction n as [|n IH]; intros s H; [reflexivity|].
  destruct s as [|c s]; [simpl in H; lia|].
  cbn [sub_scan skipn]. apply IH. simpl in H. lia.
Qed.

Lemma re_sub_prefix m x z :
  (forall k, (k < length x)%nat -> m (skipn k (x ++ z)) = None) ->
  re_sub m (x ++ z) = x ++ re_sub m z.
Proof.
  unfold re_sub. induction x as [|c x IH]; intros H; [reflexivity|].
  cbn [app sub_scan].
  pose proof (H O) as H0. cbn [skipn app] in H0. rewrite H0 by (simpl; lia).
  rewrite IH; [reflexivity|].
  intros k Hk. apply (H (S k)). simpl. lia.
Qed.

Lemma re_sub_here m s r n :
  m s = Some (r, n) -> (0 < n <= length s)%nat ->
  re_sub m s = r ++ re_sub m (skipn n s).
Proof.
  intros Hm Hn. unfold re_sub.
  destruct s as [|c s]; [simpl in Hn; lia|].
  cbn [sub_scan]. rewrite Hm. f_equal.
  destruct n as [|n]; [lia|]. cbn [Nat.pred skipn].
  apply sub_scan_skip. simpl in Hn. lia.
Qed.

Lemma re_sub_none m s :
  (forall k, m (skipn k s) = None) -> re_sub m s = s.
Proof.
  intros H. rewrite <- (app_nil_r s) at 1.
  rewrite re_sub_prefix; [now rewrite app_nil_r|].
  intros k _. rewrite app_nil_r. apply H.
Qed.

Lemma str_replace_absent_all old new s :
  absent old s -> str_replace old new s = s.
Proof.
  intros H. apply re_sub_none. intros k. unfold m_literal. now rewrite H.
Qed.

(** One occurrence, and none that starts before it or comes after it. *)
Lemma str_replace_once c old new x y :
  (forall k, (k < length x)%nat ->
             startswith (c :: old) (skipn k (x ++ (c :: old) ++ y)) = false) ->
  absent (c :: old) y ->
  str_replace (c :: old) new (x ++ (c :: old) ++ y) = x ++ new ++ y.
Proof.
  intros Hx Hy. unfold str_replace.
  rewrite re_sub_prefix
    by (intros k Hk; unfold m_literal; now rewrite Hx).
  f_equal.
  rewrite (@re_sub_here _ _ new (length (c :: old))).
  - rewrite skipn_app_ge, Nat.sub_diag by lia. cbn [skipn]. f_equal.
    now apply str_replace_absent_all.
  - unfold m_literal. now rewrite startswith_app.
  - rewrite length_app. simpl. lia.
Qed.

(** ** Ordered lists *)

Lemma string_of_uint_digits d :
  Forall is_int_char
         (map ord8 (list_ascii_of_string (NilEmpty.string_of_uint d))).
Proof.
  induction d; simpl; constructor; auto; right; vm_compute; split; discriminate.
Qed.

Lemma str_of_int_chars n : Forall is_int_char (str_of_int n).
Proof.
  unfold str_of_int, NilZero.string_of_int, NilZero.string_of_uint.
  destruct (Z.to_int n) as [d|d].
  - destruct d; try apply string_of_uint_digits.
    simpl. constructor; [right; vm_compute; split; discriminate | constructor].
  - cbn [list_ascii_of_string map]. constructor; [now left|].
    destruct d; try apply string_of_uint_digits.
    simpl. constructor; [right; vm_compute; split; discriminate | constructor].
Qed.

Lemma str_of_int_no_lt n : Forall (fun a => a <> 60) (str_of_int n).
Proof.
  eapply Forall_impl; [|apply str_of_int_chars].
  intros a [->|[H1 H2]]; [discriminate | lia].
Qed.

(** The text run of a paragraph is where its first [<hp:t>] is. *)
Lemma paragraph_open_closed pid para_pr_id style_id char_pr_id :
  Forall (fun a => a <> 60) pid ->
  closed_for (lit "<hp:t>")
    (lit "<hp:p id='" ++ pid ++ lit "' paraPrIDRef='" ++ str_of_int para_pr_id
     ++ lit "' styleIDRef='" ++ str_of_int style_id
     ++ lit "' pageBreak='0' columnBreak='0' merged='0'>"
     ++ lit "<hp:run charPrIDRef='" ++ str_of_int char_pr_id ++ lit "'>").
Proof.
  intros Hpid.
  assert (Hfree : forall x, Forall (fun a => a <> 60) x ->
                            closed_for (lit "<hp:t>") x)
    by (intros x Hx; exact (@closed_for_without 60 (lit "hp:t>") x Hx)).
  assert (Hint : forall n, closed_for (lit "<hp:t>") (str_of_int n))
    by (intros n; apply Hfree, str_of_int_no_lt).
  apply closed_for_app; [apply clashes_everywhere_sound; reflexivity|].
  apply closed_for_app; [apply Hfree; exact Hpid|].
  apply closed_for_app; [apply clashes_everywhere_sound; reflexivity|].
  apply closed_for_app; [apply Hint|].
  apply closed_for_app; [apply clashes_everywhere_sound; reflexivity|].
  apply closed_for_app; [apply Hint|].
  apply closed_for_app; [apply clashes_everywhere_sound; reflexivity|].
  apply closed_for_app; [apply clashes_everywhere_sound; reflexivity|].
  apply closed_for_app; [apply Hint|].
  apply clashes_everywhere_sound; reflexivity.
Qed.

Lemma make_paragraph_xml_run text style_id para_pr_id char_pr_id c :
  make_paragraph_xml text style_id para_pr_id char_pr_id c
  = (paragraph_with_run (str_of_int (c + 1)) (safe_text_of text) text
                        style_id para_pr_id char_pr_id,
     c + 1).
Proof.
  unfold make_paragraph_xml, next_para_id, paragraph_with_run, safe_text_of.
  rewrite bind_run. cbn [ret fst snd]. f_equal.
  change (lit "'><hp:t>") with (lit "'>" ++ lit "<hp:t>").
  now rewrite <- !app_assoc.
Qed.

(** A marker put in front of the text of a paragraph extends its text run
    and changes nothing else. *)
Lemma mark_paragraph marker pid run_text text style_id para_pr_id char_pr_id :
  Forall (fun a => a <> 60) pid ->
  replace_first (lit "<hp:t>") (lit "<hp:t>" ++ marker)
    (paragraph_with_run pid run_text text style_id para_pr_id char_pr_id)
  = paragraph_with_run pid (marker ++ run_text) text
                       style_id para_pr_id char_pr_id.
Proof.
  intros Hpid. unfold paragraph_with_run.
  rewrite replace_first_closed by now apply paragraph_open_closed.
  now rewrite <- !app_assoc.
Qed.

(** *** The running number *)

Lemma extend_each_idx_ext {A} (f g : Z -> A -> M (list pystr)) l :
  (forall i a c, f i a c = g i a c) ->
  forall i c, extend_each_idx f i l c = extend_each_idx g i l c.
Proof.
  intros Hfg. induction l as [|a l IH]; intros i c; [reflexivity|].
  cbn [extend_each_idx]. rewrite !bind_run, Hfg, IH. reflexivity.
Qed.

Lemma extend_each_idx_shift {A} (f : Z -> A -> M (list pystr)) l :
  forall i c,
    extend_each_idx f (i + 1) l c
    = extend_each_idx (fun j => f (j + 1)) i l c.
Proof.
  induction l as [|a l IH]; intros i c; [reflexivity|].
  cbn [extend_each_idx]. rewrite !bind_run, IH. reflexivity.
Qed.

Lemma ordered_list_nil indent_level start_num c :
  convert_block indent_level (OrderedList start_num []) c = ([], c).
Proof. reflexivity. Qed.

Lemma ordered_list_cons indent_level start_num item_blocks items c :
  convert_block indent_level (OrderedList start_num (item_blocks :: items)) c
  = let r1 := convert_blocks item_blocks indent_level c in
    let r2 := convert_block indent_level (OrderedList (start_num + 1) items)
                            (snd r1) in
    (mark_first (number_marker start_num) (fst r1) ++ fst r2, snd r2).
Proof.
  cbn [convert_block extend_each_idx]. rewrite !bind_run. cbn [ret fst snd].
  fold (convert_blocks item_blocks indent_level).
  rewrite Z.add_0_r.
  rewrite (extend_each_idx_shift _ items 0).
  rewrite (@extend_each_idx_ext _ _
             (fun idx item_blocks0 =>
                item_parts <- extend_each (convert_block indent_level)
                                          item_blocks0 ;;
                ret (mark_first (number_marker (start_num + 1 + idx))
                                item_parts)))
    by (intros i a c'; rewrite !bind_run; cbn [ret];
        now replace (start_num + (i + 1)) with (start_num + 1 + i) by lia).
  reflexivity.
Qed.

Lemma str_index_startswith old s k :
  str_index old s = Some k -> startswith old (skipn k s) = true.
Proof.
  revert k. induction s as [|c s IH]; intros k; cbn [str_index].
  - destruct (startswith old []) eqn:E; [|discriminate].
    intros [= <-]. exact E.
  - destruct (startswith old (c :: s)) eqn:E.
    + intros [= <-]. exact E.
    + destruct (str_index old s) as [j|]; [|discriminate].
      intros [= <-]. simpl. now apply IH.
Qed.

(** [replace_first] rewrites the occurrence [str_index] finds. *)
Lemma replace_first_index old new s k :
  str_index old s = Some k ->
  replace_first old new s
  = firstn k s ++ new ++ skipn (k + length old) s.
Proof.
  revert k. induction s as [|c s IH]; intros k; cbn [str_index replace_first].
  - destruct (startswith old []) eqn:E; [|discriminate].
    intros [= <-]. reflexivity.
  - destruct (startswith old (c :: s)) eqn:E.
    + intros [= <-]. reflexivity.
    + destruct (str_index old s) as [j|] eqn:Ej; [|discriminate].
      intros [= <-]. simpl. f_equal. now apply IH.
Qed.

Lemma convert_para_text indent_level c counter :
  (forall latex_str, c <> [Math latex_str]) ->
  convert_block indent_level (Para c) counter
  = ([fst (make_paragraph_xml
             (str_repeat 12288 indent_level ++ extract_text c) 0 0 0 counter)],
     counter + 1).
Proof.
  intros Hc. cbn [convert_block].
  assert (E : forall text, (p <- make_paragraph_xml text 0 0 0 ;; ret [p]) counter
                           = ([fst (make_paragraph_xml text 0 0 0 counter)],
                              counter + 1))
    by (intros text; rewrite bind_run, make_paragraph_xml_run; reflexivity).
  destruct c as [|x [|y c']]; [apply E | | destruct x; cbv iota; apply E].
  destruct x; cbv iota;
    lazymatch goal with
    | |- context [make_equation_paragraph_xml ?t] =>
        exfalso; now apply (Hc t)
    | _ => apply E
    end.
Qed.

(** ** Style catalog patcher *)

Lemma span_run (p : Z -> bool) ws c r :
  Forall (fun a => p a = true) ws -> p c = false ->
  span p (ws ++ c :: r) = (ws, c :: r).
Proof.
  intros Hws Hc. induction Hws as [|a ws Ha Hws IH]; simpl.
  - now rewrite Hc.
  - now rewrite Ha, IH.
Qed.

Lemma expect_app p r : expect p (p ++ r) = Some r.
Proof.
  unfold expect. rewrite startswith_app.
  now rewrite skipn_app_ge, Nat.sub_diag by lia.
Qed.

Lemma expect_None p s : startswith p s = false -> expect p s = None.
Proof. unfold expect. now intros ->. Qed.

(** The pattern of the item count matches at the opening tag of the
    catalog. *)
Lemma m_itemcnt_here tag old new ws rest :
  ws <> [] -> Forall (fun a => is_space a = true) ws ->
  m_itemcnt tag old new (tag ++ ws ++ item_count_attr old ++ rest)
  = Some (tag ++ ws ++ item_count_attr new,
          length (tag ++ ws ++ item_count_attr old)).
Proof.
  intros Hne Hws. unfold m_itemcnt. rewrite expect_app.
  assert (Hi : exists t, item_count_attr old ++ rest = 105 :: t)
    by (eexists; reflexivity).
  destruct Hi as [t Et]. rewrite Et, span_run by (auto; reflexivity).
  destruct ws as [|w ws']; [congruence|].
  rewrite <- Et.
  change (lit "itemCnt='" ++ old ++ lit "'") with (item_count_attr old).
  rewrite expect_app. f_equal. f_equal.
  unfold consumed. rewrite !length_app. lia.
Qed.

Section CatalogAppend.

(** The opening tag and the closing tag of the catalog, each a [<] followed
    by text without another [<]; the old and the new item count; and the
    new entries, which start with [<] and do not contain the opening tag. *)
Variables tag' marker' old new added' : pystr.
Hypothesis Htag : Forall (fun a => a <> 60) tag'.
Hypothesis Hmarker : Forall (fun a => a <> 60) marker'.
Hypothesis Hadded : absent (60 :: tag') (60 :: added').

Lemma catalog_append pre ws attrs body post :
  ws <> [] -> Forall (fun a => is_space a = true) ws ->
  absent (60 :: marker')
         (pre ++ (60 :: tag') ++ ws ++ item_count_attr old ++ attrs ++ body) ->
  absent (60 :: marker') post ->
  absent (60 :: tag') pre ->
  absent (60 :: tag')
         (ws ++ item_count_attr old ++ attrs ++ body ++ (60 :: marker') ++ post) ->
  re_sub (m_itemcnt (60 :: tag') old new)
    (str_replace (60 :: marker') ((60 :: added') ++ 60 :: marker')
       (pre ++ (60 :: tag') ++ ws ++ item_count_attr old ++ attrs ++ body
        ++ (60 :: marker') ++ post))
  = pre ++ (60 :: tag') ++ ws ++ item_count_attr new ++ attrs ++ body
    ++ (60 :: added') ++ (60 :: marker') ++ post.
Proof.
  intros Hne Hws Hm1 Hm2 Ht1 Ht2.
  set (tag := 60 :: tag') in *. set (marker := 60 :: marker') in *.
  set (added := 60 :: added') in *.
  (* the closing tag is replaced where it stands *)
  assert (E1 : str_replace marker (added ++ marker)
                 (pre ++ tag ++ ws ++ item_count_attr old ++ attrs ++ body
                  ++ marker ++ post)
               = pre ++ tag ++ ws ++ item_count_attr old ++ attrs ++ body
                 ++ added ++ marker ++ post).
  { replace (pre ++ tag ++ ws ++ item_count_attr old ++ attrs ++ body
             ++ marker ++ post)
      with ((pre ++ tag ++ ws ++ item_count_attr old ++ attrs ++ body)
            ++ marker ++ post)
      by (now rewrite <- !app_assoc).
    subst marker. rewrite str_replace_once; auto.
    - now rewrite <- !app_assoc.
    - intros k Hk. now apply absent_closed_for. }
  rewrite E1. clear E1.
  (* the item count is rewritten in the opening tag and nowhere else *)
  assert (Hrest : absent tag (attrs ++ body ++ added ++ marker ++ post)).
  { assert (H0 : absent tag (attrs ++ body ++ marker ++ post)).
    { apply absent_tail with (x := ws ++ item_count_attr old).
      now rewrite <- !app_assoc. }
    assert (HU : absent tag (attrs ++ body)).
    { apply absent_head with (y := marker ++ post).
      now rewrite <- !app_assoc. }
    assert (HV : absent tag (marker ++ post)).
    { apply absent_tail with (x := attrs ++ body).
      now rewrite <- !app_assoc. }
    replace (attrs ++ body ++ added ++ marker ++ post)
      with ((attrs ++ body) ++ added ++ marker ++ post)
      by (now rewrite <- !app_assoc).
    subst tag added marker.
    change ((60 :: added') ++ (60 :: marker') ++ post)
      with (60 :: (added' ++ 60 :: (marker' ++ post))).
    apply absent_app; auto.
    change (60 :: added' ++ 60 :: marker' ++ post)
      with ((60 :: added') ++ 60 :: (marker' ++ post)).
    apply absent_app; auto. }
  rewrite re_sub_prefix.
  2:{ intros k Hk. unfold m_itemcnt. rewrite expect_None; [reflexivity|].
      subst tag. now apply absent_closed_for. }
  f_equal.
  rewrite (re_sub_here _ _ (m_itemcnt_here tag old new
                              (attrs ++ body ++ added ++ marker ++ post)
                              Hne Hws)).
  2:{ rewrite !length_app. subst tag. simpl. lia. }
  replace (tag ++ ws ++ item_count_attr old ++ attrs ++ body ++ added
           ++ marker ++ post)
    with ((tag ++ ws ++ item_count_attr old)
          ++ attrs ++ body ++ added ++ marker ++ post)
    by (now rewrite <- !app_assoc).
  rewrite skipn_app_ge, Nat.sub_diag by lia. cbn [skipn].
  rewrite re_sub_none.
  - now rewrite <- !app_assoc.
  - intros k. unfold m_itemcnt. now rewrite expect_None.
Qed.

End CatalogAppend.

Lemma is_None_true {A} (o : option A) : is_None o = true -> o = None.
Proof. destruct o; [discriminate | reflexivity]. Qed.

(** What [single_catalog] checks, as propositions. *)
Lemma single_catalog_spec tag marker pre ws count attrs entries post :
  single_catalog tag marker pre ws count attrs entries post = true ->
  ws <> [] /\ Forall (fun a => is_space a = true) ws
  /\ absent marker (pre ++ tag ++ ws ++ item_count_attr (str_of_int count)
                    ++ attrs ++ join entries)
  /\ absent marker post
  /\ absent tag pre
  /\ absent tag (ws ++ item_count_attr (str_of_int count) ++ attrs
                 ++ join entries ++ marker ++ post).
Proof.
  unfold single_catalog. intros H.
  repeat (apply andb_true_iff in H as [H ?]).
  repeat split; try (apply str_index_None; now apply is_None_true).
  - destruct ws; [discriminate | congruence].
  - apply Forall_forall. now apply forallb_forall.
Qed.

Lemma add_heading_charprs_unfold header_xml :
  add_heading_charprs header_xml
  = re_sub (m_itemcnt CHARPR_TAG (lit "7") (lit "11"))
      (str_replace CHARPR_MARKER (join new_charpr_entries ++ CHARPR_MARKER)
                   header_xml).
Proof.
  unfold add_heading_charprs, new_charpr_entries, join.
  rewrite concat_app. cbn [concat]. rewrite app_nil_r. reflexivity.
Qed.

Lemma add_table_borderfill_unfold header_xml :
  add_table_borderfill header_xml
  = re_sub (m_itemcnt BORDERFILL_TAG (lit "2") (lit "3"))
      (str_replace BORDERFILL_MARKER
                   (join new_borderfill_entries ++ BORDERFILL_MARKER)
                   header_xml).
Proof.
  unfold add_table_borderfill, new_borderfill_entries, join.
  cbn [concat]. rewrite app_nil_r. reflexivity.
Qed.

(** The new entries start with [<] and contain no opening tag of their
    catalog. *)
Lemma new_charpr_shape :
  join new_charpr_entries = 60 :: skipn 1 (join new_charpr_entries)
  /\ str_index CHARPR_TAG (join new_charpr_entries) = None.
Proof. split; vm_compute; reflexivity. Qed.

Lemma new_borderfill_shape :
  join new_borderfill_entries = 60 :: skipn 1 (join new_borderfill_entries)
  /\ str_index BORDERFILL_TAG (join new_borderfill_entries) = None.
Proof. split; vm_compute; reflexivity. Qed.

Lemma charpr_append pre ws attrs entries post :
  single_catalog CHARPR_TAG CHARPR_MARKER pre ws 7 attrs entries post = true ->
  add_heading_charprs
    (catalog_doc CHARPR_TAG CHARPR_MARKER pre ws 7 attrs entries post)
  = spec_catalog_patch CHARPR_TAG CHARPR_MARKER pre ws 7 attrs entries
                       new_charpr_entries post.
Proof.
  intros H. apply single_catalog_spec in H as (H1 & H2 & H3 & H4 & H5 & H6).
  rewrite add_heading_charprs_unfold.
  unfold spec_catalog_patch, catalog_doc.
  destruct new_charpr_shape as [Ehead Eabs].
  apply str_index_None in Eabs.
  unfold join in *. rewrite concat_app, <- !app_assoc.
  change (str_of_int (7 + Z.of_nat (length new_charpr_entries)))
    with (lit "11").
  change (str_of_int 7) with (lit "7") in *.
  revert Eabs. rewrite Ehead. intros Eabs.
  exact (@catalog_append (lit "hh:charProperties") (lit "/hh:charProperties>")
           (lit "7") (lit "11") (skipn 1 (concat new_charpr_entries))
           ltac:(repeat constructor; discriminate)
           ltac:(repeat constructor; discriminate)
           Eabs pre ws attrs (concat entries) post H1 H2 H3 H4 H5 H6).
Qed.

Lemma borderfill_append pre ws attrs entries post :
  single_catalog BORDERFILL_TAG BORDERFILL_MARKER pre ws 2 attrs entries post
  = true ->
  add_table_borderfill
    (catalog_doc BORDERFILL_TAG BORDERFILL_MARKER pre ws 2 attrs entries post)
  = spec_catalog_patch BORDERFILL_TAG BORDERFILL_MARKER pre ws 2 attrs entries
                       new_borderfill_entries post.
Proof.
  intros H. apply single_catalog_spec in H as (H1 & H2 & H3 & H4 & H5 & H6).
  rewrite add_table_borderfill_unfold.
  unfold spec_catalog_patch, catalog_doc.
  destruct new_borderfill_shape as [Ehead Eabs].
  apply str_index_None in Eabs.
  unfold join in *. rewrite concat_app, <- !app_assoc.
  change (str_of_int (2 + Z.of_nat (length new_borderfill_entries)))
    with (lit "3").
  change (str_of_int 2) with (lit "2") in *.
  revert Eabs. rewrite Ehead. intros Eabs.
  exact (@catalog_append (lit "hh:borderFillList") (lit "/hh:borderFillList>")
           (lit "2") (lit "3") (skipn 1 (concat new_borderfill_entries))
           ltac:(repeat constructor; discriminate)
           ltac:(repeat constructor; discriminate)
           Eabs pre ws attrs (concat entries) post H1 H2 H3 H4 H5 H6).
Qed.

Section CatalogKept.

Variables tag' marker' old added' : pystr.
Hypothesis Htag : Forall (fun a => a <> 60) tag'.
Hypothesis Hmarker : Forall (fun a => a <> 60) marker'.
Hypothesis Hold : Forall (fun a => a <> 60) old.
Hypothesis Hadded : absent (60 :: tag') (60 :: added').

Lemma item_count_attr_no_lt : Forall (fun a => a <> 60) (item_count_attr old).
Proof.
  unfold item_count_attr. apply Forall_app. split.
  - repeat constructor; discriminate.
  - apply Forall_app. split; [exact Hold|]. repeat constructor; discriminate.
Qed.

Lemma catalog_append_kept new pre ws c rest post :
  ws <> [] -> Forall (fun a => is_space a = true) ws ->
  is_space c = false ->
  startswith (item_count_attr old) (c :: rest) = false ->
  absent (60 :: marker') (pre ++ (60 :: tag') ++ ws ++ c :: rest) ->
  absent (60 :: marker') post ->
  absent (60 :: tag') pre ->
  absent (60 :: tag') (ws ++ (c :: rest) ++ (60 :: marker') ++ post) ->
  re_sub (m_itemcnt (60 :: tag') old new)
    (str_replace (60 :: marker') ((60 :: added') ++ 60 :: marker')
       (pre ++ (60 :: tag') ++ ws ++ (c :: rest) ++ (60 :: marker') ++ post))
  = pre ++ (60 :: tag') ++ ws ++ (c :: rest) ++ (60 :: added')
    ++ (60 :: marker') ++ post.
Proof.
  intros Hne Hws Hc Hcount Hm1 Hm2 Ht1 Ht2.
  set (tag := 60 :: tag') in *. set (marker := 60 :: marker') in *.
  set (added := 60 :: added') in *. set (body := c :: rest) in *.
  assert (E1 : str_replace marker (added ++ marker)
                 (pre ++ tag ++ ws ++ body ++ marker ++ post)
               = pre ++ tag ++ ws ++ body ++ added ++ marker ++ post).
  { replace (pre ++ tag ++ ws ++ body ++ marker ++ post)
      with ((pre ++ tag ++ ws ++ body) ++ marker ++ post)
      by (now rewrite <- !app_assoc).
    subst marker. rewrite str_replace_once; auto.
    - now rewrite <- !app_assoc.
    - intros k Hk. now apply absent_closed_for. }
  rewrite E1. clear E1.
  assert (Hrest : absent tag (ws ++ body ++ added ++ marker ++ post)).
  { assert (HU : absent tag (ws ++ body)).
    { apply absent_head with (y := marker ++ post).
      now rewrite <- !app_assoc. }
    assert (HV : absent tag (marker ++ post)).
    { apply absent_tail with (x := ws ++ body).
      now rewrite <- !app_assoc. }
    replace (ws ++ body ++ added ++ marker ++ post)
      with ((ws ++ body) ++ added ++ marker ++ post)
      by (now rewrite <- !app_assoc).
    subst tag added marker.
    change ((60 :: added') ++ (60 :: marker') ++ post)
      with (60 :: (added' ++ 60 :: (marker' ++ post))).
    apply absent_app; auto.
    change (60 :: added' ++ 60 :: marker' ++ post)
      with ((60 :: added') ++ 60 :: (marker' ++ post)).
    apply absent_app; auto. }
  rewrite re_sub_prefix.
  2:{ intros k Hk. unfold m_itemcnt. rewrite expect_None; [reflexivity|].
      subst tag. now apply absent_closed_for. }
  f_equal.
  assert (Hhere : m_itemcnt tag old new
                    (tag ++ ws ++ body ++ added ++ marker ++ post) = None).
  { unfold m_itemcnt. rewrite expect_app.
    subst body. cbn [app].
    rewrite span_run by assumption.
    destruct ws as [|w ws']; [congruence|].
    rewrite expect_None; [reflexivity|].
    destruct (startswith (lit "itemCnt='" ++ old ++ lit "'")
                (c :: rest ++ added ++ marker ++ post)) eqn:E; [|reflexivity].
    exfalso. subst added. cbn [app] in E.
    change (c :: rest ++ 60 :: added' ++ marker ++ post)
      with ((c :: rest) ++ 60 :: (added' ++ marker ++ post)) in E.
    apply startswith_confined in E; [|exact item_count_attr_no_lt].
    unfold item_count_attr in Hcount. congruence. }
  unfold re_sub. subst tag. cbn [app sub_scan].
  cbn [app] in Hhere. rewrite Hhere. f_equal.
  apply re_sub_none. intros k. unfold m_itemcnt.
  rewrite expect_None; [reflexivity|].
  apply closed_for_absent; [|exact Hrest].
  now apply closed_for_without.
Qed.

End CatalogKept.

(** [str] of an [int] tells the [int]. *)
Lemma ord8_inj a b : ord8 a = ord8 b -> a = b.
Proof.
  unfold ord8. intros H. apply Nat2Z.inj in H.
  rewrite <- (ascii_nat_embedding a), <- (ascii_nat_embedding b). now rewrite H.
Qed.

Lemma str_of_int_inj n k : str_of_int n = str_of_int k -> n = k.
Proof.
  unfold str_of_int. intros H.
  assert (Hmap : forall x y : list ascii, map ord8 x = map ord8 y -> x = y).
  { induction x as [|a x IH]; intros [|b y] E; try discriminate;
      [reflexivity|].
    injection E as E1 E2. f_equal; [now apply ord8_inj | now apply IH]. }
  apply Hmap in H.
  apply (f_equal string_of_list_ascii) in H.
  rewrite !string_of_list_ascii_of_string in H.
  assert (Hnil : forall z, Z.to_int z <> Decimal.Pos Decimal.Nil
                           /\ Z.to_int z <> Decimal.Neg Decimal.Nil).
  { intros [|p|p]; split; cbn [Z.to_int]; try discriminate;
      intros E; injection E as E;
      exact (DecimalPos.Unsigned.to_uint_nonnil p E). }
  apply (f_equal NilZero.int_of_string) in H.
  rewrite !NilZero.isi in H by apply Hnil.
  injection H as H.
  rewrite <- (DecimalZ.of_to n), <- (DecimalZ.of_to k). now rewrite H.
Qed.

(** Two runs without [q], each followed by [q]: when one is at the start of
    the other, they are the same. *)
Lemma startswith_until q : forall a b x,
  Forall (fun c => c <> q) a -> Forall (fun c => c <> q) b ->
  startswith (a ++ [q]) (b ++ q :: x) = true -> a = b.
Proof.
  induction a as [|c a IH]; intros [|d b] x Ha Hb H.
  - reflexivity.
  - exfalso. cbn in H. apply andb_true_iff in H as [H _].
    apply Z.eqb_eq in H. inversion_clear Hb. congruence.
  - exfalso. cbn in H. apply andb_true_iff in H as [H _].
    apply Z.eqb_eq in H. inversion_clear Ha. congruence.
  - cbn in H. apply andb_true_iff in H as [H1 H2]. apply Z.eqb_eq in H1.
    inversion_clear Ha. inversion_clear Hb. f_equal; [exact H1|].
    now apply (IH b x).
Qed.

Lemma str_of_int_no_quote n : Forall (fun a => a <> 34) (str_of_int n).
Proof.
  eapply Forall_impl; [|apply str_of_int_chars].
  intros a [->|[H1 H2]]; [discriminate | lia].
Qed.

(** The item count of one number is not read as that of another. *)
Lemma item_count_attr_other n k x :
  n <> k ->
  startswith (item_count_attr (str_of_int k))
             (item_count_attr (str_of_int n) ++ x) = false.
Proof.
  intros Hnk.
  destruct (startswith (item_count_attr (str_of_int k))
              (item_count_attr (str_of_int n) ++ x)) eqn:E; [|reflexivity].
  exfalso. apply Hnk. apply str_of_int_inj. symmetry.
  unfold item_count_attr in E. rewrite <- !app_assoc in E.
  assert (Hstrip : forall p a b, startswith (p ++ a) (p ++ b) = true ->
                                 startswith a b = true).
  { induction p as [|c p IH]; intros a b H; [exact H|].
    cbn in H. apply andb_true_iff in H as [_ H]. now apply IH. }
  apply Hstrip in E.
  apply (@startswith_until 34 _ _ x);
    [apply str_of_int_no_quote | apply str_of_int_no_quote | exact E].
Qed.

(** What [single_catalog_without] checks, as propositions. *)
Lemma single_catalog_without_spec tag marker pre ws body post old :
  single_catalog_without tag marker pre ws body post old = true ->
  ws <> [] /\ Forall (fun a => is_space a = true) ws
  /\ (exists c rest, body = c :: rest /\ is_space c = false)
  /\ startswith (item_count_attr old) body = false
  /\ absent marker (pre ++ tag ++ ws ++ body)
  /\ absent marker post
  /\ absent tag pre
  /\ absent tag (ws ++ body ++ marker ++ post).
Proof.
  unfold single_catalog_without. intros H.
  repeat (apply andb_true_iff in H as [H ?]).
  repeat split; try (apply str_index_None; now apply is_None_true).
  - destruct ws; [discriminate | congruence].
  - apply Forall_forall. now apply forallb_forall.
  - destruct body as [|c rest]; [discriminate|].
    exists c, rest. split; [reflexivity|]. now apply negb_true_iff.
  - now apply negb_true_iff.
Qed.

Lemma charpr_kept pre ws body post :
  single_catalog_without CHARPR_TAG CHARPR_MARKER pre ws body post (lit "7")
  = true ->
  add_heading_charprs
    (open_catalog_doc CHARPR_TAG CHARPR_MARKER pre ws body post)
  = open_catalog_doc CHARPR_TAG CHARPR_MARKER pre ws
      (body ++ join new_charpr_entries) post.
Proof.
  intros H.
  apply single_catalog_without_spec
    in H as (H1 & H2 & (c & rest & -> & Hc) & H4 & H5 & H6 & H7 & H8).
  rewrite add_heading_charprs_unfold. unfold open_catalog_doc.
  destruct new_charpr_shape as [Ehead Eabs].
  apply str_index_None in Eabs.
  rewrite <- !app_assoc.
  revert Eabs. rewrite Ehead. intros Eabs.
  exact (@catalog_append_kept (lit "hh:charProperties")
           (lit "/hh:charProperties>") (lit "7")
           (skipn 1 (join new_charpr_entries))
           ltac:(repeat constructor; discriminate)
           ltac:(repeat constructor; discriminate)
           ltac:(repeat constructor; discriminate)
           Eabs (lit "11") pre ws c rest post H1 H2 Hc H4 H5 H6 H7 H8).
Qed.

Lemma borderfill_kept pre ws body post :
  single_catalog_without BORDERFILL_TAG BORDERFILL_MARKER pre ws body post
                         (lit "2") = true ->
  add_table_borderfill
    (open_catalog_doc BORDERFILL_TAG BORDERFILL_MARKER pre ws body post)
  = open_catalog_doc BORDERFILL_TAG BORDERFILL_MARKER pre ws
      (body ++ join new_borderfill_entries) post.
Proof.
  intros H.
  apply single_catalog_without_spec
    in H as (H1 & H2 & (c & rest & -> & Hc) & H4 & H5 & H6 & H7 & H8).
  rewrite add_table_borderfill_unfold. unfold open_catalog_doc.
  destruct new_borderfill_shape as [Ehead Eabs].
  apply str_index_None in Eabs.
  rewrite <- !app_assoc.
  revert Eabs. rewrite Ehead. intros Eabs.
  exact (@catalog_append_kept (lit "hh:borderFillList")
           (lit "/hh:borderFillList>") (lit "2")
           (skipn 1 (join new_borderfill_entries))
           ltac:(repeat constructor; discriminate)
           ltac:(repeat constructor; discriminate)
           ltac:(repeat constructor; discriminate)
           Eabs (lit "3") pre ws c rest post H1 H2 Hc H4 H5 H6 H7 H8).
Qed.

(** A catalog that is the only one of its kind and declares a count other
    than [old] is one whose opening tag does not go on with the item count
    [old]. *)
Lemma single_catalog_other tag marker pre ws count attrs entries post old :
  count <> old ->
  single_catalog tag marker pre ws count attrs entries post = true ->
  single_catalog_without tag marker pre ws
    (item_count_attr (str_of_int count) ++ attrs ++ join entries) post
    (str_of_int old)
  = true.
Proof.
  intros Hne H. unfold single_catalog in H. unfold single_catalog_without.
  repeat (apply andb_true_iff in H as [H ?]).
  rewrite <- !app_assoc.
  repeat (apply andb_true_iff; split); try assumption.
  - reflexivity.
  - apply negb_true_iff. now apply item_count_attr_other.
Qed.

(** ** Heading spacing *)

(** On records that carry the template's zero, the patch sets the spacing
    of the records 2, 3 and 4 and leaves the others alone. *)
Lemma heading_spacing_on_template :
  add_heading_spacing (para_pr_doc [(0, 0); (1, 0); (2, 0); (3, 0); (4, 0); (5, 0)])
  = para_pr_doc [(0, 0); (1, 0); (2, 800); (3, 600); (4, 400); (5, 0)]
  /\ spec_heading_spacing [(0, 0); (1, 0); (2, 0); (3, 0); (4, 0); (5, 0)]
     = [(0, 0); (1, 0); (2, 800); (3, 600); (4, 400); (5, 0)].
Proof. split; vm_compute; reflexivity. Qed.

(** C4, on an input where it fails: the record 2 already has a spacing
    before of 800, so the pattern for id 2, which is not held within that
    record, runs on to the next spacing of zero; that one belongs to the
    record 5, which is no heading style, and is overwritten with 800.  The
    same happens through the whole of [update_header_xml]. *)
Theorem C4_heading_spacing_leaks :
  add_heading_spacing (para_pr_doc [(2, 800); (5, 0)])
  = para_pr_doc [(2, 800); (5, 800)]
  /\ spec_heading_spacing [(2, 800); (5, 0)] = [(2, 800); (5, 0)]
  /\ forall isalnum,
       update_header_xml isalnum (para_pr_doc [(2, 800); (5, 0)])
       = para_pr_doc [(2, 800); (5, 800)].
Proof.
  split; [vm_compute; reflexivity|].
  split; [reflexivity|].
  intros isalnum. vm_compute. reflexivity.
Qed.

(** The scenario of the specification: a head row of two cells and a body
    row of one. *)
Example table_grid_scenario :
  table_grid [[[Plain [Str (lit "A")]]; [Plain [Str (lit "B")]]]]
             [[[[Plain [Str (lit "1")]]]]]
  = ([[lit "A"; lit "B"]; [lit "1"; []]], 2%nat).
Proof. reflexivity. Qed.

(** ** More on the layout of line segments *)

Lemma char_width_nonneg char_height ch :
  0 <= char_height -> 0 <= char_width char_height ch.
Proof.
  intros H. unfold char_width. destruct (8192 <? ch); [lia|].
  apply Z.div_pos; lia.
Qed.

Lemma run_width_nonneg char_height run :
  0 <= char_height -> 0 <= run_width char_height run.
Proof.
  intros H. induction run as [|ch run IH]; simpl; [lia|].
  pose proof (char_width_nonneg ch H). lia.
Qed.

(** No line is closed while the text that is left fits on the current
    line. *)
Lemma breaks_fit char_height horzsize len rest : forall i w,
  0 <= char_height ->
  w + run_width char_height rest <= horzsize ->
  breaks char_height horzsize len rest i w = [].
Proof.
  induction rest as [|ch rest IH]; intros i w Hh Hw; simpl; [reflexivity|].
  simpl in Hw.
  pose proof (run_width_nonneg rest Hh) as Hr.
  replace (horzsize <? w + char_width char_height ch) with false
    by (symmetry; apply Z.ltb_ge; lia).
  cbn [andb]. apply IH; [assumption | lia].
Qed.

(** Every break lies inside the text. *)
Lemma breaks_below char_height horzsize len rest : forall i w,
  Forall (fun b => b < len) (breaks char_height horzsize len rest i w).
Proof.
  induction rest as [|ch rest IH]; intros i w; simpl; [constructor|].
  destruct (horzsize <? w + char_width char_height ch); cbn [andb];
    [|apply IH].
  destruct (i + 1 <? len) eqn:E; [|apply IH].
  constructor; [now apply Z.ltb_lt | apply IH].
Qed.

Lemma breaks_length char_height horzsize len rest : forall i w,
  (length (breaks char_height horzsize len rest i w) <= length rest)%nat.
Proof.
  induction rest as [|ch rest IH]; intros i w; simpl; [lia|].
  destruct ((horzsize <? w + char_width char_height ch) && (i + 1 <? len));
    cbn [length]; specialize (IH (i + 1)).
  - specialize (IH 0). lia.
  - specialize (IH (w + char_width char_height ch)). lia.
Qed.

(** The last character of the text never closes a line. *)
Lemma breaks_length_lt char_height horzsize rest : forall i w,
  rest <> [] ->
  (length (breaks char_height horzsize (i + Z.of_nat (length rest)) rest i w)
   < length rest)%nat.
Proof.
  induction rest as [|ch rest IH]; intros i w Hne; [congruence|].
  cbn [breaks]. destruct rest as [|ch' rest'].
  - cbn [length]. replace (i + 1 <? i + Z.of_nat 1) with false
      by (symmetry; apply Z.ltb_ge; lia).
    rewrite andb_false_r. simpl. lia.
  - assert (E : i + Z.of_nat (length (ch :: ch' :: rest'))
                = i + 1 + Z.of_nat (length (ch' :: rest')))
      by (cbn [length]; lia).
    rewrite E.
    destruct ((horzsize <? w + char_width char_height ch)
              && (i + 1 <? i + 1 + Z.of_nat (length (ch' :: rest')))).
    + specialize (IH (i + 1) 0). cbn [length] in *. 
      assert (ch' :: rest' <> []) by discriminate. specialize (IH H). lia.
    + specialize (IH (i + 1) (w + char_width char_height ch)).
      cbn [length] in *.
      assert (ch' :: rest' <> []) by discriminate. specialize (IH H). lia.
Qed.

Lemma linesegs_from_nth char_height line_spacing_pct horzsize n starts :
  forall idx k s,
    nth_error (linesegs_from char_height line_spacing_pct horzsize n idx starts) k
    = Some s ->
    exists textpos,
      nth_error starts k = Some textpos
      /\ s = mk_lineseg textpos
               ((idx + Z.of_nat k)
                * (char_height + spacing_of char_height line_spacing_pct))
               char_height char_height (baseline_of char_height)
               (spacing_of char_height line_spacing_pct) 0 horzsize
               (lineseg_flags n (idx + Z.of_nat k)).
Proof.
  induction starts as [|a starts IH]; intros idx k s H.
  - destruct k; discriminate.
  - destruct k as [|k]; cbn [linesegs_from nth_error] in *.
    + injection H as <-. exists a. split; [reflexivity|].
      change (Z.of_nat 0) with 0. now rewrite Z.add_0_r.
    + destruct (IH _ _ _ H) as (tp & Htp & ->). exists tp. split; [assumption|].
      replace (idx + 1 + Z.of_nat k) with (idx + Z.of_nat (S k)) by lia.
      reflexivity.
Qed.

Lemma offsets_length from lines : length (offsets from lines) = length lines.
Proof.
  revert from. induction lines as [|l ls IH]; intros from; simpl;
    [reflexivity | now rewrite IH].
Qed.

Lemma fits_of_width char_height horzsize text :
  0 <= char_height -> run_width char_height text <= horzsize ->
  fits char_height horzsize text.
Proof.
  intros Hh Hw n Hn.
  rewrite <- (firstn_skipn n text) in Hw. rewrite run_width_app in Hw.
  pose proof (run_width_nonneg (skipn n text) Hh). lia.
Qed.

(** The text is laid out on one line exactly when no proper prefix of it
    is wider than the page. *)
Lemma one_line_iff_fits char_height horzsize text :
  text <> [] ->
  (line_starts_of text char_height horzsize = [0]
   <-> fits char_height horzsize text).
Proof.
  intros Hne.
  destruct (@breaks_lines char_height horzsize text [] 0 Hne
              (within_nil char_height horzsize))
    as (lines & last & E & Hl & Hall & Hfit & Hoff).
  assert (Hoff' : line_starts_of text char_height horzsize
                  = offsets 0 (lines ++ [last]))
    by (rewrite line_starts_of_breaks; exact Hoff).
  cbn [app] in E. rewrite Hoff'. clear Hoff Hoff'.
  destruct lines as [|l lines].
  - simpl in E. subst last. simpl. split; auto.
  - split.
    + intros H. apply (f_equal (@length Z)) in H.
      rewrite offsets_length, length_app in H. simpl in H. lia.
    + intros Hf. exfalso.
      apply Forall_inv in Hall. destruct Hall as (Hl1 & Hwide & _).
      assert (Hlen : (0 < length l < length text)%nat).
      { rewrite E. cbn [concat]. rewrite !length_app.
        destruct l; [congruence|]. destruct last; [congruence|].
        simpl. lia. }
      specialize (Hf _ Hlen). rewrite E in Hf. cbn [concat] in Hf.
      rewrite <- app_assoc, firstn_app, Nat.sub_diag, firstn_all in Hf.
      simpl in Hf. rewrite app_nil_r in Hf. lia.
Qed.

(** *** Double precision against integer arithmetic *)

Lemma round_half_even_bounds n d :
  0 <= n -> 0 < d ->
  2 * n - d <= 2 * (round_half_even n d * d) <= 2 * n + d.
Proof.
  intros Hn Hd. unfold round_half_even.
  pose proof (Z.div_mod n d ltac:(lia)) as E.
  pose proof (Z.mod_pos_bound n d Hd) as Hr.
  set (q := n / d) in *. set (r := n mod d) in *.
  destruct (2 * r <? d) eqn:E1; [apply Z.ltb_lt in E1; nia|].
  apply Z.ltb_ge in E1.
  destruct (d <? 2 * r) eqn:E2; [apply Z.ltb_lt in E2; nia|].
  apply Z.ltb_ge in E2.
  destruct (Z.even q); nia.
Qed.

(** The exponent [nearest_double] chooses brings the quotient into
    [[2^52, 2^53)]. *)
Lemma nearest_double_spec num den :
  0 < num -> 0 < den ->
  exists e n d,
    nearest_double num den = (round_half_even n d, e)
    /\ scaled num den e = (n, d)
    /\ 0 < d /\ 2 ^ 52 * d <= n < 2 ^ 53 * d.
Proof.
  intros Hnum Hden.
  pose proof (Z.log2_spec num Hnum) as [Ln1 Ln2].
  pose proof (Z.log2_spec den Hden) as [Ld1 Ld2].
  pose proof (Z.log2_nonneg num) as Ln0.
  pose proof (Z.log2_nonneg den) as Ld0.
  unfold nearest_double.
  set (ln := Z.log2 num) in *. set (ld := Z.log2 den) in *.
  set (e0 := ln - ld - 52).
  set (A := 2 ^ ln) in *. set (D := 2 ^ ld) in *.
  assert (HA : 0 < A) by (apply Z.pow_pos_nonneg; lia).
  assert (HD : 0 < D) by (apply Z.pow_pos_nonneg; lia).
  replace (2 ^ Z.succ ln) with (2 * A) in Ln2
    by (unfold A; rewrite Z.pow_succ_r by lia; reflexivity).
  replace (2 ^ Z.succ ld) with (2 * D) in Ld2
    by (unfold D; rewrite Z.pow_succ_r by lia; reflexivity).
  assert (Hcases : (0 <= e0 /\ exists P, 0 < P /\ 2 ^ e0 = P
                                         /\ A = 2 ^ 52 * P * D)
                   \/ (e0 < 0 /\ exists P, 0 < P /\ 2 ^ (- e0) = P
                                           /\ A * P = 2 ^ 52 * D)).
  { destruct (Z.le_gt_cases 0 e0) as [H|H]; [left|right]; split; try lia.
    - exists (2 ^ e0). split; [apply Z.pow_pos_nonneg; lia|].
      split; [reflexivity|]. unfold A, D.
      replace ln with (52 + e0 + ld) by (unfold e0; lia).
      rewrite !Z.pow_add_r by lia. reflexivity.
    - exists (2 ^ (- e0)). split; [apply Z.pow_pos_nonneg; lia|].
      split; [reflexivity|]. unfold A, D.
      rewrite <- !Z.pow_add_r by lia. f_equal. unfold e0. lia. }
  assert (H52 : 0 < 2 ^ 52) by reflexivity.
  assert (H53 : 2 ^ 53 = 2 * 2 ^ 52) by reflexivity.
  set (T := 2 ^ 52) in *.
  destruct Hcases as [[He0 (P & HP & EP & EA)] | [He0 (P & HP & EP & EA)]].
  - (* the first exponent is not negative *)
    assert (Es : scaled num den e0 = (num, den * P)).
    { unfold scaled.
      replace (0 <=? e0) with true by (symmetry; apply Z.leb_le; lia).
      now rewrite EP. }
    rewrite Es.
    destruct (T * (den * P) <=? num) eqn:Et.
    + apply Z.leb_le in Et.
      exists e0, num, (den * P). rewrite Es.
      repeat split; try nia.
    + apply Z.leb_gt in Et.
      destruct (Z.eq_dec e0 0) as [E0|E0].
      * assert (P = 1) by (rewrite <- EP, E0; reflexivity). subst P.
        assert (Es' : scaled num den (e0 - 1) = (num * 2, den)).
        { unfold scaled.
          replace (0 <=? e0 - 1) with false
            by (symmetry; apply Z.leb_gt; lia).
          replace (- (e0 - 1)) with 1 by lia. reflexivity. }
        exists (e0 - 1), (num * 2), den. rewrite Es'.
        repeat split; try nia.
      * assert (EP' : 2 ^ (e0 - 1) * 2 = P).
        { rewrite <- EP. replace e0 with (e0 - 1 + 1) at 2 by lia.
          rewrite Z.pow_add_r by lia. reflexivity. }
        assert (HP' : 0 < 2 ^ (e0 - 1)) by (apply Z.pow_pos_nonneg; lia).
        assert (Es' : scaled num den (e0 - 1) = (num, den * 2 ^ (e0 - 1))).
        { unfold scaled.
          replace (0 <=? e0 - 1) with true
            by (symmetry; apply Z.leb_le; lia).
          reflexivity. }
        exists (e0 - 1), num, (den * 2 ^ (e0 - 1)). rewrite Es'.
        repeat split; try nia.
  - (* the first exponent is negative *)
    assert (Es : scaled num den e0 = (num * P, den)).
    { unfold scaled.
      replace (0 <=? e0) with false by (symmetry; apply Z.leb_gt; lia).
      now rewrite EP. }
    rewrite Es.
    destruct (T * den <=? num * P) eqn:Et.
    + apply Z.leb_le in Et.
      exists e0, (num * P), den. rewrite Es.
      repeat split; try nia.
    + apply Z.leb_gt in Et.
      assert (EP' : 2 ^ (- (e0 - 1)) = P * 2).
      { rewrite <- EP. replace (- (e0 - 1)) with (- e0 + 1) by lia.
        rewrite Z.pow_add_r by lia. reflexivity. }
      assert (Es' : scaled num den (e0 - 1) = (num * (P * 2), den)).
      { unfold scaled.
        replace (0 <=? e0 - 1) with false
          by (symmetry; apply Z.leb_gt; lia).
        now rewrite EP'. }
      exists (e0 - 1), (num * (P * 2)), den. rewrite Es'.
      repeat split; try nia.
Qed.

(** A double below [2^53 / 2^k] keeps at least [k] binary places. *)
Lemma nearest_double_places num den k :
  0 < num -> 0 < den -> 0 <= k -> num * 2 ^ k < 2 ^ 52 * den * 2 ->
  exists P m,
    nearest_double num den = (m, - Z.log2 P) /\ P = 2 ^ Z.log2 P
    /\ 2 ^ k <= P
    /\ 2 * (num * P) - den <= 2 * (m * den) <= 2 * (num * P) + den
    /\ num * P < 2 ^ 53 * den
    /\ int_of_double (m, - Z.log2 P) = m / P.
Proof.
  intros Hnum Hden Hk Hsmall.
  destruct (nearest_double_spec Hnum Hden)
    as (e & n & d & E & Es & Hd & Hlo & Hhi).
  assert (H2k : 0 < 2 ^ k) by (apply Z.pow_pos_nonneg; lia).
  assert (He : e <= - k).
  { destruct (Z.le_gt_cases e (- k)) as [H|H]; [exact H|exfalso].
    unfold scaled in Es. destruct (0 <=? e) eqn:E0.
    - apply Z.leb_le in E0. injection Es as <- <-.
      assert (Hab : 2 <= 2 ^ e * 2 ^ k).
      { rewrite <- Z.pow_add_r by lia. change 2 with (2 ^ 1) at 1.
        apply Z.pow_le_mono_r; lia. }
      nia.
    - apply Z.leb_gt in E0. injection Es as <- <-.
      assert (Hle : 2 ^ (- e) * 2 <= 2 ^ k).
      { replace k with (- e + (k + e)) by lia.
        rewrite Z.pow_add_r by lia.
        assert (0 < 2 ^ (- e)) by (apply Z.pow_pos_nonneg; lia).
        assert (2 ^ 1 <= 2 ^ (k + e)) by (apply Z.pow_le_mono_r; lia).
        change (2 ^ 1) with 2 in *. nia. }
      nia. }
  assert (He0 : e <= 0) by lia.
  set (P := 2 ^ (- e)).
  assert (HlogP : Z.log2 P = - e) by (apply Z.log2_pow2; lia).
  assert (HP : 2 ^ k <= P) by (apply Z.pow_le_mono_r; lia).
  assert (Esc : (n, d) = (num * P, den)).
  { rewrite <- Es. unfold scaled. destruct (0 <=? e) eqn:E0.
    - apply Z.leb_le in E0. assert (e = 0) by lia. subst e.
      unfold P. change (2 ^ (- 0)) with 1. change (2 ^ 0) with 1.
      now rewrite !Z.mul_1_r.
    - reflexivity. }
  injection Esc as -> ->.
  exists P, (round_half_even (num * P) den).
  rewrite HlogP, Z.opp_involutive.
  split; [exact E|]. split; [reflexivity|]. split; [exact HP|].
  split; [apply round_half_even_bounds; nia|].
  split; [exact Hhi|].
  unfold int_of_double. rewrite Z.shiftl_div_pow2 by lia. reflexivity.
Qed.

(** With six binary places to spare, the true division by 100 truncates
    to the integer quotient. *)
Lemma int_of_true_div_small a :
  Z.abs a < 100 * 2 ^ 47 -> int_of_true_div a 100 = Z.quot a 100.
Proof.
  intros Ha. unfold int_of_true_div.
  destruct (a =? 0) eqn:E0; [apply Z.eqb_eq in E0; now subst a|].
  apply Z.eqb_neq in E0.
  rewrite (Z.quot_div a 100) by lia.
  change (Z.sgn 100) with 1. rewrite Z.mul_1_r. change (Z.abs 100) with 100.
  f_equal.
  set (A := Z.abs a) in *. assert (HA : 0 < A) by (unfold A; lia).
  destruct (@nearest_double_places A 100 6 HA ltac:(lia) ltac:(lia))
    as (P & m & E & _ & HP & Hm & _ & Hint).
  { change (2 ^ 6) with 64. change (2 ^ 52) with 4503599627370496.
    change (2 ^ 47) with 140737488355328 in Ha. lia. }
  rewrite E, Hint. change (2 ^ 6) with 64 in HP.
  pose proof (Z.div_mod A 100 ltac:(lia)) as Ediv.
  pose proof (Z.mod_pos_bound A 100 ltac:(lia)) as Hr.
  set (q := A / 100) in *. set (r := A mod 100) in *.
  symmetry. apply (Z.div_unique m P q (m - P * q)); [|lia].
  left.
  assert (EX : A * P = 100 * (q * P) + r * P) by (rewrite Ediv; ring).
  assert (HZ : 0 <= r * P <= 99 * P) by nia.
  set (X := A * P) in *. set (Y := q * P) in *. set (Z' := r * P) in *.
  replace (P * q) with Y by (unfold Y; ring).
  lia.
Qed.

(** An [int] below [2^53] is a double. *)
Lemma float_of_int_exact n : Z.abs n < 2 ^ 53 -> float_of_int n = n.
Proof.
  intros Hn. unfold float_of_int.
  destruct (n =? 0) eqn:E0; [apply Z.eqb_eq in E0; now subst n|].
  apply Z.eqb_neq in E0.
  transitivity (Z.sgn n * Z.abs n);
    [|rewrite Z.mul_comm; apply Z.abs_sgn].
  f_equal.
  set (A := Z.abs n) in *. assert (HA : 0 < A) by (unfold A; lia).
  destruct (@nearest_double_places A 1 0 HA ltac:(lia) ltac:(lia))
    as (P & m & E & _ & HP & Hm & _ & Hint).
  { change (2 ^ 0) with 1. change (2 ^ 52) with 4503599627370496.
    change (2 ^ 53) with 9007199254740992 in Hn. lia. }
  rewrite E, Hint. change (2 ^ 0) with 1 in HP.
  assert (Em : m = A * P) by lia.
  rewrite Em. apply Z.div_mul. lia.
Qed.

Lemma DOUBLE_0_85_value : DOUBLE_0_85 = (7656119366529843, -53).
Proof. vm_compute. reflexivity. Qed.

(** With four binary places to spare, the product with [0.85] truncates to
    the integer quotient of the exact product, although [0.85] as a double
    is a little less than 85/100. *)
Lemma baseline_of_small h :
  Z.abs h < 2 ^ 49 -> baseline_of h = Z.quot (h * 85) 100.
Proof.
  intros Hh. unfold baseline_of.
  change (2 ^ 49) with 562949953421312 in Hh.
  rewrite float_of_int_exact
    by (change (2 ^ 53) with 9007199254740992; lia).
  unfold int_of_product. rewrite DOUBLE_0_85_value.
  destruct (h =? 0) eqn:E0; [apply Z.eqb_eq in E0; now subst h|].
  apply Z.eqb_neq in E0.
  rewrite (Z.quot_div (h * 85) 100) by lia.
  change (Z.sgn 100) with 1. rewrite Z.mul_1_r. change (Z.abs 100) with 100.
  replace (Z.sgn (h * 85)) with (Z.sgn h)
    by (rewrite Z.sgn_mul; change (Z.sgn 85) with 1; now rewrite Z.mul_1_r).
  replace (Z.abs (h * 85)) with (Z.abs h * 85)
    by (rewrite Z.abs_mul; reflexivity).
  set (H := Z.abs h) in *. assert (HH : 0 < H) by (unfold H; lia).
  change (scaled (H * 7656119366529843) 1 (- -53))
    with (H * 7656119366529843, 1 * 2 ^ 53).
  cbv iota. f_equal.
  change (1 * 2 ^ 53) with 9007199254740992.
  destruct (@nearest_double_places (H * 7656119366529843) 9007199254740992 4
              ltac:(lia) ltac:(lia) ltac:(lia))
    as (P & m & E & _ & HP & Hm & Hhi & Hint).
  { change (2 ^ 4) with 16. change (2 ^ 52) with 4503599627370496. lia. }
  rewrite E, Hint. change (2 ^ 4) with 16 in HP.
  change (2 ^ 53) with 9007199254740992 in Hhi.
  pose proof (Z.div_mod (H * 85) 100 ltac:(lia)) as Ediv.
  pose proof (Z.mod_pos_bound (H * 85) 100 ltac:(lia)) as Hr.
  set (q := H * 85 / 100) in *. set (r := (H * 85) mod 100) in *.
  assert (Hr5 : r <= 95) by lia.
  symmetry. apply (Z.div_unique m P q (m - P * q)); [|lia].
  left.
  assert (EX : H * P * 85 = 100 * (q * P) + r * P)
    by (replace (H * P * 85) with (H * 85 * P) by ring; rewrite Ediv; ring).
  assert (HZ : 0 <= r * P <= 95 * P) by nia.
  assert (EM : H * 7656119366529843 * P = 7656119366529843 * (H * P))
    by ring.
  rewrite EM in Hm, Hhi.
  assert (HX : 0 < H * P) by nia.
  set (X := H * P) in *. set (Y := q * P) in *. set (Z' := r * P) in *.
  replace (P * q) with Y by (unfold Y; ring).
  lia.
Qed.

Lemma spacing_of_small char_height line_spacing_pct :
  Z.abs (char_height * (line_spacing_pct - 100)) < 100 * 2 ^ 47 ->
  spacing_of char_height line_spacing_pct
  = Z.quot (char_height * (line_spacing_pct - 100)) 100.
Proof. apply int_of_true_div_small. Qed.

(** Beyond these bounds the rounded values part from the integer
    quotients: here the product with [0.85] is rounded up past the next
    integer, and so is the quotient by 100. *)
Example double_precision_rounds :
  baseline_of 1500000000000007 = 1275000000000006
  /\ Z.quot (1500000000000007 * 85) 100 = 1275000000000005
  /\ spacing_of 4000000000000003 160 = 2400000000000002
  /\ Z.quot (4000000000000003 * (160 - 100)) 100 = 2400000000000001.
Proof. repeat split; vm_compute; reflexivity. Qed.

(** The heights of the program and its line spacing are far from the end
    of the doubles, and there the two rounded values are the integer
    quotients of the exact products. *)
Lemma program_heights char_pr_id :
  let h := char_height_of char_pr_id in
  lineseg_overflows h LINE_SPACING_PCT = false
  /\ baseline_of h = h * 85 / 100
  /\ spacing_of h LINE_SPACING_PCT = h * 60 / 100.
Proof.
  unfold char_height_of, CHAR_HEIGHT_NORMAL.
  repeat match goal with
         | |- context [if ?b then _ else _] => destruct b
         end;
    cbv zeta; repeat split; vm_compute; reflexivity.
Qed.

(** X1: where the writer computes the line segments at all (the two values
    it rounds in double precision are doubles), it lays a text out as a
    single line segment exactly when no proper, non-empty prefix of the text
    is wider than the page, which is the case whenever the character height
    is not negative and the whole text is at most as wide as the page; the
    single segment then starts at text offset 0 and vertical position 0,
    carries the flags 0x60000, and has the baseline [int(char_height * 0.85)]
    and the spacing [int(char_height * (line_spacing_pct - 100) / 100)] as
    double precision gives them. *)
Theorem X1_single_segment
    (text : pystr) (char_height line_spacing_pct horzsize : Z) :
  lineseg_overflows char_height line_spacing_pct = false ->
  let segs := compute_linesegs text char_height line_spacing_pct horzsize in
  (length segs = 1%nat <-> fits char_height horzsize text)
  /\ (fits char_height horzsize text ->
      segs = [mk_lineseg 0 0 char_height char_height (baseline_of char_height)
                (spacing_of char_height line_spacing_pct) 0 horzsize 393216])
  /\ (0 <= char_height -> run_width char_height text <= horzsize ->
      fits char_height horzsize text).
Proof.
  intros _ segs. subst segs.
  split; [|split].
  - destruct text as [|ch text'].
    + simpl. split; [intros _ n Hn; simpl in Hn; lia | reflexivity].
    + assert (Hne : ch :: text' <> []) by discriminate.
      rewrite <- (one_line_iff_fits char_height horzsize Hne).
      cbn [compute_linesegs]. rewrite linesegs_from_length.
      rewrite line_starts_of_breaks.
      destruct (breaks char_height horzsize _ _ 0 0); simpl; split;
        congruence.
  - intros Hf. destruct text as [|ch text']; [reflexivity|].
    assert (Hne : ch :: text' <> []) by discriminate.
    apply (one_line_iff_fits char_height horzsize Hne) in Hf.
    cbn [compute_linesegs]. rewrite Hf. reflexivity.
  - apply fits_of_width.
Qed.

Lemma X1_single_segment_witness :
  lineseg_overflows 1000 160 = false
  /\ fits 1000 42520 (lit "Hello")
  /\ compute_linesegs (lit "Hello") 1000 160 42520
     = [mk_lineseg 0 0 1000 1000 850 600 0 42520 393216].
Proof.
  split; [vm_compute; reflexivity|].
  pose proof (@X1_single_segment (lit "Hello") 1000 160 42520
                ltac:(vm_compute; reflexivity)) as H.
  cbv zeta in H. destruct H as (_ & Hseg & Hfit).
  assert (F : fits 1000 42520 (lit "Hello"))
    by (apply Hfit; [lia | vm_compute; discriminate]).
  split; [exact F|].
  rewrite (Hseg F). vm_compute. reflexivity.
Defined.

(** X2: the geometry of the segments, where the writer computes them at
    all (the two values it rounds in double precision are doubles).  The
    segment at position [k] lies at vertical position [k] times the line
    height (character height plus spacing), all segments share the vertical
    size, text height, baseline, spacing, horizontal position 0 and width,
    baseline and spacing being what double precision makes of
    [char_height * 0.85] and [char_height * (line_spacing_pct - 100) / 100];
    the flags are 0x60000 for a lone segment, 0x20000 for the first and
    0x40000 for the last of several, and 0 in between; a segment starts
    inside the text (at offset 0 for the empty text); and there are at least
    one and at most as many segments as the text has characters (one for
    the empty text).  For a height below [2^49] in absolute value the
    baseline is the integer part of [char_height * 85 / 100], and for a
    product [char_height * (line_spacing_pct - 100)] below [100 * 2^47] in
    absolute value the spacing is the integer part of its hundredth, both
    truncated towards zero. *)
Theorem X2_lineseg_geometry
    (text : pystr) (char_height line_spacing_pct horzsize : Z) :
  lineseg_overflows char_height line_spacing_pct = false ->
  let segs := compute_linesegs text char_height line_spacing_pct horzsize in
  let n := Z.of_nat (length segs) in
  (forall k s,
      nth_error segs k = Some s ->
      ls_vertpos s
      = Z.of_nat k * (char_height + spacing_of char_height line_spacing_pct)
      /\ ls_vertsize s = char_height
      /\ ls_textheight s = char_height
      /\ ls_baseline s = baseline_of char_height
      /\ ls_spacing s = spacing_of char_height line_spacing_pct
      /\ ls_horzpos s = 0
      /\ ls_horzsize s = horzsize
      /\ ls_flags s
         = (if n =? 1 then 393216
            else if Z.of_nat k =? 0 then 131072
            else if Z.of_nat k =? n - 1 then 262144 else 0)
      /\ 0 <= ls_textpos s <= Z.max 0 (Z.of_nat (length text) - 1))
  /\ (1 <= length segs <= Nat.max 1 (length text))%nat
  /\ (Z.abs char_height < 2 ^ 49 ->
      baseline_of char_height = Z.quot (char_height * 85) 100)
  /\ (Z.abs (char_height * (line_spacing_pct - 100)) < 100 * 2 ^ 47 ->
      spacing_of char_height line_spacing_pct
      = Z.quot (char_height * (line_spacing_pct - 100)) 100).
Proof.
  intros _ segs n. subst segs n.
  assert (Hmore : forall A B : Prop,
             A /\ B ->
             A /\ B
             /\ (Z.abs char_height < 2 ^ 49 ->
                 baseline_of char_height = Z.quot (char_height * 85) 100)
             /\ (Z.abs (char_height * (line_spacing_pct - 100)) < 100 * 2 ^ 47 ->
                 spacing_of char_height line_spacing_pct
                 = Z.quot (char_height * (line_spacing_pct - 100)) 100)).
  { intros A B [HA' HB']. repeat split; try assumption.
    - apply baseline_of_small.
    - apply spacing_of_small. }
  apply Hmore. clear Hmore.
  destruct text as [|ch text'].
  - split; [|simpl; lia].
    intros k s H. destruct k as [|k]; [|destruct k; discriminate].
    cbn [compute_linesegs nth_error] in H. injection H as <-.
    cbn [ls_vertpos ls_vertsize ls_textheight ls_baseline ls_spacing
         ls_horzpos ls_horzsize ls_flags ls_textpos length].
    repeat split; try reflexivity; lia.
  - set (text := ch :: text').
    assert (Hseg : compute_linesegs text char_height line_spacing_pct horzsize
                   = linesegs_from char_height line_spacing_pct horzsize
                       (Z.of_nat (length (line_starts_of text char_height horzsize)))
                       0 (line_starts_of text char_height horzsize))
      by reflexivity.
    rewrite Hseg. clear Hseg. rewrite linesegs_from_length.
    pose proof (line_starts_of_breaks char_height horzsize text) as Hb.
    pose proof (breaks_below char_height horzsize (Z.of_nat (length text))
                  text 0 0) as Hbelow.
    pose proof (breaks_above char_height horzsize (Z.of_nat (length text))
                  text 0 0) as Habove.
    assert (Hne : text <> []) by discriminate.
    pose proof (@breaks_length_lt char_height horzsize text 0 0 Hne) as Hlt.
    change (0 + Z.of_nat (length text)) with (Z.of_nat (length text)) in Hlt.
    split.
    + intros k s H.
      destruct (linesegs_from_nth _ _ _ _ _ _ _ H) as (tp & Htp & ->).
      cbn [ls_vertpos ls_vertsize ls_textheight ls_baseline ls_spacing
           ls_horzpos ls_horzsize ls_flags ls_textpos].
      rewrite !Z.add_0_l. repeat split; try reflexivity.
      * rewrite Hb in Htp. destruct k as [|k]; cbn [nth_error] in Htp.
        -- injection Htp as <-. lia.
        -- apply nth_error_In in Htp.
           rewrite Forall_forall in Habove. specialize (Habove _ Htp). lia.
      * rewrite Hb in Htp. destruct k as [|k]; cbn [nth_error] in Htp.
        -- injection Htp as <-. lia.
        -- apply nth_error_In in Htp.
           rewrite Forall_forall in Hbelow. specialize (Hbelow _ Htp). lia.
    + rewrite Hb. cbn [length]. subst text. cbn [length] in *. lia.
Qed.

Lemma X2_lineseg_geometry_witness :
  lineseg_overflows 1000 160 = false
  /\ (1 <= length (compute_linesegs (lit "Hello") 1000 160 42520)
       <= Nat.max 1 (length (lit "Hello")))%nat.
Proof.
  split; [vm_compute; reflexivity|].
  exact (proj1 (proj2 (@X2_lineseg_geometry (lit "Hello") 1000 160 42520
                         ltac:(vm_compute; reflexivity)))).
Defined.

(** ** Paragraph ids *)

Lemma fresh_ids_nil lo hi : fresh_ids lo hi [].
Proof. exists []. repeat split; constructor. Qed.

Lemma fresh_ids_one lo hi p :
  has_para_id (lo + 1) p = true -> lo + 1 <= hi -> fresh_ids lo hi [p].
Proof.
  intros Hp Hhi. exists [lo + 1]. repeat split.
  - constructor; [exact Hp | constructor].
  - repeat constructor.
  - constructor; [lia | constructor].
Qed.

Lemma fresh_ids_app lo mid hi a b :
  lo <= mid -> mid <= hi ->
  fresh_ids lo mid a -> fresh_ids mid hi b -> fresh_ids lo hi (a ++ b).
Proof.
  intros H1 H2 (ia & Fa & Sa & Ra) (ib & Fb & Sb & Rb).
  exists (ia ++ ib). repeat split.
  - now apply Forall2_app.
  - clear Fa Fb. induction ia as [|i ia IH]; [exact Sb|].
    inversion_clear Sa as [|? ? Sa' Hi]. inversion_clear Ra as [|? ? Ri Ra'].
    cbn [app]. constructor; [now apply IH|].
    apply Forall_app. split; [exact Hi|].
    eapply Forall_impl; [|exact Rb]. simpl. intros; lia.
  - apply Forall_app. split;
      (eapply Forall_impl; [|eassumption]); simpl; intros; lia.
Qed.

Lemma fresh_ids_cons lo hi p parts :
  has_para_id (lo + 1) p = true -> lo + 1 <= hi ->
  fresh_ids (lo + 1) hi parts -> fresh_ids lo hi (p :: parts).
Proof.
  intros Hp Hhi Hparts.
  apply (@fresh_ids_app lo (lo + 1) hi [p] parts); try lia; auto.
  apply fresh_ids_one; [assumption | lia].
Qed.

(** The opening of a paragraph with its id has no room for a text run. *)
Lemma para_id_open_closed i :
  closed_for (lit "<hp:t>") (lit "<hp:p id='" ++ str_of_int i ++ lit "'").
Proof.
  apply closed_for_app; [apply clashes_everywhere_sound; reflexivity|].
  apply closed_for_app.
  - exact (@closed_for_without 60 (lit "hp:t>") _ (str_of_int_no_lt i)).
  - apply clashes_everywhere_sound; reflexivity.
Qed.

(** A marker leaves the id of the paragraph it marks alone. *)
Lemma replace_first_para_id marker i part :
  has_para_id i part = true ->
  has_para_id i (replace_first (lit "<hp:t>") (lit "<hp:t>" ++ marker) part)
  = true.
Proof.
  unfold has_para_id. intros H. apply startswith_inv in H.
  rewrite H at 1.
  rewrite replace_first_prefix
    by (intros k Hk; now apply para_id_open_closed).
  apply startswith_app.
Qed.

Lemma mark_first_fresh marker lo hi parts :
  fresh_ids lo hi parts -> fresh_ids lo hi (mark_first marker parts).
Proof.
  intros (ids & F & S & R). exists ids. repeat split; auto.
  destruct F as [|p i parts ids Hp F]; [constructor|].
  cbn [mark_first]. constructor; [|assumption].
  now apply replace_first_para_id.
Qed.

Lemma has_para_id_open i rest :
  has_para_id i (lit "<hp:p id='" ++ str_of_int i ++ lit "'" ++ rest) = true.
Proof.
  unfold has_para_id.
  replace (lit "<hp:p id='" ++ str_of_int i ++ lit "'" ++ rest)
    with ((lit "<hp:p id='" ++ str_of_int i ++ lit "'") ++ rest)
    by (now rewrite <- !app_assoc).
  apply startswith_app.
Qed.

Lemma make_paragraph_xml_para_id text s p cpr c :
  has_para_id (c + 1) (fst (make_paragraph_xml text s p cpr c)) = true.
Proof.
  unfold make_paragraph_xml, next_para_id.
  rewrite bind_run. cbn [ret fst].
  change (lit "' paraPrIDRef='") with (lit "'" ++ lit " paraPrIDRef='").
  rewrite <- !app_assoc.
  apply has_para_id_open.
Qed.

Lemma make_paragraph_xml_counter text s p cpr c :
  snd (make_paragraph_xml text s p cpr c) = c + 1.
Proof. unfold make_paragraph_xml. rewrite bind_run. reflexivity. Qed.

Lemma make_equation_para_id latex c :
  has_para_id (c + 1) (fst (make_equation_paragraph_xml latex c)) = true.
Proof.
  unfold make_equation_paragraph_xml, next_para_id.
  rewrite bind_run. cbn [ret fst].
  change (lit "' paraPrIDRef='0' styleIDRef='0'")
    with (lit "'" ++ lit " paraPrIDRef='0' styleIDRef='0'").
  rewrite <- !app_assoc.
  apply has_para_id_open.
Qed.

Lemma make_equation_counter latex c :
  snd (make_equation_paragraph_xml latex c) = c + 1.
Proof. unfold make_equation_paragraph_xml. rewrite bind_run. reflexivity. Qed.

(** One paragraph, one id. *)
Lemma well_numbered_one (m : M pystr) :
  (forall c, snd (m c) = c + 1) ->
  (forall c, has_para_id (c + 1) (fst (m c)) = true) ->
  well_numbered (p <- m ;; ret [p]).
Proof.
  intros Hc Hp. exists 1%nat. intros c. rewrite bind_run. cbn [ret fst snd].
  rewrite Hc. split; [lia|]. apply fresh_ids_one; [apply Hp | lia].
Qed.

Lemma well_numbered_ret_nil : well_numbered (ret []).
Proof.
  exists O. intros c. cbn [ret fst snd]. split; [lia | apply fresh_ids_nil].
Qed.

Lemma well_numbered_counter m c : well_numbered m -> c <= snd (m c).
Proof. intros (n & H). destruct (H c) as [-> _]. lia. Qed.

Lemma extend_each_numbered {A} (f : A -> M (list pystr)) l :
  Forall (fun a => well_numbered (f a)) l -> well_numbered (extend_each f l).
Proof.
  induction 1 as [|a l (na & Ha) Hl (nl & IH)]; cbn [extend_each].
  - apply well_numbered_ret_nil.
  - exists (na + nl)%nat. intros c. rewrite !bind_run. cbn [ret fst snd].
    destruct (Ha c) as [Ea Fa]. destruct (IH (snd (f a c))) as [El Fl].
    split; [lia|].
    apply (@fresh_ids_app c (snd (f a c))); auto; lia.
Qed.

Lemma extend_each_idx_numbered {A} (f : Z -> A -> M (list pystr)) l :
  Forall (fun a => exists n : nat, forall i c,
              snd (f i a c) = c + Z.of_nat n
              /\ fresh_ids c (snd (f i a c)) (fst (f i a c))) l ->
  forall i, well_numbered (extend_each_idx f i l).
Proof.
  induction 1 as [|a l (na & Ha) Hl IH]; intros i; cbn [extend_each_idx].
  - apply well_numbered_ret_nil.
  - destruct (IH (i + 1)) as (nl & IHl).
    exists (na + nl)%nat. intros c. rewrite !bind_run. cbn [ret fst snd].
    destruct (Ha i c) as [Ea Fa]. destruct (IHl (snd (f i a c))) as [El Fl].
    split; [lia|].
    apply (@fresh_ids_app c (snd (f i a c))); auto; lia.
Qed.

Lemma well_numbered_mark (m : M (list pystr)) marker :
  well_numbered m ->
  well_numbered (item_parts <- m ;; ret (mark_first marker item_parts)).
Proof.
  intros (n & H). exists n. intros c. rewrite bind_run. cbn [ret fst snd].
  destruct (H c) as [E F]. split; [exact E | now apply mark_first_fresh].
Qed.

(** *** The ids a table takes *)

Lemma table_cell_xml_counter bfid col_width row_height row_idx col_idx text c :
  snd (table_cell_xml bfid col_width row_height row_idx col_idx text c) = c + 1.
Proof. unfold table_cell_xml. rewrite bind_run. reflexivity. Qed.

(** A loop whose steps take a number of ids that depends on the element
    alone takes their sum. *)
Lemma extend_each_idx_counter {A} (f : Z -> A -> M (list pystr))
    (cost : A -> nat) l :
  (forall i a c, snd (f i a c) = c + Z.of_nat (cost a)) ->
  forall i c,
    snd (extend_each_idx f i l c) = c + Z.of_nat (list_sum (map cost l)).
Proof.
  intros Hf. induction l as [|a l IH]; intros i c; cbn [extend_each_idx].
  - simpl. lia.
  - rewrite !bind_run. cbn [ret snd]. rewrite IH, Hf. cbn [map].
    change (list_sum (cost a :: map cost l))
      with (cost a + list_sum (map cost l))%nat.
    lia.
Qed.

Lemma list_sum_const {A} (l : list A) :
  list_sum (map (fun _ => 1%nat) l) = length l.
Proof. induction l as [|a l IH]; simpl; [reflexivity | now rewrite IH]. Qed.

Lemma list_sum_lengths {A} (rows : list (list A)) :
  list_sum (map (@length A) rows) = length (concat rows).
Proof.
  induction rows as [|r rows IH]; simpl; [reflexivity|].
  now rewrite length_app, IH.
Qed.

Lemma make_table_xml_counter rows col_count caption_text c :
  snd (make_table_xml rows col_count caption_text c)
  = c + (if nonempty caption_text then 1 else 0) + 2
    + Z.of_nat (length (concat rows)).
Proof.
  unfold make_table_xml. rewrite bind_run.
  set (cap := match caption_text with
              | [] => ret []
              | _ :: _ => _
              end).
  assert (Hcap : snd (cap c) = c + (if nonempty caption_text then 1 else 0)).
  { subst cap. destruct caption_text as [|ch cap']; cbn [nonempty].
    - cbn [ret snd]. lia.
    - cbn [CAPTION_STYLE]. rewrite bind_run. cbn [ret snd].
      apply make_paragraph_xml_counter. }
  rewrite !bind_run. cbn [ret snd].
  rewrite (@extend_each_idx_counter _ _ (@length pystr)).
  - rewrite list_sum_lengths. unfold next_para_id at 1 2. cbn [snd].
    rewrite Hcap. lia.
  - intros i row c'. rewrite bind_run. cbn [ret snd].
    rewrite (@extend_each_idx_counter _ _ (fun _ => 1%nat)).
    + now rewrite list_sum_const.
    + intros j text c''. apply table_cell_xml_counter.
Qed.

Lemma make_table_xml_para_id rows col_count caption_text c :
  has_para_id (c + 1) (fst (make_table_xml rows col_count caption_text c))
  = true.
Proof.
  unfold make_table_xml.
  destruct caption_text as [|ch cap].
  - rewrite !bind_run. cbn [ret fst snd app join concat].
    unfold next_para_id at 1. cbn [fst].
    change (lit "' paraPrIDRef='0' styleIDRef='0'")
      with (lit "'" ++ lit " paraPrIDRef='0' styleIDRef='0'").
    rewrite <- !app_assoc. apply has_para_id_open.
  - cbn [CAPTION_STYLE]. rewrite !bind_run. cbn [ret fst snd app join concat].
    unfold make_paragraph_xml at 1, next_para_id at 1.
    rewrite bind_run. cbn [ret fst].
    change (lit "' paraPrIDRef='") with (lit "'" ++ lit " paraPrIDRef='").
    rewrite <- !app_assoc. apply has_para_id_open.
Qed.

(** *** Blocks *)

Lemma convert_block_numbered b :
  forall indent_level, well_numbered (convert_block indent_level b).
Proof.
  induction b using block_nested_ind; intros indent_level.
  - (* Para *)
    cbn [convert_block].
    destruct c as [|[] [|]];
      apply well_numbered_one;
      auto using make_paragraph_xml_counter, make_paragraph_xml_para_id,
                 make_equation_counter, make_equation_para_id.
  - cbn [convert_block].
    destruct c as [|[] [|]];
      apply well_numbered_one;
      auto using make_paragraph_xml_counter, make_paragraph_xml_para_id,
                 make_equation_counter, make_equation_para_id.
  - cbn [convert_block]. destruct (heading_style level) as [[sid pid] cid].
    apply well_numbered_one;
      auto using make_paragraph_xml_counter, make_paragraph_xml_para_id.
  - cbn [convert_block]. apply extend_each_numbered.
    apply Forall_forall. intros line _.
    apply well_numbered_one;
      auto using make_paragraph_xml_counter, make_paragraph_xml_para_id.
  - cbn [convert_block]. apply extend_each_numbered.
    eapply Forall_impl; [|exact H]. intros item_blocks Hitem.
    apply well_numbered_mark. apply extend_each_numbered.
    eapply Forall_impl; [|exact Hitem]. auto.
  - cbn [convert_block]. apply extend_each_idx_numbered.
    eapply Forall_impl; [|exact H]. intros item_blocks Hitem.
    assert (Hw : well_numbered
                   (extend_each (convert_block indent_level) item_blocks)).
    { apply extend_each_numbered.
      eapply Forall_impl; [|exact Hitem]. auto. }
    destruct Hw as (n & Hn). exists n. intros i c.
    rewrite bind_run. cbn [ret fst snd].
    destruct (Hn c) as [E F]. split; [exact E | now apply mark_first_fresh].
  - cbn [convert_block]. apply extend_each_numbered.
    eapply Forall_impl; [|exact H]. auto.
  - cbn [convert_block].
    destruct (table_grid head_rows bodies) as [all_rows col_count].
    destruct all_rows as [|row rows]; [apply well_numbered_ret_nil|].
    destruct (0 <? col_count)%nat; [|apply well_numbered_ret_nil].
    exists (Z.to_nat ((if nonempty (blocks_text caption) then 1 else 0) + 2)
            + length (concat (row :: rows)))%nat.
    intros c. rewrite bind_run. cbn [ret fst snd].
    rewrite make_table_xml_counter.
    split; [destruct (nonempty (blocks_text caption)); lia|].
    apply fresh_ids_one; [apply make_table_xml_para_id|].
    destruct (nonempty (blocks_text caption)); lia.
  - cbn [convert_block].
    apply well_numbered_one;
      auto using make_paragraph_xml_counter, make_paragraph_xml_para_id.
  - cbn [convert_block]. apply extend_each_numbered.
    eapply Forall_impl; [|exact H]. auto.
  - cbn [convert_block]. apply extend_each_numbered.
    eapply Forall_impl; [|exact H]. intros item Hitem.
    assert (Hdefs : well_numbered
              (extend_each
                 (fun def_blocks =>
                    extend_each (convert_block (S indent_level)) def_blocks)
                 (snd item))).
    { apply extend_each_numbered.
      eapply Forall_impl; [|exact Hitem]. intros def_blocks Hdef.
      apply extend_each_numbered.
      eapply Forall_impl; [|exact Hdef]. auto. }
    destruct Hdefs as (n & Hn). exists (S n). intros c.
    rewrite !bind_run. cbn [ret fst snd].
    rewrite make_paragraph_xml_counter.
    destruct (Hn (c + 1)) as [E F]. split; [lia|].
    apply fresh_ids_cons; [apply make_paragraph_xml_para_id | lia | exact F].
  - cbn [convert_block]. apply extend_each_numbered.
    apply Forall_forall. intros line _.
    apply well_numbered_one;
      auto using make_paragraph_xml_counter, make_paragraph_xml_para_id.
  - apply well_numbered_ret_nil.
Qed.

Lemma convert_blocks_numbered blocks indent_level :
  well_numbered (convert_blocks blocks indent_level).
Proof.
  unfold convert_blocks. apply extend_each_numbered.
  apply Forall_forall. intros b _. apply convert_block_numbered.
Qed.

Lemma fresh_ids_length lo hi parts :
  lo <= hi -> fresh_ids lo hi parts -> Z.of_nat (length parts) <= hi - lo.
Proof.
  intros Hle (ids & F & S & R).
  rewrite (Forall2_length F). clear F. revert lo Hle R.
  induction S as [|i ids S IH Hi]; intros lo Hle R; [simpl; lia|].
  inversion_clear R as [|? ? Ri R'].
  cbn [length]. 
  assert (R2 : Forall (fun j => i < j <= hi) ids).
  { rewrite Forall_forall in *. intros j Hj.
    specialize (Hi _ Hj). specialize (R' _ Hj). lia. }
  specialize (IH i ltac:(lia) R2). lia.
Qed.

(** X3: paragraph ids.  Converting a list of blocks takes a number of
    paragraph ids that depends on the blocks but not on the value of the
    counter, and never lowers the counter.  The generated parts open with
    paragraph elements whose ids increase strictly from part to part and
    were all taken during this conversion (above the counter before, not
    above the counter after); so no two parts open with the same id and
    there are at most as many parts as ids taken. *)
Theorem X3_paragraph_ids_fresh (blocks : list block) (indent_level : nat) :
  exists n : nat,
    forall counter,
      let r := convert_blocks blocks indent_level counter in
      snd r = counter + Z.of_nat n
      /\ fresh_ids counter (snd r) (fst r)
      /\ (length (fst r) <= n)%nat.
Proof.
  destruct (convert_blocks_numbered blocks indent_level) as (n & Hn).
  exists n. intros counter r. subst r. destruct (Hn counter) as [E F].
  repeat split; auto.
  apply fresh_ids_length in F; lia.
Qed.

(** X4: the ids a table takes.  [make_table_xml] takes one paragraph id for
    the caption when there is one, one for the paragraph that holds the
    table, one for the table itself and one for every cell, in this order,
    so that the returned string opens with the paragraph of the first id
    taken; a table block that is written takes as many ids as that for its
    grid, which has [col_count] cells in every row. *)
Theorem X4_table_ids :
  (forall rows col_count caption_text counter,
      let r := make_table_xml rows col_count caption_text counter in
      snd r = counter + (if nonempty caption_text then 1 else 0) + 2
              + Z.of_nat (length (concat rows))
      /\ has_para_id (counter + 1) (fst r) = true)
  /\ (forall caption head_rows bodies indent_level counter,
         let rows := fst (table_grid head_rows bodies) in
         let col_count := snd (table_grid head_rows bodies) in
         nonempty rows = true -> (0 < col_count)%nat ->
         snd (convert_block indent_level (Table caption head_rows bodies)
                            counter)
         = counter + (if nonempty (blocks_text caption) then 1 else 0) + 2
           + Z.of_nat (length rows * col_count)).
Proof.
  split.
  - intros rows col_count caption_text counter r. subst r.
    split; [apply make_table_xml_counter | apply make_table_xml_para_id].
  - intros caption head_rows bodies indent_level counter rows col_count Hr Hc.
    pose proof (C5 := table_grid_spec head_rows bodies).
    assert (Hall : Forall (fun row => length row = col_count) rows).
    { subst rows col_count. rewrite C5. cbn [fst snd].
      apply Forall_forall. intros row Hin. apply in_map_iff in Hin.
      destruct Hin as (row0 & <- & Hin0). apply filter_In in Hin0.
      destruct Hin0 as [Hin0 _]. apply pad_row_length.
      unfold row_texts_of in Hin0. apply in_map_iff in Hin0.
      destruct Hin0 as (cells & <- & Hcells). rewrite length_map.
      now apply max_row_length_ge. }
    assert (Hcells : length (concat rows) = (length rows * col_count)%nat).
    { clear Hr. induction Hall as [|row rows' Hrow Hrows IH]; [reflexivity|].
      cbn [concat length]. rewrite length_app, IH, Hrow. lia. }
    subst rows col_count. cbn [convert_block].
    destruct (table_grid head_rows bodies) as [all_rows cc]. cbn [fst snd] in *.
    destruct all_rows as [|row rows']; [discriminate|].
    replace (0 <? cc)%nat with true by (symmetry; apply Nat.ltb_lt; lia).
    rewrite bind_run. cbn [ret snd].
    rewrite make_table_xml_counter, Hcells. reflexivity.
Qed.

(** ** Escaping *)

(** Replacing a one-character string works character by character. *)
Lemma str_replace_char a new s :
  str_replace [a] new s = flat_map (fun c => if c =? a then new else [c]) s.
Proof.
  unfold str_replace, re_sub.
  induction s as [|c s IH]; [reflexivity|].
  cbn [sub_scan flat_map]. unfold m_literal at 1. cbn [startswith length].
  rewrite andb_true_r, (Z.eqb_sym a c).
  destruct (c =? a); cbn [Nat.pred]; now rewrite IH.
Qed.

Lemma flat_map_flat_map {A B C} (f : A -> list B) (g : B -> list C) l :
  flat_map g (flat_map f l) = flat_map (fun a => flat_map g (f a)) l.
Proof.
  induction l as [|a l IH]; [reflexivity|].
  cbn [flat_map]. now rewrite flat_map_app, IH.
Qed.

Lemma xml_escape_chars data : xml_escape data = flat_map escape_char data.
Proof.
  unfold xml_escape.
  change (lit "<") with [60]. change (lit ">") with [62].
  change (lit "&") with [38].
  rewrite !str_replace_char, !flat_map_flat_map.
  apply flat_map_ext. intros c. unfold escape_char.
  destruct (c =? 38) eqn:E1; [reflexivity|].
  cbn [flat_map app]. destruct (c =? 62) eqn:E2; [reflexivity|].
  cbn [flat_map app]. destruct (c =? 60) eqn:E3; reflexivity.
Qed.

Lemma escape_char_safe c :
  Forall (fun a => a <> 60 /\ a <> 62) (escape_char c).
Proof.
  unfold escape_char.
  destruct (c =? 38); [repeat constructor; discriminate|].
  destruct (c =? 62) eqn:E2; [repeat constructor; discriminate|].
  destruct (c =? 60) eqn:E3; [repeat constructor; discriminate|].
  apply Z.eqb_neq in E2, E3. repeat constructor; assumption.
Qed.

Lemma escape_char_cases c :
  (c = 38 /\ escape_char c = [38; 97; 109; 112; 59])
  \/ (c = 62 /\ escape_char c = [38; 103; 116; 59])
  \/ (c = 60 /\ escape_char c = [38; 108; 116; 59])
  \/ (c <> 38 /\ c <> 62 /\ c <> 60 /\ escape_char c = [c]).
Proof.
  unfold escape_char.
  destruct (c =? 38) eqn:E1; [apply Z.eqb_eq in E1; now left|].
  destruct (c =? 62) eqn:E2; [apply Z.eqb_eq in E2; right; now left|].
  destruct (c =? 60) eqn:E3; [apply Z.eqb_eq in E3; right; right; now left|].
  apply Z.eqb_neq in E1, E2, E3. right; right; right. auto.
Qed.

Lemma flat_map_escape_inj a : forall b,
  flat_map escape_char a = flat_map escape_char b -> a = b.
Proof.
  induction a as [|x a IH]; intros [|y b] H.
  - reflexivity.
  - exfalso. cbn [flat_map] in H.
    destruct (escape_char_cases y) as [[_ E]|[[_ E]|[[_ E]|(_ & _ & _ & E)]]];
      rewrite E in H; discriminate.
  - exfalso. cbn [flat_map] in H.
    destruct (escape_char_cases x) as [[_ E]|[[_ E]|[[_ E]|(_ & _ & _ & E)]]];
      rewrite E in H; discriminate.
  - cbn [flat_map] in H.
    destruct (escape_char_cases x)
      as [[X E]|[[X E]|[[X E]|(X1 & X2 & X3 & E)]]];
    destruct (escape_char_cases y)
      as [[Y E']|[[Y E']|[[Y E']|(Y1 & Y2 & Y3 & E')]]];
    rewrite E, E' in H; cbn [app] in H;
    try (injection H as H; subst; f_equal; now apply IH);
    try discriminate;
    injection H as H1 H2; congruence.
Qed.

(** X5: escaping.  The text of a paragraph is written character by
    character: [&], [>] and [<] as [&amp;], [&gt;] and [&lt;] and every
    other character as it is, also where the source treats the empty text
    apart.  So the text run of a paragraph contains neither [<] nor [>],
    whatever the text; texts without the three characters are written
    unchanged; escaping distributes over concatenation; and different
    texts are written differently. *)
Theorem X5_text_escaped :
  (forall data, xml_escape data = flat_map escape_char data)
  /\ (forall text style_id para_pr_id char_pr_id counter,
         fst (make_paragraph_xml text style_id para_pr_id char_pr_id counter)
         = paragraph_with_run (str_of_int (counter + 1))
             (flat_map escape_char text) text style_id para_pr_id char_pr_id)
  /\ (forall text, Forall (fun a => a <> 60 /\ a <> 62)
                          (flat_map escape_char text))
  /\ (forall text, Forall (fun a => a <> 38 /\ a <> 60 /\ a <> 62) text ->
                   xml_escape text = text)
  /\ (forall a b, xml_escape (a ++ b) = xml_escape a ++ xml_escape b)
  /\ (forall a b, xml_escape a = xml_escape b -> a = b).
Proof.
  split; [exact xml_escape_chars|].
  split; [|split; [|split; [|split]]].
  - intros. rewrite make_paragraph_xml_run. cbn [fst]. f_equal.
    unfold safe_text_of. destruct text; [reflexivity | apply xml_escape_chars].
  - intros text. induction text as [|c text IH]; [constructor|].
    cbn [flat_map]. apply Forall_app. split; [apply escape_char_safe | exact IH].
  - intros text H. rewrite xml_escape_chars.
    induction H as [|c text (H1 & H2 & H3) H IH]; [reflexivity|].
    cbn [flat_map]. rewrite IH. unfold escape_char.
    apply Z.eqb_neq in H1, H2, H3. now rewrite H1, H2, H3.
  - intros a b. rewrite !xml_escape_chars. apply flat_map_app.
  - intros a b. rewrite !xml_escape_chars. apply flat_map_escape_inj.
Qed.

(** ** The title block *)

Lemma append_if_run cond (p : M pystr) parts c :
  append_if cond p parts c
  = if cond then (parts ++ [fst (p c)], snd (p c)) else (parts, c).
Proof.
  unfold append_if. destruct cond; [|reflexivity].
  rewrite bind_run. reflexivity.
Qed.

(** The meta line: author and date, with a bar between them when both are
    there. *)
Lemma meta_line_both author date_str :
  nonempty author = true -> nonempty date_str = true ->
  join_sep (lit " | ") (filter nonempty [author; date_str])
  = author ++ lit " | " ++ date_str.
Proof.
  intros Ha Hd. cbn [filter]. rewrite Ha, Hd. reflexivity.
Qed.

Lemma meta_line_one author date_str :
  nonempty author && nonempty date_str = false ->
  join_sep (lit " | ") (filter nonempty [author; date_str])
  = author ++ date_str.
Proof.
  destruct author as [|a author], date_str as [|d date_str];
    cbn [nonempty andb filter join_sep app]; try discriminate; intros _;
    now rewrite ?app_nil_r.
Qed.

(** The title block, paragraph by paragraph. *)
Lemma title_block_run title subtitle author date_str c :
  let meta_line :=
    join_sep (lit " | ") (filter nonempty [author; date_str]) in
  let c1 := c + Z.of_nat (Nat.b2n (nonempty title)) in
  let c2 := c1 + Z.of_nat (Nat.b2n (nonempty subtitle)) in
  let c3 := c2 + Z.of_nat (Nat.b2n (nonempty author || nonempty date_str)) in
  let p1 := if nonempty title
            then [fst (make_paragraph_xml title 0 0 7 c)] else [] in
  let p2 := if nonempty subtitle
            then [fst (make_paragraph_xml subtitle 0 0 8 c1)] else [] in
  let p3 := if nonempty author || nonempty date_str
            then [fst (make_paragraph_xml meta_line 0 0 0 c2)] else [] in
  build_title_block_xml title subtitle author date_str c
  = if nonempty (p1 ++ p2 ++ p3)
    then (p1 ++ p2 ++ p3 ++ [fst (make_paragraph_xml [] 0 0 0 c3)], c3 + 1)
    else ([], c).
Proof.
  cbv zeta. unfold build_title_block_xml.
  rewrite !bind_run, !append_if_run.
  destruct (nonempty title), (nonempty subtitle),
           (nonempty author || nonempty date_str);
    cbn [fst snd app nonempty Nat.b2n];
    rewrite ?make_paragraph_xml_counter;
    cbn [fst snd app nonempty];
    rewrite ?make_paragraph_xml_counter;
    change (Z.of_nat 1) with 1; change (Z.of_nat 0) with 0;
    rewrite ?Z.add_0_r; reflexivity.
Qed.

Local Opaque make_paragraph_xml.

(** X6: the title block.  It holds one paragraph for the title, one for the
    subtitle and one for the line of author and date, each only when its
    text is there, and after them one blank paragraph when any of them is:
    so it is empty or has two to four paragraphs, the last one blank.  It
    takes one paragraph id per paragraph, and its paragraphs carry the ids
    after the counter, in order.  With author and date both given, the meta
    line is the author, a bar between spaces and the date; with only one
    of them, it is that one. *)
Theorem X6_title_block
    (title subtitle author date_str : pystr) (counter : Z) :
  let r := build_title_block_xml title subtitle author date_str counter in
  let k := (Nat.b2n (nonempty title) + Nat.b2n (nonempty subtitle)
            + Nat.b2n (nonempty author || nonempty date_str))%nat in
  length (fst r) = (if (k =? 0)%nat then O else S k)
  /\ snd r = counter + Z.of_nat (length (fst r))
  /\ (forall i part,
         nth_error (fst r) i = Some part ->
         has_para_id (counter + 1 + Z.of_nat i) part = true)
  /\ (nonempty (fst r) = true ->
      last (fst r) [] = fst (make_paragraph_xml [] 0 0 0 (snd r - 1)))
  /\ (nonempty author || nonempty date_str = true ->
      In (fst (make_paragraph_xml
                 (if nonempty author && nonempty date_str
                  then author ++ lit " | " ++ date_str
                  else author ++ date_str)
                 0 0 0
                 (counter + Z.of_nat (Nat.b2n (nonempty title)
                                      + Nat.b2n (nonempty subtitle)))))
         (fst r)).
Proof.
  intros r k. subst r k.
  rewrite title_block_run. cbv zeta.
  match goal with
  | |- context [join_sep ?sep ?l] =>
      assert (Hmeta : join_sep sep l
                      = if nonempty author && nonempty date_str
                        then author ++ lit " | " ++ date_str
                        else author ++ date_str)
  end.
  { destruct (nonempty author) eqn:Ea, (nonempty date_str) eqn:Ed;
      cbn [andb];
      [apply meta_line_both; assumption | apply meta_line_one ..];
      now rewrite Ea, Ed. }
  rewrite Hmeta. clear Hmeta.
  set (meta := if nonempty author && nonempty date_str
               then author ++ lit " | " ++ date_str else author ++ date_str).
  destruct (nonempty title), (nonempty subtitle),
           (nonempty author || nonempty date_str);
    cbn [Nat.b2n Nat.add Nat.eqb app nonempty fst snd length last];
    change (Z.of_nat 1) with 1; change (Z.of_nat 0) with 0;
    rewrite ?Z.add_0_r;
    (split; [reflexivity|]);
    (split; [cbn [length]; lia|]);
    (split;
     [intros i part Hi;
      repeat (destruct i as [|i]; cbn [nth_error] in Hi;
              [injection Hi as <-;
               match goal with
               | |- has_para_id ?j (fst (make_paragraph_xml ?t ?s ?p ?cpr ?c))
                    = true =>
                   replace j with (c + 1) by lia;
                   apply make_paragraph_xml_para_id
               end|]);
      try (destruct i; discriminate)|]);
    (split;
     [intros Hne; try discriminate;
      match goal with
      | |- fst (make_paragraph_xml [] 0 0 0 ?a)
           = fst (make_paragraph_xml [] 0 0 0 ?b) =>
          replace b with a by lia; reflexivity
      end|]);
    intros Hm; try discriminate;
    change (Z.of_nat 2) with 2; rewrite ?Z.add_0_r;
    cbn [In];
    repeat match goal with
           | |- _ \/ _ => first [left; f_equal; f_equal; lia | right]
           end.
Qed.

Local Transparent make_paragraph_xml.

(** ** Composition of the block conversion *)

Lemma extend_each_app {A} (f : A -> M (list pystr)) a b c :
  extend_each f (a ++ b) c
  = (fst (extend_each f a c) ++ fst (extend_each f b (snd (extend_each f a c))),
     snd (extend_each f b (snd (extend_each f a c)))).
Proof.
  revert c. induction a as [|x a IH]; intros c.
  - cbn [app extend_each ret fst snd]. now destruct (extend_each f b c).
  - cbn [app extend_each]. rewrite !bind_run. cbn [ret fst snd].
    rewrite IH. cbn [fst snd]. now rewrite app_assoc.
Qed.

Lemma extend_each_cons {A} (f : A -> M (list pystr)) x l c :
  extend_each f (x :: l) c
  = (fst (f x c) ++ fst (extend_each f l (snd (f x c))),
     snd (extend_each f l (snd (f x c)))).
Proof. cbn [extend_each]. rewrite !bind_run. reflexivity. Qed.

(** X7: how the conversion composes.  Converting a concatenation is
    converting the first list and then, with the counter that leaves, the
    second, the parts of both in order.  A block with a tag the converter
    does not know contributes nothing and takes no id; a [Div] is
    transparent: its blocks are converted as if they stood in its place;
    and a [BlockQuote] alone is its blocks converted one indent level
    deeper. *)
Theorem X7_convert_blocks_compose :
  (forall a b indent_level counter,
      convert_blocks (a ++ b) indent_level counter
      = let r1 := convert_blocks a indent_level counter in
        let r2 := convert_blocks b indent_level (snd r1) in
        (fst r1 ++ fst r2, snd r2))
  /\ (forall a t b indent_level counter,
         convert_blocks (a ++ UnknownBlock t :: b) indent_level counter
         = convert_blocks (a ++ b) indent_level counter)
  /\ (forall a inner b indent_level counter,
         convert_blocks (a ++ Div inner :: b) indent_level counter
         = convert_blocks (a ++ inner ++ b) indent_level counter)
  /\ (forall inner indent_level counter,
         convert_blocks [BlockQuote inner] indent_level counter
         = convert_blocks inner (S indent_level) counter).
Proof.
  unfold convert_blocks. split; [|split; [|split]].
  - intros. cbv zeta. apply extend_each_app.
  - intros. rewrite !extend_each_app, extend_each_cons. reflexivity.
  - intros. rewrite !extend_each_app, extend_each_cons.
    cbn [convert_block]. reflexivity.
  - intros. rewrite extend_each_cons. cbn [convert_block extend_each ret fst snd].
    rewrite app_nil_r. now destruct (extend_each _ inner counter).
Qed.

(** ** Code blocks and line blocks *)

Lemma split_on_join sep s : join_sep [sep] (split_on sep s) = s.
Proof.
  induction s as [|c s IH]; [reflexivity|].
  cbn [split_on]. destruct (c =? sep) eqn:E.
  - apply Z.eqb_eq in E. subst c.
    destruct (split_on sep s) as [|w ws] eqn:Es.
    + simpl in IH. subst s. discriminate.
    + change (join_sep [sep] ([] :: w :: ws))
        with ([] ++ [sep] ++ join_sep [sep] (w :: ws)).
      now rewrite IH.
  - destruct (split_on sep s) as [|w ws] eqn:Es.
    + simpl in IH. subst s. discriminate.
    + destruct ws as [|w' ws']; cbn [join_sep app] in *; now rewrite IH.
Qed.

Lemma split_on_length sep s :
  length (split_on sep s) = S (count_occ Z.eq_dec s sep).
Proof.
  induction s as [|c s IH]; [reflexivity|].
  cbn [split_on count_occ]. destruct (c =? sep) eqn:E.
  - apply Z.eqb_eq in E. destruct (Z.eq_dec c sep); [|contradiction].
    cbn [length]. now rewrite IH.
  - apply Z.eqb_neq in E. destruct (Z.eq_dec c sep); [contradiction|].
    destruct (split_on sep s); [discriminate | exact IH].
Qed.

Lemma split_on_free sep s :
  Forall (Forall (fun c => c <> sep)) (split_on sep s).
Proof.
  induction s as [|c s IH]; [repeat constructor|].
  cbn [split_on]. destruct (c =? sep) eqn:E.
  - constructor; [constructor | exact IH].
  - apply Z.eqb_neq in E.
    destruct (split_on sep s) as [|w ws]; [repeat constructor; assumption|].
    inversion_clear IH as [|? ? Hw Hws]. constructor; [|assumption].
    now constructor.
Qed.

(** A loop that writes one paragraph for every element. *)
Lemma paragraph_loop {A} (g : A -> pystr) s p cpr l : forall c,
  let r := extend_each
             (fun a => x <- make_paragraph_xml (g a) s p cpr ;; ret [x]) l c in
  snd r = c + Z.of_nat (length l)
  /\ length (fst r) = length l
  /\ forall k a, nth_error l k = Some a ->
                 nth_error (fst r) k
                 = Some (fst (make_paragraph_xml (g a) s p cpr
                                                 (c + Z.of_nat k))).
Proof.
  induction l as [|a l IH]; intros c r; subst r.
  - cbn [extend_each ret fst snd length]. repeat split; [lia|].
    intros [|k] a H; discriminate.
  - rewrite extend_each_cons. rewrite bind_run. cbn [ret fst snd app length].
    rewrite make_paragraph_xml_counter.
    destruct (IH (c + 1)) as (E1 & E2 & E3). cbv zeta in E1, E2, E3.
    repeat split; [lia | now rewrite E2 |].
    intros [|k] b H; cbn [nth_error] in *.
    + injection H as <-. now rewrite Z.add_0_r.
    + rewrite (E3 _ _ H). do 3 f_equal. lia.
Qed.

(** X8: code blocks and line blocks.  Splitting a text at the line feeds
    gives one line more than it has line feeds, none of the lines contains
    a line feed, and joining them with line feeds gives the text back.  A
    code block becomes one paragraph per line, in order, written with the
    character properties of code (id 10) over the indentation of the
    block, each with the next paragraph id; so an empty code block still
    gives one paragraph.  A line block becomes one paragraph per line in
    the normal style in the same way. *)
Theorem X8_line_paragraphs :
  (forall code_text,
      let lines := split_on 10 code_text in
      join_sep [10] lines = code_text
      /\ length lines = S (count_occ Z.eq_dec code_text 10)
      /\ Forall (Forall (fun c => c <> 10)) lines)
  /\ (forall code_text indent_level counter,
         let lines := split_on 10 code_text in
         let r := convert_block indent_level (CodeBlock code_text) counter in
         snd r = counter + Z.of_nat (length lines)
         /\ length (fst r) = length lines
         /\ forall k line,
              nth_error lines k = Some line ->
              nth_error (fst r) k
              = Some (fst (make_paragraph_xml
                             (str_repeat 12288 indent_level ++ line)
                             0 0 CODE_CHAR_PR_ID (counter + Z.of_nat k))))
  /\ (forall lines indent_level counter,
         let r := convert_block indent_level (LineBlock lines) counter in
         snd r = counter + Z.of_nat (length lines)
         /\ length (fst r) = length lines
         /\ forall k line_inlines,
              nth_error lines k = Some line_inlines ->
              nth_error (fst r) k
              = Some (fst (make_paragraph_xml
                             (str_repeat 12288 indent_level
                              ++ extract_text line_inlines)
                             0 0 0 (counter + Z.of_nat k)))).
Proof.
  split; [|split].
  - intros code_text lines. subst lines.
    split; [apply split_on_join|].
    split; [apply split_on_length | apply split_on_free].
  - intros code_text indent_level counter lines r. subst lines r.
    cbn [convert_block].
    exact (@paragraph_loop pystr
             (fun line => str_repeat 12288 indent_level ++ line)
             0 0 CODE_CHAR_PR_ID (split_on 10 code_text) counter).
  - intros lines indent_level counter r. subst r.
    cbn [convert_block].
    exact (@paragraph_loop (list inline)
             (fun line_inlines =>
                str_repeat 12288 indent_level ++ extract_text line_inlines)
             0 0 0 lines counter).
Qed.

(** ** More on the math transliterator *)

Lemma lstrip_keep p c r : p c = false -> lstrip p (c :: r) = c :: r.
Proof. intros H. simpl. now rewrite H. Qed.

Lemma rstrip_keep p r d : p d = false -> rstrip p (r ++ [d]) = r ++ [d].
Proof.
  intros H. unfold rstrip. rewrite rev_app_distr. cbn [rev app].
  rewrite lstrip_keep by assumption.
  change (d :: rev r) with ([d] ++ rev r).
  now rewrite rev_app_distr, rev_involutive.
Qed.

(** A text between a first and a last character that stay is not
    stripped. *)
Lemma strip_keep p c mid d :
  p c = false -> p d = false -> strip p (c :: mid ++ [d]) = c :: mid ++ [d].
Proof.
  intros Hc Hd. unfold strip. rewrite lstrip_keep by assumption.
  change (c :: mid ++ [d]) with ((c :: mid) ++ [d]).
  now apply rstrip_keep.
Qed.

Lemma span_all (p : Z -> bool) s :
  Forall (fun a => p a = true) s -> span p s = (s, []).
Proof.
  induction 1 as [|a s Ha Hs IH]; simpl; [reflexivity|].
  now rewrite Ha, IH.
Qed.

Lemma brace_arg_here g r :
  Forall (fun a => a <> 125) g -> brace_arg (g ++ 125 :: r) = Some (g, r).
Proof.
  intros Hg. unfold brace_arg.
  rewrite (@span_run (fun c => negb (c =? 125)) g 125 r).
  - reflexivity.
  - eapply Forall_impl; [|exact Hg]. intros a Ha. cbv beta.
    apply Z.eqb_neq in Ha. now rewrite Ha.
  - reflexivity.
Qed.

(** A command with two groups that have no closing brace inside matches
    up to the brace that closes the second group. *)
Lemma m_two_groups_here open1 open2 repl g1 g2 rest :
  Forall (fun a => a <> 125) g1 -> Forall (fun a => a <> 125) g2 ->
  m_two_groups open1 open2 repl
    (open1 ++ g1 ++ 125 :: open2 ++ g2 ++ 125 :: rest)
  = Some (repl g1 g2,
          length (open1 ++ g1 ++ 125 :: open2 ++ g2 ++ [125])).
Proof.
  intros H1 H2. unfold m_two_groups.
  rewrite expect_app, brace_arg_here, expect_app, brace_arg_here by assumption.
  do 2 f_equal. unfold consumed.
  repeat (rewrite ?length_app; cbn [length]). lia.
Qed.

Lemma m_sqrt_here g rest :
  Forall (fun a => a <> 125) g ->
  m_sqrt (lit "\sqrt{" ++ g ++ 125 :: rest)
  = Some (lit "sqrt{" ++ g ++ lit "}", length (lit "\sqrt{" ++ g ++ [125])).
Proof.
  intros H. unfold m_sqrt. rewrite expect_app, brace_arg_here by assumption.
  do 2 f_equal. unfold consumed.
  repeat (rewrite ?length_app; cbn [length]). lia.
Qed.

(** A match that covers the whole text. *)
Lemma re_sub_whole m s r :
  s <> [] -> m s = Some (r, length s) -> re_sub m s = r.
Proof.
  intros Hne Hm. rewrite (@re_sub_here m s r (length s) Hm).
  - rewrite skipn_all. unfold re_sub. cbn [sub_scan]. apply app_nil_r.
  - destruct s; [congruence | simpl; lia].
Qed.

(** A scan whose pattern starts with [c] and does not match at the head of
    a text that has [c] only there changes nothing. *)
Lemma re_sub_head_none c m s' :
  starts_at c m -> Forall (fun x => x <> c) s' -> m (c :: s') = None ->
  re_sub m (c :: s') = c :: s'.
Proof.
  intros Hm Hs Hnone. unfold re_sub. cbn [sub_scan]. rewrite Hnone. f_equal.
  exact (re_sub_absent Hm Hs).
Qed.

Lemma startswith_Forall (P : Z -> Prop) p : forall s,
  startswith p s = true -> Forall P s -> Forall P p.
Proof.
  induction p as [|x p IH]; intros [|y s] H Hs; try constructor;
    try discriminate.
  - simpl in H. apply andb_true_iff in H as [H1 H2].
    apply Z.eqb_eq in H1. subst y. now inversion Hs.
  - simpl in H. apply andb_true_iff in H as [H1 H2].
    inversion_clear Hs. eauto.
Qed.

(** A literal with a character that is no letter does not begin a run of
    letters. *)
Lemma startswith_letters p name :
  Forall (fun a => is_ascii_alpha a = true) name ->
  forallb is_ascii_alpha p = false -> startswith p name = false.
Proof.
  intros Hname Hp. destruct (startswith p name) eqn:E; [|reflexivity].
  pose proof (@startswith_Forall _ _ _ E Hname) as Hall.
  assert (Hb : forallb is_ascii_alpha p = true)
    by (apply forallb_forall; rewrite Forall_forall in Hall; exact Hall).
  congruence.
Qed.

Lemma letters_no_backslash name :
  Forall (fun a => is_ascii_alpha a = true) name ->
  Forall (fun a => a <> 92) name.
Proof.
  intros H. eapply Forall_impl; [|exact H]. intros a Ha ->. discriminate.
Qed.

Lemma absent_head_only c old s' :
  Forall (fun a => a <> c) s' -> startswith old s' = false ->
  absent (c :: old) (c :: s').
Proof.
  intros Hs Hh [|k].
  - cbn [skipn startswith]. now rewrite Z.eqb_refl.
  - cbn [skipn].
    pose proof (@closed_for_without c old s' Hs [] k) as Hc.
    rewrite app_nil_r in Hc.
    destruct (Nat.lt_ge_cases k (length s')) as [Hlt|Hge]; [now apply Hc|].
    now rewrite skipn_all2 by lia.
Qed.

Lemma forallb_no_backslash l :
  forallb (fun x => negb (x =? 92)) l = true -> Forall (fun x => x <> 92) l.
Proof.
  intros H. apply Forall_forall. intros x Hx.
  rewrite forallb_forall in H. specialize (H x Hx).
  apply negb_true_iff, Z.eqb_neq in H. exact H.
Qed.

Lemma starts_at_frac : starts_at 92 m_frac.
Proof. apply (starts_at_two_groups 92 (lit "frac{")). Qed.

Lemma starts_at_sum : starts_at 92 m_sum.
Proof. apply (starts_at_two_groups 92 (lit "sum_{")). Qed.

Lemma starts_at_int : starts_at 92 m_int.
Proof. apply (starts_at_two_groups 92 (lit "int_{")). Qed.

(** The rules that follow a given rule leave a text without a backslash as
    it is. *)
Lemma rules_after_frac t :
  Forall (fun x => x <> 92) t ->
  re_sub m_command
    (replace_symbols
       (str_replace (lit "\right)") (lit "right)")
          (str_replace (lit "\left(") (lit "left(")
             (re_sub m_sqrt (re_sub m_int (re_sub m_sum t))))))
  = t.
Proof.
  intros Ht. pose proof (rules_absent Ht) as R.
  now rewrite (re_sub_absent starts_at_frac Ht) in R.
Qed.

Lemma rules_after_sum t :
  Forall (fun x => x <> 92) t ->
  re_sub m_command
    (replace_symbols
       (str_replace (lit "\right)") (lit "right)")
          (str_replace (lit "\left(") (lit "left(")
             (re_sub m_sqrt (re_sub m_int t)))))
  = t.
Proof.
  intros Ht. pose proof (rules_after_frac Ht) as R.
  now rewrite (re_sub_absent starts_at_sum Ht) in R.
Qed.

Lemma rules_after_int t :
  Forall (fun x => x <> 92) t ->
  re_sub m_command
    (replace_symbols
       (str_replace (lit "\right)") (lit "right)")
          (str_replace (lit "\left(") (lit "left(") (re_sub m_sqrt t))))
  = t.
Proof.
  intros Ht. pose proof (rules_after_sum Ht) as R.
  now rewrite (re_sub_absent starts_at_int Ht) in R.
Qed.

Lemma rules_after_sqrt t :
  Forall (fun x => x <> 92) t ->
  re_sub m_command
    (replace_symbols
       (str_replace (lit "\right)") (lit "right)")
          (str_replace (lit "\left(") (lit "left(") t)))
  = t.
Proof.
  intros Ht. pose proof (rules_after_int Ht) as R.
  now rewrite (re_sub_absent starts_at_sqrt Ht) in R.
Qed.

Lemma group_split (g : pystr) :
  Forall (fun x => x <> 92 /\ x <> 125) g ->
  Forall (fun x => x <> 92) g /\ Forall (fun x => x <> 125) g.
Proof.
  intros H. split; (eapply Forall_impl; [|exact H]); simpl; tauto.
Qed.

(** A command with two groups, standing alone. *)
Lemma two_groups_alone name1 open2 out1 out2 out3 (m : matcher) a b :
  (forall x, m x = m_two_groups (92 :: name1) open2
                     (fun a b => out1 ++ a ++ out2 ++ b ++ out3) x) ->
  Forall (fun x => x <> 92 /\ x <> 125) a ->
  Forall (fun x => x <> 92 /\ x <> 125) b ->
  let s := (92 :: name1) ++ a ++ 125 :: open2 ++ b ++ [125] in
  strip (fun c => c =? 36) (strip is_space s) = s
  /\ re_sub m s = out1 ++ a ++ out2 ++ b ++ out3.
Proof.
  intros Hm Ha Hb s.
  destruct (group_split Ha) as [Ha1 Ha2], (group_split Hb) as [Hb1 Hb2].
  assert (Es : s = 92 :: (name1 ++ a ++ 125 :: open2 ++ b) ++ [125]).
  { subst s. cbn [app]. f_equal. rewrite <- !app_assoc. cbn [app].
    now rewrite <- !app_assoc. }
  split.
  - rewrite Es, !strip_keep; reflexivity.
  - apply re_sub_whole; [subst s; discriminate|].
    rewrite Hm. subst s.
    exact (@m_two_groups_here (92 :: name1) open2
             (fun a b => out1 ++ a ++ out2 ++ b ++ out3) a b [] Ha2 Hb2).
Qed.

Lemma expect_letters p name :
  Forall (fun a => is_ascii_alpha a = true) name ->
  forallb is_ascii_alpha p = false ->
  expect (92 :: p) (92 :: name) = None.
Proof.
  intros Hn Hp. apply expect_None. cbn [startswith].
  rewrite Z.eqb_refl. now apply startswith_letters.
Qed.

Lemma letters_last name :
  name <> [] -> Forall (fun a => is_ascii_alpha a = true) name ->
  exists mid d, name = mid ++ [d] /\ is_ascii_alpha d = true.
Proof.
  intros Hne Hn. exists (removelast name), (last name 0).
  split; [now apply app_removelast_last|].
  rewrite Forall_forall in Hn. apply Hn.
  destruct name as [|x name]; [congruence|].
  clear. revert x. induction name as [|y name IH]; intros x.
  - now left.
  - right. apply (IH y).
Qed.

Lemma letter_kept d :
  is_ascii_alpha d = true -> is_space d = false /\ (d =? 36) = false.
Proof.
  unfold is_ascii_alpha, is_space. intros H.
  apply orb_true_iff in H.
  split; [|apply Z.eqb_neq; lia].
  repeat (apply orb_false_iff; split);
    try (apply Z.eqb_neq; lia);
    apply andb_false_iff; lia.
Qed.

(** The rules before the symbol table on a backslash followed by
    letters. *)
Lemma rules_before_symbols name :
  name <> [] -> Forall (fun a => is_ascii_alpha a = true) name ->
  str_replace (lit "\right)") (lit "right)")
    (str_replace (lit "\left(") (lit "left(")
       (re_sub m_sqrt
          (re_sub m_int
             (re_sub m_sum
                (re_sub m_frac
                   (strip (fun c => c =? 36) (strip is_space (92 :: name))))))))
  = 92 :: name.
Proof.
  intros Hne Hn.
  destruct (letters_last Hne Hn) as (mid & d & E & Hd).
  destruct (letter_kept d Hd) as [Hd1 Hd2].
  pose proof (letters_no_backslash Hn) as Hb.
  rewrite E, !strip_keep by (assumption || reflexivity). rewrite <- E.
  rewrite (@re_sub_head_none 92 m_frac name starts_at_frac Hb)
    by (unfold m_frac, m_two_groups;
        change (lit "\frac{") with (92 :: lit "frac{");
        now rewrite (@expect_letters (lit "frac{") name Hn)).
  rewrite (@re_sub_head_none 92 m_sum name starts_at_sum Hb)
    by (unfold m_sum, m_two_groups;
        change (lit "\sum_{") with (92 :: lit "sum_{");
        now rewrite (@expect_letters (lit "sum_{") name Hn)).
  rewrite (@re_sub_head_none 92 m_int name starts_at_int Hb)
    by (unfold m_int, m_two_groups;
        change (lit "\int_{") with (92 :: lit "int_{");
        now rewrite (@expect_letters (lit "int_{") name Hn)).
  rewrite (@re_sub_head_none 92 m_sqrt name starts_at_sqrt Hb)
    by (unfold m_sqrt;
        change (lit "\sqrt{") with (92 :: lit "sqrt{");
        now rewrite (@expect_letters (lit "sqrt{") name Hn)).
  rewrite (@str_replace_absent_all (lit "\left(") (lit "left(") (92 :: name))
    by (apply (@absent_head_only 92 (lit "left(") name Hb);
        now apply startswith_letters).
  apply str_replace_absent_all.
  apply (@absent_head_only 92 (lit "right)") name Hb).
  now apply startswith_letters.
Qed.

Lemma m_command_here name :
  name <> [] -> Forall (fun a => is_ascii_alpha a = true) name ->
  re_sub m_command (92 :: name) = name.
Proof.
  intros Hne Hn. apply re_sub_whole; [discriminate|].
  unfold m_command. rewrite span_all by assumption.
  destruct name; [congruence | reflexivity].
Qed.

(** One symbol of the table, written with its backslash apart. *)
Lemma symbol_absent cmd repl name :
  Forall (fun a => a <> 92) name ->
  startswith (92 :: cmd) (92 :: name) = false ->
  str_replace (92 :: cmd) repl (92 :: name) = 92 :: name.
Proof.
  intros Hb Hs. apply str_replace_absent_all.
  apply absent_head_only; [assumption|].
  cbn [startswith] in Hs. now rewrite Z.eqb_refl in Hs.
Qed.

Lemma symbol_here cmd repl rest :
  Forall (fun a => a <> 92) rest ->
  str_replace (92 :: cmd) repl (92 :: cmd ++ rest) = repl ++ rest.
Proof.
  intros Hr.
  pose proof (@str_replace_once 92 cmd repl [] rest) as H.
  cbn [app] in H. apply H.
  - intros k Hk. simpl in Hk. lia.
  - intros k.
    pose proof (@closed_for_without 92 cmd rest Hr [] k) as Hcl.
    rewrite app_nil_r in Hcl.
    destruct (Nat.lt_ge_cases k (length rest)) as [Hlt|Hge]; [now apply Hcl|].
    now rewrite skipn_all2 by lia.
Qed.

(** The loop over a table of symbols on a text that begins with one of
    them and has no other backslash: the symbols before it in the table do
    not occur, it is replaced, and nothing is left for those after it. *)
Lemma symbols_fold_absent (table : list (pystr * pystr)) t :
  Forall (fun cr => exists c', fst cr = 92 :: c') table ->
  Forall (fun a => a <> 92) t ->
  fold_left (fun s cr => str_replace (fst cr) (snd cr) s) table t = t.
Proof.
  intros Ht Hb. induction Ht as [|[cmd repl] table (c' & E) Ht IH];
    cbn [fold_left fst snd]; [reflexivity|].
  cbn [fst] in E. subst cmd. now rewrite str_replace_absent.
Qed.

Lemma symbols_fold_here before cmd repl after rest :
  Forall (fun cr => exists c', fst cr = 92 :: c'
                               /\ startswith c' (cmd ++ rest) = false) before ->
  Forall (fun cr => exists c', fst cr = 92 :: c') after ->
  Forall (fun a => a <> 92) cmd -> Forall (fun a => a <> 92) rest ->
  Forall (fun a => a <> 92) repl ->
  fold_left (fun s cr => str_replace (fst cr) (snd cr) s)
            (before ++ (92 :: cmd, repl) :: after) (92 :: cmd ++ rest)
  = repl ++ rest.
Proof.
  intros Hbefore Hafter Hcmd Hrest Hrepl.
  induction Hbefore as [|[c r] before (c' & E1 & E2) Hb IH];
    cbn [app fold_left fst snd].
  - rewrite symbol_here by assumption.
    apply symbols_fold_absent; [assumption | now apply Forall_app].
  - cbn [fst] in E1. subst c.
    rewrite symbol_absent; [exact IH | now apply Forall_app |].
    cbn [startswith]. now rewrite Z.eqb_refl.
Qed.

Lemma symbols_fold_none (table : list (pystr * pystr)) name :
  Forall (fun cr => exists c', fst cr = 92 :: c'
                               /\ startswith c' name = false) table ->
  Forall (fun a => a <> 92) name ->
  fold_left (fun s cr => str_replace (fst cr) (snd cr) s) table (92 :: name)
  = 92 :: name.
Proof.
  intros Ht Hb. induction Ht as [|[c r] table (c' & E1 & E2) Ht IH];
    cbn [fold_left fst snd]; [reflexivity|].
  cbn [fst] in E1. subst c.
  rewrite symbol_absent; [exact IH | assumption |].
  cbn [startswith]. now rewrite Z.eqb_refl.
Qed.

Lemma forallb_letters l :
  forallb is_ascii_alpha l = true ->
  Forall (fun a => is_ascii_alpha a = true) l.
Proof.
  intros H. apply Forall_forall. intros x Hx.
  rewrite forallb_forall in H. now apply H.
Qed.

(** A symbol of the table in front of letters. *)
Lemma symbol_then_letters before cmd repl after rest :
  symbol_table = before ++ (92 :: cmd, repl) :: after ->
  Forall (fun cr => exists c', fst cr = 92 :: c'
                               /\ startswith c' (cmd ++ rest) = false) before ->
  Forall (fun cr => exists c', fst cr = 92 :: c') after ->
  cmd <> [] -> forallb is_ascii_alpha cmd = true ->
  forallb (fun x => negb (x =? 92)) repl = true ->
  Forall (fun a => is_ascii_alpha a = true) rest ->
  latex_to_hwp_script (92 :: cmd ++ rest) = repl ++ rest.
Proof.
  intros Et Hbefore Hafter Hne Hcmd Hrepl Hrest.
  apply forallb_letters in Hcmd. apply forallb_no_backslash in Hrepl.
  assert (Hn : Forall (fun a => is_ascii_alpha a = true) (cmd ++ rest))
    by now apply Forall_app.
  assert (Hne' : cmd ++ rest <> [])
    by (destruct cmd; [congruence | discriminate]).
  unfold latex_to_hwp_script. cbv zeta.
  rewrite (rules_before_symbols Hne' Hn).
  unfold replace_symbols. rewrite Et.
  rewrite symbols_fold_here;
    auto using letters_no_backslash.
  apply re_sub_absent with (c := 92); [apply starts_at_command|].
  apply Forall_app. auto using letters_no_backslash.
Qed.

(** X9: the rules of the math transliterator, one at a time.  With groups
    [a] and [b] that contain neither a backslash nor a closing brace,
    [\frac{a}{b}] becomes [{a} over {b}], [\sum_{a}^{b}] becomes
    [sum from{a} to{b}], [\int_{a}^{b}] becomes [int from{a} to{b}] and
    [\sqrt{a}] becomes [sqrt{a}].  A backslash followed by letters that do
    not begin with one of the six symbol names loses the backslash.  A
    symbol name followed by further letters is replaced as well: the text
    becomes the spelling of the symbol followed by those letters. *)
Theorem X9_transliteration_rules :
  (forall a b,
      Forall (fun x => x <> 92 /\ x <> 125) a ->
      Forall (fun x => x <> 92 /\ x <> 125) b ->
      latex_to_hwp_script (lit "\frac{" ++ a ++ lit "}{" ++ b ++ lit "}")
      = lit "{" ++ a ++ lit "} over {" ++ b ++ lit "}"
      /\ latex_to_hwp_script (lit "\sum_{" ++ a ++ lit "}^{" ++ b ++ lit "}")
         = lit "sum from{" ++ a ++ lit "} to{" ++ b ++ lit "}"
      /\ latex_to_hwp_script (lit "\int_{" ++ a ++ lit "}^{" ++ b ++ lit "}")
         = lit "int from{" ++ a ++ lit "} to{" ++ b ++ lit "}"
      /\ latex_to_hwp_script (lit "\sqrt{" ++ a ++ lit "}")
         = lit "sqrt{" ++ a ++ lit "}")
  /\ (forall name,
         nonempty name = true ->
         Forall (fun x => is_ascii_alpha x = true) name ->
         Forall (fun cr => startswith (fst cr) (92 :: name) = false)
                symbol_table ->
         latex_to_hwp_script (92 :: name) = name)
  /\ Forall (fun cr =>
               forall rest,
                 Forall (fun x => is_ascii_alpha x = true) rest ->
                 latex_to_hwp_script (fst cr ++ rest) = snd cr ++ rest)
            symbol_table.
Proof.
  split; [|split].
  - intros a b Ha Hb.
    destruct (group_split Ha) as [Ha1 Ha2], (group_split Hb) as [Hb1 Hb2].
    assert (Hlit : forall l, forallb (fun x => negb (x =? 92)) l = true ->
                             Forall (fun x => x <> 92) l)
      by exact forallb_no_backslash.
    split; [|split; [|split]].
    + destruct (@two_groups_alone (lit "frac{") (lit "{")
                  (lit "{") (lit "} over {") (lit "}") m_frac a b
                  (fun x => eq_refl) Ha Hb) as [Es Em].
      unfold latex_to_hwp_script. cbv zeta.
      change (lit "\frac{" ++ a ++ lit "}{" ++ b ++ lit "}")
        with ((92 :: lit "frac{") ++ a ++ 125 :: lit "{" ++ b ++ [125]).
      rewrite Es, Em. apply rules_after_frac.
      repeat (apply Forall_app; split); auto.
    + destruct (@two_groups_alone (lit "sum_{") (lit "^{")
                  (lit "sum from{") (lit "} to{") (lit "}") m_sum a b
                  (fun x => eq_refl) Ha Hb) as [Es Em].
      unfold latex_to_hwp_script. cbv zeta.
      change (lit "\sum_{" ++ a ++ lit "}^{" ++ b ++ lit "}")
        with ((92 :: lit "sum_{") ++ a ++ 125 :: lit "^{" ++ b ++ [125]).
      rewrite Es. cbn [app]. cbn [app] in Em.
      assert (Hs : Forall (fun x => x <> 92)
                     (lit "sum_{" ++ a ++ 125 :: lit "^{" ++ b ++ [125]))
        by (repeat (apply Forall_app; split); auto;
            constructor; [discriminate|];
            repeat (apply Forall_app; split); auto).
      rewrite (@re_sub_head_none 92 m_frac _ starts_at_frac Hs eq_refl).
      rewrite Em. apply rules_after_sum.
      repeat (apply Forall_app; split); auto.
    + destruct (@two_groups_alone (lit "int_{") (lit "^{")
                  (lit "int from{") (lit "} to{") (lit "}") m_int a b
                  (fun x => eq_refl) Ha Hb) as [Es Em].
      unfold latex_to_hwp_script. cbv zeta.
      change (lit "\int_{" ++ a ++ lit "}^{" ++ b ++ lit "}")
        with ((92 :: lit "int_{") ++ a ++ 125 :: lit "^{" ++ b ++ [125]).
      rewrite Es. cbn [app]. cbn [app] in Em.
      assert (Hs : Forall (fun x => x <> 92)
                     (lit "int_{" ++ a ++ 125 :: lit "^{" ++ b ++ [125]))
        by (repeat (apply Forall_app; split); auto;
            constructor; [discriminate|];
            repeat (apply Forall_app; split); auto).
      rewrite (@re_sub_head_none 92 m_frac _ starts_at_frac Hs eq_refl).
      rewrite (@re_sub_head_none 92 m_sum _ starts_at_sum Hs eq_refl).
      rewrite Em. apply rules_after_int.
      repeat (apply Forall_app; split); auto.
    + unfold latex_to_hwp_script. cbv zeta.
      assert (Hs : Forall (fun x => x <> 92) (lit "sqrt{" ++ a ++ [125]))
        by (repeat (apply Forall_app; split); auto).
      change (lit "\sqrt{" ++ a ++ lit "}")
        with (92 :: (lit "sqrt{" ++ a) ++ [125]).
      rewrite !strip_keep by reflexivity.
      change (92 :: (lit "sqrt{" ++ a) ++ [125])
        with (92 :: lit "sqrt{" ++ a ++ [125]).
      rewrite (@re_sub_head_none 92 m_frac _ starts_at_frac Hs eq_refl).
      rewrite (@re_sub_head_none 92 m_sum _ starts_at_sum Hs eq_refl).
      rewrite (@re_sub_head_none 92 m_int _ starts_at_int Hs eq_refl).
      rewrite (@re_sub_whole m_sqrt (92 :: lit "sqrt{" ++ a ++ [125])
                 (lit "sqrt{" ++ a ++ lit "}"));
        [| discriminate | exact (@m_sqrt_here a [] Ha2)].
      apply rules_after_sqrt.
      repeat (apply Forall_app; split); auto.
  - intros name Hne Hn Hsym.
    assert (Hne' : name <> []) by (destruct name; [discriminate | congruence]).
    pose proof (letters_no_backslash Hn) as Hb.
    unfold latex_to_hwp_script. cbv zeta.
    rewrite (rules_before_symbols Hne' Hn).
    unfold replace_symbols.
    rewrite symbols_fold_none; [now apply m_command_here | | assumption].
    unfold symbol_table in *.
    repeat match goal with
           | H : Forall _ (_ :: _) |- _ => inversion_clear H
           end.
    repeat constructor;
      (eexists; split; [reflexivity|]);
      match goal with
      | H : startswith (fst (?c, _)) (92 :: name) = false
        |- startswith ?c' name = false =>
          exact H
      end.
  - unfold symbol_table.
    repeat constructor; cbn [fst snd]; intros rest Hr.
    + apply (@symbol_then_letters [] (lit "geq") (lit ">=")
               (tl symbol_table) rest); auto; try reflexivity;
        repeat constructor; try (eexists; reflexivity); discriminate.
    + apply (@symbol_then_letters (firstn 1 symbol_table) (lit "leq")
               (lit "<=") (skipn 2 symbol_table) rest); auto;
        try reflexivity; try discriminate;
        repeat constructor;
        try (eexists; reflexivity);
        try (eexists; split; reflexivity).
    + apply (@symbol_then_letters (firstn 2 symbol_table) (lit "times")
               (lit "times") (skipn 3 symbol_table) rest); auto;
        try reflexivity; try discriminate;
        repeat constructor;
        try (eexists; reflexivity);
        try (eexists; split; reflexivity).
    + apply (@symbol_then_letters (firstn 3 symbol_table) (lit "cdot")
               (lit "cdot") (skipn 4 symbol_table) rest); auto;
        try reflexivity; try discriminate;
        repeat constructor;
        try (eexists; reflexivity);
        try (eexists; split; reflexivity).
    + apply (@symbol_then_letters (firstn 4 symbol_table) (lit "infty")
               (lit "inf") (skipn 5 symbol_table) rest); auto;
        try reflexivity; try discriminate;
        repeat constructor;
        try (eexists; reflexivity);
        try (eexists; split; reflexivity).
    + apply (@symbol_then_letters (firstn 5 symbol_table) (lit "pm")
               (lit "+-") [] rest); auto;
        try reflexivity; try discriminate;
        repeat constructor;
        try (eexists; reflexivity);
        try (eexists; split; reflexivity).
Qed.

(** ** List markers *)

Lemma xml_escape_no_lt data : Forall (fun a => a <> 60) (xml_escape data).
Proof.
  rewrite xml_escape_chars.
  induction data as [|c data IH]; [constructor|].
  cbn [flat_map]. apply Forall_app. split; [|exact IH].
  eapply Forall_impl; [|apply escape_char_safe]. simpl. tauto.
Qed.

(** The paragraph of an equation has no text run. *)
Lemma equation_paragraph_no_run latex c :
  absent (lit "<hp:t>") (fst (make_equation_paragraph_xml latex c)).
Proof.
  unfold make_equation_paragraph_xml, next_para_id.
  rewrite bind_run. cbn [ret fst].
  assert (Hfree : forall x, Forall (fun a => a <> 60) x ->
                            closed_for (lit "<hp:t>") x)
    by (intros x Hx; exact (@closed_for_without 60 (lit "hp:t>") x Hx)).
  repeat (apply closed_for_absent;
          [first [ apply Hfree; first [apply str_of_int_no_lt
                                      | apply xml_escape_no_lt]
                 | apply clashes_everywhere_sound; reflexivity ]|]).
  rewrite <- (app_nil_r (lit "</hp:p>")).
  apply closed_for_absent;
    [apply clashes_everywhere_sound; reflexivity
    | exact (@absent_nil 60 (lit "hp:t>"))].
Qed.

Lemma bullet_list_cons indent_level item_blocks items c :
  convert_block indent_level (BulletList (item_blocks :: items)) c
  = let r1 := convert_blocks item_blocks indent_level c in
    let r2 := convert_block indent_level (BulletList items) (snd r1) in
    (mark_first bullet_marker (fst r1) ++ fst r2, snd r2).
Proof.
  cbn [convert_block]. rewrite extend_each_cons, bind_run. reflexivity.
Qed.

(** ** Ordered lists *)

(** C8, as the specification words it, fails for an item whose paragraph
    holds a lone equation: an ordered list starting at 3 with two items of
    one paragraph each, the first paragraph a lone equation, gives the
    paragraph of the equation as it is, without [3. ] anywhere in it, and
    then the second paragraph with its [4. ]. *)
Lemma C8_lone_equation_not_numbered :
  fst (convert_blocks
         [OrderedList 3 [[Para [Math (lit "x")]]; [Para [Str (lit "b")]]]]
         O PARA_ID_START)
  = [fst (make_equation_paragraph_xml (lit "x") PARA_ID_START);
     paragraph_with_run (str_of_int (PARA_ID_START + 2))
                        (lit "4. b") (lit "b") 0 0 0]
  /\ str_index (lit "3. ")
       (fst (make_equation_paragraph_xml (lit "x") PARA_ID_START))
     = None.
Proof. split; vm_compute; reflexivity. Qed.

(** C8 (amended): an ordered list is converted item by item, in order, the
    number of an item being [start_num] plus its index, whether or not
    earlier items produced anything.  An item without parts gets no number.
    Otherwise the number, a full stop and a space go right after the first
    [<hp:t>] of the item's first part, and a first part without [<hp:t>] is
    left as it is.  When the first part is a paragraph built by
    [make_paragraph_xml], this puts the number in front of the text of its
    text run and changes nothing else; when it is the paragraph of an
    equation, built by [make_equation_paragraph_xml] for a paragraph that
    holds a lone [Math], there is no text run and the item gets no number.
    An ordered list starting at 3 with two items of one paragraph each,
    neither of them a lone equation, gives two paragraphs whose text runs
    begin with "3. " and "4. "; when the first paragraph is a lone equation,
    it gives the paragraph of the equation without a number and the second
    paragraph with "4. ". *)
Theorem C8_ordered_list_numbering :
  (forall indent_level start_num c,
      convert_block indent_level (OrderedList start_num []) c = ([], c))
  /\ (forall indent_level start_num item_blocks items c,
         convert_block indent_level
                       (OrderedList start_num (item_blocks :: items)) c
         = let r1 := convert_blocks item_blocks indent_level c in
           let r2 := convert_block indent_level
                                   (OrderedList (start_num + 1) items) (snd r1) in
           (mark_first (number_marker start_num) (fst r1) ++ fst r2, snd r2))
  /\ (forall num, mark_first (number_marker num) [] = [])
  /\ (forall num first more k,
         str_index (lit "<hp:t>") first = Some k ->
         mark_first (number_marker num) (first :: more)
         = (firstn k first ++ lit "<hp:t>" ++ str_of_int num ++ lit ". "
            ++ skipn (k + 6) first) :: more)
  /\ (forall num first more,
         str_index (lit "<hp:t>") first = None ->
         mark_first (number_marker num) (first :: more) = first :: more)
  /\ (forall num text style_id para_pr_id char_pr_id c more,
         mark_first (number_marker num)
           (fst (make_paragraph_xml text style_id para_pr_id char_pr_id c)
            :: more)
         = paragraph_with_run (str_of_int (c + 1))
             (str_of_int num ++ lit ". " ++ safe_text_of text) text
             style_id para_pr_id char_pr_id
           :: more)
  /\ (forall num latex_str c more,
         str_index (lit "<hp:t>")
                   (fst (make_equation_paragraph_xml latex_str c)) = None
         /\ mark_first (number_marker num)
              (fst (make_equation_paragraph_xml latex_str c) :: more)
            = fst (make_equation_paragraph_xml latex_str c) :: more)
  /\ (forall latex_str c2 counter,
         (forall latex_str2, c2 <> [Math latex_str2]) ->
         convert_blocks [OrderedList 3 [[Para [Math latex_str]]; [Para c2]]]
                        O counter
         = ([fst (make_equation_paragraph_xml latex_str counter);
             paragraph_with_run (str_of_int (counter + 2))
               (lit "4. " ++ safe_text_of (extract_text c2))
               (extract_text c2) 0 0 0],
            counter + 2))
  /\ (forall c1 c2 counter,
         (forall latex_str, c1 <> [Math latex_str]) ->
         (forall latex_str, c2 <> [Math latex_str]) ->
         convert_blocks [OrderedList 3 [[Para c1]; [Para c2]]] O counter
         = ([paragraph_with_run (str_of_int (counter + 1))
               (lit "3. " ++ safe_text_of (extract_text c1))
               (extract_text c1) 0 0 0;
             paragraph_with_run (str_of_int (counter + 2))
               (lit "4. " ++ safe_text_of (extract_text c2))
               (extract_text c2) 0 0 0],
            counter + 2)).
Proof.
  assert (Hmark : forall num text style_id para_pr_id char_pr_id c more,
             mark_first (number_marker num)
               (fst (make_paragraph_xml text style_id para_pr_id char_pr_id c)
                :: more)
             = paragraph_with_run (str_of_int (c + 1))
                 (str_of_int num ++ lit ". " ++ safe_text_of text) text
                 style_id para_pr_id char_pr_id
               :: more).
  { intros. rewrite make_paragraph_xml_run. cbn [fst mark_first].
    rewrite mark_paragraph by apply str_of_int_no_lt.
    unfold number_marker. now rewrite <- app_assoc. }
  assert (Hnone : forall num first more,
             str_index (lit "<hp:t>") first = None ->
             mark_first (number_marker num) (first :: more) = first :: more).
  { intros num first more H. cbn [mark_first]. f_equal.
    apply replace_first_absent. now apply str_index_None. }
  assert (Heq : forall latex_str c,
             str_index (lit "<hp:t>")
                       (fst (make_equation_paragraph_xml latex_str c)) = None)
    by (intros; apply str_index_None, equation_paragraph_no_run).
  assert (Hsnd : forall latex_str c,
             snd (make_equation_paragraph_xml latex_str c) = c + 1).
  { intros. unfold make_equation_paragraph_xml, next_para_id.
    rewrite bind_run. reflexivity. }
  split; [exact ordered_list_nil|].
  split; [exact ordered_list_cons|].
  split; [reflexivity|].
  split; [|split; [exact Hnone|split; [exact Hmark|split; [|split]]]].
  - intros num first more k Hk. cbn [mark_first].
    rewrite (replace_first_index _ _ _ Hk).
    unfold number_marker. rewrite <- !app_assoc. reflexivity.
  - intros num latex_str c more. split; [apply Heq|]. apply Hnone, Heq.
  - intros latex_str c2 counter H2.
    unfold convert_blocks at 1. cbn [extend_each].
    rewrite bind_run, ordered_list_cons. cbv zeta.
    rewrite ordered_list_cons. cbv zeta.
    rewrite ordered_list_nil.
    unfold convert_blocks. cbn [extend_each].
    rewrite !bind_run. cbn [ret fst snd].
    assert (E1 : convert_block O (Para [Math latex_str]) counter
                 = ([fst (make_equation_paragraph_xml latex_str counter)],
                    counter + 1)).
    { cbn [convert_block]. rewrite bind_run. cbn [ret]. now rewrite Hsnd. }
    rewrite E1. cbn [fst snd app].
    rewrite (@convert_para_text O c2 (counter + 1) H2). cbn [fst snd app].
    rewrite (Hnone _ _ _ (Heq latex_str counter)).
    rewrite Hmark. cbn [str_repeat repeat app].
    change (3 + 1) with 4.
    replace (counter + 1 + 1) with (counter + 2) by lia.
    reflexivity.
  - intros c1 c2 counter H1 H2.
    unfold convert_blocks at 1. cbn [extend_each].
    rewrite bind_run, ordered_list_cons. cbv zeta.
    rewrite ordered_list_cons. cbv zeta.
    rewrite ordered_list_nil.
    unfold convert_blocks. cbn [extend_each].
    rewrite !bind_run. cbn [ret fst snd].
    rewrite (@convert_para_text O c1 counter H1). cbn [fst snd app].
    rewrite (@convert_para_text O c2 (counter + 1) H2). cbn [fst snd app].
    rewrite !Hmark. cbn [str_repeat repeat app].
    change (3 + 1) with 4.
    replace (counter + 1 + 1) with (counter + 2) by lia.
    reflexivity.
Qed.

Lemma C8_ordered_list_numbering_witness :
  convert_blocks
    [OrderedList 3 [[Para [Str (lit "a")]]; [Para [Str (lit "b")]]]]
    O PARA_ID_START
  = ([paragraph_with_run (str_of_int (PARA_ID_START + 1))
        (lit "3. " ++ safe_text_of (extract_text [Str (lit "a")]))
        (extract_text [Str (lit "a")]) 0 0 0;
      paragraph_with_run (str_of_int (PARA_ID_START + 2))
        (lit "4. " ++ safe_text_of (extract_text [Str (lit "b")]))
        (extract_text [Str (lit "b")]) 0 0 0],
     PARA_ID_START + 2).
Proof.
  refine (proj2 (proj2 (proj2 (proj2 (proj2 (proj2 (proj2
            (proj2 C8_ordered_list_numbering)))))))
            [Str (lit "a")] [Str (lit "b")] PARA_ID_START _ _);
    intros latex_str; discriminate.
Defined.

(** X10: list markers.  A bullet list is converted item by item, in order;
    an item without parts gets no bullet.  When the first part of an item
    is a paragraph built by [make_paragraph_xml], the bullet (U+2022) and
    a space go in front of the text of its text run and nothing else
    changes: the line segments are still those of the text without the
    marker.  When the first part is the paragraph of a display equation,
    which has no text run, the item gets no marker at all, whether in a
    bullet list or in an ordered list. *)
Theorem X10_list_markers :
  (forall indent_level c,
      convert_block indent_level (BulletList []) c = ([], c))
  /\ (forall indent_level item_blocks items c,
         convert_block indent_level (BulletList (item_blocks :: items)) c
         = let r1 := convert_blocks item_blocks indent_level c in
           let r2 := convert_block indent_level (BulletList items) (snd r1) in
           (mark_first bullet_marker (fst r1) ++ fst r2, snd r2))
  /\ (forall text style_id para_pr_id char_pr_id c more,
         mark_first bullet_marker
           (fst (make_paragraph_xml text style_id para_pr_id char_pr_id c)
            :: more)
         = paragraph_with_run (str_of_int (c + 1))
             ([8226; 32] ++ safe_text_of text) text
             style_id para_pr_id char_pr_id
           :: more)
  /\ (forall marker latex_str c more,
         mark_first marker
           (fst (make_equation_paragraph_xml latex_str c) :: more)
         = fst (make_equation_paragraph_xml latex_str c) :: more)
  /\ (forall latex_str more items indent_level start_num c,
         let eq_par := fst (make_equation_paragraph_xml latex_str c) in
         fst (convert_block indent_level
                (BulletList ((Para [Math latex_str] :: more) :: items)) c)
         = eq_par
           :: skipn 1 (fst (convert_block indent_level
                              (BulletList ((Para [Math latex_str] :: more)
                                           :: items)) c))
         /\ fst (convert_block indent_level
                   (OrderedList start_num
                      ((Para [Math latex_str] :: more) :: items)) c)
            = eq_par
              :: skipn 1 (fst (convert_block indent_level
                                 (OrderedList start_num
                                    ((Para [Math latex_str] :: more)
                                     :: items)) c))).
Proof.
  assert (Heq : forall marker latex_str c more,
             mark_first marker
               (fst (make_equation_paragraph_xml latex_str c) :: more)
             = fst (make_equation_paragraph_xml latex_str c) :: more).
  { intros. cbn [mark_first]. f_equal.
    apply replace_first_absent, equation_paragraph_no_run. }
  split; [reflexivity|].
  split; [exact bullet_list_cons|].
  split; [|split; [exact Heq|]].
  - intros. rewrite make_paragraph_xml_run. cbn [fst mark_first].
    rewrite mark_paragraph by apply str_of_int_no_lt. reflexivity.
  - intros latex_str more items indent_level start_num c eq_par.
    assert (Hitem : forall counter,
               fst (convert_blocks (Para [Math latex_str] :: more)
                                   indent_level counter)
               = fst (make_equation_paragraph_xml latex_str counter)
                 :: fst (convert_blocks more indent_level
                           (snd (make_equation_paragraph_xml latex_str
                                                             counter)))).
    { intros counter. unfold convert_blocks. rewrite extend_each_cons.
      cbn [fst convert_block]. rewrite bind_run. reflexivity. }
    split.
    + rewrite bullet_list_cons. cbv zeta. cbn [fst].
      rewrite Hitem, Heq. reflexivity.
    + rewrite ordered_list_cons. cbv zeta. cbn [fst].
      rewrite Hitem, Heq. reflexivity.
Qed.

(** ** The frame of the section *)

(** [str_index] finds the occurrence before which none starts. *)
Lemma str_index_here old x y :
  (forall k, (k < length x)%nat ->
             startswith old (skipn k (x ++ old ++ y)) = false) ->
  str_index old (x ++ old ++ y) = Some (length x).
Proof.
  induction x as [|c x IH]; intros H.
  - cbn [app length]. destruct (old ++ y) as [|c s] eqn:E;
      cbn [str_index]; rewrite <- E, startswith_app; reflexivity.
  - cbn [app str_index length].
    pose proof (H O) as H0. cbn [skipn app] in H0. rewrite H0 by (simpl; lia).
    rewrite IH; [reflexivity|].
    intros k Hk. apply (H (S k)). simpl. lia.
Qed.

(** No occurrence of [old] starts in [x] when [z] follows. *)
Lemma no_start_app old x1 x2 z :
  (forall k, (k < length x1)%nat ->
             startswith old (skipn k (x1 ++ x2 ++ z)) = false) ->
  (forall k, (k < length x2)%nat ->
             startswith old (skipn k (x2 ++ z)) = false) ->
  forall k, (k < length (x1 ++ x2))%nat ->
            startswith old (skipn k ((x1 ++ x2) ++ z)) = false.
Proof.
  intros H1 H2 k Hk. rewrite <- app_assoc.
  destruct (Nat.lt_ge_cases k (length x1)) as [Hlt|Hge]; [now apply H1|].
  rewrite skipn_app_ge by assumption. apply H2.
  rewrite length_app in Hk. lia.
Qed.

Lemma section_frame_None original :
  section_frame original = None
  <-> absent (lit "<hs:sec") original
      \/ (exists k, str_index (lit "<hs:sec") original = Some k
                    /\ absent (lit ">") (skipn k original))
      \/ absent (lit "<hp:p ") original
      \/ absent (lit "</hp:p>") original.
Proof.
  unfold section_frame, str_index_from.
  rewrite <- !str_index_None.
  destruct (str_index (lit "<hs:sec") original) as [k|] eqn:E1.
  - destruct (str_index (lit ">") (skipn k original)) as [g|] eqn:E2;
      cbn [option_map].
    + destruct (str_index (lit "<hp:p ") original) as [p|] eqn:E3.
      * destruct (str_index (lit "</hp:p>") original) as [q|] eqn:E4.
        -- split; [discriminate|].
           intros [H|[(k' & Hk & H)|[H|H]]]; try discriminate.
           injection Hk as <-. apply str_index_None in H. congruence.
        -- split; auto.
      * split; auto.
    + split; auto. intros _. right. left. exists k. split; [reflexivity|].
      now apply str_index_None.
  - split; auto.
Qed.

Lemma firstn_length_app {A} (l r : list A) : firstn (length l) (l ++ r) = l.
Proof.
  rewrite firstn_app, Nat.sub_diag, firstn_all. cbn [firstn].
  apply app_nil_r.
Qed.

Lemma skipn_length_app {A} (l r : list A) : skipn (length l) (l ++ r) = r.
Proof. now rewrite skipn_app_ge, Nat.sub_diag by lia. Qed.

(** The frame of a skeleton of the usual shape. *)
Lemma section_frame_skeleton hdr attrs mid body tail :
  absent (lit "<hs:sec") hdr -> absent (lit "<hp:p ") hdr ->
  absent (lit "</hp:p>") hdr ->
  Forall (fun c => c <> 60 /\ c <> 62) attrs ->
  Forall (fun c => c <> 60) mid ->
  absent (lit "</hp:p>") body ->
  section_frame (skeleton_section hdr attrs mid body tail)
  = Some (hdr ++ lit "<hs:sec" ++ attrs ++ lit ">",
          lit "<hp:p " ++ body ++ lit "</hp:p>").
Proof.
  intros Hsec Hp Hclose Hattrs Hmid Hbody.
  assert (Ha60 : Forall (fun c => c <> 60) attrs)
    by (eapply Forall_impl; [|exact Hattrs]; simpl; tauto).
  assert (Ha62 : Forall (fun c => c <> 62) attrs)
    by (eapply Forall_impl; [|exact Hattrs]; simpl; tauto).
  set (original := skeleton_section hdr attrs mid body tail).
  (* the opening tag of the section *)
  assert (E1 : str_index (lit "<hs:sec") original = Some (length hdr)).
  { subst original. unfold skeleton_section.
    apply str_index_here. intros k Hk.
    apply (@absent_closed_for 60 (lit "hs:sec") hdr); auto.
    repeat constructor; discriminate. }
  assert (E2 : str_index (lit ">") (skipn (length hdr) original)
               = Some (length (lit "<hs:sec" ++ attrs))).
  { subst original. unfold skeleton_section.
    rewrite skipn_length_app.
    rewrite (app_assoc (lit "<hs:sec") attrs).
    apply str_index_here. intros k Hk.
    apply (@closed_for_app (lit ">") (lit "<hs:sec") attrs); auto.
    - apply clashes_everywhere_sound; reflexivity.
    - exact (@closed_for_without 62 [] attrs Ha62). }
  (* the first paragraph *)
  set (before := hdr ++ lit "<hs:sec" ++ attrs ++ lit ">" ++ mid).
  assert (Eorig : original
                  = before ++ lit "<hp:p " ++ body ++ lit "</hp:p>" ++ tail).
  { subst original before. unfold skeleton_section.
    now rewrite <- !app_assoc. }
  assert (Hbefore : forall old y,
             Forall (fun c => c <> 60) old ->
             absent (60 :: old) hdr ->
             clashes_everywhere (60 :: old) (lit "<hs:sec") = true ->
             forall k, (k < length before)%nat ->
                       startswith (60 :: old) (skipn k (before ++ 60 :: y))
                       = false).
  { intros old y Hold Habs Hclash. subst before.
    apply no_start_app.
    - intros k Hk. rewrite <- !app_assoc.
      exact (@absent_closed_for 60 old hdr _ Hold Habs k Hk).
    - intros k Hk.
      assert (Hc : closed_for (60 :: old)
                     (lit "<hs:sec" ++ attrs ++ lit ">" ++ mid)).
      { apply closed_for_app; [now apply clashes_everywhere_sound|].
        apply closed_for_app; [now apply closed_for_without|].
        apply closed_for_app; [|now apply closed_for_without].
        apply closed_for_without. repeat constructor. discriminate. }
      now apply Hc. }
  assert (E3 : str_index (lit "<hp:p ") original = Some (length before)).
  { rewrite Eorig. apply str_index_here. intros k Hk.
    apply (Hbefore (lit "hp:p ")); auto.
    repeat constructor; discriminate. }
  assert (E4 : str_index (lit "</hp:p>") original
               = Some (length (before ++ lit "<hp:p " ++ body))).
  { rewrite Eorig.
    rewrite (app_assoc before), (app_assoc (before ++ lit "<hp:p ")).
    rewrite <- (app_assoc before).
    apply str_index_here.
    apply no_start_app.
    - intros k Hk.
      apply (Hbefore (lit "/hp:p>")); auto.
      repeat constructor; discriminate.
    - apply no_start_app.
      + intros k Hk.
        assert (Hc : closed_for (lit "</hp:p>") (lit "<hp:p "))
          by (apply clashes_everywhere_sound; reflexivity).
        now apply Hc.
      + intros k Hk.
        apply (@absent_closed_for 60 (lit "/hp:p>") body); auto.
        repeat constructor; discriminate. }
  unfold section_frame, str_index_from. rewrite E1, E2. cbn [option_map].
  rewrite E3, E4. f_equal. f_equal.
  - subst original. unfold skeleton_section.
    replace (S (length hdr + length (lit "<hs:sec" ++ attrs)))
      with (length (hdr ++ lit "<hs:sec" ++ attrs ++ lit ">"))
      by (rewrite !length_app; change (length (lit ">")) with 1%nat; lia).
    match goal with
    | |- firstn _ ?l = ?P =>
        replace l
          with (P ++ mid ++ lit "<hp:p " ++ body ++ lit "</hp:p>" ++ tail)
          by (now rewrite <- !app_assoc)
    end.
    apply firstn_length_app.
  - unfold slice. rewrite Eorig, skipn_length_app.
    replace (length (before ++ lit "<hp:p " ++ body)
             + length (lit "</hp:p>") - length before)%nat
      with (length (lit "<hp:p " ++ body ++ lit "</hp:p>"))
      by (rewrite !length_app; lia).
    match goal with
    | |- firstn _ ?l = ?Q =>
        replace l with (Q ++ tail) by (now rewrite <- !app_assoc)
    end.
    apply firstn_length_app.
Qed.

(** X11: the frame of the section.  Building the section fails (with the
    [ValueError] of [str.index]) exactly when the skeleton's section has no
    [<hs:sec], or no [>] from the first [<hs:sec] on, or no [<hp:p ], or no
    [</hp:p>].  For a skeleton of the usual shape (no section tag, paragraph
    opening or paragraph closing before the section element; no angle
    bracket among the attributes of the section tag; no [<] between the tag
    and the first paragraph; no paragraph closing inside the first
    paragraph) the result is everything up to the end of the section tag,
    the first paragraph of the skeleton, the generated title block and
    content, and [</hs:sec>]: what stood between the tag and the first
    paragraph and everything after the first paragraph are left out. *)
Theorem X11_section_frame :
  (forall original blocks title subtitle author date_str,
      build_section_xml original blocks title subtitle author date_str = None
      <-> absent (lit "<hs:sec") original
          \/ (exists k, str_index (lit "<hs:sec") original = Some k
                        /\ absent (lit ">") (skipn k original))
          \/ absent (lit "<hp:p ") original
          \/ absent (lit "</hp:p>") original)
  /\ (forall hdr attrs mid body tail blocks title subtitle author date_str
             counter,
         absent (lit "<hs:sec") hdr -> absent (lit "<hp:p ") hdr ->
         absent (lit "</hp:p>") hdr ->
         Forall (fun c => c <> 60 /\ c <> 62) attrs ->
         Forall (fun c => c <> 60) mid ->
         absent (lit "</hp:p>") body ->
         let generated :=
           section_content blocks title subtitle author date_str counter in
         option_map (fun m => m counter)
           (build_section_xml (skeleton_section hdr attrs mid body tail)
                              blocks title subtitle author date_str)
         = Some (hdr ++ lit "<hs:sec" ++ attrs ++ lit ">"
                 ++ lit "<hp:p " ++ body ++ lit "</hp:p>"
                 ++ join (fst (fst generated)) ++ join (snd (fst generated))
                 ++ lit "</hs:sec>",
                 snd generated)).
Proof.
  split.
  - intros. rewrite <- section_frame_None. unfold build_section_xml.
    destruct (section_frame original) as [[hdr first]|];
      split; congruence.
  - intros hdr attrs mid body tail blocks title subtitle author date_str
           counter H1 H2 H3 H4 H5 H6 generated.
    unfold build_section_xml.
    rewrite (section_frame_skeleton tail H1 H2 H3 H4 H5 H6).
    cbn [option_map]. rewrite bind_run. fold generated.
    destruct generated as [[title_block content_parts] c'].
    cbn [ret fst snd join concat]. f_equal. f_equal.
    rewrite app_nil_r, <- !app_assoc. reflexivity.
Qed.

Lemma X11_section_frame_witness :
  option_map (fun m => m PARA_ID_START)
    (build_section_xml
       (skeleton_section (lit "<?xml version='1.0'?>") (lit " id='0'") []
                         (lit "id='1'>a") (lit "<hp:p id='2'>b</hp:p></hs:sec>"))
       [] [] [] [] [])
  = Some (lit "<?xml version='1.0'?>" ++ lit "<hs:sec" ++ lit " id='0'"
          ++ lit ">" ++ lit "<hp:p " ++ lit "id='1'>a" ++ lit "</hp:p>"
          ++ join (fst (fst (section_content [] [] [] [] [] PARA_ID_START)))
          ++ join (snd (fst (section_content [] [] [] [] [] PARA_ID_START)))
          ++ lit "</hs:sec>",
          snd (section_content [] [] [] [] [] PARA_ID_START)).
Proof.
  refine (proj2 X11_section_frame
            (lit "<?xml version='1.0'?>") (lit " id='0'") []
            (lit "id='1'>a") (lit "<hp:p id='2'>b</hp:p></hs:sec>")
            [] [] [] [] [] PARA_ID_START _ _ _ _ _ _).
  - apply str_index_None. reflexivity.
  - apply str_index_None. reflexivity.
  - apply str_index_None. reflexivity.
  - repeat constructor; discriminate.
  - constructor.
  - apply str_index_None. reflexivity.
Defined.

(** ** The header updater away from its targets *)

Section HeaderFrame.

Variable isalnum : Z -> bool.

Lemma replace_fontfaces_none header_xml :
  absent (lit "<hh:fontface lang='") header_xml ->
  replace_fontfaces isalnum header_xml = header_xml.
Proof.
  intros H. apply re_sub_none. intros k. unfold m_fontface.
  now rewrite expect_None by apply H.
Qed.

Lemma itemcnt_none tag old new header_xml :
  absent tag header_xml ->
  re_sub (m_itemcnt tag old new) header_xml = header_xml.
Proof.
  intros H. apply re_sub_none. intros k. unfold m_itemcnt.
  now rewrite expect_None by apply H.
Qed.

Lemma add_heading_charprs_none header_xml :
  absent (lit "</hh:charProperties>") header_xml ->
  absent (lit "<hh:charProperties") header_xml ->
  add_heading_charprs header_xml = header_xml.
Proof.
  intros H1 H2. unfold add_heading_charprs. cbv zeta.
  rewrite str_replace_absent_all by assumption.
  now apply itemcnt_none.
Qed.

Lemma add_table_borderfill_none header_xml :
  absent (lit "</hh:borderFillList>") header_xml ->
  absent (lit "<hh:borderFillList") header_xml ->
  add_table_borderfill header_xml = header_xml.
Proof.
  intros H1 H2. unfold add_table_borderfill. cbv zeta.
  rewrite str_replace_absent_all by assumption.
  now apply itemcnt_none.
Qed.

Lemma heading_prev_none para_pr_id prev_val header_xml :
  absent (lit "<hh:paraPr") header_xml ->
  re_sub (m_heading_prev para_pr_id prev_val) header_xml = header_xml.
Proof.
  intros H. apply re_sub_none. intros k. unfold m_heading_prev.
  now rewrite expect_None by apply H.
Qed.

Lemma add_heading_spacing_none header_xml :
  absent (lit "<hh:paraPr") header_xml ->
  add_heading_spacing header_xml = header_xml.
Proof.
  intros H. unfold add_heading_spacing, HEADING_SPACING.
  cbn [fold_left]. cbv beta iota.
  rewrite (heading_prev_none 2 800 H), (heading_prev_none 3 600 H).
  exact (heading_prev_none 4 400 H).
Qed.

End HeaderFrame.

(** X12: the header updater acts at its targets only.  Each of its four
    steps leaves a header unchanged that has none of the elements the step
    looks for: the font step without the opening of a [fontface] element
    with its [lang] attribute, the
    character property step without [<hh:charProperties] and its closing
    tag, the border fill step without [<hh:borderFillList] and its closing
    tag, the spacing step without [<hh:paraPr]; a header with none of them
    comes out of [update_header_xml] as it went in. *)
Theorem X12_header_untouched (isalnum : Z -> bool) :
  (forall header_xml,
      absent (lit "<hh:fontface lang='") header_xml ->
      replace_fontfaces isalnum header_xml = header_xml)
  /\ (forall header_xml,
         absent (lit "</hh:charProperties>") header_xml ->
         absent (lit "<hh:charProperties") header_xml ->
         add_heading_charprs header_xml = header_xml)
  /\ (forall header_xml,
         absent (lit "</hh:borderFillList>") header_xml ->
         absent (lit "<hh:borderFillList") header_xml ->
         add_table_borderfill header_xml = header_xml)
  /\ (forall header_xml,
         absent (lit "<hh:paraPr") header_xml ->
         add_heading_spacing header_xml = header_xml)
  /\ (forall header_xml,
         absent (lit "<hh:fontface lang='") header_xml ->
         absent (lit "</hh:charProperties>") header_xml ->
         absent (lit "<hh:charProperties") header_xml ->
         absent (lit "</hh:borderFillList>") header_xml ->
         absent (lit "<hh:borderFillList") header_xml ->
         absent (lit "<hh:paraPr") header_xml ->
         update_header_xml isalnum header_xml = header_xml).
Proof.
  split; [apply replace_fontfaces_none|].
  split; [apply add_heading_charprs_none|].
  split; [apply add_table_borderfill_none|].
  split; [apply add_heading_spacing_none|].
  intros h H1 H2 H3 H4 H5 H6. unfold update_header_xml.
  rewrite replace_fontfaces_none, add_heading_charprs_none,
    add_table_borderfill_none by assumption.
  now apply add_heading_spacing_none.
Qed.

(** ** Font faces *)

Section FontFaceBlock.

Variable isalnum : Z -> bool.
Hypothesis quote_no_word : isalnum 34 = false.

Lemma upto_here stop g r :
  Forall (fun a => a <> stop) g -> upto stop (g ++ stop :: r) = Some (g, r).
Proof.
  intros Hg. unfold upto.
  rewrite (@span_run (fun c => negb (c =? stop)) g stop r).
  - now rewrite Z.eqb_refl.
  - eapply Forall_impl; [|exact Hg]. intros a Ha. cbv beta.
    apply Z.eqb_neq in Ha. now rewrite Ha.
  - now rewrite Z.eqb_refl.
Qed.

(** The pattern of the font step matches a whole [fontface] element. *)
Lemma m_fontface_here lang attrs body post :
  lang <> [] -> Forall (fun a => is_word isalnum a = true) lang ->
  Forall (fun a => a <> 62) attrs ->
  absent (lit "</hh:fontface>") body ->
  let block := lit "<hh:fontface lang='" ++ lang ++ lit "'" ++ attrs
               ++ lit ">" ++ body ++ lit "</hh:fontface>" in
  m_fontface isalnum (block ++ post)
  = Some (_replace_fontface_block lang, length block).
Proof.
  intros Hne Hlang Hattrs Hbody block. subst block.
  unfold m_fontface. rewrite <- !app_assoc. rewrite expect_app.
  change (lit "'" ++ attrs ++ lit ">" ++ body ++ lit "</hh:fontface>" ++ post)
    with (34 :: attrs ++ lit ">" ++ body ++ lit "</hh:fontface>" ++ post).
  rewrite (@span_run (is_word isalnum) lang 34 _ Hlang)
    by (unfold is_word; now rewrite quote_no_word).
  destruct lang as [|l0 lang']; [congruence|].
  change (expect (lit "'") (34 :: ?x)) with (Some x).
  cbv beta iota.
  change (expect (lit "'")
            (34 :: attrs ++ lit ">" ++ body ++ lit "</hh:fontface>" ++ post))
    with (Some (attrs ++ lit ">" ++ body ++ lit "</hh:fontface>" ++ post)).
  cbv beta iota.
  change (lit ">" ++ body ++ lit "</hh:fontface>" ++ post)
    with (62 :: body ++ lit "</hh:fontface>" ++ post).
  rewrite (upto_here _ Hattrs).
  rewrite (@str_index_here (lit "</hh:fontface>") body post)
    by (intros k Hk;
        apply (@absent_closed_for 60 (lit "/hh:fontface>") body); auto;
        repeat constructor; discriminate).
  do 2 f_equal. unfold consumed.
  repeat (rewrite ?length_app; cbn [length]).
  change (length (lit "<hh:fontface lang='")) with 19%nat.
  change (length (lit "</hh:fontface>")) with 14%nat.
  change (length (lit "'")) with 1%nat. change (length (lit ">")) with 1%nat.
  lia.
Qed.

Lemma replace_fontfaces_block pre lang attrs body post :
  absent (lit "<hh:fontface lang='") pre ->
  lang <> [] -> Forall (fun a => is_word isalnum a = true) lang ->
  Forall (fun a => a <> 62) attrs ->
  absent (lit "</hh:fontface>") body ->
  replace_fontfaces isalnum
    (pre ++ (lit "<hh:fontface lang='" ++ lang ++ lit "'" ++ attrs
             ++ lit ">" ++ body ++ lit "</hh:fontface>") ++ post)
  = pre ++ _replace_fontface_block lang ++ replace_fontfaces isalnum post.
Proof.
  intros Hpre Hne Hlang Hattrs Hbody. unfold replace_fontfaces.
  pose proof (@m_fontface_here lang attrs body post Hne Hlang Hattrs Hbody)
    as Hm. cbv zeta in Hm.
  rewrite re_sub_prefix.
  - f_equal. rewrite (@re_sub_here _ _ _ _ Hm).
    + now rewrite skipn_length_app.
    + rewrite !length_app. change (length (lit "<hh:fontface lang='")) with 19%nat.
      lia.
  - intros k Hk. unfold m_fontface. apply f_equal with (f := fun x => x).
    rewrite expect_None; [reflexivity|].
    rewrite <- !app_assoc.
    apply (@absent_closed_for 60 (lit "hh:fontface lang='") pre); auto.
    repeat constructor; discriminate.
Qed.

End FontFaceBlock.

Lemma dict_get_missing d key default :
  Forall (fun kv => fst kv <> key) d -> dict_get d key default = default.
Proof.
  induction 1 as [|[k v] d Hk Hd IH]; cbn [dict_get]; [reflexivity|].
  cbn [fst] in Hk. apply pystr_eqb_neq in Hk. now rewrite Hk.
Qed.

(** X13: font faces.  Provided the quotation mark is no word character, a
    [fontface] element (its opening tag with a [lang] of word characters,
    further attributes without [>], and a content without its closing tag)
    is replaced as a whole by the element the writer builds for that
    language, whatever fonts it declared; the text before it, in which no
    such element opens, stays, and the replacement goes on with the text
    after it.  The element built declares for each of the seven languages
    of the table the font of the table, and for any other language
    NimbusSanL. *)
Theorem X13_fontface_blocks (isalnum : Z -> bool) :
  isalnum 34 = false ->
  (forall pre lang attrs body post,
      absent (lit "<hh:fontface lang='") pre ->
      nonempty lang = true ->
      Forall (fun a => is_word isalnum a = true) lang ->
      Forall (fun a => a <> 62) attrs ->
      absent (lit "</hh:fontface>") body ->
      replace_fontfaces isalnum
        (pre ++ (lit "<hh:fontface lang='" ++ lang ++ lit "'" ++ attrs
                 ++ lit ">" ++ body ++ lit "</hh:fontface>") ++ post)
      = pre ++ _replace_fontface_block lang
        ++ replace_fontfaces isalnum post)
  /\ Forall (fun kv =>
               _replace_fontface_block (fst kv)
               = lit "<hh:fontface lang='" ++ fst kv ++ lit "' fontCnt='3'>"
                 ++ _make_font_xml 0 (snd kv) ++ _make_font_xml 1 (snd kv)
                 ++ _make_font_xml 2 (lit "D2Coding")
                 ++ lit "</hh:fontface>")
            LANG_FONT_MAP
  /\ (forall lang,
         Forall (fun kv => fst kv <> lang) LANG_FONT_MAP ->
         _replace_fontface_block lang
         = lit "<hh:fontface lang='" ++ lang ++ lit "' fontCnt='3'>"
           ++ _make_font_xml 0 (lit "NimbusSanL")
           ++ _make_font_xml 1 (lit "NimbusSanL")
           ++ _make_font_xml 2 (lit "D2Coding")
           ++ lit "</hh:fontface>").
Proof.
  intros Hq. split; [|split].
  - intros pre lang attrs body post Hpre Hne Hlang Hattrs Hbody.
    apply replace_fontfaces_block; auto.
    destruct lang; [discriminate | congruence].
  - unfold LANG_FONT_MAP.
    repeat constructor; cbn [fst snd]; unfold _replace_fontface_block;
      reflexivity.
  - intros lang Hmiss. unfold _replace_fontface_block.
    now rewrite dict_get_missing.
Qed.

Lemma X13_fontface_blocks_witness :
  replace_fontfaces
    (fun c => ((48 <=? c) && (c <=? 57)) || is_ascii_alpha c)
    (lit "<hh:fontfaces itemCnt='7'>"
     ++ (lit "<hh:fontface lang='" ++ lit "HANGUL" ++ lit "'"
         ++ lit " fontCnt='2'" ++ lit ">"
         ++ lit "<hh:font id='0' face='x'/>" ++ lit "</hh:fontface>")
     ++ lit "</hh:fontfaces>")
  = lit "<hh:fontfaces itemCnt='7'>"
    ++ _replace_fontface_block (lit "HANGUL")
    ++ replace_fontfaces
         (fun c => ((48 <=? c) && (c <=? 57)) || is_ascii_alpha c)
         (lit "</hh:fontfaces>").
Proof.
  refine (proj1 (@X13_fontface_blocks
                   (fun c => ((48 <=? c) && (c <=? 57)) || is_ascii_alpha c)
                   eq_refl)
            (lit "<hh:fontfaces itemCnt='7'>") (lit "HANGUL")
            (lit " fontCnt='2'") (lit "<hh:font id='0' face='x'/>")
            (lit "</hh:fontfaces>") _ _ _ _ _).
  - apply str_index_None. reflexivity.
  - reflexivity.
  - repeat constructor.
  - repeat constructor; discriminate.
  - apply str_index_None. reflexivity.
Defined.

(** ** Metadata *)

Lemma join_sep_app sep a b :
  a <> [] -> b <> [] ->
  join_sep sep (a ++ b) = join_sep sep a ++ sep ++ join_sep sep b.
Proof.
  intros Ha Hb. induction a as [|x a IH]; [congruence|].
  destruct a as [|y a].
  - destruct b as [|z b]; [congruence | reflexivity].
  - change (join_sep sep ((x :: y :: a) ++ b))
      with (x ++ sep ++ join_sep sep ((y :: a) ++ b)).
    rewrite IH by discriminate.
    change (join_sep sep (x :: y :: a))
      with (x ++ sep ++ join_sep sep (y :: a)).
    now rewrite <- !app_assoc.
Qed.

Lemma join_sep_cons sep x l :
  l <> [] -> join_sep sep (x :: l) = x ++ sep ++ join_sep sep l.
Proof. destruct l; [congruence | reflexivity]. Qed.

Lemma join_sep_length sep parts :
  length (join_sep sep parts)
  = (list_sum (map (@length Z) parts)
     + length sep * (length parts - 1))%nat.
Proof.
  induction parts as [|x parts IH]; [simpl; lia|].
  destruct parts as [|y parts].
  - simpl. lia.
  - rewrite join_sep_cons by discriminate.
    rewrite !length_app, IH.
    change (list_sum (map (@length Z) (x :: y :: parts)))
      with (length x + list_sum (map (@length Z) (y :: parts)))%nat.
    cbn [length]. lia.
Qed.

(** X14: metadata.  The text of a missing value and of a value of a kind
    the writer does not read is empty; the text of a list is the texts of
    its items with a comma and a space between them, so that a list of
    [n] items gives [n - 1] separators more than the texts of the items,
    and a list in front of a list of items reads as if its items stood
    there themselves.  Metadata none of whose four entries has a text gives
    no title block. *)
Theorem X14_meta_text :
  (forall items,
      extract_meta_text (Some (MetaList items))
      = join_sep (lit ", ")
                 (map (fun item => extract_meta_text (Some item)) items))
  /\ (forall items,
         length (extract_meta_text (Some (MetaList items)))
         = (list_sum (map (fun item =>
                             length (extract_meta_text (Some item))) items)
            + 2 * (length items - 1))%nat)
  /\ (forall inner more,
         inner <> [] ->
         extract_meta_text (Some (MetaList (MetaList inner :: more)))
         = extract_meta_text (Some (MetaList (inner ++ more))))
  /\ (forall title subtitle author date_str counter,
         Forall (fun meta_val =>
                   meta_val = None
                   \/ exists t, meta_val = Some (UnknownMeta t))
                [title; subtitle; author; date_str] ->
         build_title_block_xml (extract_meta_text title)
           (extract_meta_text subtitle) (extract_meta_text author)
           (extract_meta_text date_str) counter
         = ([], counter)).
Proof.
  split; [reflexivity|].
  split; [|split].
  - intros items. cbn [extract_meta_text extract_meta_value].
    rewrite join_sep_length, length_map, map_map. reflexivity.
  - intros inner more Hne. cbn [extract_meta_text extract_meta_value map].
    destruct more as [|m more].
    + now rewrite app_nil_r.
    + rewrite join_sep_cons by discriminate.
      rewrite map_app, join_sep_app;
        [reflexivity | destruct inner; [congruence | discriminate]
        | discriminate].
  - intros title subtitle author date_str counter H.
    assert (E : forall v, v = None \/ (exists t, v = Some (UnknownMeta t)) ->
                          extract_meta_text v = [])
      by (intros v [->|[t ->]]; reflexivity).
    inversion_clear H as [|? ? H1 H']. inversion_clear H' as [|? ? H2 H].
    inversion_clear H as [|? ? H3 H']. inversion_clear H' as [|? ? H4 _].
    now rewrite (E _ H1), (E _ H2), (E _ H3), (E _ H4).
Qed.

(** ** The content.hpf updater *)

Lemma lazy_line_here close g r :
  Forall (fun a => a <> 10) g ->
  (forall k, (k < length g)%nat ->
             startswith close (skipn k (g ++ close ++ r)) = false) ->
  lazy_line close (g ++ close ++ r) = Some (length g).
Proof.
  intros Hg. induction Hg as [|c g Hc Hg IH]; intros H.
  - cbn [app length]. destruct (close ++ r) as [|c s] eqn:E;
      cbn [lazy_line]; rewrite <- E, startswith_app; reflexivity.
  - cbn [app lazy_line length].
    pose proof (H O) as H0. cbn [skipn app] in H0. rewrite H0 by (simpl; lia).
    apply Z.eqb_neq in Hc. rewrite Hc.
    rewrite IH; [reflexivity|].
    intros k Hk. apply (H (S k)). simpl. lia.
Qed.

(** A line feed before the closing tag ends the search. *)
Lemma lazy_line_feed close g r :
  startswith close (10 :: r) = false ->
  (forall k, (k < length g)%nat ->
             startswith close (skipn k (g ++ 10 :: r)) = false) ->
  lazy_line close (g ++ 10 :: r) = None.
Proof.
  intros Hfeed. induction g as [|c g IH]; intros H.
  - cbn [app lazy_line]. now rewrite Hfeed.
  - cbn [app lazy_line].
    pose proof (H O) as H0. cbn [skipn app] in H0. rewrite H0 by (simpl; lia).
    rewrite IH; [now destruct (c =? 10)|].
    intros k Hk. apply (H (S k)). simpl. lia.
Qed.

Section MetaElements.

Variables prefix' close' : pystr.
Hypothesis prefix_plain : Forall (fun a => a <> 60) prefix'.
Hypothesis close_plain : Forall (fun a => a <> 60) close'.
Variable repl : pystr -> option pystr -> pystr.

Let prefix := 60 :: prefix'.
Let close := 60 :: close'.

Lemma m_meta_empty post :
  m_meta prefix close repl (prefix ++ lit "/>" ++ post)
  = Some (repl prefix None, length (prefix ++ lit "/>")).
Proof.
  unfold m_meta. rewrite expect_app, expect_app. do 2 f_equal.
  unfold consumed. rewrite !length_app. lia.
Qed.

Lemma m_meta_full old post :
  Forall (fun a => a <> 10) old -> absent close old ->
  m_meta prefix close repl (prefix ++ lit ">" ++ old ++ close ++ post)
  = Some (repl prefix (Some old),
          length (prefix ++ lit ">" ++ old ++ close)).
Proof.
  intros Hline Habs. unfold m_meta. rewrite expect_app.
  change (expect (lit "/>") (lit ">" ++ old ++ close ++ post)) with (@None pystr).
  rewrite expect_app.
  rewrite lazy_line_here; auto.
  - rewrite firstn_length_app. do 2 f_equal. unfold consumed.
    rewrite !length_app. lia.
  - intros k Hk. subst close.
    now apply (@absent_closed_for 60 close' old).
Qed.

(** An element whose content runs over a line feed is not matched. *)
Lemma m_meta_feed old post :
  Forall (fun a => a <> 60) old ->
  m_meta prefix close repl (prefix ++ lit ">" ++ old ++ 10 :: post) = None.
Proof.
  intros Hold. unfold m_meta. rewrite expect_app.
  change (expect (lit "/>") (lit ">" ++ old ++ 10 :: post)) with (@None pystr).
  rewrite expect_app.
  rewrite lazy_line_feed; [reflexivity | reflexivity |].
  intros k Hk. subst close.
  now apply (@closed_for_without 60 close' old Hold).
Qed.

Lemma m_meta_none s : startswith prefix s = false -> m_meta prefix close repl s = None.
Proof. intros H. unfold m_meta. now rewrite expect_None. Qed.

Lemma sub_meta_absent s :
  absent prefix s -> re_sub (m_meta prefix close repl) s = s.
Proof. intros H. apply re_sub_none. intros k. now apply m_meta_none. Qed.

(** The text in front of an element in which no element opens stays. *)
Lemma re_sub_meta_prefix pre rest :
  absent prefix pre ->
  re_sub (m_meta prefix close repl) (pre ++ prefix ++ rest)
  = pre ++ re_sub (m_meta prefix close repl) (prefix ++ rest).
Proof.
  intros Hpre. apply re_sub_prefix. intros k Hk. apply m_meta_none.
  subst prefix. cbn [app].
  now apply (@absent_closed_for 60 prefix' pre).
Qed.

Lemma re_sub_meta_empty pre post :
  absent prefix pre ->
  re_sub (m_meta prefix close repl) (pre ++ prefix ++ lit "/>" ++ post)
  = pre ++ repl prefix None ++ re_sub (m_meta prefix close repl) post.
Proof.
  intros Hpre. rewrite re_sub_meta_prefix by assumption. f_equal.
  rewrite (@re_sub_here _ _ _ _ (m_meta_empty post)).
  - rewrite (app_assoc prefix). now rewrite skipn_length_app.
  - rewrite !length_app. subst prefix. cbn [length]. lia.
Qed.

Lemma re_sub_meta_full pre old post :
  absent prefix pre -> Forall (fun a => a <> 10) old -> absent close old ->
  re_sub (m_meta prefix close repl)
         (pre ++ prefix ++ lit ">" ++ old ++ close ++ post)
  = pre ++ repl prefix (Some old)
    ++ re_sub (m_meta prefix close repl) post.
Proof.
  intros Hpre Hline Habs. rewrite re_sub_meta_prefix by assumption. f_equal.
  rewrite (@re_sub_here _ _ _ _ (m_meta_full post Hline Habs)).
  - f_equal.
    replace (prefix ++ lit ">" ++ old ++ close ++ post)
      with ((prefix ++ lit ">" ++ old ++ close) ++ post)
      by (now rewrite <- !app_assoc).
    apply f_equal. apply skipn_length_app.
  - rewrite !length_app. subst prefix. cbn [length]. lia.
Qed.

Lemma re_sub_meta_feed pre old post :
  absent prefix pre -> Forall (fun a => a <> 60) old ->
  re_sub (m_meta prefix close repl)
         (pre ++ prefix ++ lit ">" ++ old ++ 10 :: post)
  = pre ++ prefix ++ lit ">" ++ old
    ++ 10 :: re_sub (m_meta prefix close repl) post.
Proof.
  intros Hpre Hold. rewrite re_sub_meta_prefix by assumption. f_equal.
  assert (Hrest : forall z,
             re_sub (m_meta prefix close repl) (prefix' ++ lit ">" ++ old ++ 10 :: z)
             = prefix' ++ lit ">" ++ old
               ++ 10 :: re_sub (m_meta prefix close repl) z).
  { intros z.
    replace (prefix' ++ lit ">" ++ old ++ 10 :: z)
      with ((prefix' ++ lit ">" ++ old ++ [10]) ++ z)
      by (rewrite <- !app_assoc; reflexivity).
    rewrite re_sub_prefix.
    - rewrite <- !app_assoc. reflexivity.
    - intros k Hk. apply m_meta_none.
      assert (Hc : closed_for prefix (prefix' ++ lit ">" ++ old ++ [10])).
      { subst prefix.
        apply closed_for_without.
        repeat (apply Forall_app; split); auto;
          repeat constructor; discriminate. }
      now apply Hc. }
  pose proof (m_meta_feed post Hold) as Hfeed.
  change (prefix ++ lit ">" ++ old ++ 10 :: post)
    with (60 :: prefix' ++ lit ">" ++ old ++ 10 :: post) in Hfeed |- *.
  unfold re_sub at 1. cbn [sub_scan]. rewrite Hfeed.
  unfold prefix at 2. cbn [app]. f_equal.
  exact (Hrest post).
Qed.

End MetaElements.

Lemma plain_template_parser_plain : plain_templates plain_template_parser.
Proof.
  intros t Ht. exists (fun g1 _ => g1 ++ 62 :: t). split; [|reflexivity].
  change (lit "\1>" ++ t) with (92 :: 49 :: 62 :: t).
  cbn [plain_template_parser].
  replace (forallb (fun a => negb (a =? 92)) t) with true; [reflexivity|].
  symmetry. apply forallb_forall. intros a Ha.
  rewrite Forall_forall in Ht. specialize (Ht a Ha).
  apply negb_true_iff. now apply Z.eqb_neq.
Qed.

Lemma xml_escape_no_backslash text :
  Forall (fun a => a <> 92) text -> Forall (fun a => a <> 92) (xml_escape text).
Proof.
  intros H. rewrite xml_escape_chars.
  induction H as [|c text Hc H IH]; [constructor|].
  cbn [flat_map]. apply Forall_app. split; [|exact IH].
  destruct (escape_char_cases c) as [[_ E]|[[_ E]|[[_ E]|(_ & _ & _ & E)]]];
    rewrite E; repeat constructor; try discriminate; assumption.
Qed.

Lemma absent_longer p q s : absent p s -> absent (p ++ q) s.
Proof.
  intros H k. specialize (H k).
  destruct (startswith (p ++ q) (skipn k s)) eqn:E; [|reflexivity].
  apply startswith_inv in E. rewrite <- app_assoc in E.
  rewrite E, startswith_app in H. discriminate.
Qed.

Section ContentHpfFacts.

Variable compile_template : pystr -> option (pystr -> option pystr -> pystr).
Variable now : pystr.
Hypothesis plain : plain_templates compile_template.

(** A substitution of the updater with a text and a closing tag without
    backslash: the template is accepted and puts the text into the
    element. *)
Lemma sub_meta_plain prefix close text :
  Forall (fun a => a <> 92) text -> Forall (fun a => a <> 92) close ->
  exists repl,
    (forall g1 g2, repl g1 g2 = g1 ++ lit ">" ++ text ++ close)
    /\ forall s, sub_meta compile_template prefix close text s
                 = Some (re_sub (m_meta prefix close repl) s).
Proof.
  intros Ht Hc.
  destruct (plain (t := text ++ close)) as (repl & E & Hrepl).
  { now apply Forall_app. }
  exists repl. split; [exact Hrepl|].
  intros s. unfold sub_meta. now rewrite E.
Qed.

Lemma sub_meta_succeeds prefix close text s :
  Forall (fun a => a <> 92) text -> Forall (fun a => a <> 92) close ->
  exists s', sub_meta compile_template prefix close text s = Some s'.
Proof.
  intros Ht Hc. destruct (sub_meta_plain prefix Ht Hc) as (repl & _ & E).
  rewrite E. eauto.
Qed.

Lemma sub_meta_untouched prefix' close text s :
  Forall (fun a => a <> 60) prefix' ->
  Forall (fun a => a <> 92) text -> Forall (fun a => a <> 92) close ->
  absent (60 :: prefix') s ->
  sub_meta compile_template (60 :: prefix') close text s = Some s.
Proof.
  intros Hp Ht Hc Habs.
  destruct (sub_meta_plain (60 :: prefix') Ht Hc) as (repl & _ & E).
  rewrite E. f_equal. apply re_sub_none. intros k.
  unfold m_meta. now rewrite expect_None by apply Habs.
Qed.

End ContentHpfFacts.

(** X15: the content.hpf updater, for a template parser that reads a
    template without backslash after the group reference and the end of
    the opening tag as it stands.
    A substitution of the updater (an element name, a closing tag, a text
    without backslash) fills an empty element with the text, replaces the
    content of an element whose content is on one line, and leaves an
    element alone whose content runs over a line feed; the text before the
    element, in which no such element opens, stays, and the substitution
    goes on after the element.  With a title, an author, a date and a time
    stamp without backslash the updater raises nothing, and it returns a
    document without title and meta elements unchanged.  When the parser
    rejects the template made from the title, the updater fails, whatever
    the document. *)
Theorem X15_content_hpf
    (compile_template : pystr -> option (pystr -> option pystr -> pystr))
    (now : pystr) :
  plain_templates compile_template ->
  (forall prefix' close' text pre post,
      let prefix := 60 :: prefix' in
      let close := 60 :: close' in
      let sub := sub_meta compile_template prefix close text in
      let filled rest := pre ++ prefix ++ lit ">" ++ text ++ close ++ rest in
      Forall (fun a => a <> 60) prefix' ->
      Forall (fun a => a <> 60 /\ a <> 92) close' ->
      Forall (fun a => a <> 92) text ->
      absent prefix pre ->
      sub (pre ++ prefix ++ lit "/>" ++ post) = option_map filled (sub post)
      /\ (forall old,
             Forall (fun a => a <> 10) old -> absent close old ->
             sub (pre ++ prefix ++ lit ">" ++ old ++ close ++ post)
             = option_map filled (sub post))
      /\ (forall old,
             Forall (fun a => a <> 60) old ->
             sub (pre ++ prefix ++ lit ">" ++ old ++ 10 :: post)
             = option_map
                 (fun rest => pre ++ prefix ++ lit ">" ++ old ++ 10 :: rest)
                 (sub post)))
  /\ (forall hpf_xml title author date_str,
         Forall (fun a => a <> 92) title -> Forall (fun a => a <> 92) author ->
         Forall (fun a => a <> 92) date_str -> Forall (fun a => a <> 92) now ->
         (exists updated,
             update_content_hpf compile_template now
                                hpf_xml title author date_str
             = Some updated)
         /\ (absent (lit "<opf:title") hpf_xml ->
             absent (lit "<opf:meta name='") hpf_xml ->
             update_content_hpf compile_template now
                                hpf_xml title author date_str
             = Some hpf_xml))
  /\ (forall hpf_xml title author date_str,
         nonempty title = true ->
         compile_template (lit "\1>" ++ xml_escape title ++ lit "</opf:title>")
         = None ->
         update_content_hpf compile_template now hpf_xml title author date_str
         = None).
Proof.
  intros plain. split; [|split].
  - intros prefix' close' text pre post prefix close sub filled
           Hprefix Hclose Htext Hpre.
    assert (Hc60 : Forall (fun a => a <> 60) close')
      by (eapply Forall_impl; [|exact Hclose]; simpl; tauto).
    assert (Hc92 : Forall (fun a => a <> 92) close).
    { subst close. constructor; [discriminate|].
      eapply Forall_impl; [|exact Hclose]. simpl; tauto. }
    destruct (sub_meta_plain plain prefix Htext Hc92) as (repl & Hrepl & E).
    subst sub filled. cbv beta. rewrite !E. cbn [option_map].
    split; [|split].
    + f_equal. subst prefix close.
      rewrite (@re_sub_meta_empty prefix' close' Hprefix repl pre post Hpre), Hrepl.
      rewrite <- ?app_assoc. reflexivity.
    + intros old Hline Habs. rewrite !E. cbn [option_map]. f_equal.
      subst prefix close.
      rewrite (@re_sub_meta_full prefix' close' Hprefix Hc60 repl pre old post
                 Hpre Hline Habs), Hrepl.
      rewrite <- ?app_assoc. reflexivity.
    + intros old Hold. rewrite !E. cbn [option_map]. f_equal.
      subst prefix close.
      rewrite (@re_sub_meta_feed prefix' close' Hprefix repl pre old post
                 Hpre Hold).
      rewrite <- ?app_assoc. reflexivity.
  - intros hpf_xml title author date_str Ht Ha Hd Hn.
    pose proof (xml_escape_no_backslash Ht) as Ht'.
    pose proof (xml_escape_no_backslash Ha) as Ha'.
    pose proof (xml_escape_no_backslash Hd) as Hd'.
    assert (Hlit : forall l, forallb (fun x => negb (x =? 92)) l = true ->
                             Forall (fun x => x <> 92) l)
      by exact forallb_no_backslash.
    split.
    + unfold update_content_hpf.
      destruct (nonempty title), (nonempty author), (nonempty date_str);
        cbv zeta; cbn [and_then];
        repeat match goal with
               | |- context [sub_meta compile_template ?p ?c ?t ?s] =>
                   let s' := fresh "h" in
                   let E := fresh "E" in
                   destruct (@sub_meta_succeeds compile_template plain p c t s)
                     as (s' & E);
                   [first [assumption | apply Hlit; reflexivity] ..|];
                   rewrite E; cbn [and_then]
               end;
        eauto.
    + intros Htitle Hmeta.
      assert (Hm : forall q, absent (lit "<opf:meta name='" ++ q) hpf_xml)
        by (intros q; now apply absent_longer).
      unfold update_content_hpf.
      change (lit "<opf:title") with (60 :: lit "opf:title") in *.
      change (lit "<opf:meta name='creator' content='text'")
        with (60 :: lit "opf:meta name='creator' content='text'").
      change (lit "<opf:meta name='lastsaveby' content='text'")
        with (60 :: lit "opf:meta name='lastsaveby' content='text'").
      change (lit "<opf:meta name='ModifiedDate' content='text'")
        with (60 :: lit "opf:meta name='ModifiedDate' content='text'").
      change (lit "<opf:meta name='date' content='text'")
        with (60 :: lit "opf:meta name='date' content='text'").
      assert (Hplainlit : forall l, forallb (fun x => negb (x =? 60)) l = true ->
                                    Forall (fun x => x <> 60) l).
      { intros l H. apply Forall_forall. intros x Hx.
        rewrite forallb_forall in H. specialize (H x Hx).
        apply negb_true_iff, Z.eqb_neq in H. exact H. }
      destruct (nonempty title), (nonempty author), (nonempty date_str);
        cbv zeta; cbn [and_then];
        repeat (rewrite (@sub_meta_untouched compile_template plain);
                [cbn [and_then]
                | apply Hplainlit; reflexivity
                | first [assumption | apply Hlit; reflexivity]
                | first [assumption | apply Hlit; reflexivity]
                | lazymatch goal with
                  | |- absent (60 :: lit "opf:title") _ => exact Htitle
                  | |- absent
                         (60 :: lit "opf:meta name='creator' content='text'")
                         _ =>
                      exact (Hm (lit "creator' content='text'"))
                  | |- absent
                         (60 :: lit "opf:meta name='lastsaveby' content='text'")
                         _ =>
                      exact (Hm (lit "lastsaveby' content='text'"))
                  | |- absent
                         (60 :: lit "opf:meta name='ModifiedDate' content='text'")
                         _ =>
                      exact (Hm (lit "ModifiedDate' content='text'"))
                  | |- absent
                         (60 :: lit "opf:meta name='date' content='text'")
                         _ =>
                      exact (Hm (lit "date' content='text'"))
                  end]);
        reflexivity.
  - intros hpf_xml title author date_str Hne Hrej.
    unfold update_content_hpf. rewrite Hne. unfold sub_meta at 1.
    now rewrite Hrej.
Qed.

Lemma X15_content_hpf_witness :
  sub_meta plain_template_parser (lit "<opf:title") (lit "</opf:title>")
           (lit "Report")
           (lit "<opf:metadata>" ++ lit "<opf:title" ++ lit "/>"
            ++ lit "</opf:metadata>")
  = option_map
      (fun rest => lit "<opf:metadata>" ++ lit "<opf:title" ++ lit ">"
                   ++ lit "Report" ++ lit "</opf:title>" ++ rest)
      (sub_meta plain_template_parser (lit "<opf:title") (lit "</opf:title>")
                (lit "Report") (lit "</opf:metadata>")).
Proof.
  refine (proj1 (proj1 (@X15_content_hpf plain_template_parser
                          (lit "2026-01-01T00:00:00Z")
                          plain_template_parser_plain)
                   (lit "opf:title") (lit "/opf:title>") (lit "Report")
                   (lit "<opf:metadata>") (lit "</opf:metadata>")
                   _ _ _ _)).
  - repeat constructor; discriminate.
  - repeat constructor; discriminate.
  - repeat constructor; discriminate.
  - apply str_index_None. reflexivity.
Defined.

(** ** The program *)

(** What can be read from the archive the assembler writes. *)
Lemma repackage_reads src_zip section_xml updated_hpf updated_header :
  exists dst_zip,
    repackage src_zip section_xml updated_hpf updated_header = Some dst_zip
    /\ infolist dst_zip = map writestr_info (infolist src_zip)
    /\ forall name,
         zip_read dst_zip name
         = if has_name name (infolist src_zip)
           then Some (written src_zip section_xml updated_hpf updated_header
                              name)
           else None.
Proof.
  eexists. split; [apply repackage_spec|]. split.
  - apply (infolist_written
             (fun item => written src_zip section_xml updated_hpf
                                  updated_header (filename item))).
  - intros name.
    apply (zip_read_by_name
             (written src_zip section_xml updated_hpf updated_header)).
Qed.

Lemma zip_read_Some_has_name z name d :
  zip_read z name = Some d -> has_name name (infolist z) = true.
Proof.
  intros H. destruct (has_name name (infolist z)) eqn:E; [reflexivity|].
  apply zip_read_has_name in E. congruence.
Qed.


Lemma main_of_texts_runs :
  is_None (main ascii_alnum plain_template_parser (lit "2026-01-01T00:00:00Z")
                (@Some pystr) (@Some bytes) document_of_texts
                skeleton_of_texts)
  = false.
Proof. vm_compute. reflexivity. Qed.


(** ** The spacing step, one pattern at a time *)

Lemma search_first_here {X} (p : pystr -> option X) body z x :
  (forall k, (k < length body)%nat -> p (skipn k (body ++ z)) = None) ->
  p z = Some x ->
  search_first p (body ++ z) = Some (length body, x).
Proof.
  intros Hbody Hz. induction body as [|c body IH].
  - cbn [app length]. destruct z; cbn [search_first]; now rewrite Hz.
  - cbn [app search_first length].
    pose proof (Hbody O) as H0. cbn [skipn app] in H0.
    rewrite H0 by (simpl; lia).
    rewrite IH; [reflexivity|].
    intros k Hk. apply (Hbody (S k)). simpl. lia.
Qed.

Lemma nonempty_ne {A} (l : list A) : nonempty l = true -> l <> [].
Proof. destruct l; [discriminate | congruence]. Qed.

(** The pattern of a spacing of zero matches where one is written. *)
Lemma m_prev_zero_here ws rest :
  nonempty ws = true -> Forall (fun a => is_space a = true) ws ->
  m_prev_zero (lit "<hc:prev" ++ ws ++ lit "value='0'" ++ rest)
  = Some (lit "<hc:prev" ++ ws ++ lit "value='",
          length (lit "<hc:prev" ++ ws ++ lit "value='0'")).
Proof.
  intros Hne Hws. unfold m_prev_zero. rewrite expect_app.
  assert (E : exists t, lit "value='0'" ++ rest = 118 :: t)
    by (eexists; reflexivity).
  destruct E as [t E]. rewrite E.
  rewrite (@span_run is_space ws 118 t Hws eq_refl). rewrite <- E.
  destruct ws as [|w ws']; [discriminate|].
  rewrite expect_app. do 2 f_equal. unfold consumed.
  repeat (rewrite ?length_app; cbn [length]). lia.
Qed.

(** The pattern of the spacing step matches from the opening tag of the
    record with the given id to the first spacing of zero after it. *)
Lemma m_heading_prev_here para_pr_id prev_val ws attrs body ws2 post :
  nonempty ws = true -> Forall (fun a => is_space a = true) ws ->
  Forall (fun a => a <> 62) attrs ->
  absent (lit "<hc:prev") body ->
  nonempty ws2 = true -> Forall (fun a => is_space a = true) ws2 ->
  let head := lit "<hh:paraPr" ++ ws ++ lit "id='" ++ str_of_int para_pr_id
              ++ lit "'" ++ attrs ++ lit ">" ++ body in
  m_heading_prev para_pr_id prev_val
    (head ++ lit "<hc:prev" ++ ws2 ++ lit "value='0'" ++ post)
  = Some (head ++ lit "<hc:prev" ++ ws2 ++ lit "value='"
          ++ str_of_int prev_val ++ lit "'",
          length (head ++ lit "<hc:prev" ++ ws2 ++ lit "value='0'")).
Proof.
  intros Hne Hws Hattrs Hbody Hne2 Hws2 head. subst head.
  set (tail := lit "<hc:prev" ++ ws2 ++ lit "value='0'" ++ post).
  unfold m_heading_prev. rewrite <- !app_assoc. rewrite expect_app.
  assert (E : exists t, lit "id='" ++ str_of_int para_pr_id ++ lit "'"
                        ++ attrs ++ lit ">" ++ body ++ tail = 105 :: t)
    by (eexists; reflexivity).
  destruct E as [t E]. rewrite E.
  rewrite (@span_run is_space ws 105 t Hws eq_refl). rewrite <- E. clear E t.
  destruct ws as [|w ws']; [discriminate|].
  replace (lit "id='" ++ str_of_int para_pr_id ++ lit "'"
           ++ attrs ++ lit ">" ++ body ++ tail)
    with ((lit "id='" ++ str_of_int para_pr_id ++ lit "'")
          ++ attrs ++ lit ">" ++ body ++ tail)
    by (now rewrite <- !app_assoc).
  rewrite expect_app.
  change (lit ">" ++ body ++ tail) with (62 :: body ++ tail).
  rewrite (upto_here _ Hattrs).
  rewrite (@search_first_here _ m_prev_zero body tail
             (lit "<hc:prev" ++ ws2 ++ lit "value='",
              length (lit "<hc:prev" ++ ws2 ++ lit "value='0'"))).
  - f_equal. f_equal.
    + set (H := lit "<hh:paraPr" ++ (w :: ws') ++ lit "id='"
                ++ str_of_int para_pr_id ++ lit "'" ++ attrs ++ lit ">"
                ++ body).
      assert (Ew : lit "<hh:paraPr" ++ (w :: ws')
                   ++ (lit "id='" ++ str_of_int para_pr_id ++ lit "'")
                   ++ attrs ++ 62 :: body ++ tail
                   = H ++ tail).
      { subst H. change (lit ">") with [62].
        rewrite <- !app_assoc. reflexivity. }
      rewrite Ew.
      replace (consumed (H ++ tail) (body ++ tail) + length body)%nat
        with (length H).
      * rewrite firstn_length_app. subst H.
        rewrite <- !app_assoc. reflexivity.
      * unfold consumed. subst H.
        repeat (rewrite ?length_app; cbn [length]). lia.
    + unfold consumed. subst tail.
      repeat (rewrite ?length_app; cbn [length]).
      change (length (lit ">")) with 1%nat. lia.
  - intros k Hk. unfold m_prev_zero. rewrite expect_None; [reflexivity|].
    subst tail.
    apply (@absent_closed_for 60 (lit "hc:prev") body); auto.
    repeat constructor; discriminate.
  - subst tail. now apply m_prev_zero_here.
Qed.

(** X17: one pattern of the spacing step.  The pattern for a record id
    takes the first opening tag of a paragraph style with that id (white
    space before the id, any further attributes) and sets the first spacing
    before of zero that follows the tag, whatever stands between them as
    long as no other spacing before does: inside the record this is the
    record's own spacing, and beyond the record's end it is that of a
    later record.  The text before the tag, in which no paragraph style
    opens, and the text between the tag and the spacing stay as they are,
    and the step goes on after the value. *)
Theorem X17_heading_prev_first_zero
    (para_pr_id prev_val : Z) (pre ws attrs body ws2 post : pystr) :
  absent (lit "<hh:paraPr") pre ->
  nonempty ws = true -> Forall (fun a => is_space a = true) ws ->
  Forall (fun a => a <> 62) attrs ->
  absent (lit "<hc:prev") body ->
  nonempty ws2 = true -> Forall (fun a => is_space a = true) ws2 ->
  let head := lit "<hh:paraPr" ++ ws ++ lit "id='" ++ str_of_int para_pr_id
              ++ lit "'" ++ attrs ++ lit ">" ++ body in
  re_sub (m_heading_prev para_pr_id prev_val)
         (pre ++ (head ++ lit "<hc:prev" ++ ws2 ++ lit "value='0'") ++ post)
  = pre ++ (head ++ lit "<hc:prev" ++ ws2 ++ lit "value='"
            ++ str_of_int prev_val ++ lit "'")
    ++ re_sub (m_heading_prev para_pr_id prev_val) post.
Proof.
  intros Hpre Hne Hws Hattrs Hbody Hne2 Hws2 head.
  pose proof (@m_heading_prev_here para_pr_id prev_val ws attrs body ws2 post
                Hne Hws Hattrs Hbody Hne2 Hws2) as Hm.
  cbv zeta in Hm. fold head in Hm.
  rewrite re_sub_prefix.
  - f_equal.
    replace ((head ++ lit "<hc:prev" ++ ws2 ++ lit "value='0'") ++ post)
      with (head ++ lit "<hc:prev" ++ ws2 ++ lit "value='0'" ++ post)
      by (now rewrite <- !app_assoc).
    rewrite (@re_sub_here _ _ _ _ Hm).
    + f_equal. f_equal.
      replace (head ++ lit "<hc:prev" ++ ws2 ++ lit "value='0'" ++ post)
        with ((head ++ lit "<hc:prev" ++ ws2 ++ lit "value='0'") ++ post)
        by (now rewrite <- !app_assoc).
      apply skipn_length_app.
    + subst head. repeat (rewrite ?length_app; cbn [length]).
      change (length (lit "<hh:paraPr")) with 10%nat. lia.
  - intros k Hk. unfold m_heading_prev. rewrite expect_None; [reflexivity|].
    subst head. rewrite <- !app_assoc.
    apply (@absent_closed_for 60 (lit "hh:paraPr") pre); auto.
    repeat constructor; discriminate.
Qed.

Lemma X17_heading_prev_first_zero_witness :
  re_sub (m_heading_prev 2 800)
         (lit "<hh:head>"
          ++ ((lit "<hh:paraPr" ++ lit " " ++ lit "id='" ++ str_of_int 2
               ++ lit "'" ++ lit " tabPrIDRef='0'" ++ lit ">"
               ++ lit "<hh:margin><hc:left value='0'/>")
              ++ lit "<hc:prev" ++ lit " " ++ lit "value='0'")
          ++ lit "/></hh:margin></hh:paraPr></hh:head>")
  = lit "<hh:head>"
    ++ ((lit "<hh:paraPr" ++ lit " " ++ lit "id='" ++ str_of_int 2
         ++ lit "'" ++ lit " tabPrIDRef='0'" ++ lit ">"
         ++ lit "<hh:margin><hc:left value='0'/>")
        ++ lit "<hc:prev" ++ lit " " ++ lit "value='"
        ++ str_of_int 800 ++ lit "'")
    ++ re_sub (m_heading_prev 2 800)
              (lit "/></hh:margin></hh:paraPr></hh:head>").
Proof.
  refine (@X17_heading_prev_first_zero 2 800 (lit "<hh:head>") (lit " ")
            (lit " tabPrIDRef='0'") (lit "<hh:margin><hc:left value='0'/>")
            (lit " ") (lit "/></hh:margin></hh:paraPr></hh:head>")
            _ _ _ _ _ _ _).
  - apply str_index_None. reflexivity.
  - reflexivity.
  - repeat constructor.
  - repeat constructor; discriminate.
  - apply str_index_None. reflexivity.
  - reflexivity.
  - repeat constructor.
Defined.

(** ** Indentation *)

Lemma convert_blocks_single b indent_level counter :
  convert_blocks [b] indent_level counter = convert_block indent_level b counter.
Proof.
  unfold convert_blocks. rewrite extend_each_cons.
  cbn [extend_each ret fst snd]. rewrite app_nil_r.
  now destruct (convert_block indent_level b counter).
Qed.

Lemma convert_blocks_quoted k : forall blocks indent_level counter,
  convert_blocks (quoted k blocks) indent_level counter
  = convert_blocks blocks (k + indent_level) counter.
Proof.
  induction k as [|k IH]; intros blocks indent_level counter; [reflexivity|].
  cbn [quoted]. rewrite convert_blocks_single. cbn [convert_block].
  fold (convert_blocks (quoted k blocks) (S indent_level)).
  rewrite IH. f_equal. lia.
Qed.

(** X18: indentation.  Blocks inside [k] nested block quotes are converted
    as they would be [k] indent levels deeper.  A text paragraph at indent
    level [n] is written with [n] ideographic spaces (U+3000) in front of
    its text, so a paragraph inside [k] block quotes at the top level gets
    [k] of them; headings and horizontal rules are written the same at
    every level; and the definitions of a definition list are converted
    one level deeper than its terms. *)
Theorem X18_indentation :
  (forall k blocks indent_level counter,
      convert_blocks (quoted k blocks) indent_level counter
      = convert_blocks blocks (k + indent_level) counter)
  /\ (forall k c counter,
         (forall latex_str, c <> [Math latex_str]) ->
         convert_blocks (quoted k [Para c]) O counter
         = ([fst (make_paragraph_xml (str_repeat 12288 k ++ extract_text c)
                                     0 0 0 counter)],
            counter + 1))
  /\ (forall level inlines indent_level counter,
         convert_blocks [Header level inlines] indent_level counter
         = convert_blocks [Header level inlines] O counter)
  /\ (forall indent_level counter,
         convert_blocks [HorizontalRule] indent_level counter
         = convert_blocks [HorizontalRule] O counter)
  /\ (forall term defs indent_level counter,
         convert_blocks [DefinitionList [(term, [defs])]] indent_level counter
         = let p := make_paragraph_xml
                      (str_repeat 12288 indent_level ++ extract_text term)
                      0 0 0 counter in
           let r := convert_blocks defs (S indent_level) (snd p) in
           (fst p :: fst r, snd r)).
Proof.
  split; [exact convert_blocks_quoted|].
  split; [|split; [|split]].
  - intros k c counter Hc. rewrite convert_blocks_quoted.
    rewrite convert_blocks_single, Nat.add_0_r.
    now apply convert_para_text.
  - intros. rewrite !convert_blocks_single. reflexivity.
  - intros. rewrite !convert_blocks_single. reflexivity.
  - intros term defs indent_level counter.
    rewrite convert_blocks_single. cbn [convert_block].
    rewrite extend_each_cons. rewrite !bind_run.
    cbn [extend_each ret fst snd]. rewrite !bind_run.
    cbn [ret fst snd]. rewrite !app_nil_r.
    unfold convert_blocks. reflexivity.
Qed.

(** ** Inline text *)

Lemma extract_text_splice a inner b part :
  extract_part part = extract_text inner ->
  extract_text (a ++ part :: b) = extract_text (a ++ inner ++ b).
Proof.
  intros H. rewrite !extract_text_app, extract_text_cons, H. reflexivity.
Qed.

(** Induction over inline elements, with the hypothesis for the children
    of the elements that have some. *)
Section InlineInduction.

Variable P : inline -> Prop.

Hypothesis HStr : forall c, P (Str c).
Hypothesis HSpace : P Space.
Hypothesis HSoftBreak : P SoftBreak.
Hypothesis HLineBreak : P LineBreak.
Hypothesis HWrapper : forall t c, Forall P c -> P (Wrapper t c).
Hypothesis HCode : forall text, P (Code text).
Hypothesis HLink : forall c, Forall P c -> P (Link c).
Hypothesis HImage : forall c, Forall P c -> P (Image c).
Hypothesis HQuoted : forall quote_type c, Forall P c -> P (Quoted quote_type c).
Hypothesis HCite : forall c, Forall P c -> P (Cite c).
Hypothesis HMath : forall text, P (Math text).
Hypothesis HSpan : forall c, Forall P c -> P (Span c).
Hypothesis HUnknownInline : forall t, P (UnknownInline t).

Lemma inline_nested_ind : forall x, P x.
Proof.
  exact
    (fix ind (x : inline) : P x :=
       let all :=
         fix all (l : list inline) : Forall P l :=
           match l with
           | [] => Forall_nil P
           | y :: l' => Forall_cons y (ind y) (all l')
           end in
       match x with
       | Str c => HStr c
       | Space => HSpace
       | SoftBreak => HSoftBreak
       | LineBreak => HLineBreak
       | Wrapper t c => HWrapper t (all c)
       | Code text => HCode text
       | Link c => HLink (all c)
       | Image c => HImage (all c)
       | Quoted quote_type c => HQuoted quote_type (all c)
       | Cite c => HCite (all c)
       | Math text => HMath text
       | Span c => HSpan (all c)
       | UnknownInline t => HUnknownInline t
       end).
Qed.

End InlineInduction.

Lemma extract_text_flat_map (f : inline -> list inline) l :
  Forall (fun x => extract_text (f x) = extract_part x) l ->
  extract_text (flat_map f l) = extract_text l.
Proof.
  induction 1 as [|x l Hx Hl IH]; [reflexivity|].
  cbn [flat_map]. now rewrite extract_text_app, extract_text_cons, Hx, IH.
Qed.

Lemma extract_text_leaves_one x : extract_text (leaves x) = extract_part x.
Proof.
  induction x using inline_nested_ind; cbn [leaves extract_part];
    try (fold (extract_text c); now apply extract_text_flat_map);
    try (unfold extract_text; cbn [map join concat extract_part];
         now rewrite ?app_nil_r).
  unfold extract_text at 1. cbn [map join concat extract_part].
  fold (extract_text (flat_map leaves c)). fold (extract_text c).
  rewrite (extract_text_flat_map leaves H). now rewrite app_nil_r.
Qed.

(** X19: the text of inline elements.  The text of a sequence is the text
    of its leaves, at any depth of nesting: emphasis and the other six
    formatting elements, links, images, citations and spans are
    transparent, an element with a tag the extractor does not know (a
    footnote, raw markup) contributes nothing, and a soft break reads as a
    space; only quotations add something, their quotation marks.
    Extraction distributes over concatenation, so such an element in the
    middle of a sequence reads as its children standing in its place. *)
Theorem X19_inline_text :
  (forall inlines, extract_text (flat_map leaves inlines) = extract_text inlines)
  /\ (forall a b, extract_text (a ++ b) = extract_text a ++ extract_text b)
  /\ (forall a t c b,
         extract_text (a ++ Wrapper t c :: b) = extract_text (a ++ c ++ b))
  /\ (forall a c b,
         extract_text (a ++ Link c :: b) = extract_text (a ++ c ++ b)
         /\ extract_text (a ++ Image c :: b) = extract_text (a ++ c ++ b)
         /\ extract_text (a ++ Cite c :: b) = extract_text (a ++ c ++ b)
         /\ extract_text (a ++ Span c :: b) = extract_text (a ++ c ++ b))
  /\ (forall a t b,
         extract_text (a ++ UnknownInline t :: b) = extract_text (a ++ b))
  /\ (forall a b,
         extract_text (a ++ SoftBreak :: b) = extract_text (a ++ Space :: b)).
Proof.
  split.
  { intros inlines. apply extract_text_flat_map.
    apply Forall_forall. intros x _. apply extract_text_leaves_one. }
  split; [exact extract_text_app|].
  split; [|split; [|split]].
  - intros. now apply extract_text_splice.
  - intros. repeat split; now apply extract_text_splice.
  - intros a t b. now rewrite (@extract_text_splice a [] b (UnknownInline t)).
  - intros a b. now rewrite !extract_text_app, !extract_text_cons.
Qed.

(** ** The patcher as a whole *)

(** *** Scans of a text in two parts *)

(** A scan goes through [x ++ z] as through [x] and then through [z] when
    no match that starts in [x] looks at [z] or runs into it. *)
Lemma re_sub_app m z : forall x,
  (forall k, (k < length x)%nat -> m (skipn k x ++ z) = m (skipn k x)) ->
  (forall k r n, m (skipn k x) = Some (r, n) ->
                 (0 < n <= length (skipn k x))%nat) ->
  re_sub m (x ++ z) = re_sub m x ++ re_sub m z.
Proof.
  intros x. remember (length x) as L eqn:EL. revert x EL.
  induction L as [L IH] using lt_wf_ind. intros x EL Hloc Hbound.
  subst L. destruct x as [|c x']; [reflexivity|].
  assert (Hlen : (0 < length (c :: x'))%nat) by (simpl; lia).
  pose proof (Hloc O Hlen) as H0. cbn [skipn] in H0.
  destruct (m (c :: x')) as [[r n]|] eqn:Em.
  - pose proof (Hbound O r n Em) as Hn. cbn [skipn] in Hn.
    rewrite (@re_sub_here m ((c :: x') ++ z) r n H0)
      by (rewrite length_app; lia).
    rewrite (@re_sub_here m (c :: x') r n Em Hn).
    rewrite skipn_app_lt by lia. rewrite <- app_assoc. f_equal.
    apply (IH (length (skipn n (c :: x')))); [|reflexivity| |].
    + rewrite length_skipn. cbn [length] in *. lia.
    + intros k Hk. rewrite skipn_skipn.
      apply Hloc. rewrite length_skipn in Hk. lia.
    + intros k r' n' H'. rewrite skipn_skipn in *.
      now apply (Hbound _ r').
  - cbn [app] in H0. unfold re_sub. cbn [app sub_scan]. rewrite H0, Em.
    change (c :: re_sub m (x' ++ z) = c :: (re_sub m x' ++ re_sub m z)).
    f_equal.
    apply (IH (length x')); [simpl; lia | reflexivity | |].
    + intros k Hk. apply (Hloc (S k)). simpl. lia.
    + intros k r' n' H'. apply (Hbound (S k) r' n' H').
Qed.

(** A text without [<] in front of a scan: the scan makes of it what it
    finds after it. *)
Lemma startswith_re_sub m : forall old s,
  starts_at 60 m ->
  (forall s r n, m s = Some (r, n) -> exists r', r = 60 :: r') ->
  Forall (fun a => a <> 60) old ->
  startswith old (re_sub m s) = startswith old s.
Proof.
  intros old s Hm Hr. revert old.
  induction s as [|d s IH]; intros old Hold; [reflexivity|].
  destruct old as [|a old]; [reflexivity|].
  inversion_clear Hold as [|? ? Ha Hold'].
  unfold re_sub. cbn [sub_scan].
  destruct (m (d :: s)) as [[r n]|] eqn:Em.
  - destruct (Hm _ _ Em) as [t Et]. injection Et as -> _.
    destruct (Hr _ _ _ Em) as [r' ->].
    cbn [app startswith].
    now replace (a =? 60) with false by (symmetry; now apply Z.eqb_neq).
  - cbn [startswith]. f_equal. exact (IH old Hold').
Qed.

(** A scan whose replacements begin with [<] and have no room for [old]
    brings no [old] into a text that has none. *)
Lemma re_sub_keeps_absent m old : forall s,
  Forall (fun a => a <> 60) old ->
  starts_at 60 m ->
  (forall s r n, m s = Some (r, n) ->
                 (0 < n <= length s)%nat
                 /\ (exists r', r = 60 :: r')
                 /\ closed_for (60 :: old) r) ->
  absent (60 :: old) s -> absent (60 :: old) (re_sub m s).
Proof.
  intros s Hold Hm Hr. remember (length s) as L eqn:EL. revert s EL.
  induction L as [L IH] using lt_wf_ind. intros s EL Hs.
  subst L. destruct s as [|c s']; [exact Hs|].
  destruct (m (c :: s')) as [[r n]|] eqn:Em.
  - destruct (Hr _ _ _ Em) as (Hn & _ & Hclosed).
    rewrite (@re_sub_here m (c :: s') r n Em Hn).
    apply closed_for_absent; [exact Hclosed|].
    apply (IH (length (skipn n (c :: s')))); [|reflexivity|].
    + rewrite length_skipn. cbn [length] in *. lia.
    + rewrite <- (firstn_skipn n (c :: s')) in Hs.
      exact (@absent_tail _ _ _ Hs).
  - assert (Hs' : absent (60 :: old) s').
    { intros k. exact (Hs (S k)). }
    assert (IH' : absent (60 :: old) (re_sub m s'))
      by (apply (IH (length s')); [simpl; lia | reflexivity | exact Hs']).
    unfold re_sub. cbn [sub_scan]. rewrite Em.
    change (absent (60 :: old) (c :: re_sub m s')).
    intros [|k]; [|exact (IH' k)].
    cbn [skipn startswith].
    pose proof (Hs O) as H0. cbn [skipn startswith] in H0.
    rewrite (@startswith_re_sub m old s' Hm) by
      (first [assumption | intros s0 r0 n0 E0; exact (proj1 (proj2 (Hr _ _ _ E0)))]).
    exact H0.
Qed.

(** A scan whose replacements begin with [<] leaves a [<] at the head of
    the text. *)
Lemma re_sub_head m t :
  (forall s r n, m s = Some (r, n) -> exists r', r = 60 :: r') ->
  exists t', re_sub m (60 :: t) = 60 :: t'.
Proof.
  intros Hr. unfold re_sub. cbn [sub_scan].
  destruct (m (60 :: t)) as [[r n]|] eqn:Em.
  - destruct (Hr _ _ _ Em) as [r' ->]. eexists. reflexivity.
  - eexists. reflexivity.
Qed.

(** *** Patterns held within a tag *)

(** What a text without [<] says at the start of [u] does not depend on a
    tag that follows [u]. *)
Lemma startswith_before_tag old u y :
  Forall (fun a => a <> 60) old ->
  startswith old (u ++ 60 :: y) = startswith old u.
Proof.
  intros Hold. destruct (startswith old u) eqn:E.
  - now apply startswith_app_l.
  - destruct (startswith old (u ++ 60 :: y)) eqn:E'; [|reflexivity].
    apply startswith_confined in E'; [congruence | exact Hold].
Qed.

Lemma expect_before_tag old u y :
  Forall (fun a => a <> 60) old ->
  expect old (u ++ 60 :: y)
  = option_map (fun r => r ++ 60 :: y) (expect old u).
Proof.
  intros Hold. unfold expect. rewrite startswith_before_tag by assumption.
  destruct (startswith old u) eqn:E; [|reflexivity].
  cbn [option_map]. f_equal. apply skipn_app_lt.
  apply startswith_inv in E. rewrite E, length_app. lia.
Qed.

Lemma expect_length p s r : expect p s = Some r -> length s = (length p + length r)%nat.
Proof.
  unfold expect. destruct (startswith p s) eqn:E; [|discriminate].
  intros [= <-]. apply startswith_inv in E. rewrite E at 1.
  now rewrite length_app.
Qed.

Lemma span_length p s : length s = (length (fst (span p s)) + length (snd (span p s)))%nat.
Proof.
  induction s as [|c s IH]; [reflexivity|].
  cbn [span]. destruct (p c); [|reflexivity].
  destruct (span p s) as [a b]. cbn [fst snd length] in *. lia.
Qed.

Lemma span_Forall p s : Forall (fun a => p a = true) (fst (span p s)).
Proof.
  induction s as [|c s IH]; [constructor|].
  cbn [span]. destruct (p c) eqn:E; [|constructor].
  destruct (span p s) as [a b]. cbn [fst] in *. now constructor.
Qed.

(** A run of characters other than [c] ends at the latest where a [c]
    follows. *)
Lemma span_before p c u y :
  p c = false ->
  span p (u ++ c :: y) = (fst (span p u), snd (span p u) ++ c :: y).
Proof.
  intros Hc. induction u as [|d u IH]; cbn [app span fst snd].
  - now rewrite Hc.
  - destruct (p d); [|reflexivity].
    rewrite IH. now destruct (span p u).
Qed.

(** The pattern of a literal with a single [<], at its head. *)
Lemma m_literal_before_tag old new d u y :
  Forall (fun a => a <> 60) old ->
  m_literal (60 :: old) new ((d :: u) ++ 60 :: y)
  = m_literal (60 :: old) new (d :: u).
Proof.
  intros Hold. unfold m_literal. cbn [app startswith].
  now rewrite startswith_before_tag.
Qed.

Lemma m_literal_bound old new s r n :
  old <> [] -> m_literal old new s = Some (r, n) ->
  (0 < n <= length s)%nat /\ r = new /\ startswith old s = true.
Proof.
  intros Hne. unfold m_literal.
  destruct (startswith old s) eqn:E; [|discriminate].
  intros [= <- <-]. apply startswith_inv in E as E'.
  split; [|auto]. apply (f_equal (@length Z)) in E'.
  rewrite length_app in E'.
  destruct old; [congruence | cbn [length] in *; lia].
Qed.

(** The pattern of the item count. *)
Lemma m_itemcnt_before_tag tag old new d u y :
  Forall (fun a => a <> 60) tag -> Forall (fun a => a <> 60) old ->
  m_itemcnt (60 :: tag) old new ((d :: u) ++ 60 :: y)
  = m_itemcnt (60 :: tag) old new (d :: u).
Proof.
  intros Htag Hold. unfold m_itemcnt.
  assert (E1 : expect (60 :: tag) ((d :: u) ++ 60 :: y)
               = option_map (fun r => r ++ 60 :: y)
                            (expect (60 :: tag) (d :: u))).
  { unfold expect. cbn [app startswith length skipn].
    rewrite startswith_before_tag by assumption.
    destruct ((60 =? d) && startswith tag u) eqn:E; [|reflexivity].
    cbn [option_map]. f_equal. apply skipn_app_lt.
    apply andb_true_iff in E as [_ E]. apply startswith_inv in E.
    rewrite E, length_app. lia. }
  rewrite E1. destruct (expect (60 :: tag) (d :: u)) as [r1|] eqn:Er1;
    [|reflexivity].
  cbn [option_map]. rewrite span_before by reflexivity.
  pose proof (span_length is_space r1) as Hlen.
  destruct (span is_space r1) as [ws r2]. cbn [fst snd] in *.
  destruct ws as [|w ws]; [reflexivity|].
  assert (Hattr : Forall (fun a => a <> 60) (lit "itemCnt='" ++ old ++ lit "'")).
  { apply Forall_app. split; [repeat constructor; discriminate|].
    apply Forall_app. split; [exact Hold|]. repeat constructor; discriminate. }
  rewrite expect_before_tag by exact Hattr.
  destruct (expect (lit "itemCnt='" ++ old ++ lit "'") r2) as [r3|] eqn:Er3;
    [|reflexivity].
  cbn [option_map]. f_equal. f_equal.
  apply expect_length in Er1, Er3. unfold consumed.
  cbn [length] in *. rewrite !length_app in *. cbn [length] in *. lia.
Qed.

Lemma m_itemcnt_bound tag old new s r n :
  tag <> [] -> m_itemcnt tag old new s = Some (r, n) ->
  (0 < n <= length s)%nat /\ startswith tag s = true
  /\ exists ws, r = tag ++ ws ++ lit "itemCnt='" ++ new ++ lit "'"
                /\ Forall (fun a => is_space a = true) ws.
Proof.
  intros Hne. unfold m_itemcnt.
  destruct (expect tag s) as [r1|] eqn:Er1; [|discriminate].
  pose proof (span_length is_space r1) as Hlen.
  pose proof (span_Forall is_space r1) as Hws.
  destruct (span is_space r1) as [ws r2]. cbn [fst snd] in *.
  destruct ws as [|w ws]; [discriminate|].
  destruct (expect (lit "itemCnt='" ++ old ++ lit "'") r2) as [r3|] eqn:Er3;
    [|discriminate].
  intros [= <- <-].
  assert (Hst : startswith tag s = true).
  { unfold expect in Er1. destruct (startswith tag s); [reflexivity|discriminate]. }
  apply expect_length in Er1, Er3. unfold consumed.
  split; [|split; [exact Hst|exists (w :: ws); split; [reflexivity|exact Hws]]].
  destruct tag; [congruence|]. cbn [length] in *. lia.
Qed.

(** No occurrence of a tag in a text that has none and is followed by
    nothing or by a tag. *)
Lemma absent_before_tag old x z :
  Forall (fun a => a <> 60) old ->
  absent (60 :: old) x ->
  z = [] \/ (exists z', z = 60 :: z') ->
  forall k, (k < length x)%nat ->
            startswith (60 :: old) (skipn k (x ++ z)) = false.
Proof.
  intros Hold Hx [->|[z' ->]] k Hk.
  - rewrite app_nil_r. apply Hx.
  - now apply absent_closed_for.
Qed.

(** A scan for a pattern held within a tag, on a text in three parts of
    which the first and the last have no such tag: the scan is that of the
    part in the middle. *)
Lemma re_sub_between m old a b c :
  Forall (fun x => x <> 60) old ->
  (forall s r n, m s = Some (r, n) ->
                 (0 < n <= length s)%nat /\ startswith (60 :: old) s = true) ->
  (forall d u y, m ((d :: u) ++ 60 :: y) = m (d :: u)) ->
  absent (60 :: old) a -> absent (60 :: old) c ->
  (exists b', b = 60 :: b') -> c = [] \/ (exists c', c = 60 :: c') ->
  re_sub m (a ++ b ++ c) = a ++ re_sub m b ++ c.
Proof.
  intros Hold Hm Hconf Ha Hc [b' ->] Hcz.
  assert (Hnone : forall s, startswith (60 :: old) s = false -> m s = None).
  { intros s Hs. destruct (m s) as [[r n]|] eqn:E; [|reflexivity].
    destruct (Hm _ _ _ E) as [_ H]. congruence. }
  rewrite re_sub_prefix.
  2:{ intros k Hk. apply Hnone.
      apply absent_before_tag; auto. right. eexists. reflexivity. }
  f_equal.
  assert (Ec : re_sub m c = c).
  { apply re_sub_none. intros k. apply Hnone, Hc. }
  destruct Hcz as [->|[c' ->]].
  - now rewrite !app_nil_r.
  - rewrite re_sub_app; [now rewrite Ec| |].
    + intros k Hk.
      destruct (skipn k (60 :: b')) as [|d u] eqn:E.
      * apply (f_equal (@length Z)) in E. rewrite length_skipn in E.
        cbn [length] in E, Hk. lia.
      * apply Hconf.
    + intros k r n E. exact (proj1 (Hm _ _ _ E)).
Qed.

(** *** The catalog steps between other text *)

Section CatalogStep.

Variables tag' marker' old new added' : pystr.
Hypothesis Htag : Forall (fun a => a <> 60) tag'.
Hypothesis Hmarker : Forall (fun a => a <> 60) marker'.
Hypothesis Hold : Forall (fun a => a <> 60) old.
Hypothesis Hnew : Forall (fun a => a <> 60) new.

(** One catalog step: the new entries in front of every closing tag, then
    the item count. *)
Let step (s : pystr) : pystr :=
  re_sub (m_itemcnt (60 :: tag') old new)
    (str_replace (60 :: marker') ((60 :: added') ++ 60 :: marker') s).

Lemma m_literal_marker_facts s r n :
  m_literal (60 :: marker') ((60 :: added') ++ 60 :: marker') s = Some (r, n) ->
  (0 < n <= length s)%nat /\ startswith (60 :: marker') s = true
  /\ r = (60 :: added') ++ 60 :: marker'.
Proof.
  intros H. apply m_literal_bound in H as (H1 & H2 & H3); [|discriminate].
  auto.
Qed.

Lemma catalog_step_between a b c :
  absent (60 :: marker') a -> absent (60 :: tag') a ->
  absent (60 :: marker') c -> absent (60 :: tag') c ->
  (exists b', b = 60 :: b') -> c = [] \/ (exists c', c = 60 :: c') ->
  step (a ++ b ++ c) = a ++ step b ++ c.
Proof.
  intros Hma Hta Hmc Htc [b' ->] Hc. unfold step, str_replace.
  rewrite (@re_sub_between _ marker' a (60 :: b') c); auto.
  - destruct (@re_sub_head
                (m_literal (60 :: marker') ((60 :: added') ++ 60 :: marker'))
                b') as [t Et].
    { intros s r n H. apply m_literal_marker_facts in H as (_ & _ & ->).
      eexists. reflexivity. }
    rewrite Et.
    apply (@re_sub_between _ tag' a (60 :: t) c); auto.
    + intros s r n H.
      apply m_itemcnt_bound in H as (H1 & H2 & _); [auto | discriminate].
    + intros d u y. now apply m_itemcnt_before_tag.
    + eexists. reflexivity.
  - intros s r n H. apply m_literal_marker_facts in H as (H1 & H2 & _). auto.
  - intros d u y. now apply m_literal_before_tag.
  - eexists. reflexivity.
Qed.

Lemma catalog_step_head t : exists t', step (60 :: t) = 60 :: t'.
Proof.
  unfold step, str_replace.
  destruct (@re_sub_head
              (m_literal (60 :: marker') ((60 :: added') ++ 60 :: marker'))
              t) as [t1 E1].
  { intros s r n H. apply m_literal_marker_facts in H as (_ & _ & ->).
    eexists. reflexivity. }
  rewrite E1. apply re_sub_head.
  intros s r n H. apply m_itemcnt_bound in H as (_ & _ & ws & -> & _);
    [|discriminate].
  eexists. reflexivity.
Qed.

(** A step brings no [<] followed by [x'] into a text that has none, when
    neither the new entries with the closing tag nor the opening tag have
    room for one. *)
Lemma catalog_step_keeps_absent x' s :
  Forall (fun a => a <> 60) x' ->
  closed_for (60 :: x') ((60 :: added') ++ 60 :: marker') ->
  closed_for (60 :: x') (60 :: tag') ->
  absent (60 :: x') s -> absent (60 :: x') (step s).
Proof.
  intros Hx Hadded Htagc Hs. unfold step, str_replace.
  apply re_sub_keeps_absent; auto.
  - intros s0 [r n] H.
    apply m_itemcnt_bound in H as (_ & H & _); [|discriminate].
    destruct s0 as [|d s0]; [discriminate|].
    cbn [startswith] in H. apply andb_true_iff in H as [H _].
    apply Z.eqb_eq in H. subst d. eexists. reflexivity.
  - intros s0 r n H.
    apply m_itemcnt_bound in H as (H1 & _ & ws & -> & Hws); [|discriminate].
    split; [exact H1|]. split; [eexists; reflexivity|].
    apply closed_for_app; [exact Htagc|].
    apply closed_for_without. apply Forall_app. split.
    + eapply Forall_impl; [|exact Hws]. cbv beta. intros a Ha ->. discriminate.
    + apply Forall_app. split; [repeat constructor; discriminate|].
      apply Forall_app. split; [exact Hnew|]. repeat constructor; discriminate.
  - apply re_sub_keeps_absent; auto.
    + intros s0 [r n] H. apply m_literal_marker_facts in H as (_ & H & _).
      destruct s0 as [|d s0]; [discriminate|].
      cbn [startswith] in H. apply andb_true_iff in H as [H _].
      apply Z.eqb_eq in H. subst d. eexists. reflexivity.
    + intros s0 r n H. apply m_literal_marker_facts in H as (H1 & _ & ->).
      split; [exact H1|]. split; [eexists; reflexivity | exact Hadded].
Qed.

End CatalogStep.

(** *** The font step before other text *)

Lemma expect_tag_before_tag tag d u y :
  Forall (fun a => a <> 60) tag ->
  expect (60 :: tag) ((d :: u) ++ 60 :: y)
  = option_map (fun r => r ++ 60 :: y) (expect (60 :: tag) (d :: u)).
Proof.
  intros Htag. unfold expect. cbn [app startswith length skipn].
  rewrite startswith_before_tag by assumption.
  destruct ((60 =? d) && startswith tag u) eqn:E; [|reflexivity].
  cbn [option_map]. f_equal. apply skipn_app_lt.
  apply andb_true_iff in E as [_ E]. apply startswith_inv in E.
  rewrite E, length_app. lia.
Qed.

Lemma expect_Some p s r : expect p s = Some r -> s = p ++ r.
Proof.
  unfold expect. destruct (startswith p s) eqn:E; [|discriminate].
  intros [= <-]. now apply startswith_inv.
Qed.

Lemma span_app_eq p s : s = fst (span p s) ++ snd (span p s).
Proof.
  induction s as [|c s IH]; [reflexivity|].
  cbn [span]. destruct (p c); [|reflexivity].
  destruct (span p s) as [a b]. cbn [fst snd app] in *. now f_equal.
Qed.

Lemma upto_Some stop s g r : upto stop s = Some (g, r) -> s = g ++ stop :: r.
Proof.
  unfold upto. pose proof (span_app_eq (fun c => negb (c =? stop)) s) as E.
  destruct (span (fun c => negb (c =? stop)) s) as [a [|c b]]; [discriminate|].
  destruct (c =? stop) eqn:Ec; [|discriminate].
  intros [= <- <-]. apply Z.eqb_eq in Ec. subst c. exact E.
Qed.

Lemma upto_cons stop c s :
  upto stop (c :: s)
  = if c =? stop then Some ([], s)
    else option_map (fun gr => (c :: fst gr, snd gr)) (upto stop s).
Proof.
  unfold upto. cbn [span]. destruct (c =? stop) eqn:Ec; cbn [negb].
  - now rewrite Ec.
  - destruct (span (fun c0 => negb (c0 =? stop)) s) as [a [|d b]];
      [reflexivity|].
    destruct (d =? stop); reflexivity.
Qed.

(** [upto] on a text in two parts. *)
Lemma upto_app stop y : forall x,
  upto stop (x ++ y)
  = match upto stop x with
    | Some (g, r) => Some (g, r ++ y)
    | None => option_map (fun gr => (x ++ fst gr, snd gr)) (upto stop y)
    end.
Proof.
  induction x as [|c x IH].
  - cbn [app]. change (upto stop []) with (@None (pystr * pystr)).
    destruct (upto stop y) as [[g r]|]; reflexivity.
  - cbn [app]. rewrite !upto_cons.
    destruct (c =? stop); [reflexivity|].
    rewrite IH. destruct (upto stop x) as [[g r]|]; [reflexivity|].
    destruct (upto stop y) as [[g r]|]; reflexivity.
Qed.

Lemma absent_skipn old s k : absent old s -> absent old (skipn k s).
Proof. intros H j. rewrite skipn_skipn. apply H. Qed.

(** The first occurrence of a closing tag in a text does not depend on
    what follows, when that has no such tag and is empty or begins a tag. *)
Lemma str_index_before old z : forall x,
  Forall (fun a => a <> 60) old ->
  absent (60 :: old) z ->
  z = [] \/ (exists z', z = 60 :: z') ->
  str_index (60 :: old) (x ++ z) = str_index (60 :: old) x.
Proof.
  intros x Hold Hz Hzz.
  destruct Hzz as [->|[z' ->]]; [now rewrite app_nil_r|].
  induction x as [|d x IH].
  - cbn [app]. apply str_index_None in Hz. rewrite Hz. reflexivity.
  - change ((d :: x) ++ 60 :: z') with (d :: (x ++ 60 :: z')).
    cbn [str_index]. rewrite IH.
    change (startswith (60 :: old) (d :: x ++ 60 :: z'))
      with ((60 =? d) && startswith old (x ++ 60 :: z')).
    rewrite startswith_before_tag by assumption. reflexivity.
Qed.

Section FontStep.

Variable isalnum : Z -> bool.
Hypothesis lt_no_word : isalnum 60 = false.

Lemma is_word_lt : is_word isalnum 60 = false.
Proof. unfold is_word. now rewrite lt_no_word. Qed.

(** What the pattern of the font step returns. *)
Lemma m_fontface_Some s r n :
  m_fontface isalnum s = Some (r, n) ->
  (0 < n <= length s)%nat
  /\ startswith (lit "<hh:fontface lang='") s = true
  /\ exists lang, r = _replace_fontface_block lang
                  /\ Forall (fun a => is_word isalnum a = true) lang.
Proof.
  unfold m_fontface.
  destruct (expect (lit "<hh:fontface lang='") s) as [r1|] eqn:E1;
    [|discriminate].
  pose proof (span_app_eq (is_word isalnum) r1) as E2.
  pose proof (span_Forall (is_word isalnum) r1) as Hlang.
  destruct (span (is_word isalnum) r1) as [lang r2]. cbn [fst snd] in *.
  destruct lang as [|l0 lang]; [discriminate|].
  destruct (expect (lit "'") r2) as [r3|] eqn:E3; [|discriminate].
  destruct (upto 62 r3) as [[g r4]|] eqn:E4; [|discriminate].
  destruct (str_index (lit "</hh:fontface>") r4) as [k|] eqn:E5;
    [|discriminate].
  intros [= <- <-].
  assert (Hst : startswith (lit "<hh:fontface lang='") s = true).
  { unfold expect in E1.
    destruct (startswith (lit "<hh:fontface lang='") s);
      [reflexivity | discriminate]. }
  split; [|split; [exact Hst|exists (l0 :: lang); auto]].
  apply str_index_startswith in E5. apply startswith_inv in E5.
  apply (f_equal (@length Z)) in E5.
  rewrite length_app, !length_skipn in E5.
  apply expect_Some in E1, E3. apply upto_Some in E4.
  subst s r1 r2 r3. unfold consumed.
  repeat (rewrite ?length_app; cbn [length]).
  change (length (lit "</hh:fontface>")) with 14%nat in *.
  lia.
Qed.

(** Without a closing tag after it, no font face matches. *)
Lemma m_fontface_no_close s :
  absent (lit "</hh:fontface>") s -> m_fontface isalnum s = None.
Proof.
  intros Hs. unfold m_fontface.
  destruct (expect (lit "<hh:fontface lang='") s) as [r1|] eqn:E1;
    [|reflexivity].
  pose proof (span_app_eq (is_word isalnum) r1) as E2.
  destruct (span (is_word isalnum) r1) as [lang r2]. cbn [fst snd] in *.
  destruct lang as [|l0 lang]; [reflexivity|].
  destruct (expect (lit "'") r2) as [r3|] eqn:E3; [|reflexivity].
  destruct (upto 62 r3) as [[g r4]|] eqn:E4; [|reflexivity].
  apply expect_Some in E1, E3. apply upto_Some in E4.
  assert (H4 : absent (lit "</hh:fontface>") r4).
  { subst s r1 r2 r3.
    repeat match goal with
           | H : absent _ (_ ++ _) |- _ => apply absent_tail in H
           | H : absent _ (_ :: ?t) |- _ =>
               change (absent (lit "</hh:fontface>") ([62] ++ t)) in H
           end.
    exact Hs. }
  apply str_index_None in H4. now rewrite H4.
Qed.

(** The pattern of the font step says the same of a text whether or not a
    text follows that has no closing tag of a font face and is empty or
    begins a tag. *)
Lemma m_fontface_before u z :
  absent (lit "</hh:fontface>") z ->
  z = [] \/ (exists z', z = 60 :: z') ->
  m_fontface isalnum (u ++ z) = m_fontface isalnum u.
Proof.
  intros Hz Hzz.
  destruct Hzz as [->|[z' ->]]; [now rewrite app_nil_r|].
  destruct u as [|d u].
  - cbn [app]. now rewrite m_fontface_no_close.
  - unfold m_fontface.
    change (lit "<hh:fontface lang='") with (60 :: lit "hh:fontface lang='").
    rewrite (@expect_tag_before_tag (lit "hh:fontface lang='") d u z')
      by (repeat constructor; discriminate).
    change (60 :: lit "hh:fontface lang='") with (lit "<hh:fontface lang='").
    destruct (expect (lit "<hh:fontface lang='") (d :: u)) as [r1|] eqn:E1;
      [|reflexivity].
    cbn [option_map]. rewrite span_before by exact is_word_lt.
    pose proof (span_length (is_word isalnum) r1) as E2.
    destruct (span (is_word isalnum) r1) as [lang r2]. cbn [fst snd] in *.
    destruct lang as [|l0 lang]; [reflexivity|].
    rewrite (@expect_before_tag (lit "'") r2 z')
      by (repeat constructor; discriminate).
    destruct (expect (lit "'") r2) as [r3|] eqn:E3; [|reflexivity].
    cbn [option_map]. rewrite upto_app.
    destruct (upto 62 r3) as [[g r4]|] eqn:E4.
    + change (lit "</hh:fontface>") with (60 :: lit "/hh:fontface>").
      rewrite (@str_index_before (lit "/hh:fontface>") (60 :: z') r4);
        [| repeat constructor; discriminate | exact Hz
         | right; eexists; reflexivity].
      change (60 :: lit "/hh:fontface>") with (lit "</hh:fontface>").
      destruct (str_index (lit "</hh:fontface>") r4) as [k|];
        [|reflexivity].
      assert (Hc : consumed ((d :: u) ++ 60 :: z') (r4 ++ 60 :: z')
                   = consumed (d :: u) r4).
      { apply expect_length in E1, E3. apply upto_Some in E4.
        apply (f_equal (@length Z)) in E4. unfold consumed.
        repeat (rewrite ?length_app in *; cbn [length] in * ). lia. }
      now rewrite Hc.
    + destruct (upto 62 (60 :: z')) as [[g r4]|] eqn:E5; [|reflexivity].
      cbn [option_map fst snd].
      apply upto_Some in E5.
      assert (H4 : absent (lit "</hh:fontface>") r4).
      { rewrite E5 in Hz. apply absent_tail in Hz.
        change (absent (lit "</hh:fontface>") ([62] ++ r4)) in Hz.
        now apply absent_tail in Hz. }
      apply str_index_None in H4. now rewrite H4.
Qed.

(** The font step on a text followed by one without a closing tag of a
    font face. *)
Lemma replace_fontfaces_before x z :
  absent (lit "</hh:fontface>") z ->
  z = [] \/ (exists z', z = 60 :: z') ->
  replace_fontfaces isalnum (x ++ z) = replace_fontfaces isalnum x ++ z.
Proof.
  intros Hz Hzz. unfold replace_fontfaces.
  rewrite re_sub_app.
  - f_equal. apply re_sub_none. intros k.
    apply m_fontface_no_close. now apply absent_skipn.
  - intros k _. now apply m_fontface_before.
  - intros k r n H. exact (proj1 (@m_fontface_Some _ _ _ H)).
Qed.

End FontStep.

(** *** What the steps bring into the text *)

Lemma dict_get_Forall (P : pystr -> Prop) d key default :
  P default -> Forall (fun kv => P (snd kv)) d -> P (dict_get d key default).
Proof.
  intros Hd Hall. induction Hall as [|[k v] d Hv Hall IH]; cbn [dict_get];
    [exact Hd|].
  destruct (pystr_eqb k key); [exact Hv | exact IH].
Qed.

Lemma no_lt_check s :
  forallb (fun a => negb (a =? 60)) s = true -> Forall (fun a => a <> 60) s.
Proof.
  intros H. apply Forall_forall. intros a Ha.
  rewrite forallb_forall in H. specialize (H a Ha).
  apply negb_true_iff in H. now apply Z.eqb_neq.
Qed.

Lemma font_names_no_lt lang :
  Forall (fun a => a <> 60) (dict_get LANG_FONT_MAP lang (lit "NimbusSanL")).
Proof.
  apply (@dict_get_Forall (Forall (fun a => a <> 60))).
  - apply no_lt_check. reflexivity.
  - apply Forall_forall. intros kv Hkv. apply no_lt_check.
    assert (Hall : forallb (fun kv => forallb (fun a => negb (a =? 60)) (snd kv))
                           LANG_FONT_MAP = true) by reflexivity.
    rewrite forallb_forall in Hall. exact (Hall kv Hkv).
Qed.

Ltac closed_pieces :=
  lazymatch goal with
  | |- closed_for _ (_ ++ _) =>
      apply closed_for_app; [closed_pieces | closed_pieces]
  | |- closed_for _ (str_of_int _) =>
      apply closed_for_without; apply str_of_int_no_lt
  | |- closed_for _ (lit _) => apply clashes_everywhere_sound; reflexivity
  | |- closed_for _ (dict_get _ _ _) =>
      apply closed_for_without; apply font_names_no_lt
  | |- closed_for _ _ => apply closed_for_without; assumption
  end.

(** The tags the other steps look for. *)
Lemma fontface_block_closed x' lang :
  Forall (fun a => a <> 60) lang ->
  In x' [lit "hh:charProperties"; lit "/hh:charProperties>";
         lit "hh:borderFillList"; lit "/hh:borderFillList>";
         lit "hh:paraPr"] ->
  closed_for (60 :: x') (_replace_fontface_block lang).
Proof.
  intros Hlang Hin. unfold _replace_fontface_block, _make_font_xml. cbv zeta.
  cbn [In] in Hin.
  destruct Hin as [<-|[<-|[<-|[<-|[<-|[]]]]]]; closed_pieces.
Qed.

Section FontStepAbsent.

Variable isalnum : Z -> bool.
Hypothesis lt_no_word : isalnum 60 = false.

Lemma replace_fontfaces_keeps_absent x' s :
  In x' [lit "hh:charProperties"; lit "/hh:charProperties>";
         lit "hh:borderFillList"; lit "/hh:borderFillList>";
         lit "hh:paraPr"] ->
  absent (60 :: x') s -> absent (60 :: x') (replace_fontfaces isalnum s).
Proof.
  intros Hin Hs. unfold replace_fontfaces.
  apply re_sub_keeps_absent; auto.
  - cbn [In] in Hin.
    destruct Hin as [<-|[<-|[<-|[<-|[<-|[]]]]]];
      repeat constructor; discriminate.
  - intros s0 [r n] H. apply m_fontface_Some in H as (_ & H & _).
    destruct s0 as [|d s0]; [discriminate|].
    change (lit "<hh:fontface lang='") with (60 :: lit "hh:fontface lang='") in H.
    cbn [startswith] in H. apply andb_true_iff in H as [H _].
    apply Z.eqb_eq in H. subst d. eexists. reflexivity.
  - intros s0 r n H. apply m_fontface_Some in H as (H1 & _ & lang & -> & Hl).
    split; [exact H1|]. split; [eexists; reflexivity|].
    apply fontface_block_closed; [|exact Hin].
    eapply Forall_impl; [|exact Hl]. cbv beta. intros a Ha ->.
    rewrite (@is_word_lt isalnum lt_no_word) in Ha. discriminate.
Qed.

End FontStepAbsent.

(** The entries the catalog steps add, with the closing tag after them. *)
Lemma new_charpr_closed x' :
  In x' [lit "hh:borderFillList"; lit "/hh:borderFillList>"; lit "hh:paraPr"] ->
  closed_for (60 :: x') (join new_charpr_entries ++ CHARPR_MARKER)
  /\ closed_for (60 :: x') CHARPR_TAG.
Proof.
  intros Hin. cbn [In] in Hin.
  destruct Hin as [<-|[<-|[<-|[]]]]; split;
    apply clashes_everywhere_sound; vm_compute; reflexivity.
Qed.

Lemma new_borderfill_closed x' :
  In x' [lit "hh:paraPr"] ->
  closed_for (60 :: x') (join new_borderfill_entries ++ BORDERFILL_MARKER)
  /\ closed_for (60 :: x') BORDERFILL_TAG.
Proof.
  intros Hin. cbn [In] in Hin.
  destruct Hin as [<-|[]]; split;
    apply clashes_everywhere_sound; vm_compute; reflexivity.
Qed.

Lemma add_heading_charprs_keeps_absent x' s :
  In x' [lit "hh:borderFillList"; lit "/hh:borderFillList>"; lit "hh:paraPr"] ->
  absent (60 :: x') s -> absent (60 :: x') (add_heading_charprs s).
Proof.
  intros Hin Hs. rewrite add_heading_charprs_unfold.
  destruct (@new_charpr_closed _ Hin) as [Hc1 Hc2].
  destruct new_charpr_shape as [Ehead _].
  revert Hc1. rewrite Ehead. intros Hc1.
  refine (@catalog_step_keeps_absent (lit "hh:charProperties")
            (lit "/hh:charProperties>") (lit "7") (lit "11")
            (skipn 1 (join new_charpr_entries)) _ x' s _ Hc1 Hc2 Hs).
  - repeat constructor; discriminate.
  - cbn [In] in Hin. destruct Hin as [<-|[<-|[<-|[]]]];
      repeat constructor; discriminate.
Qed.

Lemma add_table_borderfill_keeps_absent x' s :
  In x' [lit "hh:paraPr"] ->
  absent (60 :: x') s -> absent (60 :: x') (add_table_borderfill s).
Proof.
  intros Hin Hs. rewrite add_table_borderfill_unfold.
  destruct (@new_borderfill_closed _ Hin) as [Hc1 Hc2].
  destruct new_borderfill_shape as [Ehead _].
  revert Hc1. rewrite Ehead. intros Hc1.
  refine (@catalog_step_keeps_absent (lit "hh:borderFillList")
            (lit "/hh:borderFillList>") (lit "2") (lit "3")
            (skipn 1 (join new_borderfill_entries)) _ x' s _ Hc1 Hc2 Hs).
  - repeat constructor; discriminate.
  - cbn [In] in Hin. destruct Hin as [<-|[]];
      repeat constructor; discriminate.
Qed.

(** The catalog steps between a text before and a text after that have
    nothing of the catalog. *)
Lemma add_heading_charprs_between a b c :
  absent CHARPR_MARKER a -> absent CHARPR_TAG a ->
  absent CHARPR_MARKER c -> absent CHARPR_TAG c ->
  (exists b', b = 60 :: b') -> c = [] \/ (exists c', c = 60 :: c') ->
  add_heading_charprs (a ++ b ++ c) = a ++ add_heading_charprs b ++ c
  /\ exists t, add_heading_charprs b = 60 :: t.
Proof.
  intros H1 H2 H3 H4 Hb Hc. rewrite !add_heading_charprs_unfold.
  destruct new_charpr_shape as [Ehead _]. rewrite Ehead.
  split.
  - refine (@catalog_step_between (lit "hh:charProperties")
              (lit "/hh:charProperties>") (lit "7") (lit "11")
              (skipn 1 (join new_charpr_entries)) _ _ _ a b c
              H1 H2 H3 H4 Hb Hc);
      repeat constructor; discriminate.
  - destruct Hb as [b' ->].
    exact (@catalog_step_head (lit "hh:charProperties")
             (lit "/hh:charProperties>") (lit "7") (lit "11")
             (skipn 1 (join new_charpr_entries)) b').
Qed.

Lemma add_table_borderfill_between a b c :
  absent BORDERFILL_MARKER a -> absent BORDERFILL_TAG a ->
  absent BORDERFILL_MARKER c -> absent BORDERFILL_TAG c ->
  (exists b', b = 60 :: b') -> c = [] \/ (exists c', c = 60 :: c') ->
  add_table_borderfill (a ++ b ++ c) = a ++ add_table_borderfill b ++ c
  /\ exists t, add_table_borderfill b = 60 :: t.
Proof.
  intros H1 H2 H3 H4 Hb Hc. rewrite !add_table_borderfill_unfold.
  destruct new_borderfill_shape as [Ehead _]. rewrite Ehead.
  split.
  - refine (@catalog_step_between (lit "hh:borderFillList")
              (lit "/hh:borderFillList>") (lit "2") (lit "3")
              (skipn 1 (join new_borderfill_entries)) _ _ _ a b c
              H1 H2 H3 H4 Hb Hc);
      repeat constructor; discriminate.
  - destruct Hb as [b' ->].
    exact (@catalog_step_head (lit "hh:borderFillList")
             (lit "/hh:borderFillList>") (lit "2") (lit "3")
             (skipn 1 (join new_borderfill_entries)) b').
Qed.

(** *** The spacing step after other text *)

Lemma m_heading_prev_Some para_pr_id prev_val s r n :
  m_heading_prev para_pr_id prev_val s = Some (r, n) ->
  startswith (lit "<hh:paraPr") s = true /\ exists r', r = 60 :: r'.
Proof.
  unfold m_heading_prev.
  destruct (expect (lit "<hh:paraPr") s) as [r1|] eqn:E1; [|discriminate].
  pose proof (span_length is_space r1) as E2.
  destruct (span is_space r1) as [ws r2]. cbn [fst snd] in *.
  destruct ws as [|w ws]; [discriminate|].
  destruct (expect (lit "id='" ++ str_of_int para_pr_id ++ lit "'") r2)
    as [r3|] eqn:E3; [|discriminate].
  destruct (upto 62 r3) as [[g r4]|] eqn:E4; [|discriminate].
  destruct (search_first m_prev_zero r4) as [[k [group2 n0]]|]; [|discriminate].
  intros [= <- <-].
  assert (Hst : startswith (lit "<hh:paraPr") s = true).
  { unfold expect in E1.
    destruct (startswith (lit "<hh:paraPr") s); [reflexivity | discriminate]. }
  split; [exact Hst|].
  apply expect_length in E1, E3. apply upto_Some in E4.
  apply (f_equal (@length Z)) in E4.
  destruct s as [|d s]; [discriminate|].
  change (lit "<hh:paraPr") with (60 :: lit "hh:paraPr") in Hst.
  cbn [startswith] in Hst. apply andb_true_iff in Hst as [Hd _].
  apply Z.eqb_eq in Hd. subst d.
  assert (Hc : exists j, Nat.add (consumed (60 :: s) r4) k = S j).
  { unfold consumed.
    repeat (rewrite ?length_app in *; cbn [length] in * ).
    change (length (lit "<hh:paraPr")) with 10%nat in E1.
    exists (Nat.pred (S (length s) - length r4 + k)). lia. }
  destruct Hc as [j ->]. cbn [firstn app]. eexists. reflexivity.
Qed.

Lemma heading_step_after para_pr_id prev_val a s :
  absent (lit "<hh:paraPr") a ->
  s = [] \/ (exists s', s = 60 :: s') ->
  re_sub (m_heading_prev para_pr_id prev_val) (a ++ s)
  = a ++ re_sub (m_heading_prev para_pr_id prev_val) s
  /\ (re_sub (m_heading_prev para_pr_id prev_val) s = []
      \/ exists t, re_sub (m_heading_prev para_pr_id prev_val) s = 60 :: t).
Proof.
  intros Ha Hs. split.
  - apply re_sub_prefix. intros k Hk.
    destruct (m_heading_prev para_pr_id prev_val (skipn k (a ++ s)))
      as [[r n]|] eqn:E; [|reflexivity].
    apply m_heading_prev_Some in E as [E _].
    change (lit "<hh:paraPr") with (60 :: lit "hh:paraPr") in *.
    rewrite absent_before_tag in E; auto; try discriminate.
    repeat constructor; discriminate.
  - destruct Hs as [->|[s' ->]]; [now left|right].
    apply re_sub_head. intros s0 r n E.
    now apply m_heading_prev_Some in E as [_ E].
Qed.

Lemma add_heading_spacing_after a s :
  absent (lit "<hh:paraPr") a ->
  s = [] \/ (exists s', s = 60 :: s') ->
  add_heading_spacing (a ++ s) = a ++ add_heading_spacing s.
Proof.
  intros Ha Hs. unfold add_heading_spacing, HEADING_SPACING.
  cbn [fold_left]. cbv beta iota.
  destruct (@heading_step_after 2 800 _ _ Ha Hs) as [E1 H1]. rewrite E1.
  destruct (@heading_step_after 3 600 _ _ Ha H1) as [E2 H2]. rewrite E2.
  destruct (@heading_step_after 4 400 _ _ Ha H2) as [E3 _]. exact E3.
Qed.

(** *** The catalog steps, tag by tag *)

(** A scan for a pattern held within a tag goes through a text that is cut
    in front of a tag part by part. *)
Lemma re_sub_at_tag m x z :
  (forall s r n, m s = Some (r, n) -> (0 < n <= length s)%nat) ->
  (forall d u y, m ((d :: u) ++ 60 :: y) = m (d :: u)) ->
  z = [] \/ (exists z', z = 60 :: z') ->
  re_sub m (x ++ z) = re_sub m x ++ re_sub m z.
Proof.
  intros Hm Hconf [->|[z' ->]].
  - rewrite app_nil_r. change (re_sub m []) with (@nil Z).
    now rewrite app_nil_r.
  - apply re_sub_app.
    + intros k Hk. destruct (skipn k x) as [|d u] eqn:E.
      * apply (f_equal (@length Z)) in E. rewrite length_skipn in E.
        cbn [length] in E. lia.
      * apply Hconf.
    + intros k r n E. exact (Hm _ _ _ E).
Qed.

Lemma re_sub_head_or_nil m z :
  (forall s r n, m s = Some (r, n) -> exists r', r = 60 :: r') ->
  z = [] \/ (exists z', z = 60 :: z') ->
  re_sub m z = [] \/ (exists t, re_sub m z = 60 :: t).
Proof.
  intros Hr [->|[z' ->]]; [now left|right]. now apply re_sub_head.
Qed.

Section CatalogStepParts.

Variables tag' marker' old new added' : pystr.
Hypothesis Htag : Forall (fun a => a <> 60) tag'.
Hypothesis Hmarker : Forall (fun a => a <> 60) marker'.
Hypothesis Hold : Forall (fun a => a <> 60) old.

Lemma catalog_step_app x z :
  z = [] \/ (exists z', z = 60 :: z') ->
  re_sub (m_itemcnt (60 :: tag') old new)
    (str_replace (60 :: marker') ((60 :: added') ++ 60 :: marker') (x ++ z))
  = re_sub (m_itemcnt (60 :: tag') old new)
      (str_replace (60 :: marker') ((60 :: added') ++ 60 :: marker') x)
    ++ re_sub (m_itemcnt (60 :: tag') old new)
         (str_replace (60 :: marker') ((60 :: added') ++ 60 :: marker') z)
  /\ (re_sub (m_itemcnt (60 :: tag') old new)
        (str_replace (60 :: marker') ((60 :: added') ++ 60 :: marker') z) = []
      \/ exists t,
           re_sub (m_itemcnt (60 :: tag') old new)
             (str_replace (60 :: marker') ((60 :: added') ++ 60 :: marker') z)
           = 60 :: t).
Proof.
  intros Hz. unfold str_replace.
  assert (Hlit : forall s r n,
             m_literal (60 :: marker') ((60 :: added') ++ 60 :: marker') s
             = Some (r, n) ->
             (0 < n <= length s)%nat /\ exists r', r = 60 :: r').
  { intros s r n H. apply m_literal_bound in H as (H1 & -> & _);
      [|discriminate].
    split; [exact H1 | eexists; reflexivity]. }
  assert (Hcnt : forall s r n,
             m_itemcnt (60 :: tag') old new s = Some (r, n) ->
             (0 < n <= length s)%nat /\ exists r', r = 60 :: r').
  { intros s r n H. apply m_itemcnt_bound in H as (H1 & _ & ws & -> & _);
      [|discriminate].
    split; [exact H1 | eexists; reflexivity]. }
  rewrite (@re_sub_at_tag _ x z); auto.
  2:{ intros s r n H. exact (proj1 (Hlit _ _ _ H)). }
  2:{ intros d u y. now apply m_literal_before_tag. }
  assert (Hz1 : re_sub (m_literal (60 :: marker')
                          ((60 :: added') ++ 60 :: marker')) z = []
                \/ exists t, re_sub (m_literal (60 :: marker')
                                       ((60 :: added') ++ 60 :: marker')) z
                             = 60 :: t).
  { apply re_sub_head_or_nil; [|exact Hz].
    intros s r n H. exact (proj2 (Hlit _ _ _ H)). }
  split.
  - apply re_sub_at_tag; auto.
    + intros s r n H. exact (proj1 (Hcnt _ _ _ H)).
    + intros d u y. now apply m_itemcnt_before_tag.
  - apply re_sub_head_or_nil; [|exact Hz1].
    intros s r n H. exact (proj2 (Hcnt _ _ _ H)).
Qed.

End CatalogStepParts.

Lemma add_heading_charprs_app x z :
  z = [] \/ (exists z', z = 60 :: z') ->
  add_heading_charprs (x ++ z) = add_heading_charprs x ++ add_heading_charprs z
  /\ (add_heading_charprs z = [] \/ exists t, add_heading_charprs z = 60 :: t).
Proof.
  intros Hz. rewrite !add_heading_charprs_unfold.
  destruct new_charpr_shape as [Ehead _]. rewrite Ehead.
  refine (@catalog_step_app (lit "hh:charProperties")
            (lit "/hh:charProperties>") (lit "7") (lit "11")
            (skipn 1 (join new_charpr_entries)) _ _ _ x z Hz);
    repeat constructor; discriminate.
Qed.

Lemma add_table_borderfill_app x z :
  z = [] \/ (exists z', z = 60 :: z') ->
  add_table_borderfill (x ++ z)
  = add_table_borderfill x ++ add_table_borderfill z
  /\ (add_table_borderfill z = [] \/ exists t, add_table_borderfill z = 60 :: t).
Proof.
  intros Hz. rewrite !add_table_borderfill_unfold.
  destruct new_borderfill_shape as [Ehead _]. rewrite Ehead.
  refine (@catalog_step_app (lit "hh:borderFillList")
            (lit "/hh:borderFillList>") (lit "2") (lit "3")
            (skipn 1 (join new_borderfill_entries)) _ _ _ x z Hz);
    repeat constructor; discriminate.
Qed.

(** *** The patcher on a header in three parts *)

Lemma at_tag_spec s : at_tag s = true -> s = [] \/ (exists s', s = 60 :: s').
Proof.
  destruct s as [|c s]; [now left|]. cbn [at_tag]. intros H.
  apply Z.eqb_eq in H. subst c. right. eexists. reflexivity.
Qed.

(** What [header_layout] checks, as propositions. *)
Lemma header_layout_spec fonts cats styles :
  header_layout fonts cats styles = true ->
  (exists c', cats = 60 :: c')
  /\ (styles = [] \/ exists s', styles = 60 :: s')
  /\ absent (lit "</hh:fontface>") (cats ++ styles)
  /\ (absent CHARPR_TAG fonts /\ absent CHARPR_MARKER fonts
      /\ absent BORDERFILL_TAG fonts /\ absent BORDERFILL_MARKER fonts)
  /\ (absent CHARPR_TAG styles /\ absent CHARPR_MARKER styles
      /\ absent BORDERFILL_TAG styles /\ absent BORDERFILL_MARKER styles)
  /\ absent (lit "<hh:paraPr") fonts
  /\ absent (lit "<hh:paraPr") cats.
Proof.
  unfold header_layout. intros H.
  repeat (apply andb_true_iff in H as [H ?]).
  cbn [forallb] in *.
  repeat match goal with
         | H : _ && _ = true |- _ => apply andb_true_iff in H as [? ?]
         end.
  repeat match goal with
         | H : is_None (str_index _ _) = true |- _ =>
             apply is_None_true, str_index_None in H
         end.
  split.
  { destruct cats as [|c cats]; [discriminate|].
    change (lit "<") with [60] in H. cbn [startswith] in H.
    rewrite andb_true_r in H. apply Z.eqb_eq in H. subst c.
    eexists. reflexivity. }
  split; [now apply at_tag_spec|].
  repeat split; assumption.
Qed.

Section WholePatcher.

Variable isalnum : Z -> bool.
Hypothesis lt_no_word : isalnum 60 = false.

Ltac in_list := cbn [In]; repeat (first [left; reflexivity | right]).

(** On a header in three parts each step acts on its own part. *)
Lemma update_header_regions fonts cats styles :
  header_layout fonts cats styles = true ->
  update_header_xml isalnum (fonts ++ cats ++ styles)
  = replace_fontfaces isalnum fonts
    ++ add_table_borderfill (add_heading_charprs cats)
    ++ add_heading_spacing styles.
Proof.
  intros H.
  apply header_layout_spec
    in H as ([c' Ec] & Hst & Hclose & (Hf1 & Hf2 & Hf3 & Hf4)
             & (Hs1 & Hs2 & Hs3 & Hs4) & Hpf & Hpc).
  unfold update_header_xml.
  (* the font step *)
  rewrite (@replace_fontfaces_before isalnum lt_no_word fonts (cats ++ styles)
             Hclose)
    by (right; rewrite Ec; eexists; reflexivity).
  set (F := replace_fontfaces isalnum fonts).
  assert (HF : forall x', In x' [lit "hh:charProperties";
                                 lit "/hh:charProperties>";
                                 lit "hh:borderFillList";
                                 lit "/hh:borderFillList>"; lit "hh:paraPr"] ->
                          absent (60 :: x') fonts -> absent (60 :: x') F).
  { intros x' Hin Hx.
    exact (@replace_fontfaces_keeps_absent isalnum lt_no_word x' fonts Hin Hx). }
  (* the character style step *)
  destruct (@add_heading_charprs_between F cats styles) as [E1 [t1 Et1]].
  { apply (HF (lit "/hh:charProperties>")); [in_list | exact Hf2]. }
  { apply (HF (lit "hh:charProperties")); [in_list | exact Hf1]. }
  { exact Hs2. }
  { exact Hs1. }
  { exists c'. exact Ec. }
  { exact Hst. }
  rewrite E1.
  (* the border fill step *)
  destruct (@add_table_borderfill_between F (add_heading_charprs cats) styles)
    as [E2 [t2 Et2]].
  { apply (HF (lit "/hh:borderFillList>")); [in_list | exact Hf4]. }
  { apply (HF (lit "hh:borderFillList")); [in_list | exact Hf3]. }
  { exact Hs4. }
  { exact Hs3. }
  { exists t1. exact Et1. }
  { exact Hst. }
  rewrite E2.
  (* the spacing step *)
  rewrite app_assoc.
  rewrite add_heading_spacing_after; [now rewrite <- app_assoc | | exact Hst].
  rewrite Et2.
  apply (@absent_app 60 (lit "hh:paraPr"));
    [repeat constructor; discriminate | |].
  - apply (HF (lit "hh:paraPr")); [in_list | exact Hpf].
  - rewrite <- Et2.
    apply (@add_table_borderfill_keeps_absent (lit "hh:paraPr"));
      [in_list|].
    apply (@add_heading_charprs_keeps_absent (lit "hh:paraPr"));
      [in_list | exact Hpc].
Qed.

End WholePatcher.

(** A catalog by itself through the two catalog steps. *)
Lemma catalog_alone tag marker ws count attrs entries :
  catalog tag marker ws count attrs entries
  = tag ++ ws ++ item_count_attr (str_of_int count) ++ attrs
    ++ join entries ++ marker.
Proof.
  unfold catalog, catalog_doc. cbn [app]. now rewrite app_nil_r.
Qed.

Lemma charprs_catalog ws attrs entries :
  catalog_apart CHARPR_TAG CHARPR_MARKER BORDERFILL_TAG BORDERFILL_MARKER
                ws 7 attrs entries = true ->
  let cat' := catalog CHARPR_TAG CHARPR_MARKER ws (7 + 4) attrs
                      (entries ++ new_charpr_entries) in
  add_heading_charprs (catalog CHARPR_TAG CHARPR_MARKER ws 7 attrs entries)
  = cat'
  /\ add_table_borderfill cat' = cat'
  /\ exists t, cat' = 60 :: t.
Proof.
  intros H cat'. unfold catalog_apart in H.
  apply andb_true_iff in H as [H Hb2]. apply andb_true_iff in H as [H Hb1].
  apply is_None_true, str_index_None in Hb1, Hb2.
  assert (E : add_heading_charprs
                (catalog CHARPR_TAG CHARPR_MARKER ws 7 attrs entries) = cat')
    by (exact (charpr_append [] ws attrs entries [] H)).
  split; [exact E|]. split.
  - rewrite <- E. apply add_table_borderfill_none.
    + apply (@add_heading_charprs_keeps_absent (lit "/hh:borderFillList>"));
        [cbn [In]; auto | exact Hb2].
    + apply (@add_heading_charprs_keeps_absent (lit "hh:borderFillList"));
        [cbn [In]; auto | exact Hb1].
  - subst cat'. rewrite catalog_alone. eexists. reflexivity.
Qed.

Lemma borderfill_catalog ws attrs entries :
  catalog_apart BORDERFILL_TAG BORDERFILL_MARKER CHARPR_TAG CHARPR_MARKER
                ws 2 attrs entries = true ->
  let cat := catalog BORDERFILL_TAG BORDERFILL_MARKER ws 2 attrs entries in
  add_heading_charprs cat = cat
  /\ add_table_borderfill cat
     = catalog BORDERFILL_TAG BORDERFILL_MARKER ws (2 + 1) attrs
               (entries ++ new_borderfill_entries)
  /\ exists t, cat = 60 :: t.
Proof.
  intros H cat. unfold catalog_apart in H.
  apply andb_true_iff in H as [H Hb2]. apply andb_true_iff in H as [H Hb1].
  apply is_None_true, str_index_None in Hb1, Hb2.
  split; [now apply add_heading_charprs_none|]. split.
  - exact (borderfill_append [] ws attrs entries [] H).
  - subst cat. rewrite catalog_alone. eexists. reflexivity.
Qed.

(** The two catalog steps on a text with a catalog in it: the catalog is
    patched where it stands, and the steps go on before and after it. *)
Lemma catalog_steps_around cat cat' pre post :
  add_table_borderfill (add_heading_charprs cat) = cat' ->
  (exists t, cat = 60 :: t) ->
  (exists t, add_heading_charprs cat = 60 :: t) ->
  at_tag post = true ->
  add_table_borderfill (add_heading_charprs (pre ++ cat ++ post))
  = add_table_borderfill (add_heading_charprs pre) ++ cat'
    ++ add_table_borderfill (add_heading_charprs post).
Proof.
  intros Ecat [t Et] [t1 Et1] Hpost. apply at_tag_spec in Hpost.
  destruct (add_heading_charprs_app cat Hpost) as [E1 Hp1].
  destruct (@add_heading_charprs_app pre (cat ++ post)) as [E2 _].
  { right. rewrite Et. eexists. reflexivity. }
  rewrite E2, E1.
  destruct (add_table_borderfill_app (add_heading_charprs cat) Hp1)
    as [E3 _].
  destruct (@add_table_borderfill_app (add_heading_charprs pre)
              (add_heading_charprs cat ++ add_heading_charprs post))
    as [E4 _].
  { right. rewrite Et1. eexists. reflexivity. }
  now rewrite E4, E3, Ecat.
Qed.

(** The whole patcher on a header with a catalog of seven character
    styles: the catalog gets the four entries and the count 11 where it
    stands. *)
Lemma update_header_charprs isalnum fonts pre ws attrs entries post styles :
  isalnum 60 = false ->
  header_layout fonts
    (pre ++ catalog CHARPR_TAG CHARPR_MARKER ws 7 attrs entries ++ post)
    styles = true ->
  catalog_apart CHARPR_TAG CHARPR_MARKER BORDERFILL_TAG BORDERFILL_MARKER
                ws 7 attrs entries = true ->
  at_tag post = true ->
  update_header_xml isalnum
    (fonts
     ++ (pre ++ catalog CHARPR_TAG CHARPR_MARKER ws 7 attrs entries ++ post)
     ++ styles)
  = replace_fontfaces isalnum fonts
    ++ (add_table_borderfill (add_heading_charprs pre)
        ++ catalog CHARPR_TAG CHARPR_MARKER ws (7 + 4) attrs
                   (entries ++ new_charpr_entries)
        ++ add_table_borderfill (add_heading_charprs post))
    ++ add_heading_spacing styles.
Proof.
  intros Hlt Hlay Hcat Hpost.
  rewrite (@update_header_regions isalnum Hlt _ _ _ Hlay).
  destruct (@charprs_catalog _ _ _ Hcat) as (E1 & E2 & [t Et]).
  f_equal. f_equal.
  apply catalog_steps_around.
  - now rewrite E1.
  - rewrite catalog_alone. eexists. reflexivity.
  - rewrite E1. exists t. exact Et.
  - exact Hpost.
Qed.

(** The same with a catalog of two border fills, which gets the one entry
    and the count 3. *)
Lemma update_header_borderfill isalnum fonts pre ws attrs entries post styles :
  isalnum 60 = false ->
  header_layout fonts
    (pre ++ catalog BORDERFILL_TAG BORDERFILL_MARKER ws 2 attrs entries
     ++ post)
    styles = true ->
  catalog_apart BORDERFILL_TAG BORDERFILL_MARKER CHARPR_TAG CHARPR_MARKER
                ws 2 attrs entries = true ->
  at_tag post = true ->
  update_header_xml isalnum
    (fonts
     ++ (pre ++ catalog BORDERFILL_TAG BORDERFILL_MARKER ws 2 attrs entries
         ++ post)
     ++ styles)
  = replace_fontfaces isalnum fonts
    ++ (add_table_borderfill (add_heading_charprs pre)
        ++ catalog BORDERFILL_TAG BORDERFILL_MARKER ws (2 + 1) attrs
                   (entries ++ new_borderfill_entries)
        ++ add_table_borderfill (add_heading_charprs post))
    ++ add_heading_spacing styles.
Proof.
  intros Hlt Hlay Hcat Hpost.
  rewrite (@update_header_regions isalnum Hlt _ _ _ Hlay).
  destruct (@borderfill_catalog _ _ _ Hcat) as (E1 & E2 & [t Et]).
  f_equal. f_equal.
  apply catalog_steps_around.
  - now rewrite E1.
  - exists t. exact Et.
  - rewrite E1. exists t. exact Et.
  - exact Hpost.
Qed.

(** The miniature header through the whole patcher: both catalogs are
    patched where they stand, the font faces are replaced and the heading
    styles get their spacing. *)
Example miniature_header_patched :
  update_header_xml ascii_alnum
    (header_fonts
     ++ (header_borderfills
         ++ catalog CHARPR_TAG CHARPR_MARKER (lit " ") 7 (lit ">")
                    charpr_doc_parts
         ++ header_tabs)
     ++ header_styles)
  = replace_fontfaces ascii_alnum header_fonts
    ++ (catalog BORDERFILL_TAG BORDERFILL_MARKER (lit " ") (2 + 1) (lit ">")
                (borderfill_doc_parts ++ new_borderfill_entries)
        ++ catalog CHARPR_TAG CHARPR_MARKER (lit " ") (7 + 4) (lit ">")
                   (charpr_doc_parts ++ new_charpr_entries)
        ++ header_tabs)
    ++ lit "<hh:paraProperties itemCnt='3'>"
    ++ join (map para_pr_record [(0, 0); (2, 800); (3, 600)])
    ++ lit "</hh:paraProperties></hh:head>".
Proof.
  rewrite update_header_charprs by (vm_compute; reflexivity).
  vm_compute. reflexivity.
Qed.

(** The miniature header is laid out as the skeleton's, and each of its
    two catalogs stands apart from the other. *)
Example miniature_header_layout :
  header_layout header_fonts
    (header_borderfills
     ++ catalog CHARPR_TAG CHARPR_MARKER (lit " ") 7 (lit ">") charpr_doc_parts
     ++ header_tabs)
    header_styles = true
  /\ catalog_apart CHARPR_TAG CHARPR_MARKER BORDERFILL_TAG BORDERFILL_MARKER
                   (lit " ") 7 (lit ">") charpr_doc_parts = true
  /\ catalog_apart BORDERFILL_TAG BORDERFILL_MARKER CHARPR_TAG CHARPR_MARKER
                   (lit " ") 2 (lit ">") borderfill_doc_parts = true
  /\ at_tag header_tabs = true.
Proof. repeat split; vm_compute; reflexivity. Qed.

(** *** The style catalogs, step by step and through the patcher *)

(** C3, as the specification words it, fails: in a catalog that declares
    eight character styles the patcher appends its four entries and leaves
    the declared count at 8, where the specification has it raised to 12. *)
Lemma C3_count_of_eight_not_raised :
  add_heading_charprs charpr_doc_of_eight
  = catalog_doc CHARPR_TAG CHARPR_MARKER (lit "<hh:head>") (lit " ") 8 (lit ">")
      (map (fun k => lit "<hh:charPr id='" ++ str_of_int k ++ lit "'/>")
           [0; 1; 2; 3; 4; 5; 6; 7]
       ++ new_charpr_entries)
      (lit "</hh:head>")
  /\ pystr_eqb
       (add_heading_charprs charpr_doc_of_eight)
       (spec_catalog_patch CHARPR_TAG CHARPR_MARKER (lit "<hh:head>") (lit " ")
          8 (lit ">")
          (map (fun k => lit "<hh:charPr id='" ++ str_of_int k ++ lit "'/>")
               [0; 1; 2; 3; 4; 5; 6; 7])
          new_charpr_entries (lit "</hh:head>"))
     = false.
Proof. split; vm_compute; reflexivity. Qed.

(** A catalog that declares the 7 entries of the skeleton, but after an
    [id]: the four entries are appended and the count stays at 7. *)
Example count_after_id_not_raised :
  add_heading_charprs charpr_doc_id_first
  = open_catalog_doc CHARPR_TAG CHARPR_MARKER (lit "<hh:head>") (lit " ")
      (lit "id='c' itemCnt='7'>" ++ join charpr_doc_parts
       ++ join new_charpr_entries)
      (lit "</hh:head>").
Proof. vm_compute. reflexivity. Qed.

(** C3 (amended): what the two catalog steps of the patcher (source lines
    597-610 for the character styles, 612-620 for the border fills) do to a
    document in which the catalog is the only one of its kind.  The step
    keeps every character of the entries that were there and puts its new
    entries (four character styles, one border fill) after them, right
    before the closing tag; nothing outside the catalog changes.  The
    declared item count is raised by the number of new entries only when
    the opening tag reads the name of the catalog, white space and
    [itemCnt="7"] for the character styles (raised to 11) or [itemCnt="2"]
    for the border fills (raised to 3): the item count comes first among the
    attributes and has the value of the skeleton.  When the opening tag goes
    on otherwise after the white space, with another attribute or with
    another count, the declared item count stays as it is.  The same
    holds through the whole of [update_header_xml] on a header laid out as
    the skeleton's, the font faces first, then the catalogs, then the
    paragraph styles, for any test of letters and digits that, as
    [str.isalnum], rejects the character [<]: the catalog of seven
    character styles comes out with the four entries and the count 11, the
    catalog of two border fills with the one entry and the count 3, each
    where it stood, between what the patcher makes of the text before it
    and of the text after it. *)
Theorem C3_catalog_append :
  (forall pre ws attrs entries post,
      single_catalog CHARPR_TAG CHARPR_MARKER pre ws 7 attrs entries post
      = true ->
      add_heading_charprs
        (catalog_doc CHARPR_TAG CHARPR_MARKER pre ws 7 attrs entries post)
      = catalog_doc CHARPR_TAG CHARPR_MARKER pre ws (7 + 4) attrs
                    (entries ++ new_charpr_entries) post)
  /\ length new_charpr_entries = 4%nat
  /\ (forall pre ws attrs entries post,
         single_catalog BORDERFILL_TAG BORDERFILL_MARKER pre ws 2 attrs entries
                        post = true ->
         add_table_borderfill
           (catalog_doc BORDERFILL_TAG BORDERFILL_MARKER pre ws 2 attrs entries
                        post)
         = catalog_doc BORDERFILL_TAG BORDERFILL_MARKER pre ws (2 + 1) attrs
                       (entries ++ new_borderfill_entries) post)
  /\ length new_borderfill_entries = 1%nat
  /\ (forall pre ws body post,
         single_catalog_without CHARPR_TAG CHARPR_MARKER pre ws body post
                                (lit "7") = true ->
         add_heading_charprs
           (open_catalog_doc CHARPR_TAG CHARPR_MARKER pre ws body post)
         = open_catalog_doc CHARPR_TAG CHARPR_MARKER pre ws
             (body ++ join new_charpr_entries) post)
  /\ (forall pre ws body post,
         single_catalog_without BORDERFILL_TAG BORDERFILL_MARKER pre ws body
                                post (lit "2") = true ->
         add_table_borderfill
           (open_catalog_doc BORDERFILL_TAG BORDERFILL_MARKER pre ws body post)
         = open_catalog_doc BORDERFILL_TAG BORDERFILL_MARKER pre ws
             (body ++ join new_borderfill_entries) post)
  /\ (forall count pre ws attrs entries post,
         count <> 7 ->
         single_catalog CHARPR_TAG CHARPR_MARKER pre ws count attrs entries
                        post = true ->
         add_heading_charprs
           (catalog_doc CHARPR_TAG CHARPR_MARKER pre ws count attrs entries
                        post)
         = catalog_doc CHARPR_TAG CHARPR_MARKER pre ws count attrs
                       (entries ++ new_charpr_entries) post)
  /\ (forall count pre ws attrs entries post,
         count <> 2 ->
         single_catalog BORDERFILL_TAG BORDERFILL_MARKER pre ws count attrs
                        entries post = true ->
         add_table_borderfill
           (catalog_doc BORDERFILL_TAG BORDERFILL_MARKER pre ws count attrs
                        entries post)
         = catalog_doc BORDERFILL_TAG BORDERFILL_MARKER pre ws count attrs
                       (entries ++ new_borderfill_entries) post)
  /\ (forall isalnum fonts pre ws attrs entries post styles,
         isalnum 60 = false ->
         header_layout fonts
           (pre ++ catalog CHARPR_TAG CHARPR_MARKER ws 7 attrs entries ++ post)
           styles = true ->
         catalog_apart CHARPR_TAG CHARPR_MARKER BORDERFILL_TAG
                       BORDERFILL_MARKER ws 7 attrs entries = true ->
         at_tag post = true ->
         update_header_xml isalnum
           (fonts
            ++ (pre ++ catalog CHARPR_TAG CHARPR_MARKER ws 7 attrs entries
                ++ post)
            ++ styles)
         = replace_fontfaces isalnum fonts
           ++ (add_table_borderfill (add_heading_charprs pre)
               ++ catalog CHARPR_TAG CHARPR_MARKER ws (7 + 4) attrs
                          (entries ++ new_charpr_entries)
               ++ add_table_borderfill (add_heading_charprs post))
           ++ add_heading_spacing styles)
  /\ (forall isalnum fonts pre ws attrs entries post styles,
         isalnum 60 = false ->
         header_layout fonts
           (pre ++ catalog BORDERFILL_TAG BORDERFILL_MARKER ws 2 attrs entries
            ++ post)
           styles = true ->
         catalog_apart BORDERFILL_TAG BORDERFILL_MARKER CHARPR_TAG
                       CHARPR_MARKER ws 2 attrs entries = true ->
         at_tag post = true ->
         update_header_xml isalnum
           (fonts
            ++ (pre ++ catalog BORDERFILL_TAG BORDERFILL_MARKER ws 2 attrs
                               entries
                ++ post)
            ++ styles)
         = replace_fontfaces isalnum fonts
           ++ (add_table_borderfill (add_heading_charprs pre)
               ++ catalog BORDERFILL_TAG BORDERFILL_MARKER ws (2 + 1) attrs
                          (entries ++ new_borderfill_entries)
               ++ add_table_borderfill (add_heading_charprs post))
           ++ add_heading_spacing styles).
Proof.
  assert (Hdoc : forall tag marker pre ws count attrs entries added post,
             catalog_doc tag marker pre ws count attrs (entries ++ added) post
             = open_catalog_doc tag marker pre ws
                 ((item_count_attr (str_of_int count) ++ attrs ++ join entries)
                  ++ join added) post).
  { intros. unfold catalog_doc, open_catalog_doc, join.
    rewrite concat_app, <- !app_assoc. reflexivity. }
  assert (Hdoc0 : forall tag marker pre ws count attrs entries post,
             catalog_doc tag marker pre ws count attrs entries post
             = open_catalog_doc tag marker pre ws
                 (item_count_attr (str_of_int count) ++ attrs ++ join entries)
                 post).
  { intros. unfold catalog_doc, open_catalog_doc.
    rewrite <- !app_assoc. reflexivity. }
  split; [|split; [reflexivity|split; [|split; [reflexivity|]]]].
  - intros pre ws attrs entries post H.
    exact (charpr_append pre ws attrs entries post H).
  - intros pre ws attrs entries post H.
    exact (borderfill_append pre ws attrs entries post H).
  - split; [exact charpr_kept|]. split; [exact borderfill_kept|].
    split; [|split; [|split]].
    + intros count pre ws attrs entries post Hne H.
      rewrite Hdoc, Hdoc0. apply charpr_kept.
      exact (@single_catalog_other _ _ _ _ _ _ _ _ 7 Hne H).
    + intros count pre ws attrs entries post Hne H.
      rewrite Hdoc, Hdoc0. apply borderfill_kept.
      exact (@single_catalog_other _ _ _ _ _ _ _ _ 2 Hne H).
    + intros. now apply update_header_charprs.
    + intros. now apply update_header_borderfill.
Qed.

Lemma C3_catalog_append_witness :
  (single_catalog CHARPR_TAG CHARPR_MARKER (lit "<hh:head>") (lit " ") 7
                  (lit ">") charpr_doc_parts (lit "</hh:head>") = true
   /\ add_heading_charprs
        (catalog_doc CHARPR_TAG CHARPR_MARKER (lit "<hh:head>") (lit " ") 7
                     (lit ">") charpr_doc_parts (lit "</hh:head>"))
      = catalog_doc CHARPR_TAG CHARPR_MARKER (lit "<hh:head>") (lit " ")
                    (7 + 4) (lit ">") (charpr_doc_parts ++ new_charpr_entries)
                    (lit "</hh:head>"))
  /\ (single_catalog BORDERFILL_TAG BORDERFILL_MARKER (lit "<hh:head>")
                     (lit " ") 2 (lit ">") borderfill_doc_parts
                     (lit "</hh:head>") = true
      /\ add_table_borderfill
           (catalog_doc BORDERFILL_TAG BORDERFILL_MARKER (lit "<hh:head>")
                        (lit " ") 2 (lit ">") borderfill_doc_parts
                        (lit "</hh:head>"))
         = catalog_doc BORDERFILL_TAG BORDERFILL_MARKER (lit "<hh:head>")
                       (lit " ") (2 + 1) (lit ">")
                       (borderfill_doc_parts ++ new_borderfill_entries)
                       (lit "</hh:head>")).
Proof.
  split; (split; [vm_compute; reflexivity|]).
  - refine (proj1 C3_catalog_append (lit "<hh:head>") (lit " ") (lit ">")
                  charpr_doc_parts (lit "</hh:head>") _).
    vm_compute. reflexivity.
  - refine (proj1 (proj2 (proj2 C3_catalog_append)) (lit "<hh:head>") (lit " ")
                  (lit ">") borderfill_doc_parts (lit "</hh:head>") _).
    vm_compute. reflexivity.
Defined.
